(** * gensudoku: a Sudoku generator built on a dancing-links exact-cover solver

    Shallow embedding of [util.c], [solver.c] and [sudoku.c].

    - C arrays of nodes ([calloc]ed arenas) are finite maps from the array
      index to the element; a pointer [&nodes[i]] is the index [i], [NULL]
      is the index [-1], which no allocation contains.  Dereferencing a
      pointer outside the arena is the fault [OutOfBounds].
    - [assert] is kept: a failed assertion is the fault [AssertFail].
    - [while] loops and the recursion of [search] take fuel; running out of
      it is the distinct outcome [OutOfFuel].
    - [rand()] is an oracle: an arbitrary stream of non-negative draws that
      is consumed in program order.
    - [size_t] arithmetic that can wrap is written with [sz]. *)

From Stdlib Require Import ZArith Lia List Bool String.
From stdpp Require Import base tactics option list gmap.

Local Open Scope Z_scope.

(** ** Outcomes of a C computation *)

Inductive err : Set := OutOfBounds | AssertFail | OutOfFuel.

Inductive res (A : Type) : Type :=
| Ok (a : A)
| Err (e : err).
Arguments Ok {A} a.
Arguments Err {A} e.

Definition rbind {A B} (f : A → res B) (m : res A) : res B :=
  match m with
  | Ok a => f a
  | Err e => Err e
  end.

#[global] Instance res_bind : MBind res := @rbind.
#[global] Instance res_ret : MRet res := @Ok.

Definition c_assert (b : bool) : res unit :=
  if b then Ok tt else Err AssertFail.

(** [size_t] is 64 bits wide: values in range are kept, the others wrap. *)
Definition size_modulus : Z := Eval cbv in 2 ^ 64.
Definition sz (z : Z) : Z :=
  if (0 <=? z) && (z <? size_modulus) then z else z mod size_modulus.

(** A counted loop [for (i = lo; i < hi; i++) body]. *)
Fixpoint for_loop {St : Type} (n : nat) (i : Z) (body : Z → St → res St) (s : St)
  : res St :=
  match n with
  | O => Ok s
  | S n' => s' ← body i s; for_loop n' (i + 1) body s'
  end.

Definition for_range {St : Type} (lo hi : Z) (body : Z → St → res St) (s : St)
  : res St :=
  for_loop (Z.to_nat (hi - lo)) lo body s.

(** ** util.c *)

Module Util.

(** The state of the C library generator: the stream of values that
    successive calls of [rand()] return, and how many were drawn. *)
Record rng : Type := mk_rng { draws : nat → N; drawn : nat }.

Definition rand (r : rng) : Z * rng :=
  (Z.of_N (draws r (drawn r)), mk_rng (draws r) (S (drawn r))).

(** Arrays of [int] as lists, indexed by a C [int]. *)
Definition aget (a : list Z) (i : Z) : Z := default 0 (a !! Z.to_nat i).
Definition aset (a : list Z) (i : Z) (v : Z) : list Z := <[Z.to_nat i := v]> a.

(** The loop of [shuffle], counting [i] down from [n-1] to [1];
    [m] is the number of iterations left, so [i = m]. *)
Fixpoint shuffle_loop (m : nat) (a : list Z) (r : rng) : list Z * rng :=
  match m with
  | O => (a, r)
  | S m' =>
      let i := Z.of_nat m in
      let '(x, r') := rand r in
      let j := Z.rem x (i + 1) in
      let tmp := aget a i in
      let a1 := aset a i (aget a j) in
      let a2 := aset a1 j tmp in
      shuffle_loop m' a2 r'
  end.

Definition shuffle (a : list Z) (n : Z) (r : rng) : list Z * rng :=
  shuffle_loop (Z.to_nat (n - 1)) a r.

End Util.

(** ** solver.c *)

Module Solver.
Import Util.

Inductive dlx_mode : Set := DLX_RANDOM | DLX_UNIQUE.

Definition dlx_mode_eqb (a b : dlx_mode) : bool :=
  match a, b with
  | DLX_RANDOM, DLX_RANDOM | DLX_UNIQUE, DLX_UNIQUE => true
  | _, _ => false
  end.

Abbreviation ptr := Z.
Definition NULL : ptr := -1.

Record node : Set := mk_node {
  left : ptr; right : ptr; up : ptr; down : ptr;
  column : ptr;
  count : Z;
  rownum : Z
}.

(** A [calloc]ed node. *)
Definition node0 : node := mk_node NULL NULL NULL NULL NULL 0 0.

Definition set_left (v : ptr) (n : node) : node :=
  mk_node v (right n) (up n) (down n) (column n) (count n) (rownum n).
Definition set_right (v : ptr) (n : node) : node :=
  mk_node (left n) v (up n) (down n) (column n) (count n) (rownum n).
Definition set_up (v : ptr) (n : node) : node :=
  mk_node (left n) (right n) v (down n) (column n) (count n) (rownum n).
Definition set_down (v : ptr) (n : node) : node :=
  mk_node (left n) (right n) (up n) v (column n) (count n) (rownum n).
Definition set_column (v : ptr) (n : node) : node :=
  mk_node (left n) (right n) (up n) (down n) v (count n) (rownum n).
Definition set_count (v : Z) (n : node) : node :=
  mk_node (left n) (right n) (up n) (down n) (column n) v (rownum n).
Definition set_rownum (v : Z) (n : node) : node :=
  mk_node (left n) (right n) (up n) (down n) (column n) (count n) v.

(** The node arena [s->nodes]. *)
Abbreviation arena := (gmap Z node).

(** [p->field] *)
Definition rd (g : arena) (p : ptr) : res node :=
  match g !! p with
  | Some n => Ok n
  | None => Err OutOfBounds
  end.

(** [p->field = v], as an update [f] of the node at [p] *)
Definition upd (g : arena) (p : ptr) (f : node → node) : res arena :=
  match g !! p with
  | Some n => Ok (<[p := f n]> g)
  | None => Err OutOfBounds
  end.

Record solver : Type := mk_solver {
  root : ptr;
  nodes : arena;
  solution : list Z;
  solution_count : Z;
  solution_size : Z;
  mode : dlx_mode;
  nrows : Z;
  ncols : Z
}.

Definition with_nodes (g : arena) (s : solver) : solver :=
  mk_solver (root s) g (solution s) (solution_count s) (solution_size s)
            (mode s) (nrows s) (ncols s).
Definition with_root (p : ptr) (s : solver) : solver :=
  mk_solver p (nodes s) (solution s) (solution_count s) (solution_size s)
            (mode s) (nrows s) (ncols s).
Definition with_solution (b : list Z) (s : solver) : solver :=
  mk_solver (root s) (nodes s) b (solution_count s) (solution_size s)
            (mode s) (nrows s) (ncols s).
Definition with_solution_count (c : Z) (s : solver) : solver :=
  mk_solver (root s) (nodes s) (solution s) c (solution_size s)
            (mode s) (nrows s) (ncols s).

(** [calloc(n, sizeof(node))] *)
Definition calloc_nodes (n : Z) : arena :=
  list_to_map ((λ i, (i, node0)) <$> seqZ 0 n).

Definition solver_create (inuse ncols nrows : Z) : solver :=
  let needed := sz (inuse + ncols + 1) in
  mk_solver NULL (calloc_nodes needed) [] 0 0 DLX_RANDOM nrows ncols.

(** The matrix [bool *cells] and the scratch array [node **used], by index;
    a [calloc]ed slot that was never written reads as [false] / [NULL]. *)
Definition cell (cells : gmap Z bool) (i : Z) : bool := default false (cells !! i).
Definition used_at (used : gmap Z ptr) (i : Z) : ptr := default NULL (used !! i).

Section init_graph.
Variable cells : gmap Z bool.
Variables nc nr : Z.

(** State of the column pass: arena, [nodes_used], [used], [current]. *)
Definition col_cell (col row : Z) (st : arena * Z * gmap Z ptr * ptr)
  : res (arena * Z * gmap Z ptr * ptr) :=
  let '(g, nodes_used, used, current) := st in
  if cell cells (sz (row * nc + col)) then
    let n := nodes_used in
    g ← upd g current (set_down n);
    g ← upd g n (set_up current);
    g ← upd g n (set_column col);
    g ← upd g col (λ h, set_count (sz (count h + 1)) h);
    g ← upd g n (set_rownum row);
    Ok (g, nodes_used + 1, <[sz (row * nc + col) := n]> used, n)
  else Ok st.

Definition col_pass (col : Z) (st : arena * Z * gmap Z ptr)
  : res (arena * Z * gmap Z ptr) :=
  let '(g, nodes_used, used) := st in
  '(g, nodes_used, used, current) ←
     for_range 0 nr (col_cell col) (g, nodes_used, used, col);
  g ← upd g current (set_down col);
  g ← upd g col (set_up current);
  Ok (g, nodes_used, used).

(** State of the row pass: arena, [current], [first]. *)
Definition row_cell (used : gmap Z ptr) (row col : Z) (st : arena * ptr * ptr)
  : res (arena * ptr * ptr) :=
  let '(g, current, first) := st in
  let n := used_at used (sz (row * nc + col)) in
  if negb (n =? NULL) then
    if first =? NULL then Ok (g, n, n)
    else
      g ← upd g current (set_right n);
      g ← upd g n (set_left current);
      Ok (g, n, first)
  else Ok st.

Definition row_pass (used : gmap Z ptr) (row : Z) (g : arena) : res arena :=
  '(g, current, first) ← for_range 0 nc (row_cell used row) (g, NULL, NULL);
  if negb (first =? NULL) then
    g ← upd g current (set_right first);
    upd g first (set_left current)
  else Ok g.

Definition drop_empty (col : Z) (g : arena) : res arena :=
  h ← rd g col;
  if count h =? 0 then
    g ← upd g (left h) (set_right (right h));
    h ← rd g col;
    upd g (right h) (set_left (left h))
  else Ok g.

Definition link_header (col : Z) (g : arena) : res arena :=
  g ← upd g col (set_left (col - 1));
  upd g col (set_right (col + 1)).

End init_graph.

Definition solver_init_graph (s : solver) (cells : gmap Z bool) (strict : bool)
  : res solver :=
  let nc := ncols s in
  let nr := nrows s in
  let g := nodes s in
  let nodes_used := nc in
  g ← for_range 1 (sz (nc - 1)) link_header g;
  let rt := nodes_used in
  let nodes_used := nodes_used + 1 in
  g ← upd g rt (set_right 0);
  g ← upd g 0 (set_left rt);
  g ← upd g 0 (set_right 1);
  g ← upd g (sz (nc - 1)) (set_left (sz (nc - 2)));
  g ← upd g (sz (nc - 1)) (set_right rt);
  g ← upd g rt (set_left (sz (nc - 1)));
  '(g, nodes_used, used) ← for_range 0 nc (col_pass cells nc nr) (g, nodes_used, ∅);
  g ← for_range 0 nr (row_pass nc used) g;
  g ← (if negb strict then for_range 0 nc drop_empty g else Ok g);
  Ok (with_root rt (with_nodes g s)).

(** *** cover and uncover *)

(** One step of the inner loop of [cover]: unlink [n] from its column. *)
Definition unlink (n : ptr) (g : arena) : res arena :=
  x ← rd g n;
  g ← upd g (up x) (set_down (down x));
  x ← rd g n;
  g ← upd g (down x) (set_up (up x));
  x ← rd g n;
  upd g (column x) (λ h, set_count (sz (count h - 1)) h).

(** One step of the inner loop of [uncover]: link [n] back. *)
Definition relink (n : ptr) (g : arena) : res arena :=
  x ← rd g n;
  g ← upd g (up x) (set_down n);
  x ← rd g n;
  g ← upd g (down x) (set_up n);
  x ← rd g n;
  upd g (column x) (λ h, set_count (sz (count h + 1)) h).

(** [while (n != row) { unlink n; n = n->right; }] *)
Fixpoint cover_row (fuel : nat) (row n : ptr) (g : arena) : res arena :=
  match fuel with
  | O => Err OutOfFuel
  | S f =>
      if n =? row then Ok g
      else
        g ← unlink n g;
        x ← rd g n;
        cover_row f row (right x) g
  end.

(** [while (row != column) { n = row->right; ...; row = row->down; }] *)
Fixpoint cover_rows (lfuel fuel : nat) (col row : ptr) (g : arena) : res arena :=
  match fuel with
  | O => Err OutOfFuel
  | S f =>
      if row =? col then Ok g
      else
        x ← rd g row;
        g ← cover_row lfuel row (right x) g;
        x ← rd g row;
        cover_rows lfuel f col (down x) g
  end.

Definition cover (fuel : nat) (col : ptr) (g : arena) : res arena :=
  c ← rd g col;
  g ← upd g (left c) (set_right (right c));
  c ← rd g col;
  g ← upd g (right c) (set_left (left c));
  c ← rd g col;
  cover_rows fuel fuel col (down c) g.

Fixpoint uncover_row (fuel : nat) (row n : ptr) (g : arena) : res arena :=
  match fuel with
  | O => Err OutOfFuel
  | S f =>
      if n =? row then Ok g
      else
        g ← relink n g;
        x ← rd g n;
        uncover_row f row (left x) g
  end.

Fixpoint uncover_rows (lfuel fuel : nat) (col row : ptr) (g : arena) : res arena :=
  match fuel with
  | O => Err OutOfFuel
  | S f =>
      if row =? col then Ok g
      else
        x ← rd g row;
        g ← uncover_row lfuel row (left x) g;
        x ← rd g row;
        uncover_rows lfuel f col (up x) g
  end.

Definition uncover (fuel : nat) (col : ptr) (g : arena) : res arena :=
  c ← rd g col;
  g ← uncover_rows fuel fuel col (up c) g;
  c ← rd g col;
  g ← upd g (left c) (set_right col);
  c ← rd g col;
  upd g (right c) (set_left col).

(** *** search *)

(** The column-selection loop of [search]. *)
Fixpoint choose_column (fuel : nat) (g : arena) (rt : ptr) (col : ptr) (min : Z)
    (c : ptr) : res ptr :=
  match fuel with
  | O => Err OutOfFuel
  | S f =>
      if c =? rt then Ok col
      else
        x ← rd g c;
        if count x <? min then choose_column f g rt c (count x) (right x)
        else choose_column f g rt col min (right x)
  end.

(** Filling the variable-length array [rows[count]] from the column's list. *)
Fixpoint collect_rows (fuel : nat) (g : arena) (col : ptr) (n : Z) (i : Z)
    (row : ptr) : res (list ptr) :=
  match fuel with
  | O => Err OutOfFuel
  | S f =>
      if row =? col then Ok []
      else
        if n <=? i then Err OutOfBounds
        else
          x ← rd g row;
          rest ← collect_rows f g col n (i + 1) (down x);
          Ok (row :: rest)
  end.

(** [c = row->right; while (c != row) { cover(c->column); c = c->right; }] *)
Fixpoint cover_others (fuel : nat) (lfuel : nat) (row c : ptr) (g : arena)
  : res arena :=
  match fuel with
  | O => Err OutOfFuel
  | S f =>
      if c =? row then Ok g
      else
        x ← rd g c;
        g ← cover lfuel (column x) g;
        x ← rd g c;
        cover_others f lfuel row (right x) g
  end.

(** [c = row->left; while (c != row) { uncover(c->column); c = c->left; }] *)
Fixpoint uncover_others (fuel : nat) (lfuel : nat) (row c : ptr) (g : arena)
  : res arena :=
  match fuel with
  | O => Err OutOfFuel
  | S f =>
      if c =? row then Ok g
      else
        x ← rd g c;
        g ← uncover lfuel (column x) g;
        x ← rd g c;
        uncover_others f lfuel row (left x) g
  end.

(** [s->solution[k] = v] *)
Definition store_solution (s : solver) (k v : Z) : res solver :=
  if (0 <=? k) && (k <? Z.of_nat (length (solution s))) then
    Ok (with_solution (aset (solution s) k v) s)
  else Err OutOfBounds.

Section search_body.
(** The recursive call [search(s, k+1)]. *)
Variable rec : solver → Z → rng → res (bool * solver * rng).
Variable lfuel : nat.

(** [for (i = 0; i < count; i++) { row = rows[i]; ... }] over the rows
    still to try. *)
Fixpoint try_rows (rows : list ptr) (s : solver) (k : Z) (r : rng)
  : res (bool * solver * rng) :=
  match rows with
  | [] => Ok (false, s, r)
  | row :: rest =>
      x ← rd (nodes s) row;
      s ← store_solution s k (rownum x);
      x ← rd (nodes s) row;
      g ← cover_others lfuel lfuel row (right x) (nodes s);
      '(found, s, r) ← rec (with_nodes g s) (k + 1) r;
      if found : bool then Ok (true, s, r)
      else
        x ← rd (nodes s) row;
        g ← uncover_others lfuel lfuel row (left x) (nodes s);
        try_rows rest (with_nodes g s) k r
  end.
End search_body.

Fixpoint search (fuel : nat) (lfuel : nat) (s : solver) (k : Z) (r : rng)
  : res (bool * solver * rng) :=
  match fuel with
  | O => Err OutOfFuel
  | S f =>
      _ ← c_assert ((0 <=? k) && (k <? solution_size s));
      rt ← rd (nodes s) (root s);
      if right rt =? root s then
        let s := with_solution_count (sz (solution_count s + 1)) s in
        Ok (dlx_mode_eqb (mode s) DLX_RANDOM
            || (dlx_mode_eqb (mode s) DLX_UNIQUE && (1 <? solution_count s)),
            s, r)
      else
        let col0 := right rt in
        c0 ← rd (nodes s) col0;
        col ← choose_column lfuel (nodes s) (root s) col0 (count c0) (right c0);
        g ← cover lfuel col (nodes s);
        let s := with_nodes g s in
        c ← rd (nodes s) col;
        let cnt := count c in
        '(found, s, r) ←
          (if 0 <? cnt then
             rows ← collect_rows lfuel (nodes s) col cnt 0 (down c);
             let rows := rows ++ replicate (Z.to_nat cnt - length rows) NULL in
             let '(rows, r) :=
               match mode s with
               | DLX_RANDOM => shuffle rows cnt r
               | DLX_UNIQUE => (rows, r)
               end in
             try_rows (search f lfuel) lfuel rows s k r
           else Ok (false, s, r));
        if found : bool then Ok (true, s, r)
        else
          g ← uncover lfuel col (nodes s);
          Ok (false, with_nodes g s, r)
  end.

(** [for (i = 0; i < size; i++) s->solution[i] = -1;] *)
Definition clear_solution (buf : list Z) (size : Z) : res (list Z) :=
  for_range 0 size
    (λ i b, if i <? Z.of_nat (length b) then Ok (aset b i (-1))
            else Err OutOfBounds) buf.

Definition solver_run (fuel : nat) (s : solver) (search_mode : dlx_mode)
    (buf : list Z) (size : Z) (r : rng) : res (bool * solver * rng) :=
  buf ← clear_solution buf size;
  let s := mk_solver (root s) (nodes s) buf 0 size search_mode (nrows s) (ncols s) in
  '(found, s, r) ← search fuel fuel s 0 r;
  match mode s with
  | DLX_RANDOM => Ok (found, s, r)
  | DLX_UNIQUE => Ok (solution_count s =? 1, s, r)
  end.

End Solver.

(** ** sudoku.c *)

Module Sudoku.
Import Util Solver.

Definition SUDOKU_SIZE : Z := 9.
Definition GRID_SIZE : Z := SUDOKU_SIZE * SUDOKU_SIZE.

(** [typedef struct { sudoku_value grid[GRID_SIZE]; } sudoku;] *)
Abbreviation sudoku := (list Z).

Definition GRID_IDX (x y : Z) : Z := y * SUDOKU_SIZE + x.
Definition GRID_X (idx : Z) : Z := Z.rem idx SUDOKU_SIZE.
Definition GRID_Y (idx : Z) : Z := Z.quot idx SUDOKU_SIZE.
Definition SEC_IDX (x y : Z) : Z := Z.quot y 3 * 3 + Z.quot x 3.

Definition DLX_MAX_ROWS : Z := GRID_SIZE * SUDOKU_SIZE.
Definition DLX_MAX_COLS : Z := 4 * GRID_SIZE.

Definition DLX_ROW (v x y : Z) : Z := GRID_SIZE * y + SUDOKU_SIZE * x + v.
Definition DLX_COL1 (v x y : Z) : Z := SUDOKU_SIZE * y + x.
Definition DLX_COL2 (v x y : Z) : Z := GRID_SIZE + SUDOKU_SIZE * y + v.
Definition DLX_COL3 (v x y : Z) : Z := 2 * GRID_SIZE + SUDOKU_SIZE * x + v.
Definition DLX_COL4 (v x y : Z) : Z :=
  3 * GRID_SIZE + SUDOKU_SIZE * SEC_IDX x y + v.
Definition DLX_CELL_IDX (r c : Z) : Z := r * DLX_MAX_COLS + c.

Definition DLX_X (r : Z) : Z := Z.rem (Z.quot r 9) 9.
Definition DLX_Y (r : Z) : Z := Z.quot (Z.quot r 9) 9.
Definition DLX_V (r : Z) : Z := Z.rem r 9 + 1.

(** [for (int i = 0; i < n; i++) acc = body(i, acc);] for loop bodies
    that cannot fault. *)
Definition loop {St : Type} (n : Z) (body : Z → St → St) (s : St) : St :=
  foldl (λ acc i, body i acc) s (seqZ 0 n).

Definition get_section_idxs (sec_idx : Z) : list Z :=
  (λ i, let sx := Z.rem sec_idx 3 * 3 + Z.rem i 3 in
        let sy := Z.quot sec_idx 3 * 3 + Z.quot i 3 in
        GRID_IDX sx sy) <$> seqZ 0 SUDOKU_SIZE.

(** [get_masks]: the three arrays [rows], [cols], [secs]. *)
Definition get_masks (s : sudoku) : list Z * list Z * list Z :=
  loop SUDOKU_SIZE
    (λ i '(rows, cols, secs),
       let sec_idxs := get_section_idxs i in
       loop SUDOKU_SIZE
         (λ j '(rows, cols, secs),
            (aset rows i (Z.lor (aget rows i) (Z.shiftl 1 (aget s (GRID_IDX j i)))),
             aset cols i (Z.lor (aget cols i) (Z.shiftl 1 (aget s (GRID_IDX i j)))),
             aset secs i (Z.lor (aget secs i) (Z.shiftl 1 (aget s (aget sec_idxs j))))))
         (aset rows i 0, aset cols i 0, aset secs i 0))
    (replicate 9 0, replicate 9 0, replicate 9 0).

(** [get_dlx_cells]: the matrix, [*count], [*ncols], [*nrows]. *)
Definition get_dlx_cells (s : sudoku) : gmap Z bool * Z * Z * Z :=
  let '(row_masks, col_masks, sec_masks) := get_masks s in
  let '(cells, count) :=
    loop SUDOKU_SIZE
      (λ x acc,
         loop SUDOKU_SIZE
           (λ y acc,
              if aget s (GRID_IDX x y) =? 0 then
                let sec := SEC_IDX x y in
                let net_mask :=
                  Z.lor (Z.lor (aget row_masks y) (aget col_masks x))
                        (aget sec_masks sec) in
                loop 9
                  (λ v '(cells, count),
                     if Z.land net_mask (Z.shiftl 1 (v + 1)) =? 0 then
                       let row := DLX_ROW v x y in
                       let cells := <[DLX_CELL_IDX row (DLX_COL1 v x y) := true]> cells in
                       let cells := <[DLX_CELL_IDX row (DLX_COL2 v x y) := true]> cells in
                       let cells := <[DLX_CELL_IDX row (DLX_COL3 v x y) := true]> cells in
                       let cells := <[DLX_CELL_IDX row (DLX_COL4 v x y) := true]> cells in
                       (cells, count + 4)
                     else (cells, count))
                  acc
              else acc)
           acc)
      (∅, 0) in
  (cells, count, DLX_MAX_COLS, DLX_MAX_ROWS).

Definition fill_solution (s : sudoku) (set : list Z) (n : Z) : sudoku :=
  loop n
    (λ i s,
       let r := aget set i in
       if negb (r =? -1) then aset s (GRID_IDX (DLX_X r) (DLX_Y r)) (DLX_V r)
       else s)
    s.

Definition sudoku_solve (fuel : nat) (s : sudoku) (r : rng)
  : res (bool * sudoku * rng) :=
  let '(cells, count, ncols, nrows) := get_dlx_cells s in
  let slvr := solver_create count ncols nrows in
  let set := replicate (Z.to_nat GRID_SIZE) 0 in
  slvr ← solver_init_graph slvr cells false;
  '(solved, slvr, r) ← solver_run fuel slvr DLX_RANDOM set GRID_SIZE r;
  Ok (solved, if solved : bool then fill_solution s (solution slvr) GRID_SIZE else s, r).

Definition init_shuffled_array (n : Z) (start : Z) (r : rng) : list Z * rng :=
  shuffle ((λ i, i + start) <$> seqZ 0 n) n r.

Definition seed (r : rng) : sudoku * rng :=
  let '(numbers, r) := init_shuffled_array SUDOKU_SIZE 1 r in
  let s := replicate (Z.to_nat GRID_SIZE) 0 in
  (loop SUDOKU_SIZE (λ i s, aset s (GRID_IDX i 0) (aget numbers i)) s, r).

Definition remove_deduced_hints (s : sudoku) (order : list Z) (n : Z) : sudoku :=
  let all_on := Z.shiftl 1 (SUDOKU_SIZE + 1) - 2 in
  let masks0 := replicate (Z.to_nat SUDOKU_SIZE) all_on in
  let '(s, _, _, _) :=
    loop n
      (λ i '(s, row_masks, col_masks, sec_masks),
         let x := GRID_X (aget order i) in
         let y := GRID_Y (aget order i) in
         let sec := SEC_IDX x y in
         let used :=
           Z.lor (Z.lor (aget row_masks y) (aget col_masks x)) (aget sec_masks sec) in
         if used =? all_on then
           let remove := Z.lnot (Z.shiftl 1 (aget s (GRID_IDX x y))) in
           (aset s (GRID_IDX x y) 0,
            aset row_masks y (Z.land (aget row_masks y) remove),
            aset col_masks x (Z.land (aget col_masks x) remove),
            aset sec_masks sec (Z.land (aget sec_masks sec) remove))
         else (s, row_masks, col_masks, sec_masks))
      (s, masks0, masks0, masks0) in
  s.

(** One iteration of the loop of [remove_non_unique_hints]. *)
Definition check_hint (fuel : nat) (order : list Z) (i : Z) (st : sudoku * rng)
  : res (sudoku * rng) :=
  let '(s, r) := st in
  let x := GRID_X (aget order i) in
  let y := GRID_Y (aget order i) in
  let v := aget s (GRID_IDX x y) in
  if negb (v =? 0) then
    let s := aset s (GRID_IDX x y) 0 in
    let '(cells, count, ncols, nrows) := get_dlx_cells s in
    let checker := solver_create count ncols nrows in
    checker ← solver_init_graph checker cells false;
    '(is_unique, _, r) ←
       solver_run fuel checker DLX_UNIQUE (replicate (Z.to_nat GRID_SIZE) 0) GRID_SIZE r;
    Ok (if negb is_unique then aset s (GRID_IDX x y) v else s, r)
  else Ok st.

Definition remove_non_unique_hints (fuel : nat) (s : sudoku) (order : list Z)
    (n : Z) (r : rng) : res (sudoku * rng) :=
  for_range 0 n (check_hint fuel order) (s, r).

Definition add_extra_hints (s solution : sudoku) (num : Z) (r : rng)
  : sudoku * rng :=
  if num <=? 0 then (s, r)
  else
    let '(hints, num_choices) :=
      loop GRID_SIZE
        (λ i '(hints, num_choices),
           if aget s i =? 0 then (aset hints num_choices i, num_choices + 1)
           else (hints, num_choices))
        (replicate (Z.to_nat GRID_SIZE) 0, 0) in
    let '(hints, r) := shuffle hints num_choices r in
    let num := if num_choices <? num then num_choices else num in
    (loop num (λ i s, aset s (aget hints i) (aget solution (aget hints i))) s, r).

(** What a call of [sudoku_generate] leaves behind: the two grids it was
    given pointers to, the generator state and the diagnostic stream.  The
    function is [void]: there is no returned value. *)
Record generated : Type := mk_generated {
  puzzle : sudoku;
  reference : sudoku;
  gen_rng : rng;
  diagnostics : list string
}.

(** The body of [sudoku_generate] from the test of [sudoku_solve]'s result
    on; [s] is the grid after [seed] and [sudoku_solve]. *)
Definition generate_from_solved (fuel : nat) (solved : bool)
    (s solution : sudoku) (extra_hints : Z) (r : rng) (log : list string)
  : res generated :=
  if negb solved then
    Ok (mk_generated s solution r (log ++ ["could not generate sudoku puzzle"%string]))
  else
    let solution := s in
    let '(hints, r) := init_shuffled_array GRID_SIZE 0 r in
    let s := remove_deduced_hints s hints GRID_SIZE in
    '(s, r) ← remove_non_unique_hints fuel s hints GRID_SIZE r;
    let '(s, r) := add_extra_hints s solution extra_hints r in
    Ok (mk_generated s solution r log).

Definition sudoku_generate (fuel : nat) (s solution : sudoku) (extra_hints : Z)
    (r : rng) (log : list string) : res generated :=
  let '(s, r) := seed r in
  '(solved, s, r) ← sudoku_solve fuel s r;
  generate_from_solved fuel solved s solution extra_hints r log.

End Sudoku.

(** ** Sample inputs *)

Module Examples.
Import Util Solver Sudoku.

(** A matrix given by the list of its rows, each the list of its columns. *)
Definition cells_of_rows (nc : Z) (rows : list (list Z)) : gmap Z bool :=
  list_to_map
    (concat (imap (λ r cs, (λ c, (Z.of_nat r * nc + c, true)) <$> cs) rows)).

Definition constant_rng (v : N) : rng := mk_rng (λ _, v) 0.

(** Build the graph of a matrix and run the solver on it; the result keeps
    the returned flag, the solution buffer and the solution counter. *)
Definition run_matrix (fuel : nat) (inuse nc nr : Z) (rows : list (list Z))
    (strict : bool) (md : dlx_mode) (size : Z) (r : rng)
  : res (bool * list Z * Z) :=
  s ← solver_init_graph (solver_create inuse nc nr) (cells_of_rows nc rows) strict;
  '(b, s, _) ← solver_run fuel s md (replicate (Z.to_nat size) 0) size r;
  Ok (b, solution s, solution_count s).

Definition empty_grid : sudoku := replicate 81 0.

(** Row 0 holds 1,2,3,4,_,_,6,7,8 and a 9 stands below each of the two
    empty cells: both can only take 5. *)
Definition stuck_grid : sudoku :=
  [1;2;3;4;0;0;6;7;8] ++ replicate 27 0 ++ [0;0;0;0;9;0;0;0;0]
  ++ replicate 18 0 ++ [0;0;0;0;0;9;0;0;0] ++ replicate 9 0.

Definition solved_grid : sudoku :=
  [5; 7; 6; 8; 2; 1; 9; 3; 4; 2; 3; 4; 7; 9; 5; 6; 8; 1; 8; 9; 1; 6;
   3; 4; 7; 2; 5; 3; 6; 5; 2; 7; 9; 4; 1; 8; 7; 8; 2; 4; 1; 3; 5; 9;
   6; 4; 1; 9; 5; 8; 6; 2; 7; 3; 9; 4; 8; 1; 5; 2; 3; 6; 7; 1; 5; 3;
   9; 6; 7; 8; 4; 2; 6; 2; 7; 3; 4; 8; 1; 5; 9].

(** A small matrix: R0 = {C0}, R1 = {C0..C3}, R2 = {C1,C2}, R3 = {C1,C3};
    its graph, and the graph once column 0 is covered. *)
Definition small_rows : list (list Z) := [[0]; [0; 1; 2; 3]; [1; 2]; [1; 3]].

Definition small_solver : solver :=
  match solver_init_graph (solver_create 9 4 4) (cells_of_rows 4 small_rows) true with
  | Ok s => s
  | Err _ => solver_create 0 0 0
  end.

Definition small_covered : arena :=
  match cover 20 0 (nodes small_solver) with
  | Ok g => g
  | Err _ => ∅
  end.

(** Two matrices with two columns: one row with a 1 in column 0 only, and
    the rows of the identity. *)
Definition single_rows : list (list Z) := [[0]].
Definition diagonal_rows : list (list Z) := [[0]; [1]].

(** Three columns and the rows R0 = {C0}, R1 = {C1,C2}, R2 = {C0,C1},
    R3 = {C2}: the exact covers are {R0,R1} and {R2,R3}. *)
Definition toy_rows : list (list Z) := [[0]; [1; 2]; [0; 1]; [2]].

Definition toy_solver : solver :=
  match solver_init_graph (solver_create 6 3 4) (cells_of_rows 3 toy_rows) true with
  | Ok s => s
  | Err _ => solver_create 0 0 0
  end.

End Examples.

(** ** Specification vocabulary *)

Module Spec.
Import Util Solver Sudoku.

(** The indices of the empty cells of a grid, in increasing order. *)
Definition empty_cells (s : sudoku) : list Z :=
  filter (λ i, aget s i = 0) (seqZ 0 GRID_SIZE).

Definition collect_step (s : sudoku) (i : Z) (st : list Z * Z) : list Z * Z :=
  let '(hints, num_choices) := st in
  if aget s i =? 0 then (aset hints num_choices i, num_choices + 1)
  else (hints, num_choices).

(** Every non-empty cell of [s] holds the value the snapshot has there. *)
Definition agrees (s solution : sudoku) : Prop :=
  ∀ (k : nat) (v : Z), s !! k = Some v → v ≠ 0 → solution !! k = Some v.

End Spec.

(** ** The link structure of the arena, as the proofs see it *)

Module Dlx.
Import Util Solver.

(** Fields of the node at an index ([node0] outside the arena). *)
Definition nd (g : arena) (p : Z) : node := default node0 (g !! p).
Definition fL (g : arena) (p : Z) : Z := left (nd g p).
Definition fR (g : arena) (p : Z) : Z := right (nd g p).
Definition fU (g : arena) (p : Z) : Z := up (nd g p).
Definition fD (g : arena) (p : Z) : Z := down (nd g p).
Definition fC (g : arena) (p : Z) : Z := column (nd g p).
Definition fcount (g : arena) (p : Z) : Z := count (nd g p).
Definition frow (g : arena) (p : Z) : Z := rownum (nd g p).

(** [seg f n ns stop]: following [f] from [n], the nodes met before [stop]
    are exactly [ns]. *)
Fixpoint seg (f : Z → Z) (n : Z) (ns : list Z) (stop : Z) : Prop :=
  match ns with
  | [] => n = stop
  | x :: ns' => n = x ∧ x ≠ stop ∧ seg f (f x) ns' stop
  end.

(** A doubly linked chain that starts at [a] and is not closed yet. *)
Fixpoint dchain (nx pv : Z → Z) (a : Z) (l : list Z) : Prop :=
  match l with
  | [] => True
  | x :: l' => nx a = x ∧ pv x = a ∧ dchain nx pv x l'
  end.

(** A circular list through the head [c] whose other members are [l]. *)
Definition ring (f : Z → Z) (c : Z) (l : list Z) : Prop := seg f (f c) l c.

(** The same walk, executed. *)
Fixpoint walk (fuel : nat) (f : Z → Z) (n stop : Z) : list Z :=
  match fuel with
  | O => []
  | S k => if n =? stop then [] else n :: walk k f (f n) stop
  end.

(** The columns still in the header list of the root [rt]. *)
Definition live_columns (g : arena) (rt : Z) : list Z :=
  walk (size g) (fR g) (fR g rt) rt.

(** The effect of [unlink] and [relink] when no access is out of bounds. *)
Definition unlinkP (n : Z) (g : arena) : arena :=
  let g := alter (set_down (fD g n)) (fU g n) g in
  let g := alter (set_up (fU g n)) (fD g n) g in
  alter (λ h, set_count (sz (count h - 1)) h) (fC g n) g.

Definition relinkP (n : Z) (g : arena) : arena :=
  let g := alter (set_down n) (fU g n) g in
  let g := alter (set_up n) (fD g n) g in
  alter (λ h, set_count (sz (count h + 1)) h) (fC g n) g.

Definition unlinksP (ns : list Z) (g : arena) : arena :=
  foldl (λ g n, unlinkP n g) g ns.
Definition relinksP (ns : list Z) (g : arena) : arena :=
  foldl (λ g n, relinkP n g) g ns.

(** A node is linked when its two vertical neighbours point back at it
    and every access of [unlink] is in bounds. *)
Definition linked (g : arena) (n : Z) : Prop :=
  fD g (fU g n) = n ∧ fU g (fD g n) = n ∧
  n ≠ fU g n ∧ n ≠ fD g n ∧ n ≠ fC g n ∧
  is_Some (g !! n) ∧ is_Some (g !! fU g n) ∧ is_Some (g !! fD g n) ∧
  is_Some (g !! fC g n) ∧ 0 ≤ fcount g (fC g n) < size_modulus.

(** The column lists once the nodes [ms] are unlinked. *)
Definition vl_del (ms : list Z) (vl : Z → list Z) : Z → list Z :=
  λ c, filter (λ x, x ∉ ms) (vl c).

(** Taking the header [c] out of the header list, and putting it back. *)
Definition hideP (c : Z) (g : arena) : arena :=
  let g := alter (set_right (fR g c)) (fL g c) g in
  alter (set_left (fL g c)) (fR g c) g.

Definition showP (c : Z) (g : arena) : arena :=
  let g := alter (set_right c) (fL g c) g in
  alter (set_left c) (fR g c) g.

Section invariant.
(** [nc] columns: headers are the indices [0..nc-1], the root is [nc], the
    matrix nodes are the indices between [nc] and [nu]. *)
Variables nc nu : Z.

Definition is_node (x : Z) : Prop := nc < x < nu.
Definition is_header (x : Z) : Prop := 0 ≤ x < nc.

(** The column a header or a matrix node belongs to. *)
Definition col_of (g : arena) (x : Z) : Z := if x <? nc then x else fC g x.

(** What [solver_init_graph] fixes once and for all: the rows.  [rw x] lists
    the other nodes of the row of [x], in the order of the [right] links. *)
Record static (rw : Z → list Z) (g : arena) : Prop := mk_static {
  st_bounds : 0 < nc ∧ nc < nu ∧ nu < size_modulus;
  st_dom : ∀ x, 0 ≤ x < nu → is_Some (g !! x);
  st_col : ∀ x, is_node x → is_header (fC g x);
  st_ring : ∀ x, is_node x → ring (fR g) x (rw x);
  st_nodup : ∀ x, is_node x → NoDup (rw x);
  st_row : ∀ x m, is_node x → m ∈ rw x → is_node m ∧ frow g m = frow g x;
  st_left : ∀ x, is_node x → fL g (fR g x) = x;
  st_all : ∀ x y, is_node x → is_node y → frow g x = frow g y → y = x ∨ y ∈ rw x;
  st_inj : ∀ x y, is_node x → is_node y →
           frow g x = frow g y → fC g x = fC g y → x = y
}.

(** What the search changes.  First the header list [hs] of the root. *)
Record horiz (hs : list Z) (g : arena) : Prop := mk_horiz {
  dy_htype : ∀ x, 0 ≤ x ≤ nc → 0 ≤ fL g x ≤ nc ∧ 0 ≤ fR g x ≤ nc;
  dy_hring : ring (fR g) nc hs;
  dy_hnodup : NoDup hs;
  dy_hhead : ∀ c, c ∈ hs → is_header c;
  dy_hback : ∀ x, x = nc ∨ x ∈ hs → fL g (fR g x) = x
}.

(** Then the column lists [vl c], with their back links and counts, and
    the typing of all vertical links (also those of the nodes that are
    unlinked at the moment). *)
Record vert (vl : Z → list Z) (g : arena) : Prop := mk_vert {
  dy_vtype : ∀ x, 0 ≤ x < nu → x ≠ nc →
             (0 ≤ fU g x < nu ∧ fU g x ≠ nc ∧ col_of g (fU g x) = col_of g x) ∧
             (0 ≤ fD g x < nu ∧ fD g x ≠ nc ∧ col_of g (fD g x) = col_of g x);
  dy_vring : ∀ c, is_header c → ring (fD g) c (vl c);
  dy_vnodup : ∀ c, is_header c → NoDup (vl c);
  dy_vnode : ∀ c x, is_header c → x ∈ vl c → is_node x ∧ fC g x = c;
  dy_vback : ∀ c x, is_header c → x = c ∨ x ∈ vl c → fU g (fD g x) = x;
  dy_count : ∀ c, is_header c → fcount g c = Z.of_nat (length (vl c));
  dy_crange : ∀ c, is_header c → 0 ≤ fcount g c < size_modulus
}.

(** Between two steps of the search, the nodes left in the list of a live
    column are those whose whole row lies in live columns. *)
Definition live_rows (rw : Z → list Z) (hs : list Z) (vl : Z → list Z)
    (g : arena) : Prop :=
  ∀ x, is_node x → fC g x ∈ hs →
    (x ∈ vl (fC g x) ↔ ∀ m, m ∈ x :: rw x → fC g m ∈ hs).

Definition dynamic (rw : Z → list Z) (hs : list Z) (vl : Z → list Z)
    (g : arena) : Prop :=
  horiz hs g ∧ vert vl g ∧ live_rows rw hs vl g.

(** Nodes that can be unlinked one after the other: distinct members of
    the current column lists. *)
Definition removable (vl : Z → list Z) (g : arena) (ms : list Z) : Prop :=
  NoDup ms ∧ ∀ m, m ∈ ms → is_node m ∧ m ∈ vl (fC g m).

Definition wf (g : arena) : Prop :=
  ∃ rw hs vl, static rw g ∧ dynamic rw hs vl g.

End invariant.

(** The states of a stack of covers, without the uncovers. *)
Inductive covered (fuel : nat) (s0 : solver) : list Z → arena → Prop :=
| covered_nil : covered fuel s0 [] (nodes s0)
| covered_cons st g c g' :
    covered fuel s0 st g → c ∈ live_columns g (root s0) →
    cover fuel c g = Ok g' → covered fuel s0 (c :: st) g'.

(** The graph states of a search on the solver [s0]: the graph it was
    initialised with, the result of covering a column that is in the header
    list, and the result of uncovering the column covered last. *)
Inductive reach (fuel : nat) (s0 : solver) : list Z → arena → Prop :=
| reach_init : reach fuel s0 [] (nodes s0)
| reach_cover st g c g' :
    reach fuel s0 st g → c ∈ live_columns g (root s0) →
    cover fuel c g = Ok g' → reach fuel s0 (c :: st) g'
| reach_uncover st g c g' :
    reach fuel s0 (c :: st) g → uncover fuel c g = Ok g' → reach fuel s0 st g'.

End Dlx.

(** ** The stages of [solver_init_graph] *)

Module InitSpec.
Import Util Solver Dlx.

(** The row of [x] in the list [l] of the nodes of its row: the nodes
    behind [x], then those in front of it. *)
Definition rotate_from (x : Z) (l : list Z) : list Z :=
  match list_find (λ y, y = x) l with
  | Some (i, _) => drop (S i) l ++ take i l
  | None => []
  end.

Section init_inv.
Variables (cells : gmap Z bool) (nc nr : Z).

(** The entry of the matrix in row [r] and column [c], and its index. *)
Definition uidx (r c : Z) : Z := sz (r * nc + c).
Definition mcell (r c : Z) : bool := cell cells (uidx r c).

(** The nodes of row [r] in the first [k] columns, in column order. *)
Definition rowl (used : gmap Z ptr) (r k : Z) : list Z :=
  filter (λ n, n ≠ NULL) ((λ c, used_at used (uidx r c)) <$> seqZ 0 k).

(** The row lists of the finished graph [g]. *)
Definition init_rw (used : gmap Z ptr) (g : arena) (x : Z) : list Z :=
  rotate_from x (rowl used (frow g x) nc).

(** The header list after the relaxed pass has looked at the columns
    before [k]. *)
Definition kept_columns (vl : Z → list Z) (k : Z) : list Z :=
  filter (λ c, k ≤ c ∨ vl c ≠ []) (seqZ 0 nc).

(** Two graphs with the same horizontal links, or the same vertical part. *)
Definition same_horiz (g g' : arena) : Prop :=
  ∀ x, fL g' x = fL g x ∧ fR g' x = fR g x.
Definition same_vert (g g' : arena) : Prop :=
  ∀ x, fU g' x = fU g x ∧ fD g' x = fD g x ∧ fC g' x = fC g x ∧
       fcount g' x = fcount g x ∧ frow g' x = frow g x.
Definition same_dom (g g' : arena) : Prop :=
  ∀ x, is_Some (g' !! x) ↔ is_Some (g !! x).

(** What the row pass leaves alone: the vertical part and the headers. *)
Definition row_frame (g g' : arena) : Prop :=
  same_vert g g' ∧ same_dom g g' ∧
  ∀ x, 0 ≤ x ≤ nc → fL g' x = fL g x ∧ fR g' x = fR g x.

(** The header list right after the root is linked in. *)
Definition headers_linked (g : arena) : Prop :=
  fR g nc = 0 ∧ fL g nc = nc - 1 ∧ fL g 0 = nc ∧ fR g (nc - 1) = nc ∧
  (∀ x, 0 ≤ x < nc - 1 → fR g x = x + 1) ∧
  (∀ x, 0 < x < nc → fL g x = x - 1).

(** The column pass: the columns before [k] are closed circular lists, the
    list of column [k] is open and ends in [cur], the rows before [j] of
    column [k] are done; [nu] is [nodes_used]. *)
Record colpass (k j cur nu : Z) (used : gmap Z ptr) (vl : Z → list Z)
    (g : arena) : Prop := mk_colpass {
  cp_nu : nc < nu;
  cp_dom : ∀ x, nc < x < nu → is_Some (g !! x);
  cp_ring : ∀ c, 0 ≤ c < k → ring (fD g) c (vl c);
  cp_back : ∀ c x, 0 ≤ c < k → x = c ∨ x ∈ vl c → fU g (fD g x) = x;
  cp_open : dchain (fD g) (fU g) k (vl k);
  cp_cur : cur = default k (last (vl k));
  cp_nodup : ∀ c, NoDup (vl c);
  cp_count : ∀ c, 0 ≤ c < nc → fcount g c = Z.of_nat (length (vl c));
  cp_later : ∀ c, ¬ (0 ≤ c ≤ k) → vl c = [];
  cp_mem : ∀ c x, x ∈ vl c → nc < x < nu ∧ fC g x = c;
  cp_node : ∀ x, nc < x < nu →
    0 ≤ fC g x ≤ k ∧ fC g x < nc ∧ 0 ≤ frow g x < nr ∧
    (fC g x = k → frow g x < j) ∧
    mcell (frow g x) (fC g x) = true ∧
    used_at used (uidx (frow g x) (fC g x)) = x ∧ x ∈ vl (fC g x);
  cp_used : ∀ r c, 0 ≤ r < nr → 0 ≤ c < nc →
    used_at used (uidx r c) ≠ NULL →
    nc < used_at used (uidx r c) < nu ∧
    frow g (used_at used (uidx r c)) = r ∧ fC g (used_at used (uidx r c)) = c;
  cp_set : ∀ r c, 0 ≤ r < nr → 0 ≤ c < nc →
    (c < k ∨ (c = k ∧ r < j)) → mcell r c = true →
    used_at used (uidx r c) ≠ NULL
}.

(** The row pass: the rows before [k] are closed circular lists; of row
    [k], the nodes in the columns before [j] form an open list from [first]
    to [current]. *)
Record rowpass (used : gmap Z ptr) (k j current first : Z) (g : arena)
  : Prop := mk_rowpass {
  rp_ring : ∀ r, 0 ≤ r < k → ∀ x l, rowl used r nc = x :: l →
            ring (fR g) x l ∧ ∀ y, y ∈ x :: l → fL g (fR g y) = y;
  rp_open : match rowl used k j with
            | [] => first = NULL ∧ current = NULL
            | x :: l => first = x ∧ current = default x (last l) ∧
                        dchain (fR g) (fL g) x l
            end
}.

End init_inv.

End InitSpec.

(** ** Exact covers, and the matrix behind a graph *)

Module ExactCover.
Import Util Solver Dlx InitSpec.

Section matrix.
Variables (cells : gmap Z bool) (nc nr : Z).

(** Row [r] of the matrix has a 1 in column [c]. *)
Definition hits (r c : Z) : Prop :=
  0 ≤ r < nr ∧ 0 ≤ c < nc ∧ mcell cells nc r c = true.

(** The rows [R] cover each of the columns [cols] exactly once and touch no
    other column.  Rows without any 1 are left out: they could be added to
    every cover. *)
Definition covers (cols : Z → Prop) (R : gset Z) : Prop :=
  (∀ r, r ∈ R → (∃ c, hits r c) ∧ ∀ c, hits r c → cols c) ∧
  (∀ c, cols c → ∃ r, r ∈ R ∧ hits r c ∧ ∀ r', r' ∈ R → hits r' c → r' = r).

(** The columns the search has to cover: all of them for a strict graph,
    those with at least one 1 for a relaxed graph. *)
Definition kept (strict : bool) (c : Z) : Prop :=
  0 ≤ c < nc ∧ (strict = true ∨ ∃ r, hits r c).

(** An exact cover of the matrix: a set of non-empty rows with exactly one
    1 in every column that is kept. *)
Definition exact_cover (strict : bool) (R : gset Z) : Prop :=
  (∀ r, r ∈ R → ∃ c, hits r c) ∧
  (∀ c, kept strict c →
        ∃ r, r ∈ R ∧ hits r c ∧ ∀ r', r' ∈ R → hits r' c → r' = r).

(** The nodes of the graph [g] are the 1s of the matrix. *)
Definition represents (nu : Z) (g : arena) : Prop :=
  (∀ x, is_node nc nu x → hits (frow g x) (fC g x)) ∧
  (∀ r c, hits r c → ∃ x, is_node nc nu x ∧ frow g x = r ∧ fC g x = c).

(** A state of the search: a well-formed graph of the matrix with header
    list [hs] and column lists [vl]. *)
Record wfs (nu : Z) (rw : Z → list Z) (hs : list Z) (vl : Z → list Z)
    (g : arena) : Prop := mk_wfs {
  wf_static : static nc nu rw g;
  wf_horiz : horiz nc hs g;
  wf_vert : vert nc nu vl g;
  wf_live : live_rows nc nu rw hs vl g;
  wf_repr : represents nu g
}.

(** All the columns of row [r] are in [hs]. *)
Definition row_in (hs : list Z) (r : Z) : Prop := ∀ c, hits r c → c ∈ hs.

(** What a call of [search] in count-unique mode leaves behind, for the
    columns [hs] and the graph [g] it started from and the counter [n0] it
    found: the covers [l] it counted, all of them unless it stopped at the
    second one. *)
Definition enumerated (hs : list Z) (g : arena) (n0 : Z) (b : bool)
    (s' : solver) (l : list (gset Z)) : Prop :=
  NoDup l ∧ (∀ R, R ∈ l → covers (λ c, c ∈ hs) R) ∧
  solution_count s' = n0 + Z.of_nat (length l) ∧
  (b = true → solution_count s' = 2) ∧
  (b = false → solution_count s' ≤ 1 ∧ nodes s' = g ∧
               ∀ R, covers (λ c, c ∈ hs) R → R ∈ l).

End matrix.

(** The fields of the solver that [search] does not change. *)
Definition same_config (s s' : solver) : Prop :=
  root s' = root s ∧ mode s' = mode s ∧ solution_size s' = solution_size s ∧
  nrows s' = nrows s ∧ ncols s' = ncols s ∧
  length (solution s') = length (solution s).

(** [search] with fuel [f] in count-unique mode, from any state with fewer
    than [f] columns: it returns, and has counted the covers.  [depth hs]
    bounds the number of rows that can still be taken; the solution buffer
    has to be longer than that. *)
Definition search_unique_spec (cells : gmap Z bool) (nc nr nu : Z)
    (rw : Z → list Z) (lf : nat) (depth : list Z → Z) (f : nat) : Prop :=
  ∀ hs vl g s k r n0,
    (length hs < f)%nat → wfs cells nc nr nu rw hs vl g →
    nodes s = g → root s = nc → mode s = DLX_UNIQUE →
    solution_count s = n0 → 0 ≤ n0 ≤ 1 →
    0 ≤ k → k + depth hs < solution_size s →
    solution_size s ≤ Z.of_nat (length (solution s)) →
    ∃ b s' l, search f lf s k r = Ok (b, s', r) ∧
              enumerated cells nc nr hs g n0 b s' l ∧ same_config s s'.

(** What a call of [search] at depth [k] in find-any mode leaves behind:
    the slots of the solution buffer before [k] and from [k + depth hs] on
    are as before; when it fails the graph is as before; when it succeeds
    the slots from [k] on hold the rows of a cover of [hs]. *)
Definition found (cells : gmap Z bool) (nc nr : Z) (depth : list Z → Z)
    (hs : list Z) (g : arena) (k : Z) (s : solver) (b : bool) (s' : solver)
  : Prop :=
  take (Z.to_nat k) (solution s') = take (Z.to_nat k) (solution s) ∧
  drop (Z.to_nat (k + depth hs)) (solution s') =
    drop (Z.to_nat (k + depth hs)) (solution s) ∧
  (b = false → nodes s' = g) ∧
  (b = true →
   ∃ path : list Z,
     Z.of_nat (length path) = depth hs ∧ NoDup path ∧
     covers cells nc nr (λ c, c ∈ hs) (list_to_set path) ∧
     take (length path) (drop (Z.to_nat k) (solution s')) = path).

Definition search_random_spec (cells : gmap Z bool) (nc nr nu : Z)
    (rw : Z → list Z) (lf : nat) (depth : list Z → Z) (f : nat) : Prop :=
  ∀ hs vl g s k r,
    (length hs < f)%nat → wfs cells nc nr nu rw hs vl g →
    nodes s = g → root s = nc → mode s = DLX_RANDOM →
    0 ≤ k → k + depth hs < solution_size s →
    solution_size s ≤ Z.of_nat (length (solution s)) →
    ∃ b s' r', search f lf s k r = Ok (b, s', r') ∧
               found cells nc nr depth hs g k s b s' ∧ same_config s s' ∧
               (b = false → ∀ R, ¬ covers cells nc nr (λ c, c ∈ hs) R).

(** [cover] applied to the columns [cs], one after the other. *)
Fixpoint cover_list (fuel : nat) (cs : list Z) (g : arena) : res arena :=
  match cs with
  | [] => Ok g
  | c :: cs' => g' ← cover fuel c g; cover_list fuel cs' g'
  end.

End ExactCover.

(** ** Sudoku grids and their completions *)

Module SudokuSpec.
Import Util Solver Sudoku InitSpec ExactCover.

(** The cell in column [x] of row [y]. *)
Definition cellv (g : sudoku) (x y : Z) : Z := aget g (GRID_IDX x y).

Definition in_grid (x y : Z) : Prop := 0 ≤ x < 9 ∧ 0 ≤ y < 9.

(** Two cells share a row, a column or a section. *)
Definition same_unit (x y x' y' : Z) : Prop :=
  y = y' ∨ x = x' ∨ SEC_IDX x y = SEC_IDX x' y'.

(** A full grid that satisfies the Sudoku constraints: every cell holds a
    digit from 1 to 9 and no row, column or section holds a digit twice. *)
Definition valid (t : sudoku) : Prop :=
  length t = 81%nat ∧
  (∀ x y, in_grid x y → 1 ≤ cellv t x y ≤ 9) ∧
  (∀ x y x' y', in_grid x y → in_grid x' y' → same_unit x y x' y' →
                cellv t x y = cellv t x' y' → x = x' ∧ y = y').

(** [t] completes the puzzle [p]: it is valid and keeps the hints of [p]. *)
Definition completion (p t : sudoku) : Prop :=
  valid t ∧ ∀ x y, in_grid x y → cellv p x y ≠ 0 → cellv t x y = cellv p x y.

(** [t] is the one completion of [p]. *)
Definition only_completion (p t : sudoku) : Prop :=
  completion p t ∧ ∀ t', completion p t' → t' = t.

(** The digit [d] stands in the row, the column or the section of the
    cell [(x, y)]. *)
Definition used (g : sudoku) (d x y : Z) : Prop :=
  ∃ x' y', in_grid x' y' ∧ same_unit x y x' y' ∧ cellv g x' y' = d.

(** The rows of the matrix that [get_dlx_cells] builds: the digit [v + 1]
    can go into the empty cell [(x, y)]. *)
Definition candidate (g : sudoku) (v x y : Z) : Prop :=
  0 ≤ v < 9 ∧ in_grid x y ∧ cellv g x y = 0 ∧ ¬ used g (v + 1) x y.

(** The four columns of the row of a candidate. *)
Definition placement_columns (v x y : Z) : list Z :=
  [DLX_COL1 v x y; DLX_COL2 v x y; DLX_COL3 v x y; DLX_COL4 v x y].

(** The rows that a full grid [t] puts into the empty cells of [p]. *)
Definition rows_of (p t : sudoku) : gset Z :=
  list_to_set
    ((λ i, DLX_ROW (aget t i - 1) (GRID_X i) (GRID_Y i)) <$>
     filter (λ i, aget p i = 0) (seqZ 0 GRID_SIZE)).

(** The bits of slot [i] of the mask array [m] are the values of [f] below
    [n]. *)
Definition mask_ok (m : list Z) (i n : Z) (f : Z → Z) : Prop :=
  ∀ d, 0 ≤ d → Z.testbit (aget m i) d = true ↔ ∃ j, 0 ≤ j < n ∧ f j = d.

(** The loops of [get_dlx_cells] once the placements [Q] are done: the
    cells set so far are those of the candidates among [Q], and the count
    is their number. *)
Definition cells_inv (g : sudoku) (Q : Z → Z → Z → Prop)
    (st : gmap Z bool * Z) : Prop :=
  (∀ k b, st.1 !! k = Some b →
     b = true ∧
     ∃ v x y, Q v x y ∧ candidate g v x y ∧
              k ∈ (DLX_CELL_IDX (DLX_ROW v x y) <$> placement_columns v x y)) ∧
  (∀ v x y c, Q v x y → candidate g v x y → c ∈ placement_columns v x y →
              st.1 !! DLX_CELL_IDX (DLX_ROW v x y) c = Some true) ∧
  st.2 = Z.of_nat (size st.1).

(** The placements the loops of [get_dlx_cells] have looked at when they
    reach [(v0, x0, y0)]. *)
Definition before (x0 y0 v0 : Z) (v x y : Z) : Prop :=
  x < x0 ∨ (x = x0 ∧ (y < y0 ∨ (y = y0 ∧ v < v0))).

(** The body of the innermost loop of [get_dlx_cells], for the masks [rm],
    [cm], [sm]. *)
Definition place (rm cm sm : list Z) (x y : Z) (v : Z) (st : gmap Z bool * Z)
  : gmap Z bool * Z :=
  let '(cells, count) := st in
  if Z.land (Z.lor (Z.lor (aget rm y) (aget cm x)) (aget sm (SEC_IDX x y)))
            (Z.shiftl 1 (v + 1)) =? 0
  then
    let row := DLX_ROW v x y in
    let cells := <[DLX_CELL_IDX row (DLX_COL1 v x y) := true]> cells in
    let cells := <[DLX_CELL_IDX row (DLX_COL2 v x y) := true]> cells in
    let cells := <[DLX_CELL_IDX row (DLX_COL3 v x y) := true]> cells in
    let cells := <[DLX_CELL_IDX row (DLX_COL4 v x y) := true]> cells in
    (cells, count + 4)
  else (cells, count).

(** The cells that [fill_solution] writes for the rows [path], with the
    digits it puts there. *)
Definition writes (path : list Z) : list (Z * Z) :=
  (λ r, (GRID_IDX (DLX_X r) (DLX_Y r), DLX_V r)) <$> path.

(** A grid without two equal digits in a row, a column or a section, and
    a grid whose empty cells all have a candidate. *)
Definition consistent (g : sudoku) : Prop :=
  ∀ x y x' y', in_grid x y → in_grid x' y' → same_unit x y x' y' →
    cellv g x y = cellv g x' y' → cellv g x y ≠ 0 → x = x' ∧ y = y'.

Definition fillable (g : sudoku) : Prop :=
  ∀ x y, in_grid x y → cellv g x y = 0 → ∃ v, candidate g v x y.

(** The same, as executable checks. *)
Definition cells81 : list (Z * Z) :=
  x ← seqZ 0 9; y ← seqZ 0 9; [(x, y)].

Definition same_unitb (x y x' y' : Z) : bool :=
  (y =? y') || (x =? x') || (SEC_IDX x y =? SEC_IDX x' y').

Definition usedb (g : sudoku) (d x y : Z) : bool :=
  existsb (λ '(x', y'), same_unitb x y x' y' && (cellv g x' y' =? d)) cells81.

Definition candidateb (g : sudoku) (v x y : Z) : bool :=
  (cellv g x y =? 0) && negb (usedb g (v + 1) x y).

Definition consistentb (g : sudoku) : bool :=
  forallb (λ '(x, y),
    forallb (λ '(x', y'),
      negb (same_unitb x y x' y' && (cellv g x y =? cellv g x' y') &&
            negb (cellv g x y =? 0)) ||
      ((x =? x') && (y =? y'))) cells81) cells81.

Definition fillableb (g : sudoku) : bool :=
  forallb (λ '(x, y),
    negb (cellv g x y =? 0) ||
    existsb (λ v, candidateb g v x y) (seqZ 0 9)) cells81.

Definition in_rangeb (g : sudoku) : bool :=
  (length g =? 81)%nat && forallb (λ v, (0 <=? v) && (v <=? 9)) g.

Definition completionb (p t : sudoku) : bool :=
  in_rangeb t && consistentb t &&
  forallb (λ '(x, y),
    negb (cellv t x y =? 0) &&
    ((cellv p x y =? 0) || (cellv t x y =? cellv p x y))) cells81.

(** Bit [d] of the mask [m] says whether the digit [d] stands in one of the
    cells [P] of the grid [s]. *)
Definition unit_mask (s : sudoku) (m : Z) (P : Z → Z → Prop) : Prop :=
  ∀ d, 0 ≤ d →
    Z.testbit m d = true ↔
    1 ≤ d ≤ 9 ∧ ∃ x y, in_grid x y ∧ P x y ∧ cellv s x y = d.

(** The three mask arrays of [remove_deduced_hints] follow the grid. *)
Definition masks_track (s : sudoku) (rm cm sm : list Z) : Prop :=
  length rm = 9%nat ∧ length cm = 9%nat ∧ length sm = 9%nat ∧
  ∀ i, 0 ≤ i < 9 →
    unit_mask s (aget rm i) (λ x y, y = i) ∧
    unit_mask s (aget cm i) (λ x y, x = i) ∧
    unit_mask s (aget sm i) (λ x y, SEC_IDX x y = i).

(** Every cell of [s] is empty or holds the digit of [sol]. *)
Definition part_of (s sol : sudoku) : Prop :=
  length s = 81%nat ∧
  ∀ x y, in_grid x y → cellv s x y = 0 ∨ cellv s x y = cellv sol x y.

(** The grid [t] with its digits renamed by [f]. *)
Definition relabel (f : Z → Z) (t : sudoku) : sudoku := f <$> t.

Definition swap_digits (a b d : Z) : Z :=
  if d =? a then b else if d =? b then a else d.

(** A solved grid whose first row is 1, ..., 9: each row is the row above
    it shifted by three cells, and by one more cell from one band of three
    rows to the next. *)
Definition base_grid : sudoku :=
  (λ i, (3 * (GRID_Y i `mod` 3) + GRID_Y i `div` 3 + GRID_X i) `mod` 9 + 1)
    <$> seqZ 0 GRID_SIZE.

End SudokuSpec.

(** ** Readings of a graph *)

Module Views.
Import Util Solver Dlx InitSpec ExactCover.

(** The nodes in the list of the column [c], from the header downwards. *)
Definition column_nodes (g : arena) (c : Z) : list Z :=
  walk (size g) (fD g) (fD g c) c.

(** The rows with a node in the list of the column [c], in list order. *)
Definition column_rows_of (g : arena) (c : Z) : list Z :=
  frow g <$> column_nodes g c.

(** The rows of the matrix with a 1 in column [c], in increasing order. *)
Definition ones_of_column (cells : gmap Z bool) (nc nr c : Z) : list Z :=
  filter (λ r, mcell cells nc r c = true) (seqZ 0 nr).

(** The columns in which row [r] of the matrix has a 1, in increasing
    order. *)
Definition row_ones (cells : gmap Z bool) (nc r : Z) : list Z :=
  filter (λ c, mcell cells nc r c = true) (seqZ 0 nc).

(** The row [r] can be taken when the columns [hs] are left: it has a 1 and
    all its 1s are in [hs]. *)
Definition fits (cells : gmap Z bool) (nc : Z) (hs : list Z) (r : Z) : bool :=
  negb (bool_decide (row_ones cells nc r = [])) &&
  bool_decide (Forall (λ c, c ∈ hs) (row_ones cells nc r)).

(** The largest number of rows among [rows] that can be taken one after the
    other from the columns [hs], each row taking its columns away. *)
Fixpoint pack (cells : gmap Z bool) (nc : Z) (rows hs : list Z) : nat :=
  match rows with
  | [] => 0
  | r :: rows' =>
      if fits cells nc hs r
      then pack cells nc rows' hs `max`
           S (pack cells nc rows' (filter (λ c, c ∉ row_ones cells nc r) hs))
      else pack cells nc rows' hs
  end.

(** Distinct rows of the matrix, each with a 1, no two with a 1 in the
    same column. *)
Definition disjoint_rows (cells : gmap Z bool) (nc nr : Z) (F : list Z) : Prop :=
  NoDup F ∧ (∀ r, r ∈ F → ∃ c, hits cells nc nr r c) ∧
  (∀ r r' c, r ∈ F → r' ∈ F →
             hits cells nc nr r c → hits cells nc nr r' c → r = r').

(** The rows [F], taken from [rs], can be taken from the columns [hs]. *)
Definition family (cells : gmap Z bool) (nc nr : Z) (rs hs F : list Z) : Prop :=
  NoDup F ∧
  (∀ r, r ∈ F → r ∈ rs ∧ (∃ c, hits cells nc nr r c) ∧ row_in cells nc nr hs r) ∧
  (∀ r r' c, r ∈ F → r' ∈ F →
             hits cells nc nr r c → hits cells nc nr r' c → r = r').

(** The measure of the search: the rows it can still take from [hs]. *)
Definition packing (cells : gmap Z bool) (nc nr : Z) (hs : list Z) : Z :=
  Z.of_nat (pack cells nc (seqZ 0 nr) hs).

(** The indices of the entries of the matrix array that are set. *)
Definition matrix_ones (cells : gmap Z bool) (nc nr : Z) : list Z :=
  filter (λ i, cell cells i = true) (seqZ 0 (nr * nc)).

(** The graph of the 2x2 identity matrix. *)
Definition diagonal_solver : solver :=
  match solver_init_graph (solver_create 2 2 2)
          (Examples.cells_of_rows 2 Examples.diagonal_rows) true with
  | Ok s => s
  | Err _ => solver_create 0 0 0
  end.

(** The solved example grid with its first cell emptied. *)
Definition one_missing : list Z := <[0%nat := 0]> Examples.solved_grid.

End Views.

(** * Facts about the loop combinators and arrays *)

Lemma sz_small z : 0 ≤ z < size_modulus → sz z = z.
Proof.
  intros [H0 H1]. unfold sz.
  destruct (Z.leb_spec 0 z); [|lia]. destruct (Z.ltb_spec z size_modulus); [|lia].
  reflexivity.
Qed.

Lemma sz_spec z : sz z = z mod size_modulus.
Proof.
  unfold sz. destruct (Z.leb_spec 0 z); simpl; [|done].
  destruct (Z.ltb_spec z size_modulus); [|done].
  symmetry. apply Z.mod_small. lia.
Qed.

Lemma for_range_nil {St} lo hi (body : Z → St → res St) s :
  hi ≤ lo → for_range lo hi body s = Ok s.
Proof. intros H. unfold for_range. replace (Z.to_nat (hi - lo)) with O by lia. done. Qed.

Lemma for_range_first {St} lo hi (body : Z → St → res St) s :
  lo < hi → for_range lo hi body s = s' ← body lo s; for_range (lo + 1) hi body s'.
Proof.
  intros H. unfold for_range.
  replace (Z.to_nat (hi - lo)) with (S (Z.to_nat (hi - (lo + 1)))) by lia.
  reflexivity.
Qed.

Lemma for_loop_S {St} n i (body : Z → St → res St) s :
  for_loop (S n) i body s = s' ← body i s; for_loop n (i + 1) body s'.
Proof. reflexivity. Qed.

Lemma bind_Ok {A B} (a : A) (f : A → res B) : (x ← Ok a; f x) = f a.
Proof. reflexivity. Qed.

Lemma bind_Err {A B} e (f : A → res B) : (x ← Err e; f x) = Err e.
Proof. reflexivity. Qed.

Lemma for_loop_last {St} n lo (body : Z → St → res St) s :
  for_loop (S n) lo body s =
  s' ← for_loop n lo body s; body (lo + Z.of_nat n) s'.
Proof.
  revert lo s. induction n as [|n IH]; intros lo s.
  - rewrite for_loop_S. change (for_loop 0 lo body s) with (Ok s).
    rewrite bind_Ok, Nat2Z.inj_0, Z.add_0_r. destruct (body lo s); done.
  - rewrite for_loop_S. rewrite (for_loop_S n).
    destruct (body lo s) as [s1|e]; [|done]. rewrite !bind_Ok.
    rewrite IH. replace (lo + 1 + Z.of_nat n) with (lo + Z.of_nat (S n)) by lia. done.
Qed.

Lemma for_range_last {St} lo hi (body : Z → St → res St) s :
  lo ≤ hi → for_range lo (hi + 1) body s = s' ← for_range lo hi body s; body hi s'.
Proof.
  intros H. unfold for_range.
  replace (Z.to_nat (hi + 1 - lo)) with (S (Z.to_nat (hi - lo))) by lia.
  rewrite for_loop_last. replace (lo + Z.of_nat (Z.to_nat (hi - lo))) with hi by lia. done.
Qed.

Module SudokuLoop.
Import Util Sudoku.

Lemma loop_nil {St} n (body : Z → St → St) s : n ≤ 0 → loop n body s = s.
Proof.
  intros H. unfold loop, seqZ. replace (Z.to_nat n) with O by lia. done.
Qed.

Lemma loop_succ {St} n (body : Z → St → St) s :
  0 ≤ n → loop (n + 1) body s = body n (loop n body s).
Proof.
  intros H. unfold loop. rewrite seqZ_app by lia. rewrite foldl_app. simpl.
  rewrite Z.add_0_l. done.
Qed.

Lemma aget_aset_eq a i v : 0 ≤ i < Z.of_nat (length a) → aget (aset a i v) i = v.
Proof.
  intros H. unfold aget, aset. rewrite list_lookup_insert_eq by lia. done.
Qed.

Lemma aget_aset_ne a i j v : 0 ≤ i → 0 ≤ j → i ≠ j → aget (aset a i v) j = aget a j.
Proof.
  intros Hi Hj H. unfold aget, aset. rewrite list_lookup_insert_ne by lia. done.
Qed.

Lemma length_aset a i v : length (aset a i v) = length a.
Proof. apply length_insert. Qed.

End SudokuLoop.

Module Claims_easy.
Import Util Solver Sudoku Examples.

(** C5: for x, y in [0,9) and v in [1,9], the DLX row index of the placement
    is 81*y + 9*x + (v-1) and decoding it with DLX_X, DLX_Y, DLX_V gives
    back (x, y, v). *)
Theorem decode_row_roundtrip (x y v : Z) :
  0 ≤ x < 9 → 0 ≤ y < 9 → 1 ≤ v ≤ 9 →
  DLX_ROW (v - 1) x y = 81 * y + 9 * x + (v - 1) ∧
  DLX_X (DLX_ROW (v - 1) x y) = x ∧
  DLX_Y (DLX_ROW (v - 1) x y) = y ∧
  DLX_V (DLX_ROW (v - 1) x y) = v.
Proof.
  intros Hx Hy Hv.
  unfold DLX_ROW, DLX_X, DLX_Y, DLX_V, GRID_SIZE, SUDOKU_SIZE.
  replace (9 * 9 * y + 9 * x + (v - 1)) with ((v - 1) + (9 * y + x) * 9) by lia.
  split; [lia|].
  rewrite !Z.quot_div_nonneg, !Z.rem_mod_nonneg by (try apply Z.div_pos; lia).
  rewrite Z.div_add, Z.mod_add by lia.
  rewrite (Z.div_small (v - 1)), (Z.mod_small (v - 1)) by lia.
  rewrite Z.add_0_l.
  replace (9 * y + x) with (x + y * 9) by lia.
  rewrite Z.div_add, Z.mod_add by lia.
  rewrite (Z.div_small x), (Z.mod_small x) by lia. lia.
Qed.

Lemma decode_row_roundtrip_witness :
  DLX_ROW (5 - 1) 3 7 = 81 * 7 + 9 * 3 + (5 - 1) ∧
  DLX_X (DLX_ROW (5 - 1) 3 7) = 3 ∧
  DLX_Y (DLX_ROW (5 - 1) 3 7) = 7 ∧
  DLX_V (DLX_ROW (5 - 1) 3 7) = 5.
Proof. apply (decode_row_roundtrip 3 7 5); lia. Defined.

Lemma for_range_fault_first {St} lo hi (body : Z → St → res St) s e :
  lo < hi → body lo s = Err e → for_range lo hi body s = Err e.
Proof. intros H Hb. rewrite for_range_first by done. rewrite Hb. done. Qed.

(** C7: building the graph of a matrix with zero columns does not return:
    the bound [ncols - 1] of the header loop wraps and the loop writes
    behind the one-node arena. *)
Theorem zero_columns_init_faults (nr : Z) (cells : gmap Z bool) (strict : bool) :
  solver_init_graph (solver_create 0 0 nr) cells strict = Err OutOfBounds.
Proof.
  unfold solver_init_graph. cbn [ncols nrows nodes solver_create].
  rewrite (for_range_fault_first _ _ _ _ OutOfBounds); [done| |done].
  vm_compute. reflexivity.
Qed.

(** C8: the four-column matrix with rows {C0}, {C0,C1,C2,C3}, {C1,C2},
    {C1,C3}: the find-any run reports the one-row cover {row 1}, and slot 1
    of the buffer still holds row 2 of the abandoned branch. *)
Theorem stale_slot_after_backtrack :
  run_matrix 20 9 4 4 [[0]; [0;1;2;3]; [1;2]; [1;3]] true DLX_RANDOM 5
    (constant_rng 1) = Ok (true, [1; 2; -1; -1; -1], 1).
Proof. vm_compute. reflexivity. Qed.

(** C6: on the empty grid the search reaches depth 81 with a buffer of 81
    slots and stops on its assertion [k < s->solution_size]. *)
Theorem solve_empty_grid_aborts :
  sudoku_solve 400 empty_grid (constant_rng 0) = Err AssertFail.
Proof. vm_compute. reflexivity. Qed.

End Claims_easy.

Module ShuffleFacts.
Import Util Sudoku SudokuLoop.

Lemma rand_nonneg r : 0 ≤ (rand r).1.
Proof. unfold rand. simpl. lia. Qed.

(** One pass of [shuffle] permutes the array and leaves the slots behind
    the shuffled prefix alone. *)
Lemma shuffle_loop_perm m a r :
  (m < length a)%nat →
  (shuffle_loop m a r).1 ≡ₚ a ∧
  drop (S m) (shuffle_loop m a r).1 = drop (S m) a.
Proof.
  revert a r. induction m as [|m IH]; intros a r Hm; [done|].
  cbn [shuffle_loop].
  pose proof (rand_nonneg r) as Hx. destruct (rand r) as [x r']. simpl in Hx.
  set (i := Z.of_nat (S m)).
  assert (Hj : 0 ≤ Z.rem x (i + 1) < i + 1).
  { rewrite Z.rem_mod_nonneg by lia. apply Z.mod_pos_bound. lia. }
  set (j := Z.rem x (i + 1)) in *.
  destruct (lookup_lt_is_Some_2 a (Z.to_nat i)) as [vi Hvi]; [lia|].
  destruct (lookup_lt_is_Some_2 a (Z.to_nat j)) as [vj Hvj]; [lia|].
  set (a2 := aset (aset a i (aget a j)) j (aget a i)).
  assert (Hp : a2 ≡ₚ a).
  { unfold a2, aset, aget. rewrite Hvi, Hvj. simpl.
    by apply Permutation_insert_swap. }
  assert (Hd : drop (S (S m)) a2 = drop (S (S m)) a).
  { unfold a2, aset. rewrite !drop_insert_lt by lia. done. }
  destruct (IH a2 r') as [IH1 IH2].
  { unfold a2. rewrite !length_aset. lia. }
  split; [by rewrite IH1|].
  replace (S (S m)) with (S m + 1)%nat in * by lia.
  rewrite <- drop_drop, IH2, drop_drop. exact Hd.
Qed.

Lemma shuffle_prefix_perm a n r :
  0 ≤ n ≤ Z.of_nat (length a) →
  length (shuffle a n r).1 = length a ∧
  take (Z.to_nat n) (shuffle a n r).1 ≡ₚ take (Z.to_nat n) a.
Proof.
  intros Hn. unfold shuffle.
  destruct (decide (n = 0)) as [->|Hn0]; [done|].
  destruct (shuffle_loop_perm (Z.to_nat (n - 1)) a r) as [Hp Hd]; [lia|].
  split; [by rewrite Hp|].
  replace (S (Z.to_nat (n - 1))) with (Z.to_nat n) in Hd by lia.
  apply (Permutation_app_inv_r (drop (Z.to_nat n) a)).
  rewrite <- Hd at 1. rewrite !take_drop. done.
Qed.

End ShuffleFacts.

Module ExtraHints.
Import Util Sudoku Spec SudokuLoop ShuffleFacts.

Lemma collect_empty_cells s (k : nat) :
  (k ≤ 81)%nat →
  let E := filter (λ i, aget s i = 0) (seqZ 0 (Z.of_nat k)) in
  let st := loop (Z.of_nat k) (collect_step s) (replicate 81 0, 0) in
  st.2 = Z.of_nat (length E) ∧ length st.1 = 81%nat ∧ take (length E) st.1 = E.
Proof.
  induction k as [|k IH]; intros Hk; [done|].
  destruct IH as (IH1 & IH2 & IH3); [lia|].
  cbv zeta. rewrite Nat2Z.inj_succ, <- Z.add_1_r.
  rewrite loop_succ by lia. rewrite seqZ_app by lia. rewrite filter_app.
  set (E := filter (λ i, aget s i = 0) (seqZ 0 (Z.of_nat k))) in *.
  assert (HE : (length E ≤ k)%nat).
  { unfold E. etrans; [apply length_filter|]. rewrite length_seqZ. lia. }
  destruct (loop (Z.of_nat k) (collect_step s) (replicate 81 0, 0)) as [hints nch].
  simpl in IH1, IH2, IH3. subst nch.
  unfold collect_step. change (seqZ (0 + Z.of_nat k) 1) with [0 + Z.of_nat k].
  rewrite Z.add_0_l, filter_cons, filter_nil.
  destruct (Z.eqb_spec (aget s (Z.of_nat k)) 0) as [Hz|Hz].
  - rewrite decide_True by done. simpl. rewrite length_app, length_aset. simpl.
    split; [lia|]. split; [done|].
    replace (length E + 1)%nat with (S (length E)) by lia.
    unfold aset. rewrite Nat2Z.id.
    erewrite take_S_r; [|apply list_lookup_insert_eq; lia].
    rewrite take_insert_ge by lia. by rewrite IH3.
  - rewrite decide_False by done. simpl. rewrite app_nil_r. done.
Qed.

Lemma write_hints_spec (f : Z → Z) (h : list Z) (k : nat) (s : sudoku) :
  (k ≤ length h)%nat →
  loop (Z.of_nat k) (λ i s, aset s (aget h i) (f (aget h i))) s =
  foldl (λ s x, aset s x (f x)) s (take k h).
Proof.
  induction k as [|k IH]; intros Hk; [done|].
  rewrite Nat2Z.inj_succ, <- Z.add_1_r, loop_succ by lia. rewrite IH by lia.
  destruct (lookup_lt_is_Some_2 h k) as [x Hx]; [lia|].
  erewrite take_S_r by done. rewrite foldl_app. simpl.
  unfold aget at 1 2. rewrite Nat2Z.id, Hx. done.
Qed.

Lemma write_hints_spec_Z (f : Z → Z) (h : list Z) (k : Z) (s : sudoku) :
  0 ≤ k ≤ Z.of_nat (length h) →
  loop k (λ i s, aset s (aget h i) (f (aget h i))) s =
  foldl (λ s x, aset s x (f x)) s (take (Z.to_nat k) h).
Proof.
  intros Hk. rewrite <- write_hints_spec by lia. by rewrite Z2Nat.id by lia.
Qed.

Lemma foldl_aset_length (f : Z → Z) (l : list Z) (s : sudoku) :
  length (foldl (λ s x, aset s x (f x)) s l) = length s.
Proof.
  revert s. induction l as [|x l IH]; intros s; [done|].
  simpl. rewrite IH. apply length_aset.
Qed.

Lemma foldl_aset_in (f : Z → Z) (l : list Z) (s : sudoku) i :
  Forall (λ x, 0 ≤ x) l → i ∈ l → 0 ≤ i < Z.of_nat (length s) →
  aget (foldl (λ s x, aset s x (f x)) s l) i = f i.
Proof.
  revert s. induction l as [|x l IH] using rev_ind; intros s Hl Hi Hr.
  - by apply elem_of_nil in Hi.
  - apply Forall_app in Hl as [Hl [Hx _]%Forall_cons]. simpl in Hx.
    rewrite foldl_app. simpl. destruct (decide (x = i)) as [->|Hne].
    + apply aget_aset_eq. by rewrite foldl_aset_length.
    + apply elem_of_app in Hi as [Hi|Hi%list_elem_of_singleton]; [|done].
      rewrite aget_aset_ne by lia. by apply IH.
Qed.

Lemma foldl_aset_notin (f : Z → Z) (l : list Z) (s : sudoku) i :
  Forall (λ x, 0 ≤ x) l → i ∉ l → 0 ≤ i →
  aget (foldl (λ s x, aset s x (f x)) s l) i = aget s i.
Proof.
  revert s. induction l as [|x l IH] using rev_ind; intros s Hl Hi Hr; [done|].
  apply Forall_app in Hl as [Hl [Hx _]%Forall_cons]. simpl in Hx.
  apply not_elem_of_app in Hi as [Hi Hxi].
  apply not_elem_of_cons in Hxi as [Hxi _].
  rewrite foldl_app. simpl. rewrite aget_aset_ne by done.
  by apply IH.
Qed.


(** C9: for a requested count n >= 0, add_extra_hints writes the snapshot's
    value into exactly min(n, number of empty cells) distinct cells, all of
    them empty before, and changes no other cell; every cell filled before
    keeps its value. *)
Theorem extra_hints_fill (s solution : sudoku) (n : Z) (r : rng) :
  length s = 81%nat → 0 ≤ n →
  ∃ chosen : list Z,
    NoDup chosen ∧
    Z.of_nat (length chosen) = Z.min n (Z.of_nat (length (empty_cells s))) ∧
    chosen ⊆ empty_cells s ∧
    length (add_extra_hints s solution n r).1 = 81%nat ∧
    (∀ i, i ∈ chosen →
       aget (add_extra_hints s solution n r).1 i = aget solution i) ∧
    (∀ i, 0 ≤ i → i ∉ chosen →
       aget (add_extra_hints s solution n r).1 i = aget s i) ∧
    (∀ i, 0 ≤ i → aget s i ≠ 0 →
       aget (add_extra_hints s solution n r).1 i = aget s i).
Proof.
  intros Hlen Hn.
  assert (Hsup : ∀ chosen s', chosen ⊆ empty_cells s →
            (∀ i, 0 ≤ i → i ∉ chosen → aget s' i = aget s i) →
            ∀ i, 0 ≤ i → aget s i ≠ 0 → aget s' i = aget s i).
  { intros chosen s' Hsub Hout i Hi Hne. apply Hout; [done|].
    intros Hin%Hsub. by apply list_elem_of_filter in Hin as [? _]. }
  unfold add_extra_hints. destruct (Z.leb_spec n 0) as [Hn0|Hn0].
  { exists []. simpl. split_and!; try done; [apply NoDup_nil_2|lia|set_solver|set_solver]. }
  pose proof (collect_empty_cells s 81 ltac:(lia)) as (Hc1 & Hc2 & Hc3).
  cbv zeta in Hc1, Hc2, Hc3. change (Z.of_nat 81) with GRID_SIZE in Hc1, Hc2, Hc3.
  fold (empty_cells s) in Hc1, Hc3.
  change (loop GRID_SIZE _ (replicate (Z.to_nat GRID_SIZE) 0, 0))
    with (loop GRID_SIZE (collect_step s) (replicate 81 0, 0)).
  destruct (loop GRID_SIZE (collect_step s) (replicate 81 0, 0)) as [hints nch].
  simpl in Hc1, Hc2, Hc3. set (E := empty_cells s) in *.
  assert (HE : (length E ≤ 81)%nat).
  { unfold E, empty_cells. etrans; [apply length_filter|]. by rewrite length_seqZ. }
  destruct (shuffle_prefix_perm hints nch r) as [Hs1 Hs2]; [lia|].
  destruct (shuffle hints nch r) as [hints' r']. simpl in Hs1, Hs2.
  rewrite Hc1, Nat2Z.id, Hc3 in Hs2.
  set (num := if nch <? n then nch else n).
  assert (Hnum : num = Z.min n (Z.of_nat (length E))).
  { unfold num. destruct (Z.ltb_spec nch n); lia. }
  set (chosen := take (Z.to_nat num) hints').
  assert (Hsub : chosen ⊆ E).
  { intros x Hx. rewrite <- Hs2. unfold chosen in Hx.
    apply elem_of_take in Hx as (i & Hi & Hlt). apply elem_of_take.
    exists i. split; [done|lia]. }
  assert (Hpos : Forall (λ x, 0 ≤ x) chosen).
  { apply Forall_forall. intros x Hx%Hsub.
    apply list_elem_of_filter in Hx as [_ Hx]. apply elem_of_seqZ in Hx. lia. }
  exists chosen. simpl.
  rewrite (write_hints_spec_Z (aget solution) hints' num s) by lia. fold chosen.
  split_and!.
  - unfold chosen. rewrite <- (take_drop (Z.to_nat num) (take (length E) hints')) in Hs2.
    rewrite take_take in Hs2. replace (Z.to_nat num `min` length E)%nat
      with (Z.to_nat num) in Hs2 by lia.
    assert (HND : NoDup E) by (apply NoDup_filter, NoDup_seqZ).
    rewrite <- Hs2 in HND. by apply NoDup_app in HND as [? _].
  - unfold chosen. rewrite length_take. lia.
  - done.
  - by rewrite foldl_aset_length.
  - intros i Hi. apply foldl_aset_in; [done..|].
    apply Hsub, list_elem_of_filter in Hi as [_ Hi]. apply elem_of_seqZ in Hi.
    unfold GRID_SIZE, SUDOKU_SIZE in Hi. lia.
  - intros i Hi Hni. by apply foldl_aset_notin.
  - apply (Hsup chosen); [done|]. intros i Hi Hni. by apply foldl_aset_notin.
Qed.

Lemma extra_hints_fill_witness :
  length Examples.stuck_grid = 81%nat ∧ 0 ≤ 3 ∧
  ∃ chosen : list Z,
    NoDup chosen ∧
    Z.of_nat (length chosen) =
      Z.min 3 (Z.of_nat (length (empty_cells Examples.stuck_grid))) ∧
    chosen ⊆ empty_cells Examples.stuck_grid.
Proof.
  split; [reflexivity|]. split; [lia|].
  destruct (extra_hints_fill Examples.stuck_grid (replicate 81 5) 3
              (Examples.constant_rng 2)) as (chosen & H1 & H2 & H3 & _);
    [reflexivity|lia|].
  exists chosen. auto.
Defined.

End ExtraHints.

Module Snapshot.
Import Util Solver Sudoku Spec SudokuLoop ShuffleFacts.

Lemma agrees_refl s : agrees s s.
Proof. by intros k v Hk _. Qed.

Lemma agrees_clear s solution i : agrees s solution → agrees (aset s i 0) solution.
Proof.
  intros H k v Hk Hv. unfold aset in Hk.
  destruct (decide (Z.to_nat i = k)) as [<-|Hne].
  - apply list_lookup_insert_Some in Hk as [(_ & <- & _)|[? _]]; done.
  - rewrite list_lookup_insert_ne in Hk by done. eauto.
Qed.

Lemma aset_restore s i : aset (aset s i 0) i (aget s i) = s.
Proof.
  unfold aset, aget. rewrite list_insert_insert_eq.
  destruct (s !! Z.to_nat i) as [v|] eqn:Hv; simpl.
  - by apply list_insert_id.
  - apply list_insert_ge. by apply lookup_ge_None.
Qed.

Lemma agrees_write s solution i :
  agrees s solution → agrees (aset s i (aget solution i)) solution.
Proof.
  intros H k v Hk Hv. unfold aset, aget in Hk.
  destruct (decide (Z.to_nat i = k)) as [<-|Hne].
  - apply list_lookup_insert_Some in Hk as [(_ & <- & _)|[? _]]; [|done].
    destruct (solution !! Z.to_nat i); done.
  - rewrite list_lookup_insert_ne in Hk by done. eauto.
Qed.

Lemma loop_inv {St} (P : St → Prop) n (body : Z → St → St) s :
  P s → (∀ i s, 0 ≤ i < n → P s → P (body i s)) → P (loop n body s).
Proof.
  intros Hs Hb. destruct (Z.le_gt_cases n 0) as [Hn|Hn].
  { by rewrite loop_nil. }
  assert (H : ∀ k : nat, Z.of_nat k ≤ n → P (loop (Z.of_nat k) body s)).
  { induction k as [|k IH]; intros Hk; [done|].
    rewrite Nat2Z.inj_succ, <- Z.add_1_r, loop_succ by lia. apply Hb; [lia|].
    apply IH. lia. }
  specialize (H (Z.to_nat n)). rewrite Z2Nat.id in H by lia. apply H. lia.
Qed.

Lemma for_range_inv {St} (P : St → Prop) lo hi (body : Z → St → res St) s s' :
  P s → (∀ i s s', lo ≤ i < hi → P s → body i s = Ok s' → P s') →
  for_range lo hi body s = Ok s' → P s'.
Proof.
  intros Hs Hb. unfold for_range.
  assert (H : ∀ (k : nat) lo' s, lo ≤ lo' → lo' + Z.of_nat k ≤ hi `max` lo' → P s →
            for_loop k lo' body s = Ok s' → P s').
  { induction k as [|k IH]; intros lo' s1 Hlo Hhi Hs1 Hrun.
    - by injection Hrun as <-.
    - rewrite for_loop_S in Hrun. destruct (body lo' s1) as [s2|] eqn:Hs2; [|done].
      rewrite bind_Ok in Hrun. apply (IH (lo' + 1) s2); [lia|lia| |done].
      apply (Hb lo' s1); [lia|done..]. }
  apply H; [lia|lia|done].
Qed.

Lemma remove_deduced_hints_agrees s solution order n :
  agrees s solution → agrees (remove_deduced_hints s order n) solution.
Proof.
  intros H. unfold remove_deduced_hints.
  match goal with |- context [loop n ?b ?s0] =>
    assert (Hl : agrees (loop n b s0).1.1.1 solution) end.
  { apply (loop_inv (λ st, agrees st.1.1.1 solution)); [done|].
    intros i [[[s1 rm] cm] sm] _ Hs1. simpl in Hs1.
    case_match; simpl; [|done]. by apply agrees_clear. }
  destruct (loop n _ _) as [[[s1 rm] cm] sm]. done.
Qed.

Lemma check_hint_agrees fuel order i s r s' r' solution :
  agrees s solution → check_hint fuel order i (s, r) = Ok (s', r') →
  agrees s' solution.
Proof.
  intros H. unfold check_hint.
  set (idx := GRID_IDX (GRID_X (aget order i)) (GRID_Y (aget order i))).
  destruct (negb (aget s idx =? 0)); [|by intros [= <- <-]].
  destruct (get_dlx_cells (aset s idx 0)) as [[[cells cnt] nc] nr].
  destruct (solver_init_graph _ _ _) as [checker|]; [|done]. rewrite bind_Ok.
  destruct (solver_run _ _ _ _ _ _) as [[[u ?] r1]|]; [|done]. rewrite bind_Ok.
  intros [= <- <-]. destruct u; simpl.
  - by apply agrees_clear.
  - by rewrite aset_restore.
Qed.

Lemma remove_non_unique_hints_agrees fuel s order n r s' r' solution :
  agrees s solution → remove_non_unique_hints fuel s order n r = Ok (s', r') →
  agrees s' solution.
Proof.
  intros H Hrun. unfold remove_non_unique_hints in Hrun.
  apply (for_range_inv (λ st, agrees st.1 solution)) in Hrun; [done..|].
  intros i [s1 r1] [s2 r2] _ Hs1 Hstep. by eapply check_hint_agrees.
Qed.

Lemma add_extra_hints_agrees s solution num r :
  agrees s solution → agrees (add_extra_hints s solution num r).1 solution.
Proof.
  intros H. unfold add_extra_hints. destruct (num <=? 0); [done|].
  destruct (loop GRID_SIZE _ _) as [hints nch].
  destruct (shuffle hints nch r) as [hints' r']. simpl.
  apply (loop_inv (λ st, agrees st solution)); [done|].
  intros i s1 _ Hs1. by apply agrees_write.
Qed.

(** C10: once the solved grid is copied aside, each later stage of the
    generation (remove_deduced_hints, remove_non_unique_hints,
    add_extra_hints) keeps every non-empty cell of the puzzle equal to the
    snapshot's cell, and so does the rest of sudoku_generate as a whole. *)
Theorem stages_keep_snapshot_values (s solution : sudoku) :
  agrees s solution →
  (∀ order n, agrees (remove_deduced_hints s order n) solution) ∧
  (∀ fuel order n r s' r',
     remove_non_unique_hints fuel s order n r = Ok (s', r') →
     agrees s' solution) ∧
  (∀ num r, agrees (add_extra_hints s solution num r).1 solution) ∧
  (∀ fuel old extra r log g,
     generate_from_solved fuel true s old extra r log = Ok g →
     reference g = s ∧ agrees (puzzle g) (reference g)).
Proof.
  intros H. split_and!.
  - intros. by apply remove_deduced_hints_agrees.
  - intros. by eapply remove_non_unique_hints_agrees.
  - intros. by apply add_extra_hints_agrees.
  - intros fuel old extra r log g. unfold generate_from_solved. cbn [negb].
    destruct (init_shuffled_array GRID_SIZE 0 r) as [hints r1].
    destruct (remove_non_unique_hints _ _ _ _ _) as [[s2 r2]|] eqn:Hrun; [|done].
    rewrite bind_Ok.
    pose proof (add_extra_hints_agrees s2 s extra r2) as Hadd.
    destruct (add_extra_hints s2 s extra r2) as [s3 r3]. intros [= <-].
    cbn [reference puzzle fst] in *.
    split; [done|]. apply Hadd.
    eapply remove_non_unique_hints_agrees; [|done].
    apply remove_deduced_hints_agrees, agrees_refl.
Qed.

End Snapshot.

Module GenerationFailure.
Import Util Solver Sudoku SudokuLoop ShuffleFacts Examples.

Lemma seed_shape r :
  ∃ numbers, numbers ≡ₚ seqZ 1 9 ∧ (seed r).1 = numbers ++ replicate 72 0.
Proof.
  unfold seed, init_shuffled_array.
  destruct (shuffle_prefix_perm ((λ i, i + 1) <$> seqZ 0 SUDOKU_SIZE) SUDOKU_SIZE r)
    as [Hlen Hperm]; [done|].
  destruct (shuffle _ SUDOKU_SIZE r) as [numbers r1]. simpl in Hlen, Hperm.
  exists numbers. split.
  - rewrite <- (take_ge numbers 9) by (rewrite Hlen; done). exact Hperm.
  - do 10 (destruct numbers as [|? numbers]; try done).
Qed.

End GenerationFailure.

Module SnapshotWitness.
Import Util Solver Sudoku Spec Examples Snapshot.

Lemma one_hint_checked :
  remove_non_unique_hints 400 solved_grid [40] 1 (constant_rng 0) =
    Ok (aset solved_grid 40 0, constant_rng 0).
Proof. vm_compute. reflexivity. Qed.

Lemma stages_keep_snapshot_values_witness :
  agrees solved_grid solved_grid ∧
  agrees (remove_deduced_hints solved_grid [40] 1) solved_grid ∧
  agrees (aset solved_grid 40 0) solved_grid.
Proof.
  split; [apply agrees_refl|].
  destruct (stages_keep_snapshot_values solved_grid solved_grid (agrees_refl _))
    as (H1 & H2 & _).
  split; [apply H1|]. exact (H2 _ _ _ _ _ _ one_hint_checked).
Defined.

End SnapshotWitness.

(** * Arena accesses *)

Module ArenaFacts.
Import Util Solver Dlx.

Lemma rd_Ok g p : is_Some (g !! p) → rd g p = Ok (nd g p).
Proof. intros [n Hn]. unfold rd, nd. by rewrite Hn. Qed.

Lemma upd_Ok g p f : is_Some (g !! p) → upd g p f = Ok (alter f p g).
Proof.
  intros [n Hn]. unfold upd. rewrite Hn. f_equal.
  apply map_eq. intros k. rewrite lookup_alter, lookup_insert.
  destruct (decide (p = k)) as [->|]; [by rewrite Hn|done].
Qed.

Lemma rd_inv g p n : rd g p = Ok n → is_Some (g !! p) ∧ n = nd g p.
Proof.
  unfold rd, nd. destruct (g !! p) as [m|] eqn:H; [|done].
  intros [= <-]. eauto.
Qed.

Lemma upd_inv g p f g' : upd g p f = Ok g' → is_Some (g !! p) ∧ g' = alter f p g.
Proof.
  intros H. assert (Hs : is_Some (g !! p)).
  { unfold upd in H. destruct (g !! p); [eauto|done]. }
  rewrite upd_Ok in H by done. by injection H as <-.
Qed.

Lemma is_Some_alter (f : node → node) p (g : arena) q :
  is_Some (alter f p g !! q) ↔ is_Some (g !! q).
Proof.
  rewrite lookup_alter. destruct (decide (p = q)) as [->|]; [|done].
  by rewrite fmap_is_Some.
Qed.

Lemma nd_alter_ne (f : node → node) p (g : arena) q :
  p ≠ q → nd (alter f p g) q = nd g q.
Proof. intros H. unfold nd. by rewrite lookup_alter_ne. Qed.

Lemma nd_alter_eq (f : node → node) p (g : arena) :
  is_Some (g !! p) → nd (alter f p g) p = f (nd g p).
Proof. intros [n Hn]. unfold nd. by rewrite lookup_alter_eq, Hn. Qed.

Lemma nd_alter (f : node → node) p (g : arena) q :
  is_Some (g !! p) →
  nd (alter f p g) q = if decide (p = q) then f (nd g q) else nd g q.
Proof.
  intros H. case_decide; [subst; by apply nd_alter_eq|by apply nd_alter_ne].
Qed.

(** A field that [f] does not write is the same after [alter f]. *)
Lemma field_alter {A} (proj : node → A) (f : node → node) p (g : arena) q :
  (∀ n, proj (f n) = proj n) → proj (nd (alter f p g) q) = proj (nd g q).
Proof.
  intros H. unfold nd. rewrite lookup_alter.
  destruct (decide (p = q)) as [->|]; [|done].
  destruct (g !! q); simpl; [apply H|done].
Qed.

Lemma fU_alter_ne (f : node → node) p (g : arena) q :
  p ≠ q → fU (alter f p g) q = fU g q.
Proof. intros. unfold fU. by rewrite nd_alter_ne. Qed.
Lemma fD_alter_ne (f : node → node) p (g : arena) q :
  p ≠ q → fD (alter f p g) q = fD g q.
Proof. intros. unfold fD. by rewrite nd_alter_ne. Qed.
Lemma fC_alter_ne (f : node → node) p (g : arena) q :
  p ≠ q → fC (alter f p g) q = fC g q.
Proof. intros. unfold fC. by rewrite nd_alter_ne. Qed.
Lemma fL_alter_ne (f : node → node) p (g : arena) q :
  p ≠ q → fL (alter f p g) q = fL g q.
Proof. intros. unfold fL. by rewrite nd_alter_ne. Qed.
Lemma fR_alter_ne (f : node → node) p (g : arena) q :
  p ≠ q → fR (alter f p g) q = fR g q.
Proof. intros. unfold fR. by rewrite nd_alter_ne. Qed.
Lemma fcount_alter_ne (f : node → node) p (g : arena) q :
  p ≠ q → fcount (alter f p g) q = fcount g q.
Proof. intros. unfold fcount. by rewrite nd_alter_ne. Qed.

Lemma size_alter (f : node → node) p (g : arena) : size (alter f p g) = size g.
Proof.
  rewrite <- !size_dom. f_equal. apply dom_alter_L.
Qed.

End ArenaFacts.

(** * Walks along one kind of link *)

Module SegFacts.
Import Dlx.

Lemma seg_ext f f' n ns stop :
  (∀ x, x ∈ ns → f x = f' x) → seg f n ns stop → seg f' n ns stop.
Proof.
  revert n. induction ns as [|x ns IH]; intros n Hf; [done|].
  intros (Hn & Hne & Hs). split_and!; [done..|].
  rewrite <- Hf by set_solver. apply IH; [|done]. intros y Hy. apply Hf. set_solver.
Qed.

Lemma seg_notin f n ns stop : seg f n ns stop → stop ∉ ns.
Proof.
  revert n. induction ns as [|x ns IH]; intros n; [set_solver|].
  intros (Hn & Hne & Hs). apply not_elem_of_cons. split; [done|]. by eapply IH.
Qed.

Lemma seg_snoc f n l x a :
  seg f n l x → a ∉ l → x ≠ a → f x = a → seg f n (l ++ [x]) a.
Proof.
  revert n. induction l as [|y l IH]; intros n Hs Ha Hx Hf.
  - simpl in *. by subst.
  - destruct Hs as (Hn & Hy & Hs). apply not_elem_of_cons in Ha as [Hay Ha].
    simpl. split_and!; [done..|]. by apply IH.
Qed.

(** Walking a circular list backwards with the inverse link. *)
Lemma seg_rev f g l a c :
  seg f (f a) l c → NoDup (a :: l) →
  (∀ x, x = a ∨ x ∈ l → g (f x) = x) → seg g (g c) (reverse l) a.
Proof.
  revert a. induction l as [|x l IH]; intros a Hs Hnd Hg.
  - simpl in *. rewrite <- Hs. apply Hg. by left.
  - destruct Hs as (Hx & Hxc & Hs). apply NoDup_cons in Hnd as [Ha Hnd].
    rewrite reverse_cons. apply seg_snoc.
    + apply IH; [done..|]. intros y Hy. apply Hg. set_solver.
    + rewrite elem_of_reverse. set_solver.
    + set_solver.
    + rewrite <- Hx. apply Hg. by left.
Qed.

Lemma ring_rev f g c l :
  ring f c l → NoDup l → (∀ x, x = c ∨ x ∈ l → g (f x) = x) →
  ring g c (reverse l).
Proof.
  intros Hr Hnd Hg. apply (seg_rev f); [done| |done].
  apply NoDup_cons. split; [|done]. by eapply seg_notin.
Qed.

Lemma walk_seg fuel f n ns stop :
  seg f n ns stop → (length ns < fuel)%nat → walk fuel f n stop = ns.
Proof.
  revert n ns. induction fuel as [|k IH]; intros n ns Hs Hl; [lia|].
  destruct ns as [|x ns]; simpl in *.
  - subst. by rewrite Z.eqb_refl.
  - destruct Hs as (-> & Hne & Hs). rewrite (proj2 (Z.eqb_neq _ _)) by done.
    f_equal. apply IH; [done|lia].
Qed.

(** Every member of a walk has its predecessor in the walk or at its start. *)
Lemma seg_pred f a l1 x l2 stop :
  seg f (f a) (l1 ++ x :: l2) stop → ∃ p, p ∈ a :: l1 ∧ f p = x.
Proof.
  revert a. induction l1 as [|y l1 IH]; intros a Hs.
  - destruct Hs as (Hx & _). exists a. set_solver.
  - destruct Hs as (Hy & _ & Hs). destruct (IH y Hs) as (p & Hp & Hfp).
    exists p. set_solver.
Qed.

Lemma seg_succ f n l1 x l2 stop :
  seg f n (l1 ++ x :: l2) stop → f x = stop ∨ f x ∈ l2.
Proof.
  revert n. induction l1 as [|y l1 IH]; intros n Hs.
  - destruct Hs as (_ & _ & Hs). destruct l2 as [|z l2]; simpl in Hs.
    + by left.
    + right. destruct Hs as (-> & _). set_solver.
  - destruct Hs as (_ & _ & Hs). by eapply IH.
Qed.

(** Taking [x] out of a circular list: its predecessor [p] is made to point
    to its successor. *)
Lemma seg_remove f f' a l1 x l2 stop p :
  seg f (f a) (l1 ++ x :: l2) stop →
  NoDup (a :: l1 ++ x :: l2) →
  p ∈ a :: l1 → f p = x →
  f' p = f x → (∀ y, y ≠ p → f' y = f y) →
  seg f' (f' a) (l1 ++ l2) stop.
Proof.
  revert a. induction l1 as [|y l1 IH]; intros a Hs Hnd Hp Hpx Hp' Hf.
  - simpl in *. destruct Hs as (Hx & Hxs & Hs).
    apply list_elem_of_singleton in Hp as ->. rewrite Hp'.
    apply (seg_ext f); [|done]. intros z Hz. symmetry. apply Hf.
    apply NoDup_cons in Hnd as [Ha _]. set_solver.
  - destruct Hs as (Hy & Hys & Hs). apply NoDup_cons in Hnd as [Ha Hnd].
    assert (Hpa : p ≠ a).
    { intros ->. rewrite Hy in Hpx. subst y.
      apply NoDup_cons in Hnd as [Hx _]. set_solver. }
    simpl. rewrite Hf by done. rewrite Hy. split_and!; [done..|].
    apply IH; [done..| |done|done|done]. set_solver.
Qed.

Lemma filter_all {A} (P : A → Prop) `{!∀ x, Decision (P x)} (l : list A) :
  (∀ x, x ∈ l → P x) → filter P l = l.
Proof.
  induction l as [|x l IH]; intros Hall; [done|].
  rewrite filter_cons_True by (apply Hall; set_solver).
  f_equal. apply IH. intros y Hy. apply Hall. set_solver.
Qed.

Lemma filter_out_one (l1 l2 : list Z) m :
  NoDup (l1 ++ m :: l2) → filter (λ x, x ∉ [m]) (l1 ++ m :: l2) = l1 ++ l2.
Proof.
  intros Hnd. apply NoDup_app in Hnd as (_ & H12 & [Hm _]%NoDup_cons).
  rewrite filter_app, filter_cons_False by set_solver.
  rewrite !filter_all; [done|set_solver|].
  intros x Hx. specialize (H12 x Hx). set_solver.
Qed.

Lemma seg_suffix f n l1 x l2 stop :
  seg f n (l1 ++ x :: l2) stop → seg f (f x) l2 stop.
Proof.
  revert n. induction l1 as [|y l1 IH]; intros n Hs.
  - by destruct Hs as (_ & _ & Hs).
  - destruct Hs as (_ & _ & Hs). by eapply IH.
Qed.

End SegFacts.

(** * Unlinking one node and linking it back *)

Module UnlinkFacts.
Import Util Solver Dlx ArenaFacts SegFacts.

Lemma sz_dec_inc c : 0 ≤ c < size_modulus → sz (sz (c - 1) + 1) = c.
Proof.
  intros H. rewrite !sz_spec. unfold size_modulus in *.
  rewrite Zplus_mod_idemp_l. replace (c - 1 + 1) with c by lia.
  apply Z.mod_small. lia.
Qed.

Lemma sz_range c : 0 ≤ sz c < size_modulus.
Proof. rewrite sz_spec. apply Z.mod_pos_bound. done. Qed.

Lemma unlinkP_unfold g n :
  n ≠ fU g n → n ≠ fD g n →
  unlinkP n g =
    alter (λ h, set_count (sz (count h - 1)) h) (fC g n)
      (alter (set_up (fU g n)) (fD g n)
         (alter (set_down (fD g n)) (fU g n) g)).
Proof.
  intros Hu Hd. unfold unlinkP. cbv zeta.
  rewrite !fU_alter_ne, !fD_alter_ne, !fC_alter_ne by congruence. done.
Qed.

Lemma unlink_Ok g n :
  is_Some (g !! n) → is_Some (g !! fU g n) → is_Some (g !! fD g n) →
  is_Some (g !! fC g n) → n ≠ fU g n → n ≠ fD g n →
  unlink n g = Ok (unlinkP n g).
Proof.
  intros Hn Hu Hd Hc Hnu Hnd. rewrite unlinkP_unfold by done. unfold unlink.
  rewrite rd_Ok by done. rewrite bind_Ok. fold (fU g n) (fD g n).
  rewrite upd_Ok by done. rewrite bind_Ok.
  rewrite rd_Ok by (by apply is_Some_alter). rewrite bind_Ok.
  rewrite nd_alter_ne by done. fold (fU g n) (fD g n).
  rewrite upd_Ok by (by apply is_Some_alter). rewrite bind_Ok.
  rewrite rd_Ok by (by rewrite !is_Some_alter). rewrite bind_Ok.
  rewrite !nd_alter_ne by done. fold (fC g n).
  rewrite upd_Ok by (by rewrite !is_Some_alter). done.
Qed.

Lemma relink_unlink g n : linked g n → relinkP n (unlinkP n g) = g.
Proof.
  intros (Hdu & Hud & Hnu & Hnd & Hnc & Hn & Hu & Hd & Hc & Hcnt).
  rewrite unlinkP_unfold by done. unfold relinkP. cbv zeta.
  rewrite !fU_alter_ne, !fD_alter_ne, !fC_alter_ne by congruence.
  remember (fU g n) as p eqn:Ep. remember (fD g n) as s eqn:Es.
  remember (fC g n) as h eqn:Eh. clear Ep Es Eh.
  unfold fD, fU, fcount, nd in Hdu, Hud, Hcnt.
  apply map_eq. intros k. rewrite !lookup_alter.
  destruct (g !! k) as [[l r u d c ct rn]|] eqn:Hk;
    repeat case_decide; simplify_eq; simpl; try done;
    rewrite ?Hk in *; simpl in *; unfold set_down, set_up, set_count; simpl;
    simplify_eq; rewrite ?sz_dec_inc by done; done.
Qed.

Lemma unlinkP_fields g n :
  n ≠ fU g n → n ≠ fD g n →
  is_Some (g !! fU g n) → is_Some (g !! fD g n) → is_Some (g !! fC g n) →
  (∀ x, fL (unlinkP n g) x = fL g x) ∧
  (∀ x, fR (unlinkP n g) x = fR g x) ∧
  (∀ x, fC (unlinkP n g) x = fC g x) ∧
  (∀ x, frow (unlinkP n g) x = frow g x) ∧
  (∀ x, fD (unlinkP n g) x = if decide (x = fU g n) then fD g n else fD g x) ∧
  (∀ x, fU (unlinkP n g) x = if decide (x = fD g n) then fU g n else fU g x) ∧
  (∀ x, fcount (unlinkP n g) x =
        if decide (x = fC g n) then sz (fcount g x - 1) else fcount g x) ∧
  (∀ x, is_Some (unlinkP n g !! x) ↔ is_Some (g !! x)).
Proof.
  intros Hnu Hnd Hu Hd Hc. rewrite unlinkP_unfold by done.
  remember (fU g n) as p eqn:Ep. remember (fD g n) as s eqn:Es.
  remember (fC g n) as h eqn:Eh. clear Ep Es Eh.
  split_and!; intros x; unfold fL, fR, fC, frow, fD, fU, fcount;
    rewrite ?is_Some_alter; try done;
    rewrite !nd_alter by (rewrite ?is_Some_alter; done);
    repeat case_decide; simplify_eq; try done;
    match goal with |- context [nd g ?y] => by destruct (nd g y) end.
Qed.

Lemma relink_Ok g n :
  is_Some (g !! n) → is_Some (g !! fU g n) → is_Some (g !! fD g n) →
  is_Some (g !! fC g n) → n ≠ fU g n → n ≠ fD g n →
  relink n g = Ok (relinkP n g).
Proof.
  intros Hn Hu Hd Hc Hnu Hnd. unfold relink, relinkP. cbv zeta.
  rewrite rd_Ok by done. rewrite bind_Ok. fold (fU g n).
  rewrite upd_Ok by done. rewrite bind_Ok.
  rewrite rd_Ok by (by apply is_Some_alter). rewrite bind_Ok.
  fold (fD (alter (set_down n) (fU g n) g) n).
  rewrite (fD_alter_ne _ (fU g n)) by congruence.
  rewrite upd_Ok by (by apply is_Some_alter). rewrite bind_Ok.
  rewrite rd_Ok by (by rewrite !is_Some_alter). rewrite bind_Ok.
  fold (fC (alter (set_up n) (fD g n) (alter (set_down n) (fU g n) g)) n).
  rewrite !fC_alter_ne by congruence.
  rewrite upd_Ok by (by rewrite !is_Some_alter). done.
Qed.

(** [relink] undoes the [unlink] of a linked node. *)
Lemma relink_after_unlink g n : linked g n → relink n (unlinkP n g) = Ok g.
Proof.
  intros Hl. pose proof Hl as (Hdu & Hud & Hnu & Hnd & Hnc & Hn & Hu & Hd & Hc & Hcnt).
  pose proof (unlinkP_fields g n Hnu Hnd Hu Hd Hc)
    as (_ & _ & HC & _ & HD & HU & _ & Hdom).
  assert (EU : fU (unlinkP n g) n = fU g n) by (rewrite HU; by rewrite decide_False).
  assert (ED : fD (unlinkP n g) n = fD g n) by (rewrite HD; by rewrite decide_False).
  rewrite relink_Ok; rewrite ?EU, ?ED, ?HC, ?Hdom; try done.
  f_equal. by apply relink_unlink.
Qed.

Section unlink_inv.
Variables (nc nu : Z) (rw : Z → list Z).

Lemma node_not_header x c : is_node nc nu x → is_header nc c → x ≠ c.
Proof. unfold is_node, is_header. lia. Qed.

Lemma col_of_node g x : is_node nc nu x → col_of nc g x = fC g x.
Proof.
  intros H. unfold col_of. destruct (Z.ltb_spec x nc); [|done].
  unfold is_node in H. lia.
Qed.

Lemma col_of_header g c : is_header nc c → col_of nc g c = c.
Proof.
  intros H. unfold col_of. destruct (Z.ltb_spec c nc); [done|].
  unfold is_header in H. lia.
Qed.

Lemma vert_in_range vl g c x :
  vert nc nu vl g → is_header nc c → nc < nu → x = c ∨ x ∈ vl c → 0 ≤ x < nu.
Proof.
  intros Hv Hc Hlt [->|Hx].
  - unfold is_header in Hc. lia.
  - apply (dy_vnode _ _ _ _ Hv c) in Hx as [Hx _]; [|done].
    unfold is_node, is_header in *. lia.
Qed.

Lemma vert_linked vl g m :
  static nc nu rw g → vert nc nu vl g → is_node nc nu m → m ∈ vl (fC g m) →
  linked g m.
Proof.
  intros Hs Hv Hm Hin. set (h := fC g m) in *.
  assert (Hh : is_header nc h) by by apply (st_col _ _ _ _ Hs).
  pose proof (st_bounds _ _ _ _ Hs) as (Hb1 & Hb2 & Hb3).
  pose proof (node_not_header _ _ Hm Hh) as Hmh.
  destruct (list_elem_of_split _ _ Hin) as (l1 & l2 & Hl).
  pose proof (dy_vring _ _ _ _ Hv h Hh) as Hr. unfold ring in Hr. rewrite Hl in Hr.
  pose proof (dy_vnodup _ _ _ _ Hv h Hh) as Hnd. rewrite Hl in Hnd.
  apply NoDup_app in Hnd as (Hnd1 & Hnd12 & Hnd2).
  apply NoDup_cons in Hnd2 as [Hm2 Hnd2].
  destruct (seg_pred _ _ _ _ _ _ Hr) as (p & Hp & Hpm).
  assert (Hpin : p = h ∨ p ∈ vl h).
  { rewrite Hl. set_solver. }
  pose proof (dy_vback _ _ _ _ Hv h p Hh Hpin) as Hbp. rewrite Hpm in Hbp.
  pose proof (dy_vback _ _ _ _ Hv h m Hh (or_intror Hin)) as Hbm.
  pose proof (seg_succ _ _ _ _ _ _ Hr) as Hsucc.
  assert (Hsin : fD g m = h ∨ fD g m ∈ vl h).
  { rewrite Hl. set_solver. }
  unfold linked. fold h. rewrite Hbp. split_and!; try done.
  - intros ->. apply elem_of_cons in Hp as [?|Hp]; [by apply Hmh|].
    apply (Hnd12 p Hp). set_solver.
  - intros Heq. destruct Hsucc as [?|Hsucc]; [apply Hmh; congruence|].
    rewrite <- Heq in Hsucc. done.
  - apply (st_dom _ _ _ _ Hs). unfold is_node in Hm. lia.
  - apply (st_dom _ _ _ _ Hs). by eapply vert_in_range.
  - apply (st_dom _ _ _ _ Hs). by eapply vert_in_range.
  - apply (st_dom _ _ _ _ Hs). unfold is_header in Hh. lia.
  - by apply (dy_crange _ _ _ _ Hv).
  - by apply (dy_crange _ _ _ _ Hv).
Qed.

Lemma static_frame g g' :
  static nc nu rw g →
  (∀ x, fL g' x = fL g x) → (∀ x, fR g' x = fR g x) →
  (∀ x, fC g' x = fC g x) → (∀ x, frow g' x = frow g x) →
  (∀ x, is_Some (g' !! x) ↔ is_Some (g !! x)) →
  static nc nu rw g'.
Proof.
  intros [] HL HR HC Hrow Hdom. split; try done.
  - intros x Hx. apply Hdom. auto.
  - intros x Hx. rewrite HC. auto.
  - intros x Hx. unfold ring. rewrite HR.
    apply (seg_ext (fR g)); [by intros|]. by apply st_ring0.
  - intros x m Hx Hm. rewrite !Hrow. auto.
  - intros x Hx. rewrite HR, HL. auto.
  - intros x y Hx Hy. rewrite !Hrow. auto.
  - intros x y Hx Hy. rewrite !Hrow, !HC. auto.
Qed.

Lemma horiz_frame hs g g' :
  horiz nc hs g →
  (∀ x, fL g' x = fL g x) → (∀ x, fR g' x = fR g x) →
  horiz nc hs g'.
Proof.
  intros [] HL HR. split; try done.
  - intros x Hx. rewrite HL, HR. auto.
  - unfold ring. rewrite HR. apply (seg_ext (fR g)); [by intros|]. done.
  - intros x Hx. rewrite HR, HL. auto.
Qed.

Lemma unlink_vert vl g m :
  static nc nu rw g → vert nc nu vl g → is_node nc nu m → m ∈ vl (fC g m) →
  vert nc nu (vl_del [m] vl) (unlinkP m g).
Proof.
  intros Hs Hv Hm Hin.
  pose proof (vert_linked vl g m Hs Hv Hm Hin)
    as (Hdu & Hud & Hnu & Hnd & Hnc & Hnm & Hu & Hd & Hc & Hcr).
  pose proof (unlinkP_fields g m Hnu Hnd Hu Hd Hc)
    as (HL & HR & HC & Hrow & HD & HU & Hcnt & Hdom).
  assert (Hcol : ∀ x, col_of nc (unlinkP m g) x = col_of nc g x).
  { intros x. unfold col_of. by rewrite HC. }
  remember (fC g m) as h eqn:Eh. remember (fU g m) as p eqn:Ep.
  remember (fD g m) as s eqn:Es.
  assert (Hh : is_header nc h) by (subst h; by apply (st_col _ _ _ _ Hs)).
  pose proof (st_bounds _ _ _ _ Hs) as (Hb1 & Hb2 & Hb3).
  assert (Hmr : 0 ≤ m < nu ∧ m ≠ nc) by (unfold is_node in Hm; lia).
  destruct (dy_vtype _ _ _ _ Hv m (proj1 Hmr) (proj2 Hmr))
    as [(Hp1 & Hp2 & Hp3) (Hs1 & Hs2 & Hs3)].
  rewrite (col_of_node g m Hm), <- Eh in Hp3, Hs3.
  rewrite <- Ep in Hp1, Hp2, Hp3. rewrite <- Es in Hs1, Hs2, Hs3.
  destruct (list_elem_of_split _ _ Hin) as (l1 & l2 & Hl).
  pose proof (dy_vring _ _ _ _ Hv h Hh) as Hr. unfold ring in Hr. rewrite Hl in Hr.
  pose proof (dy_vnodup _ _ _ _ Hv h Hh) as Hndh. rewrite Hl in Hndh.
  assert (Hother : ∀ c, is_header nc c → c ≠ h → m ∉ vl c).
  { intros c Hc' Hne Hmc. apply (dy_vnode _ _ _ _ Hv c m Hc') in Hmc as [_ ?]. congruence. }
  assert (Hdel : ∀ c, is_header nc c → c ≠ h → vl_del [m] vl c = vl c).
  { intros c Hc' Hne. unfold vl_del. apply filter_all. intros x Hx Hxm.
    apply list_elem_of_singleton in Hxm as ->. by apply (Hother c). }
  assert (Hdelh : vl_del [m] vl h = l1 ++ l2).
  { unfold vl_del. rewrite Hl. by apply filter_out_one. }
  assert (Hsub : ∀ c x, x ∈ vl_del [m] vl c → x ∈ vl c ∧ x ≠ m).
  { intros c x [Hx1 Hx2]%list_elem_of_filter. set_solver. }
  assert (Hcolx : ∀ c x, is_header nc c → x = c ∨ x ∈ vl c → col_of nc g x = c).
  { intros c x Hc' [->|Hx]; [by apply col_of_header|].
    apply (dy_vnode _ _ _ _ Hv c x Hc') in Hx as [Hx1 Hx2].
    by rewrite col_of_node. }
  split.
  - intros x Hx1 Hx2. rewrite HU, HD, !Hcol.
    destruct (dy_vtype _ _ _ _ Hv x Hx1 Hx2) as [(?&?&?) (?&?&?)].
    split.
    + destruct (decide (x = s)) as [->|]; [|done]. split_and!; try lia; try done; congruence.
    + destruct (decide (x = p)) as [->|]; [|done]. split_and!; try lia; try done; congruence.
  - intros c Hc'. destruct (decide (c = h)) as [->|Hne].
    + rewrite Hdelh. unfold ring.
      destruct (seg_pred _ _ _ _ _ _ Hr) as (p' & Hp' & Hpm).
      assert (p' = p) as ->.
      { rewrite Ep, <- Hpm. symmetry. apply (dy_vback _ _ _ _ Hv h); [done|].
        rewrite Hl. set_solver. }
      apply (seg_remove (fD g) _ _ _ m _ _ p); try done.
      * apply NoDup_cons. split; [|done]. rewrite <- Hl. by eapply seg_notin, dy_vring.
      * rewrite HD. by rewrite decide_True.
      * intros y Hy. rewrite HD. by rewrite decide_False.
    + rewrite Hdel by done. unfold ring.
      assert (Hcp : ∀ x, x = c ∨ x ∈ vl c → fD (unlinkP m g) x = fD g x).
      { intros x Hx. rewrite HD. rewrite decide_False; [done|].
        intros ->. apply Hne. rewrite <- Hp3. symmetry. by apply Hcolx. }
      rewrite Hcp by by left. apply (seg_ext (fD g)).
      * intros x Hx. symmetry. apply Hcp. by right.
      * by apply (dy_vring _ _ _ _ Hv).
  - intros c Hc'. unfold vl_del. apply NoDup_filter. by apply (dy_vnodup _ _ _ _ Hv).
  - intros c x Hc' [Hx _]%Hsub. rewrite HC. by apply (dy_vnode _ _ _ _ Hv).
  - intros c x Hc' Hx.
    assert (Hx' : (x = c ∨ x ∈ vl c) ∧ x ≠ m).
    { destruct Hx as [->|[? ?]%Hsub]; [|by auto]. split; [by left|].
      intros ->. by eapply node_not_header. }
    destruct Hx' as [Hx' Hxm].
    pose proof (dy_vback _ _ _ _ Hv c x Hc' Hx') as Hbx.
    rewrite HD. case_decide as Hxp.
    + rewrite HU. by rewrite decide_True.
    + rewrite HU. case_decide as Hys; [|done].
      exfalso. apply Hxm. rewrite <- Hbx, Hys. done.
  - intros c Hc'. rewrite Hcnt. case_decide as Hch.
    + subst c. rewrite Hdelh. rewrite (dy_count _ _ _ _ Hv h Hh), Hl.
      rewrite !length_app. simpl. rewrite sz_small; [lia|].
      pose proof (dy_crange _ _ _ _ Hv h Hh) as Hrange.
      rewrite (dy_count _ _ _ _ Hv h Hh), Hl, length_app in Hrange. simpl in Hrange.
      lia.
    + rewrite Hdel by done. by apply (dy_count _ _ _ _ Hv).
  - intros c Hc'. rewrite Hcnt. case_decide.
    + apply sz_range.
    + by apply (dy_crange _ _ _ _ Hv).
Qed.

End unlink_inv.

End UnlinkFacts.

(** * Hiding a header, unlinking a list of nodes *)

Module CoverFacts.
Import Util Solver Dlx ArenaFacts SegFacts UnlinkFacts.

(** Removing [x] from a doubly linked circular list given by [nx] and its
    inverse [pv]. *)
Lemma dring_remove (nx pv nx' pv' : Z → Z) a l1 x l2 :
  seg nx (nx a) (l1 ++ x :: l2) a → NoDup (l1 ++ x :: l2) →
  (∀ y, y = a ∨ y ∈ l1 ++ x :: l2 → pv (nx y) = y) →
  (∀ y, nx' y = if decide (y = pv x) then nx x else nx y) →
  (∀ y, pv' y = if decide (y = nx x) then pv x else pv y) →
  seg nx' (nx' a) (l1 ++ l2) a ∧
  (∀ y, y = a ∨ y ∈ l1 ++ l2 → pv' (nx' y) = y) ∧
  pv x ∈ a :: l1 ∧ (nx x = a ∨ nx x ∈ l2) ∧ nx (pv x) = x.
Proof.
  intros Hr Hnd Hback Hnx Hpv.
  assert (Ha : a ∉ l1 ++ x :: l2) by by eapply seg_notin.
  destruct (seg_pred _ _ _ _ _ _ Hr) as (p & Hp & Hpx).
  assert (Hpp : pv x = p).
  { rewrite <- Hpx. apply Hback. set_solver. }
  pose proof (seg_succ _ _ _ _ _ _ Hr) as Hsucc.
  rewrite Hpp in *. split_and!; try done.
  - apply (seg_remove nx _ _ _ x _ _ p); try done.
    + by apply NoDup_cons.
    + rewrite Hnx. by rewrite decide_True.
    + intros y Hy. rewrite Hnx. by rewrite decide_False.
  - intros y Hy.
    assert (Hy' : y = a ∨ y ∈ l1 ++ x :: l2) by set_solver.
    assert (Hyx : y ≠ x).
    { intros ->. destruct Hy as [->|Hy]; [set_solver|].
      apply NoDup_app in Hnd as (_ & H12 & [Hx2 _]%NoDup_cons).
      apply elem_of_app in Hy as [Hy|Hy]; [|done]. apply (H12 x Hy). set_solver. }
    rewrite Hnx. case_decide as Hyp.
    + rewrite Hpv. by rewrite decide_True.
    + rewrite Hpv. case_decide as Hys; [|by apply Hback].
      exfalso. apply Hyx. rewrite <- (Hback y Hy'), Hys. apply Hback. set_solver.
Qed.

Lemma hideP_unfold g c :
  c ≠ fL g c →
  hideP c g = alter (set_left (fL g c)) (fR g c) (alter (set_right (fR g c)) (fL g c) g).
Proof.
  intros H. unfold hideP. cbv zeta. rewrite fL_alter_ne, fR_alter_ne by congruence. done.
Qed.

Lemma hideP_fields g c :
  c ≠ fL g c → is_Some (g !! fL g c) → is_Some (g !! fR g c) →
  (∀ x, fU (hideP c g) x = fU g x) ∧
  (∀ x, fD (hideP c g) x = fD g x) ∧
  (∀ x, fC (hideP c g) x = fC g x) ∧
  (∀ x, frow (hideP c g) x = frow g x) ∧
  (∀ x, fcount (hideP c g) x = fcount g x) ∧
  (∀ x, fR (hideP c g) x = if decide (x = fL g c) then fR g c else fR g x) ∧
  (∀ x, fL (hideP c g) x = if decide (x = fR g c) then fL g c else fL g x) ∧
  (∀ x, is_Some (hideP c g !! x) ↔ is_Some (g !! x)).
Proof.
  intros Hne Hl Hr. rewrite hideP_unfold by done.
  remember (fL g c) as l eqn:El. remember (fR g c) as r eqn:Er. clear El Er.
  split_and!; intros x; unfold fL, fR, fC, frow, fD, fU, fcount;
    rewrite ?is_Some_alter; try done;
    rewrite !nd_alter by (rewrite ?is_Some_alter; done);
    repeat case_decide; simplify_eq; try done;
    match goal with |- context [nd g ?y] => by destruct (nd g y) end.
Qed.

Lemma hide_Ok fuel g c :
  c ≠ fL g c → is_Some (g !! c) → is_Some (g !! fL g c) → is_Some (g !! fR g c) →
  cover fuel c g = cover_rows fuel fuel c (fD g c) (hideP c g).
Proof.
  intros Hne Hc Hl Hr. unfold cover.
  pose proof (hideP_fields g c Hne Hl Hr) as (_ & HD & _).
  rewrite <- HD. rewrite hideP_unfold by done.
  rewrite rd_Ok by done. rewrite bind_Ok. fold (fL g c) (fR g c).
  rewrite upd_Ok by done. rewrite bind_Ok.
  rewrite rd_Ok by (by apply is_Some_alter). rewrite bind_Ok.
  rewrite nd_alter_ne by congruence. fold (fL g c) (fR g c).
  rewrite upd_Ok by (by apply is_Some_alter). rewrite bind_Ok.
  rewrite rd_Ok by (by rewrite !is_Some_alter). rewrite bind_Ok. done.
Qed.

Lemma show_hide g c :
  c ≠ fL g c → c ≠ fR g c → is_Some (g !! fL g c) → is_Some (g !! fR g c) →
  fR g (fL g c) = c → fL g (fR g c) = c →
  showP c (hideP c g) = g.
Proof.
  intros Hl Hr Hsl Hsr Hrl Hlr.
  pose proof (hideP_fields g c Hl Hsl Hsr) as (_ & _ & _ & _ & _ & HR & HL & _).
  unfold showP. cbv zeta.
  assert (E1 : fL (hideP c g) c = fL g c).
  { rewrite HL. by rewrite decide_False. }
  rewrite E1. rewrite fR_alter_ne by congruence.
  assert (E2 : fR (hideP c g) c = fR g c).
  { rewrite HR. by rewrite decide_False. }
  rewrite E2. rewrite hideP_unfold by done.
  remember (fL g c) as l eqn:El. remember (fR g c) as r eqn:Er. clear El Er E1 E2 HR HL.
  unfold fR, fL, nd in Hrl, Hlr.
  apply map_eq. intros k. rewrite !lookup_alter.
  destruct (g !! k) as [[l0 r0 u d c0 ct rn]|] eqn:Hk;
    repeat case_decide; simplify_eq; simpl; try done;
    rewrite ?Hk in *; simpl in *; unfold set_left, set_right; simpl;
    simplify_eq; done.
Qed.

Lemma vl_del_nil vl c : vl_del [] vl c = vl c.
Proof. unfold vl_del. apply filter_all. set_solver. Qed.

Lemma vl_del_app ms1 ms2 vl c :
  vl_del ms2 (vl_del ms1 vl) c = vl_del (ms1 ++ ms2) vl c.
Proof.
  unfold vl_del. rewrite list_filter_filter. apply list_filter_iff.
  intros x. set_solver.
Qed.

Lemma vl_del_id ms vl c : (∀ m, m ∈ ms → m ∉ vl c) → vl_del ms vl c = vl c.
Proof. intros H. unfold vl_del. apply filter_all. set_solver. Qed.

Section cover_inv.
Variables (nc nu : Z) (rw : Z → list Z).

Lemma vert_ext vl vl' g :
  (∀ c, vl c = vl' c) → vert nc nu vl g → vert nc nu vl' g.
Proof.
  intros E []. split; try done; intros c; intros; rewrite <- ?E in *; eauto.
Qed.

(** Unlinking removable nodes keeps the structure; the column lists lose
    these nodes. *)
Lemma unlinks_inv hs vl g ms :
  static nc nu rw g → vert nc nu vl g → horiz nc hs g → removable nc nu vl g ms →
  static nc nu rw (unlinksP ms g) ∧ vert nc nu (vl_del ms vl) (unlinksP ms g) ∧
  horiz nc hs (unlinksP ms g) ∧
  (∀ x, fC (unlinksP ms g) x = fC g x) ∧
  (∀ x, fR (unlinksP ms g) x = fR g x) ∧
  (∀ x, fL (unlinksP ms g) x = fL g x).
Proof.
  revert g vl. induction ms as [|m ms IH]; intros g vl Hs Hv Hh [Hnd Hin].
  - simpl. split_and!; try done. eapply vert_ext; [|done]. intros c.
    by rewrite vl_del_nil.
  - apply NoDup_cons in Hnd as [Hm Hnd].
    destruct (Hin m) as [Hmn Hmv]; [set_solver|].
    pose proof (vert_linked nc nu rw vl g m Hs Hv Hmn Hmv)
      as (_ & _ & Hnu & Hnd' & _ & _ & Hu & Hd & Hc & _).
    pose proof (unlinkP_fields g m Hnu Hnd' Hu Hd Hc)
      as (HL & HR & HC & Hrow & _ & _ & _ & Hdom).
    pose proof (unlink_vert nc nu rw vl g m Hs Hv Hmn Hmv) as Hv1.
    pose proof (static_frame nc nu rw g _ Hs HL HR HC Hrow Hdom) as Hs1.
    pose proof (horiz_frame nc hs g _ Hh HL HR) as Hh1.
    destruct (IH (unlinkP m g) (vl_del [m] vl) Hs1 Hv1 Hh1)
      as (IH1 & IH2 & IH3 & IH4 & IH5 & IH6).
    { split; [done|]. intros m' Hm'. destruct (Hin m') as [? ?]; [set_solver|].
      split; [done|]. rewrite HC. apply list_elem_of_filter. split; [|done].
      set_solver. }
    simpl. split_and!; try done.
    + eapply vert_ext; [|done]. intros c. by rewrite vl_del_app.
    + intros x. by rewrite IH4.
    + intros x. by rewrite IH5.
    + intros x. by rewrite IH6.
Qed.

Lemma unlinks_fC vl g ms :
  static nc nu rw g → vert nc nu vl g → removable nc nu vl g ms →
  ∀ x, fC (unlinksP ms g) x = fC g x.
Proof.
  revert g vl. induction ms as [|m ms IH]; intros g vl Hs Hv [Hnd Hin]; [done|].
  apply NoDup_cons in Hnd as [Hm Hnd].
  destruct (Hin m) as [Hmn Hmv]; [set_solver|].
  pose proof (vert_linked nc nu rw vl g m Hs Hv Hmn Hmv)
    as (_ & _ & Hnu & Hnd' & _ & _ & Hu & Hd & Hc & _).
  pose proof (unlinkP_fields g m Hnu Hnd' Hu Hd Hc)
    as (HL & HR & HC & Hrow & _ & _ & _ & Hdom).
  intros x. simpl. rewrite (IH (unlinkP m g) (vl_del [m] vl)); [done| | |].
  - by apply (static_frame nc nu rw g).
  - by apply (unlink_vert nc nu rw).
  - split; [done|]. intros m' Hm'. destruct (Hin m') as [? ?]; [set_solver|].
    split; [done|]. rewrite HC. apply list_elem_of_filter. split; [|done].
    set_solver.
Qed.

Lemma removable_app vl g ms1 ms2 :
  static nc nu rw g → vert nc nu vl g →
  removable nc nu vl g (ms1 ++ ms2) →
  removable nc nu vl g ms1 ∧
  removable nc nu (vl_del ms1 vl) (unlinksP ms1 g) ms2.
Proof.
  intros Hs Hv [(Hnd1 & H12 & Hnd2)%NoDup_app Hin].
  assert (Hr1 : removable nc nu vl g ms1).
  { split; [done|]. intros m Hm. apply Hin. set_solver. }
  split; [done|]. split; [done|]. intros m Hm.
  destruct (Hin m) as [Hmn Hmv]; [set_solver|]. split; [done|].
  rewrite (unlinks_fC vl g ms1 Hs Hv Hr1).
  apply list_elem_of_filter. split; [|done].
  intros Hm1. by apply (H12 m).
Qed.

Lemma unlinksP_app ms1 ms2 g :
  unlinksP (ms1 ++ ms2) g = unlinksP ms2 (unlinksP ms1 g).
Proof. unfold unlinksP. by rewrite foldl_app. Qed.

Lemma static_node_dom g x : static nc nu rw g → is_node nc nu x → is_Some (g !! x).
Proof.
  intros Hs Hx. apply (st_dom _ _ _ _ Hs).
  pose proof (st_bounds _ _ _ _ Hs). unfold is_node in Hx. lia.
Qed.

Lemma cover_row_run vl fuel row ms n g :
  static nc nu rw g → vert nc nu vl g → removable nc nu vl g ms →
  seg (fR g) n ms row → (length ms < fuel)%nat →
  cover_row fuel row n g = Ok (unlinksP ms g).
Proof.
  revert fuel n g vl.
  induction ms as [|m ms IH]; intros fuel n g vl Hs Hv [Hnd Hin] Hseg Hfuel.
  - destruct fuel as [|f]; [simpl in Hfuel; lia|]. simpl in *. subst.
    by rewrite Z.eqb_refl.
  - destruct fuel as [|f]; [simpl in Hfuel; lia|].
    destruct Hseg as (-> & Hmr & Hseg). apply NoDup_cons in Hnd as [Hm Hnd].
    destruct (Hin m) as [Hmn Hmv]; [set_solver|].
    pose proof (vert_linked nc nu rw vl g m Hs Hv Hmn Hmv)
      as (_ & _ & Hnu & Hnd' & _ & Hmd & Hu & Hd & Hc & _).
    pose proof (unlinkP_fields g m Hnu Hnd' Hu Hd Hc)
      as (HL & HR & HC & Hrow & _ & _ & _ & Hdom).
    cbn [cover_row]. rewrite (proj2 (Z.eqb_neq _ _)) by done.
    rewrite unlink_Ok by done. rewrite bind_Ok.
    rewrite rd_Ok by (by apply Hdom). rewrite bind_Ok.
    fold (fR (unlinkP m g) m). rewrite HR.
    apply (IH f (fR g m) (unlinkP m g) (vl_del [m] vl)).
    + by apply (static_frame nc nu rw g).
    + by apply (unlink_vert nc nu rw).
    + split; [done|]. intros m' Hm'. destruct (Hin m') as [? ?]; [set_solver|].
      split; [done|]. rewrite HC. apply list_elem_of_filter. split; [|done].
      set_solver.
    + apply (seg_ext (fR g)); [|done]. intros x _. by rewrite HR.
    + simpl in Hfuel. lia.
Qed.

Lemma cover_rows_run hs vl lfuel fuel c pre rs r g :
  static nc nu rw g → vert nc nu vl g → horiz nc hs g →
  is_header nc c → vl c = pre ++ rs →
  removable nc nu vl g (rs ≫= rw) →
  (∀ r m, r ∈ rs → m ∈ rw r → m ∉ vl c) →
  seg (fD g) r rs c →
  (∀ r, r ∈ rs → (length (rw r) < lfuel)%nat) → (length rs < fuel)%nat →
  cover_rows lfuel fuel c r g = Ok (unlinksP (rs ≫= rw) g).
Proof.
  revert fuel pre r g vl.
  induction rs as [|r0 rs IH];
    intros fuel pre r g vl Hs Hv Hh Hc Hvl Hrem Hdisj Hseg Hlf Hfuel.
  - destruct fuel as [|f]; [simpl in Hfuel; lia|]. simpl in *. subst.
    by rewrite Z.eqb_refl.
  - destruct fuel as [|f]; [simpl in Hfuel; lia|].
    destruct Hseg as (-> & Hrc & Hseg). rewrite bind_cons in Hrem |- *.
    assert (Hr0 : is_node nc nu r0).
    { apply (dy_vnode _ _ _ _ Hv c); [done|]. rewrite Hvl. set_solver. }
    destruct (removable_app vl g _ _ Hs Hv Hrem) as [Hrem1 Hrem2].
    destruct (unlinks_inv hs vl g (rw r0) Hs Hv Hh Hrem1)
      as (Hs1 & Hv1 & Hh1 & HC1 & HR1 & HL1).
    cbn [cover_rows]. rewrite (proj2 (Z.eqb_neq _ _)) by done.
    rewrite rd_Ok by by eapply static_node_dom. rewrite bind_Ok.
    fold (fR g r0).
    rewrite (cover_row_run vl lfuel r0 (rw r0) (fR g r0) g); try done.
    2:{ by apply (st_ring _ _ _ _ Hs). }
    2:{ apply Hlf. set_solver. }
    rewrite bind_Ok. rewrite rd_Ok by by eapply static_node_dom. rewrite bind_Ok.
    fold (fD (unlinksP (rw r0) g) r0). rewrite unlinksP_app.
    assert (Hvl1 : vl_del (rw r0) vl c = (pre ++ [r0]) ++ rs).
    { rewrite vl_del_id; [by rewrite Hvl, <- app_assoc|].
      intros m Hm. apply (Hdisj r0); set_solver. }
    apply (IH f (pre ++ [r0]) _ _ (vl_del (rw r0) vl)); try done.
    + intros r m Hr Hm. rewrite Hvl1, <- app_assoc. simpl. rewrite <- Hvl.
      apply (Hdisj r); set_solver.
    + pose proof (dy_vring _ _ _ _ Hv1 c Hc) as Hring. unfold ring in Hring.
      rewrite Hvl1, <- app_assoc in Hring. simpl in Hring.
      by apply seg_suffix in Hring.
    + intros r Hr. apply Hlf. set_solver.
    + simpl in Hfuel. lia.
Qed.

(** Walking the row of a node leftwards meets the other nodes in reverse. *)
Lemma row_ring_left g x :
  static nc nu rw g → is_node nc nu x → ring (fL g) x (reverse (rw x)).
Proof.
  intros Hs Hx. apply (ring_rev (fR g)).
  - by apply (st_ring _ _ _ _ Hs).
  - by apply (st_nodup _ _ _ _ Hs).
  - intros y [->|Hy]; [by apply (st_left _ _ _ _ Hs)|].
    apply (st_left _ _ _ _ Hs). by apply (st_row _ _ _ _ Hs x y).
Qed.

Lemma unlinks_sv vl g ms :
  static nc nu rw g → vert nc nu vl g → removable nc nu vl g ms →
  static nc nu rw (unlinksP ms g) ∧ vert nc nu (vl_del ms vl) (unlinksP ms g) ∧
  (∀ x, fL (unlinksP ms g) x = fL g x).
Proof.
  intros Hs Hv Hrem.
  revert g vl Hs Hv Hrem.
  induction ms as [|m ms IH]; intros g vl Hs Hv [Hnd Hin].
  - simpl. split_and!; try done. eapply vert_ext; [|done]. intros c.
    by rewrite vl_del_nil.
  - apply NoDup_cons in Hnd as [Hm Hnd].
    destruct (Hin m) as [Hmn Hmv]; [set_solver|].
    pose proof (vert_linked nc nu rw vl g m Hs Hv Hmn Hmv)
      as (_ & _ & Hnu & Hnd' & _ & _ & Hu & Hd & Hc & _).
    pose proof (unlinkP_fields g m Hnu Hnd' Hu Hd Hc)
      as (HL & HR & HC & Hrow & _ & _ & _ & Hdom).
    pose proof (unlink_vert nc nu rw vl g m Hs Hv Hmn Hmv) as Hv1.
    pose proof (static_frame nc nu rw g _ Hs HL HR HC Hrow Hdom) as Hs1.
    destruct (IH (unlinkP m g) (vl_del [m] vl) Hs1 Hv1) as (IH1 & IH2 & IH3).
    { split; [done|]. intros m' Hm'. destruct (Hin m') as [? ?]; [set_solver|].
      split; [done|]. rewrite HC. apply list_elem_of_filter. split; [|done].
      set_solver. }
    simpl. split_and!; try done.
    + eapply vert_ext; [|done]. intros c. by rewrite vl_del_app.
    + intros x. by rewrite IH3.
Qed.

Lemma uncover_row_run vl fuel row ms n g0 pre :
  static nc nu rw g0 → vert nc nu vl g0 →
  removable nc nu vl g0 (pre ++ reverse ms) →
  seg (fL g0) n ms row → (length ms < fuel)%nat →
  uncover_row fuel row n (unlinksP (pre ++ reverse ms) g0) = Ok (unlinksP pre g0).
Proof.
  intros Hs Hv. revert fuel n.
  induction ms as [|m ms IH]; intros fuel n Hrem Hseg Hfuel.
  - destruct fuel as [|f]; [simpl in Hfuel; lia|]. simpl in *. subst.
    rewrite Z.eqb_refl. by rewrite app_nil_r.
  - destruct fuel as [|f]; [simpl in Hfuel; lia|].
    destruct Hseg as (-> & Hmr & Hseg).
    rewrite reverse_cons, app_assoc in Hrem |- *.
    destruct (removable_app vl g0 _ _ Hs Hv Hrem) as [Hrem1 [_ Hrem2]].
    destruct (unlinks_sv vl g0 _ Hs Hv Hrem1) as (Hs1 & Hv1 & HL1).
    destruct (Hrem2 m) as [Hmn Hmv]; [set_solver|].
    pose proof (vert_linked nc nu rw _ _ m Hs1 Hv1 Hmn Hmv) as Hlk.
    rewrite unlinksP_app. cbn [unlinksP foldl uncover_row].
    rewrite (proj2 (Z.eqb_neq _ _)) by done.
    rewrite relink_after_unlink by done. rewrite bind_Ok.
    rewrite rd_Ok by by eapply static_node_dom. rewrite bind_Ok.
    fold (fL (unlinksP (pre ++ reverse ms) g0) m). rewrite HL1.
    apply IH; [done..|]. simpl in Hfuel. lia.
Qed.

Lemma uncover_rows_run hs vl lfuel fuel c rs post r g0 :
  static nc nu rw g0 → vert nc nu vl g0 → horiz nc hs g0 →
  is_header nc c → vl c = reverse rs ++ post →
  removable nc nu vl g0 (reverse rs ≫= rw) →
  (∀ r m, r ∈ rs → m ∈ rw r → m ∉ vl c) →
  seg (fU (unlinksP (reverse rs ≫= rw) g0)) r rs c →
  (∀ r, r ∈ rs → (length (rw r) < lfuel)%nat) → (length rs < fuel)%nat →
  uncover_rows lfuel fuel c r (unlinksP (reverse rs ≫= rw) g0) = Ok g0.
Proof.
  intros Hs Hv Hh Hc. revert fuel post r.
  induction rs as [|r0 rs IH]; intros fuel post r Hvl Hrem Hdisj Hseg Hlf Hfuel.
  - destruct fuel as [|f]; [simpl in Hfuel; lia|]. simpl in *. subst.
    by rewrite Z.eqb_refl.
  - destruct fuel as [|f]; [simpl in Hfuel; lia|].
    destruct Hseg as (-> & Hrc & Hseg).
    rewrite reverse_cons, bind_app, bind_singleton in Hrem, Hseg |- *.
    set (pre := reverse rs ≫= rw) in *.
    assert (Hr0 : is_node nc nu r0).
    { apply (dy_vnode _ _ _ _ Hv c); [done|]. rewrite Hvl, reverse_cons. set_solver. }
    destruct (removable_app vl g0 _ _ Hs Hv Hrem) as [Hrem1 Hrem2].
    destruct (unlinks_sv vl g0 _ Hs Hv Hrem) as (Hs2 & Hv2 & HL2).
    destruct (unlinks_sv vl g0 _ Hs Hv Hrem1) as (Hs1 & Hv1 & HL1).
    cbn [uncover_rows]. rewrite (proj2 (Z.eqb_neq _ _)) by done.
    rewrite rd_Ok by by eapply static_node_dom. rewrite bind_Ok.
    fold (fL (unlinksP (pre ++ rw r0) g0) r0). rewrite HL2.
    replace (unlinksP (pre ++ rw r0) g0)
      with (unlinksP (pre ++ reverse (reverse (rw r0))) g0)
      by (by rewrite reverse_involutive).
    rewrite (uncover_row_run vl lfuel r0 (reverse (rw r0)) _ g0 pre); try done.
    2:{ by rewrite reverse_involutive. }
    2:{ by apply row_ring_left. }
    2:{ rewrite length_reverse. apply Hlf. set_solver. }
    rewrite bind_Ok. rewrite rd_Ok by by eapply static_node_dom. rewrite bind_Ok.
    fold (fU (unlinksP pre g0) r0).
    assert (Hvl1 : vl_del pre vl c = reverse rs ++ r0 :: post).
    { rewrite vl_del_id; [by rewrite Hvl, reverse_cons, <- app_assoc|].
      intros m (r' & Hm & Hr')%list_elem_of_bind. apply (Hdisj r'); [|done].
      apply elem_of_reverse in Hr'. set_solver. }
    apply (IH f (r0 :: post)); try done.
    + by rewrite Hvl, reverse_cons, <- app_assoc.
    + intros r m Hr Hm. apply (Hdisj r); set_solver.
    + pose proof (ring_rev (fD (unlinksP pre g0)) (fU (unlinksP pre g0)) c _
                    (dy_vring _ _ _ _ Hv1 c Hc) (dy_vnodup _ _ _ _ Hv1 c Hc)
                    (λ x, dy_vback _ _ _ _ Hv1 c x Hc)) as Hring.
      unfold ring in Hring. rewrite Hvl1 in Hring.
      rewrite reverse_app, reverse_cons, reverse_involutive, <- app_assoc in Hring.
      simpl in Hring. by apply seg_suffix in Hring.
    + intros r Hr. apply Hlf. set_solver.
    + simpl in Hfuel. lia.
Qed.

End cover_inv.

End CoverFacts.

(** * cover and uncover on a well-formed graph *)

Module CoverUncover.
Import Util Solver Dlx ArenaFacts SegFacts UnlinkFacts CoverFacts.

Lemma length_nodup_range (l : list Z) a b :
  NoDup l → (∀ x, x ∈ l → a < x < b) → Z.of_nat (length l) ≤ Z.max 0 (b - a - 1).
Proof.
  intros Hnd Hr.
  assert (Hsub : l ⊆+ seqZ (a + 1) (b - a - 1)).
  { apply NoDup_submseteq; [done|]. intros x Hx%Hr. apply elem_of_seqZ. lia. }
  apply submseteq_length in Hsub. rewrite length_seqZ in Hsub. lia.
Qed.

Section cover_spec.
Variables (nc nu : Z) (rw : Z → list Z).

Lemma static_right_node g x :
  static nc nu rw g → is_node nc nu x → is_node nc nu (fR g x).
Proof.
  intros Hs Hx. pose proof (st_ring _ _ _ _ Hs x Hx) as Hr. unfold ring in Hr.
  destruct (rw x) as [|y l] eqn:E; simpl in Hr.
  - by rewrite Hr.
  - destruct Hr as (-> & _). apply (st_row _ _ _ _ Hs x y); [done|].
    rewrite E. set_solver.
Qed.

Lemma static_frame_nodes g g' :
  static nc nu rw g →
  (∀ x, is_node nc nu x → fL g' x = fL g x) →
  (∀ x, is_node nc nu x → fR g' x = fR g x) →
  (∀ x, fC g' x = fC g x) → (∀ x, frow g' x = frow g x) →
  (∀ x, is_Some (g' !! x) ↔ is_Some (g !! x)) →
  static nc nu rw g'.
Proof.
  intros Hs HL HR HC Hrow Hdom. pose proof Hs as []. split; try done.
  - intros x Hx. apply Hdom. auto.
  - intros x Hx. rewrite HC. auto.
  - intros x Hx. unfold ring. rewrite HR by done.
    apply (seg_ext (fR g)); [|by apply st_ring0].
    intros y Hy. symmetry. apply HR. by apply (st_row0 x).
  - intros x m Hx Hm. rewrite !Hrow. auto.
  - intros x Hx. rewrite HR by done. rewrite HL by by apply static_right_node. auto.
  - intros x y Hx Hy. rewrite !Hrow. auto.
  - intros x y Hx Hy. rewrite !Hrow, !HC. auto.
Qed.

Lemma vert_frame vl g g' :
  vert nc nu vl g →
  (∀ x, fU g' x = fU g x) → (∀ x, fD g' x = fD g x) →
  (∀ x, fC g' x = fC g x) → (∀ x, fcount g' x = fcount g x) →
  vert nc nu vl g'.
Proof.
  intros [] HU HD HC Hcnt.
  assert (Hcol : ∀ x, col_of nc g' x = col_of nc g x).
  { intros x. unfold col_of. by rewrite HC. }
  split; try done.
  - intros x Hx1 Hx2. rewrite HU, HD, !Hcol. auto.
  - intros c Hc. unfold ring. rewrite HD.
    apply (seg_ext (fD g)); [by intros|]. by apply dy_vring0.
  - intros c x Hc Hx. rewrite HC. auto.
  - intros c x Hc Hx. rewrite HD, HU. eauto.
  - intros c Hc. rewrite Hcnt. auto.
  - intros c Hc. rewrite Hcnt. auto.
Qed.

(** The rows of two nodes of one row have the same members. *)
Lemma row_mates g x m y :
  static nc nu rw g → is_node nc nu x → m ∈ rw x →
  y ∈ m :: rw m ↔ y ∈ x :: rw x.
Proof.
  intros Hs Hx Hm. destruct (st_row _ _ _ _ Hs x m Hx Hm) as [Hmn Hmr].
  rewrite !elem_of_cons. split.
  - intros [->|Hy]; [by right|].
    destruct (st_row _ _ _ _ Hs m y Hmn Hy) as [Hyn Hyr].
    apply (st_all _ _ _ _ Hs x y); [done..|congruence].
  - intros [->|Hy].
    + apply (st_all _ _ _ _ Hs m x); [done..|congruence].
    + destruct (st_row _ _ _ _ Hs x y Hx Hy) as [Hyn Hyr].
      apply (st_all _ _ _ _ Hs m y); [done..|congruence].
Qed.

Lemma row_column_differs g x m :
  static nc nu rw g → is_node nc nu x → m ∈ rw x → fC g m ≠ fC g x.
Proof.
  intros Hs Hx Hm Heq. destruct (st_row _ _ _ _ Hs x m Hx Hm) as [Hmn Hmr].
  assert (m = x) as -> by by apply (st_inj _ _ _ _ Hs).
  pose proof (st_ring _ _ _ _ Hs x Hx) as Hr. by apply seg_notin in Hr.
Qed.

Lemma hide_inv hs vl g c :
  static nc nu rw g → horiz nc hs g → vert nc nu vl g → c ∈ hs →
  c ≠ fL g c ∧ c ≠ fR g c ∧ is_Some (g !! c) ∧
  is_Some (g !! fL g c) ∧ is_Some (g !! fR g c) ∧
  fR g (fL g c) = c ∧ fL g (fR g c) = c ∧
  static nc nu rw (hideP c g) ∧ vert nc nu vl (hideP c g) ∧
  horiz nc (filter (λ x, x ∉ [c]) hs) (hideP c g) ∧
  (∀ x, fC (hideP c g) x = fC g x) ∧ (∀ x, fD (hideP c g) x = fD g x).
Proof.
  intros Hs Hh Hv Hc.
  pose proof (st_bounds _ _ _ _ Hs) as (Hb1 & Hb2 & Hb3).
  pose proof (dy_hhead _ _ _ Hh c Hc) as Hch.
  destruct (list_elem_of_split _ _ Hc) as (h1 & h2 & Ehs).
  pose proof (dy_hring _ _ _ Hh) as Hr. unfold ring in Hr. rewrite Ehs in Hr.
  pose proof (dy_hnodup _ _ _ Hh) as Hnd. rewrite Ehs in Hnd.
  assert (Hback : ∀ y, y = nc ∨ y ∈ h1 ++ c :: h2 → fL g (fR g y) = y).
  { intros y Hy. apply (dy_hback _ _ _ Hh). by rewrite Ehs. }
  assert (Hrange : ∀ y, y = nc ∨ y ∈ h1 ++ c :: h2 → 0 ≤ y ≤ nc).
  { intros y [->|Hy]; [lia|]. rewrite <- Ehs in Hy.
    apply (dy_hhead _ _ _ Hh) in Hy. unfold is_header in Hy. lia. }
  assert (Hcn : c ≠ nc) by (unfold is_header in Hch; lia).
  assert (Hl : fL g c ∈ nc :: h1 ∧ (fR g c = nc ∨ fR g c ∈ h2) ∧ fR g (fL g c) = c).
  { destruct (seg_pred _ _ _ _ _ _ Hr) as (p & Hp & Hpx).
    assert (fL g c = p) as ->. { rewrite <- Hpx. apply Hback. set_solver. }
    split_and!; [done| |done]. by eapply seg_succ. }
  destruct Hl as (Hl1 & Hl2 & Hl3).
  apply NoDup_app in Hnd as (Hnd1 & Hnd12 & [Hc2 Hnd2]%NoDup_cons).
  assert (Hcl : c ≠ fL g c).
  { intros E. rewrite <- E in Hl1. apply elem_of_cons in Hl1 as [?|Hl1]; [done|].
    apply (Hnd12 c Hl1). set_solver. }
  assert (Hcr : c ≠ fR g c).
  { intros E. rewrite <- E in Hl2. destruct Hl2 as [?|?]; done. }
  assert (Hlr : 0 ≤ fL g c ≤ nc) by (apply Hrange; set_solver).
  assert (Hrr : 0 ≤ fR g c ≤ nc) by (apply Hrange; set_solver).
  assert (Hsl : is_Some (g !! fL g c)) by (apply (st_dom _ _ _ _ Hs); lia).
  assert (Hsr : is_Some (g !! fR g c)) by (apply (st_dom _ _ _ _ Hs); lia).
  pose proof (hideP_fields g c Hcl Hsl Hsr)
    as (HU & HD & HC & Hrow & Hcnt & HR & HL & Hdom).
  split_and!; try done.
  - apply (st_dom _ _ _ _ Hs). unfold is_header in Hch. lia.
  - apply Hback. set_solver.
  - apply (static_frame_nodes g); try done.
    + intros x Hx. rewrite HL. rewrite decide_False; [done|].
      unfold is_node in Hx. lia.
    + intros x Hx. rewrite HR. rewrite decide_False; [done|].
      unfold is_node in Hx. lia.
  - by apply (vert_frame vl g).
  - rewrite Ehs. rewrite filter_out_one by (rewrite <- Ehs; by apply (dy_hnodup _ _ _ Hh)).
    assert (Hnd : NoDup (h1 ++ c :: h2)) by (rewrite <- Ehs; by apply (dy_hnodup _ _ _ Hh)).
    destruct (dring_remove (fR g) (fL g) (fR (hideP c g)) (fL (hideP c g))
                nc h1 c h2 Hr Hnd Hback HR HL) as (Hr' & Hb' & _).
    split.
    + intros x Hx. rewrite HL, HR.
      destruct (dy_htype _ _ _ Hh x Hx). split; case_decide; done.
    + exact Hr'.
    + apply NoDup_app. split_and!; [done| |done]. intros x Hx. specialize (Hnd12 x Hx).
      set_solver.
    + intros x Hx. apply (dy_hhead _ _ _ Hh). rewrite Ehs. set_solver.
    + exact Hb'.
Qed.

Lemma show_Ok g c :
  c ≠ fL g c → is_Some (g !! c) → is_Some (g !! fL g c) → is_Some (g !! fR g c) →
  (c0 ← rd g c; g1 ← upd g (left c0) (set_right c);
   c1 ← rd g1 c; upd g1 (right c1) (set_left c)) = Ok (showP c g).
Proof.
  intros Hne Hc Hl Hr. unfold showP. cbv zeta.
  rewrite rd_Ok by done. rewrite bind_Ok. fold (fL g c).
  rewrite upd_Ok by done. rewrite bind_Ok.
  rewrite rd_Ok by (by apply is_Some_alter). rewrite bind_Ok.
  fold (fR (alter (set_right c) (fL g c) g) c).
  rewrite upd_Ok; [done|]. rewrite fR_alter_ne by congruence.
  by apply is_Some_alter.
Qed.

(** The nodes that [cover c] unlinks: the other nodes of the rows of [c]. *)
Lemma cover_removable hs vl g c :
  static nc nu rw g → horiz nc hs g → vert nc nu vl g →
  live_rows nc nu rw hs vl g → c ∈ hs →
  removable nc nu vl g (vl c ≫= rw) ∧
  (∀ r m, r ∈ vl c → m ∈ rw r → m ∉ vl c).
Proof.
  intros Hs Hh Hv Hlive Hc.
  pose proof (dy_hhead _ _ _ Hh c Hc) as Hch.
  assert (Hrow : ∀ r m, r ∈ vl c → m ∈ rw r →
            is_node nc nu r ∧ fC g r = c ∧ is_node nc nu m ∧ frow g m = frow g r).
  { intros r m Hr Hm. destruct (dy_vnode _ _ _ _ Hv c r Hch Hr) as [Hrn Hrc].
    destruct (st_row _ _ _ _ Hs r m Hrn Hm). done. }
  split; [split|].
  - apply NoDup_bind.
    + intros r1 r2 m Hr1 Hr2 Hm1 Hm2.
      destruct (Hrow r1 m Hr1 Hm1) as (? & ? & ? & ?).
      destruct (Hrow r2 m Hr2 Hm2) as (? & ? & ? & ?).
      apply (st_inj _ _ _ _ Hs); [done..|congruence|congruence].
    + intros r Hr. apply (st_nodup _ _ _ _ Hs).
      by apply (dy_vnode _ _ _ _ Hv c).
    + by apply (dy_vnodup _ _ _ _ Hv).
  - intros m (r & Hm & Hr)%list_elem_of_bind.
    destruct (Hrow r m Hr Hm) as (Hrn & Hrc & Hmn & Hmr). split; [done|].
    assert (Hall : ∀ y, y ∈ r :: rw r → fC g y ∈ hs).
    { apply Hlive; [done|by rewrite Hrc|by rewrite Hrc]. }
    assert (Hmc : fC g m ∈ hs) by (apply Hall; set_solver).
    apply Hlive; [done..|]. intros y Hy. apply Hall.
    by apply (row_mates g r m y).
  - intros r m Hr Hm Hmc. destruct (Hrow r m Hr Hm) as (Hrn & Hrc & Hmn & Hmr).
    destruct (dy_vnode _ _ _ _ Hv c m Hch Hmc) as [_ Hmc'].
    apply (row_column_differs g r m); [done..|congruence].
Qed.

Lemma size_lower_bound g : static nc nu rw g → nu ≤ Z.of_nat (size g).
Proof.
  intros Hs. pose proof (st_bounds _ _ _ _ Hs) as (Hb1 & Hb2 & Hb3).
  assert (Hsub : list_to_set (seqZ 0 nu) ⊆ dom g).
  { intros x Hx. apply elem_of_list_to_set, elem_of_seqZ in Hx.
    apply elem_of_dom, (st_dom _ _ _ _ Hs). lia. }
  apply subseteq_size in Hsub. rewrite size_dom in Hsub.
  rewrite size_list_to_set in Hsub by apply NoDup_seqZ.
  rewrite length_seqZ in Hsub. lia.
Qed.

Lemma vert_length vl g c :
  static nc nu rw g → vert nc nu vl g → is_header nc c →
  Z.of_nat (length (vl c)) < nu.
Proof.
  intros Hs Hv Hc. pose proof (st_bounds _ _ _ _ Hs) as (Hb1 & Hb2 & Hb3).
  pose proof (length_nodup_range (vl c) nc nu (dy_vnodup _ _ _ _ Hv c Hc)) as H.
  assert (Hr : ∀ x, x ∈ vl c → nc < x < nu).
  { intros x Hx. by apply (dy_vnode _ _ _ _ Hv c x Hc). }
  specialize (H Hr). lia.
Qed.

Lemma row_length g x :
  static nc nu rw g → is_node nc nu x → Z.of_nat (length (rw x)) < nu.
Proof.
  intros Hs Hx. pose proof (st_bounds _ _ _ _ Hs) as (Hb1 & Hb2 & Hb3).
  pose proof (length_nodup_range (rw x) nc nu (st_nodup _ _ _ _ Hs x Hx)) as H.
  assert (Hr : ∀ y, y ∈ rw x → nc < y < nu).
  { intros y Hy. by apply (st_row _ _ _ _ Hs x y). }
  specialize (H Hr). lia.
Qed.

(** [cover c] on a well-formed graph with [c] in the header list: what it
    returns, that [uncover c] undoes it, and that the result is well formed,
    with [c] gone from the header list and the unlinked nodes gone from
    their columns. *)
Lemma cover_spec hs vl g c fuel :
  static nc nu rw g → horiz nc hs g → vert nc nu vl g →
  live_rows nc nu rw hs vl g → c ∈ hs → nu ≤ Z.of_nat fuel →
  let ns := vl c ≫= rw in
  let g' := unlinksP ns (hideP c g) in
  cover fuel c g = Ok g' ∧ uncover fuel c g' = Ok g ∧
  static nc nu rw g' ∧ horiz nc (filter (λ x, x ∉ [c]) hs) g' ∧
  vert nc nu (vl_del ns vl) g' ∧
  live_rows nc nu rw (filter (λ x, x ∉ [c]) hs) (vl_del ns vl) g'.
Proof.
  intros Hs Hh Hv Hlive Hc Hfuel ns g'.
  pose proof (dy_hhead _ _ _ Hh c Hc) as Hch.
  destruct (hide_inv hs vl g c Hs Hh Hv Hc)
    as (Hcl & Hcr & Hsc & Hsl & Hsr & Hrl & Hlr & Hs2 & Hv2 & Hh2 & HC2 & HD2).
  destruct (cover_removable hs vl g c Hs Hh Hv Hlive Hc) as [Hrem Hdisj].
  assert (Hrem2 : removable nc nu vl (hideP c g) ns).
  { destruct Hrem as [? Hin]. split; [done|]. intros m Hm. rewrite HC2. auto. }
  destruct (unlinks_inv nc nu rw _ vl _ ns Hs2 Hv2 Hh2 Hrem2)
    as (Hs3 & Hv3 & Hh3 & HC3 & HR3 & HL3).
  assert (Hlen : ∀ r, r ∈ vl c → (length (rw r) < fuel)%nat).
  { intros r Hr. pose proof (row_length g r Hs) as H.
    destruct (dy_vnode _ _ _ _ Hv c r Hch Hr) as [Hrn _]. specialize (H Hrn). lia. }
  assert (Hlenc : (length (vl c) < fuel)%nat).
  { pose proof (vert_length vl g c Hs Hv Hch). lia. }
  assert (Hvlc : vl_del ns vl c = vl c).
  { apply vl_del_id. unfold ns. intros m (r & Hm & Hr)%list_elem_of_bind.
    by apply (Hdisj r). }
  split_and!; try done.
  - rewrite hide_Ok by done. rewrite <- HD2.
    apply (cover_rows_run nc nu rw (filter (λ x, x ∉ [c]) hs) vl
             fuel fuel c [] (vl c)); try done.
    by apply (dy_vring _ _ _ _ Hv2).
  - assert (Hun : uncover_rows fuel fuel c (fU g' c) g' = Ok (hideP c g)).
    { assert (Hseg : seg (fU g') (fU g' c) (reverse (vl c)) c).
      { pose proof (ring_rev (fD g') (fU g') c _
                    (dy_vring _ _ _ _ Hv3 c Hch) (dy_vnodup _ _ _ _ Hv3 c Hch)
                    (λ x, dy_vback _ _ _ _ Hv3 c x Hch)) as Hring.
        unfold ring in Hring. by rewrite Hvlc in Hring. }
      set (rs := reverse (vl c)) in *.
      assert (E : vl c = reverse rs) by (unfold rs; by rewrite reverse_involutive).
      assert (Hg' : g' = unlinksP (reverse rs ≫= rw) (hideP c g)).
      { unfold g', ns. by rewrite E. }
      rewrite Hg' in Hseg |- *.
      apply (uncover_rows_run nc nu rw (filter (λ x, x ∉ [c]) hs) vl
               fuel fuel c rs []); try done.
      - by rewrite app_nil_r.
      - by rewrite <- E.
      - intros r m Hr Hm. apply (Hdisj r); [|done]. unfold rs in Hr.
        by rewrite elem_of_reverse in Hr.
      - intros r Hr. apply Hlen. unfold rs in Hr. by rewrite elem_of_reverse in Hr.
      - unfold rs. by rewrite length_reverse. }
    unfold uncover.
    assert (Hsc3 : is_Some (g' !! c)).
    { apply (st_dom _ _ _ _ Hs3). pose proof (st_bounds _ _ _ _ Hs).
      unfold is_header in Hch. lia. }
    rewrite rd_Ok by done. rewrite bind_Ok. fold (fU g' c).
    rewrite Hun, bind_Ok.
    pose proof (hideP_fields g c Hcl Hsl Hsr) as (_&_&_&_&_& HR & HL & Hdom).
    assert (EL : fL (hideP c g) c = fL g c) by (rewrite HL; by rewrite decide_False).
    assert (ER : fR (hideP c g) c = fR g c) by (rewrite HR; by rewrite decide_False).
    rewrite show_Ok; rewrite ?EL, ?ER, ?Hdom; try done.
    f_equal. by apply show_hide.
  - assert (HC : ∀ y, fC g' y = fC g y) by (intros y; by rewrite HC3, HC2).
    intros x Hx. rewrite HC. intros [Hkc Hk]%list_elem_of_filter.
    pose proof (Hlive x Hx Hk) as Hlx. split.
    + intros [Hxns Hxv]%list_elem_of_filter m Hm. rewrite HC.
      pose proof (proj1 Hlx Hxv) as Hall.
      apply list_elem_of_filter. split; [|by apply Hall].
      intros Hmc%list_elem_of_singleton. apply Hxns.
      apply elem_of_cons in Hm as [->|Hm]; [set_solver|].
      destruct (st_row _ _ _ _ Hs x m Hx Hm) as [Hmn _].
      apply list_elem_of_bind. exists m. split.
      * assert (Hxm : x ∈ m :: rw m) by (apply (row_mates g x m x); set_solver).
        apply elem_of_cons in Hxm as [->|?]; [|done]. set_solver.
      * rewrite <- Hmc. apply Hlive; [done|by rewrite Hmc|].
        intros y Hy. apply Hall. by apply (row_mates g x m y).
    + intros Hall. apply list_elem_of_filter. split.
      * intros (r & Hxr & Hr)%list_elem_of_bind.
        destruct (dy_vnode _ _ _ _ Hv c r Hch Hr) as [Hrn Hrc].
        assert (Hrx : r ∈ x :: rw x) by (apply (row_mates g r x r); set_solver).
        specialize (Hall r Hrx). rewrite HC, Hrc in Hall.
        apply list_elem_of_filter in Hall as [Hcc _]. set_solver.
      * apply Hlx. intros m Hm. specialize (Hall m Hm). rewrite HC in Hall.
        by apply list_elem_of_filter in Hall as [_ ?].
Qed.

End cover_spec.

End CoverUncover.

(** * The round trip on every state of a search *)

Module RoundTrip.
Import Util Solver Dlx ArenaFacts SegFacts UnlinkFacts CoverFacts CoverUncover.

Lemma covered_inv fuel s0 c st g :
  covered fuel s0 (c :: st) g →
  ∃ g1, covered fuel s0 st g1 ∧ c ∈ live_columns g1 (root s0) ∧
        cover fuel c g1 = Ok g.
Proof. inversion 1; eauto. Qed.

Section reach.
Variables (nc nu : Z) (rw : Z → list Z) (fuel : nat) (s0 : solver).
Hypothesis Hroot : root s0 = nc.
Hypothesis Hfuel : (size (nodes s0) ≤ fuel)%nat.

Lemma live_columns_hs hs g :
  static nc nu rw g → horiz nc hs g → live_columns g nc = hs.
Proof.
  intros Hs Hh. unfold live_columns. apply walk_seg; [by apply (dy_hring _ _ _ Hh)|].
  pose proof (size_lower_bound nc nu rw g Hs) as Hsz.
  pose proof (st_bounds _ _ _ _ Hs) as (Hb1 & Hb2 & Hb3).
  pose proof (length_nodup_range hs (-1) nc (dy_hnodup _ _ _ Hh)) as Hlen.
  assert (Hr : ∀ x, x ∈ hs → -1 < x < nc).
  { intros x Hx%(dy_hhead _ _ _ Hh). unfold is_header in Hx. lia. }
  specialize (Hlen Hr). lia.
Qed.

Lemma cover_size c g g' : cover fuel c g = Ok g' → size g' = size g.
Proof.
  assert (Hrow : ∀ f row n g g', cover_row f row n g = Ok g' → size g' = size g).
  { induction f as [|f IH]; intros row n g1 g2; [done|]. cbn [cover_row].
    destruct (n =? row); [by intros [= <-]|]. unfold unlink.
    destruct (rd g1 n) as [x|]; [|done]. rewrite bind_Ok.
    destruct (upd g1 _ _) as [ga|] eqn:Ea; [|done]. rewrite bind_Ok.
    destruct (rd ga n) as [xa|]; [|done]. rewrite bind_Ok.
    destruct (upd ga _ _) as [gb|] eqn:Eb; [|done]. rewrite bind_Ok.
    destruct (rd gb n) as [xb|]; [|done]. rewrite bind_Ok.
    destruct (upd gb _ _) as [gc|] eqn:Ec; [|done]. rewrite bind_Ok.
    destruct (rd gc n) as [xc|]; [|done]. rewrite bind_Ok.
    intros H%IH. apply upd_inv in Ea as [_ ->], Eb as [_ ->], Ec as [_ ->].
    by rewrite H, !size_alter. }
  assert (Hrows : ∀ f lf row g g', cover_rows lf f c row g = Ok g' → size g' = size g).
  { induction f as [|f IH]; intros lf row g1 g2; [done|]. cbn [cover_rows].
    destruct (row =? c); [by intros [= <-]|].
    destruct (rd g1 row) as [x|]; [|done]. rewrite bind_Ok.
    destruct (cover_row _ _ _ _) as [ga|] eqn:Ea; [|done]. rewrite bind_Ok.
    destruct (rd ga row) as [xa|]; [|done]. rewrite bind_Ok.
    intros H%IH. apply Hrow in Ea. congruence. }
  unfold cover.
  destruct (rd g c) as [x|]; [|done]. rewrite bind_Ok.
  destruct (upd g _ _) as [ga|] eqn:Ea; [|done]. rewrite bind_Ok.
  destruct (rd ga c) as [xa|]; [|done]. rewrite bind_Ok.
  destruct (upd ga _ _) as [gb|] eqn:Eb; [|done]. rewrite bind_Ok.
  destruct (rd gb c) as [xb|]; [|done]. rewrite bind_Ok.
  intros H%Hrows. apply upd_inv in Ea as [_ ->], Eb as [_ ->].
  by rewrite H, !size_alter.
Qed.

(** Every state of a stack of covers is well formed. *)
Lemma covered_wf st g :
  (∃ hs vl, static nc nu rw (nodes s0) ∧ dynamic nc nu rw hs vl (nodes s0)) →
  covered fuel s0 st g →
  size g = size (nodes s0) ∧
  ∃ hs vl, static nc nu rw g ∧ dynamic nc nu rw hs vl g.
Proof.
  intros Hinit. induction 1 as [|st g c g' Hcov IH Hc Hrun]; [done|].
  destruct IH as (Hsz & hs & vl & Hs & Hh & Hv & Hl).
  rewrite Hroot in Hc. rewrite (live_columns_hs hs g Hs Hh) in Hc.
  assert (Hf : nu ≤ Z.of_nat fuel).
  { pose proof (size_lower_bound nc nu rw g Hs). lia. }
  destruct (cover_spec nc nu rw hs vl g c fuel Hs Hh Hv Hl Hc Hf)
    as (Hrun' & _ & Hs' & Hh' & Hv' & Hl').
  rewrite Hrun in Hrun'. injection Hrun' as ->.
  split; [by rewrite <- Hsz; eapply cover_size|]. by eexists _, _.
Qed.

Lemma reach_covered st g :
  (∃ hs vl, static nc nu rw (nodes s0) ∧ dynamic nc nu rw hs vl (nodes s0)) →
  reach fuel s0 st g → covered fuel s0 st g.
Proof.
  intros Hinit. induction 1 as [|st g c g' Hr IH Hc Hrun|st g c g' Hr IH Hrun].
  - constructor.
  - by econstructor.
  - apply covered_inv in IH as (g1 & Hcov & Hc & Hrun1).
    destruct (covered_wf st g1 Hinit Hcov) as (Hsz & hs & vl & Hs & Hh & Hv & Hl).
    rewrite Hroot in Hc. rewrite (live_columns_hs hs g1 Hs Hh) in Hc.
    assert (Hf : nu ≤ Z.of_nat fuel).
    { pose proof (size_lower_bound nc nu rw g1 Hs). lia. }
    destruct (cover_spec nc nu rw hs vl g1 c fuel Hs Hh Hv Hl Hc Hf)
      as (Hrun' & Hun & _).
    rewrite Hrun1 in Hrun'. injection Hrun' as Eg. rewrite <- Eg in Hun.
    rewrite Hun in Hrun. by injection Hrun as <-.
Qed.

Lemma reach_roundtrip st g c :
  (∃ hs vl, static nc nu rw (nodes s0) ∧ dynamic nc nu rw hs vl (nodes s0)) →
  reach fuel s0 st g → c ∈ live_columns g (root s0) →
  ∃ g', cover fuel c g = Ok g' ∧ uncover fuel c g' = Ok g.
Proof.
  intros Hinit Hr%(reach_covered _ _ Hinit) Hc.
  destruct (covered_wf st g Hinit Hr) as (Hsz & hs & vl & Hs & Hh & Hv & Hl).
  rewrite Hroot in Hc. rewrite (live_columns_hs hs g Hs Hh) in Hc.
  assert (Hf : nu ≤ Z.of_nat fuel).
  { pose proof (size_lower_bound nc nu rw g Hs). lia. }
  destruct (cover_spec nc nu rw hs vl g c fuel Hs Hh Hv Hl Hc Hf)
    as (Hrun & Hun & _).
  eauto.
Qed.

End reach.

End RoundTrip.

(** * The graph built by [solver_init_graph] *)

Module InitFacts.
Import Util Solver Dlx InitSpec ArenaFacts SegFacts UnlinkFacts CoverFacts
  CoverUncover.

Lemma bind_inv {A B} (m : res A) (f : A → res B) r :
  (x ← m; f x) = Ok r → ∃ a, m = Ok a ∧ f a = Ok r.
Proof. destruct m as [a|e]; [|done]. rewrite bind_Ok. eauto. Qed.

Lemma for_range_ind {St} (P : Z → St → Prop) lo hi (body : Z → St → res St) s s' :
  lo ≤ hi → P lo s →
  (∀ i s s', lo ≤ i < hi → P i s → body i s = Ok s' → P (i + 1) s') →
  for_range lo hi body s = Ok s' → P hi s'.
Proof.
  intros Hle Hs Hb. unfold for_range.
  assert (H : ∀ (k : nat) lo' s, lo ≤ lo' → lo' + Z.of_nat k = hi → P lo' s →
            for_loop k lo' body s = Ok s' → P hi s').
  { induction k as [|k IH]; intros lo' s1 Hlo Hhi Hs1 Hrun.
    - injection Hrun as <-. replace hi with lo' by lia. done.
    - rewrite for_loop_S in Hrun. apply bind_inv in Hrun as (s2 & Hs2 & Hrun).
      apply (IH (lo' + 1) s2); [lia|lia| |done].
      apply (Hb lo' s1); [lia|done..]. }
  apply (H (Z.to_nat (hi - lo)) lo s); [lia|lia|done].
Qed.

Lemma fst_pair_fmap {A} (a : A) (l : list Z) :
  ((λ i, (i, a)) <$> l).*1 = l.
Proof. induction l as [|x l IH]; [done|]. rewrite !fmap_cons. by f_equal. Qed.

Lemma lookup_calloc n i :
  calloc_nodes n !! i = if decide (0 ≤ i < n) then Some node0 else None.
Proof.
  unfold calloc_nodes. case_decide as Hi.
  - apply elem_of_list_to_map_1.
    + rewrite fst_pair_fmap. apply NoDup_seqZ.
    + apply list_elem_of_fmap. exists i. split; [done|]. apply elem_of_seqZ. lia.
  - apply not_elem_of_list_to_map_1. rewrite fst_pair_fmap.
    rewrite elem_of_seqZ. lia.
Qed.

Lemma nd_calloc n i : nd (calloc_nodes n) i = node0.
Proof. unfold nd. rewrite lookup_calloc. by case_decide. Qed.

(** Inversion of one store. *)
Lemma upd_fields g p f g' :
  upd g p f = Ok g' →
  is_Some (g !! p) ∧ same_dom g g' ∧
  ∀ q, nd g' q = if decide (p = q) then f (nd g q) else nd g q.
Proof.
  intros [Hs ->]%upd_inv. split_and!; [done| |].
  - intros x. apply is_Some_alter.
  - intros q. by apply nd_alter.
Qed.

Lemma same_dom_trans g1 g2 g3 : same_dom g1 g2 → same_dom g2 g3 → same_dom g1 g3.
Proof. unfold same_dom. intros H1 H2 x. by rewrite H2, H1. Qed.

Lemma same_dom_refl g : same_dom g g.
Proof. by intros x. Qed.

Ltac inv_upd H :=
  let g := fresh "g" in let Hu := fresh "Hu" in
  let Hs := fresh "Hsome" in let Hd := fresh "Hdom" in let Hn := fresh "Hnd" in
  lazymatch type of H with
  | mbind _ (upd _ _ _) = Ok _ =>
      apply bind_inv in H as (g & Hu & H);
      apply upd_fields in Hu as (Hs & Hd & Hn)
  | upd _ _ _ = Ok _ =>
      apply upd_fields in H as (Hs & Hd & Hn)
  end.

Section headers.
Variables (nc : Z).
Hypothesis Hnc : 2 ≤ nc < size_modulus.

Lemma sz_nc1 : sz (nc - 1) = nc - 1.
Proof. apply sz_small. lia. Qed.
Lemma sz_nc2 : sz (nc - 2) = nc - 2.
Proof. apply sz_small. lia. Qed.

Lemma link_header_loop g0 g :
  for_range 1 (sz (nc - 1)) link_header g0 = Ok g →
  same_dom g0 g ∧
  ∀ q, nd g q = if decide (1 ≤ q < nc - 1)
                then set_right (q + 1) (set_left (q - 1) (nd g0 q))
                else nd g0 q.
Proof.
  rewrite sz_nc1. intros Hrun.
  apply (for_range_ind
    (λ k g, same_dom g0 g ∧
       ∀ q, nd g q = if decide (1 ≤ q < k)
                     then set_right (q + 1) (set_left (q - 1) (nd g0 q))
                     else nd g0 q)) in Hrun; [done|lia| |].
  - split; [apply same_dom_refl|]. intros q. case_decide; [lia|done].
  - intros i g1 g2 Hi [Hd Hq] Hstep. unfold link_header in Hstep.
    inv_upd Hstep. inv_upd Hstep. split.
    + eauto using same_dom_trans.
    + intros q. rewrite Hnd0, Hnd, !Hq.
      repeat case_decide; try lia; subst; done.
Qed.

Lemma root_link gA gB :
  (g ← upd gA nc (set_right 0);
   g ← upd g 0 (set_left nc);
   g ← upd g 0 (set_right 1);
   g ← upd g (sz (nc - 1)) (set_left (sz (nc - 2)));
   g ← upd g (sz (nc - 1)) (set_right nc);
   upd g nc (set_left (sz (nc - 1)))) = Ok gB →
  same_dom gA gB ∧ is_Some (gA !! nc) ∧ is_Some (gA !! 0) ∧
  ∀ q, nd gB q =
       if decide (q = nc) then set_left (nc - 1) (set_right 0 (nd gA q))
       else if decide (q = 0) then set_right 1 (set_left nc (nd gA q))
       else if decide (q = nc - 1) then set_right nc (set_left (nc - 2) (nd gA q))
       else nd gA q.
Proof.
  rewrite sz_nc1, sz_nc2. intros H.
  do 6 inv_upd H. split_and!.
  - eauto 10 using same_dom_trans.
  - done.
  - by apply Hdom.
  - intros q. rewrite Hnd4, Hnd3, Hnd2, Hnd1, Hnd0, Hnd.
    repeat case_decide; try lia; subst; try done.
Qed.

Lemma seg_interval f (n : nat) a stop :
  (∀ x, a ≤ x < a + Z.of_nat n → f x = x + 1) →
  f (a + Z.of_nat n) = stop → ¬ (a ≤ stop ≤ a + Z.of_nat n) →
  seg f a (seqZ a (Z.of_nat (S n))) stop.
Proof.
  revert a. induction n as [|n IH]; intros a Hf Hl Hs.
  - simpl in *. rewrite Z.add_0_r in *. split_and!; [done|lia|done].
  - rewrite Nat2Z.inj_succ, <- Z.add_1_l. rewrite seqZ_cons by lia.
    cbn [seg]. split_and!; [done|lia|].
    rewrite Hf by lia. replace (Z.pred (1 + Z.of_nat (S n))) with (Z.of_nat (S n)) by lia.
    apply IH.
    + intros x Hx. apply Hf. lia.
    + rewrite <- Hl. f_equal. lia.
    + lia.
Qed.

Lemma headers_horiz g : headers_linked nc g → horiz nc (seqZ 0 nc) g.
Proof.
  intros (HRr & HLr & HL0 & HRl & HR & HL). split.
  - intros x Hx. split.
    + destruct (decide (x = nc)) as [->|]; [lia|].
      destruct (decide (x = 0)) as [->|]; [lia|]. rewrite HL; lia.
    + destruct (decide (x = nc)) as [->|]; [lia|].
      destruct (decide (x = nc - 1)) as [->|]; [lia|]. rewrite HR; lia.
  - unfold ring. rewrite HRr.
    pose proof (seg_interval (fR g) (Z.to_nat (nc - 1)) 0 nc) as Hseg.
    replace (Z.of_nat (S (Z.to_nat (nc - 1)))) with nc in Hseg by lia.
    apply Hseg.
    + intros x Hx. apply HR. lia.
    + rewrite <- HRl. f_equal. lia.
    + lia.
  - apply NoDup_seqZ.
  - intros c Hc%elem_of_seqZ. unfold is_header. lia.
  - intros x [->|Hx%elem_of_seqZ].
    + by rewrite HRr, HL0.
    + destruct (decide (x = nc - 1)) as [->|]; [by rewrite HRl, HLr|].
      rewrite HR by lia. rewrite HL; lia.
Qed.

(** The graph after the header list is set up. *)
Lemma init_headers needed gA gB :
  nc < needed →
  for_range 1 (sz (nc - 1)) link_header (calloc_nodes needed) = Ok gA →
  (g ← upd gA nc (set_right 0);
   g ← upd g 0 (set_left nc);
   g ← upd g 0 (set_right 1);
   g ← upd g (sz (nc - 1)) (set_left (sz (nc - 2)));
   g ← upd g (sz (nc - 1)) (set_right nc);
   upd g nc (set_left (sz (nc - 1)))) = Ok gB →
  headers_linked nc gB ∧
  (∀ x, is_Some (gB !! x) ↔ 0 ≤ x < needed) ∧
  (∀ x, fcount gB x = 0).
Proof.
  intros Hneeded [HdA HA]%link_header_loop (HdB & _ & _ & HB)%root_link.
  assert (Hnd : ∀ q, nd gB q =
            if decide (q = nc) then set_left (nc - 1) (set_right 0 node0)
            else if decide (q = 0) then set_right 1 (set_left nc node0)
            else if decide (q = nc - 1) then set_right nc (set_left (nc - 2) node0)
            else if decide (1 ≤ q < nc - 1)
                 then set_right (q + 1) (set_left (q - 1) node0)
            else node0).
  { intros q. rewrite HB, HA, !nd_calloc. repeat case_decide; try lia; done. }
  split_and!.
  - unfold headers_linked, fR, fL. split_and!; try intros x Hx; rewrite Hnd;
      repeat case_decide; try lia; simpl; try done; lia.
  - intros x. rewrite (HdB x), (HdA x), lookup_calloc.
    case_decide; split; try done; intros [? ?]; done.
  - intros x. unfold fcount. rewrite Hnd. repeat case_decide; done.
Qed.

End headers.

End InitFacts.

(** * Open chains, as the passes of [solver_init_graph] build them *)

Module ChainFacts.
Import Util Solver Dlx InitSpec ArenaFacts SegFacts.

Lemma last_cons_default (a y : Z) l : default a (last (y :: l)) = default y (last l).
Proof. rewrite last_cons. by destruct (last l). Qed.

Lemma last_default_elem (a : Z) l : default a (last l) = a ∨ default a (last l) ∈ l.
Proof.
  destruct (last l) as [x|] eqn:E; [|by left]. right. simpl.
  apply last_Some in E as [l' ->]. set_solver.
Qed.

Lemma dchain_snoc nx pv nx' pv' a l n :
  dchain nx pv a l → NoDup (a :: l) → n ∉ a :: l →
  nx' (default a (last l)) = n → pv' n = default a (last l) →
  (∀ x, x ≠ default a (last l) → nx' x = nx x) →
  (∀ x, x ≠ n → pv' x = pv x) →
  dchain nx' pv' a (l ++ [n]).
Proof.
  revert a. induction l as [|y l IH]; intros a Hd Hnd Hn Hnx Hpv Hnx' Hpv'.
  - simpl in *. done.
  - destruct Hd as (Hay & Hya & Hd). rewrite last_cons_default in Hnx, Hpv, Hnx'.
    apply NoDup_cons in Hnd as [Ha Hnd].
    assert (Hal : a ≠ default y (last l)).
    { intros E. destruct (last_default_elem y l) as [E'|E']; rewrite <- E in E';
        [subst a|]; set_solver. }
    simpl. split_and!.
    + by rewrite Hnx'.
    + rewrite Hpv'; [done|]. set_solver.
    + apply IH; try done. set_solver.
Qed.

Lemma dchain_next nx pv a l x :
  dchain nx pv a l → x = a ∨ x ∈ l → x ≠ default a (last l) →
  nx x ∈ l ∧ pv (nx x) = x.
Proof.
  revert a. induction l as [|y l IH]; intros a Hd Hx Hne.
  - simpl in *. set_solver.
  - destruct Hd as (Hay & Hya & Hd). rewrite last_cons_default in Hne.
    destruct (decide (x = a)) as [->|Hxa].
    + rewrite Hay. split; [set_solver|done].
    + destruct (IH y Hd) as [H1 H2]; [set_solver|done|]. split; [set_solver|done].
Qed.

Lemma dchain_close nx pv nx' pv' a l :
  dchain nx pv a l → NoDup (a :: l) →
  nx' (default a (last l)) = a → pv' a = default a (last l) →
  (∀ x, x ≠ default a (last l) → nx' x = nx x) →
  (∀ x, x ≠ a → pv' x = pv x) →
  ring nx' a l ∧ ∀ x, x = a ∨ x ∈ l → pv' (nx' x) = x.
Proof.
  intros Hd Hnd Hnx Hpv Hnx' Hpv'. split.
  - unfold ring. apply NoDup_cons in Hnd as [Ha Hnd].
    assert (H : ∀ b l', dchain nx pv b l' → NoDup (b :: l') → a ∉ l' →
              nx' (default b (last l')) = a →
              (∀ x, x ≠ default b (last l') → nx' x = nx x) →
              seg nx' (nx' b) l' a).
    { clear. intros b l'. revert b. induction l' as [|y l' IH];
        intros b Hd Hnd Ha Hnx Hnx'; [done|].
      destruct Hd as (Hby & Hyb & Hd). rewrite last_cons_default in Hnx, Hnx'.
      apply NoDup_cons in Hnd as [Hb Hnd].
      assert (Hbl : b ≠ default y (last l')).
      { intros E. destruct (last_default_elem y l') as [E'|E']; rewrite <- E in E';
          [subst b|]; set_solver. }
      rewrite Hnx', Hby by done. simpl. split_and!; [done|set_solver|].
      apply IH; try done. set_solver. }
    apply H; try done. by apply NoDup_cons.
  - intros x Hx. destruct (decide (x = default a (last l))) as [->|Hne].
    + by rewrite Hnx, Hpv.
    + destruct (dchain_next nx pv a l x Hd Hx Hne) as [H1 H2].
      rewrite Hnx' by done. rewrite Hpv'; [done|].
      apply NoDup_cons in Hnd as [Ha _]. set_solver.
Qed.

Lemma dchain_ext nx pv nx' pv' a l :
  dchain nx pv a l → NoDup (a :: l) →
  (∀ x, x = a ∨ x ∈ l → x ≠ default a (last l) → nx' x = nx x) →
  (∀ x, x ∈ l → pv' x = pv x) →
  dchain nx' pv' a l.
Proof.
  revert a. induction l as [|y l IH]; intros a Hd Hnd Hnx Hpv; [done|].
  destruct Hd as (Hay & Hya & Hd). apply NoDup_cons in Hnd as [Ha Hnd].
  assert (Hal : a ≠ default y (last l)).
  { intros E. destruct (last_default_elem y l) as [E'|E']; rewrite <- E in E';
      [subst a|]; set_solver. }
  simpl. split_and!.
  - rewrite Hnx; [done|by left|by rewrite last_cons_default].
  - rewrite Hpv; [done|set_solver].
  - apply IH; try done.
    + intros x Hx Hne. apply Hnx; [set_solver|by rewrite last_cons_default].
    + intros x Hx. apply Hpv. set_solver.
Qed.

(** In a circular list every member's successor is a member or the head. *)
Lemma ring_next f c l x : ring f c l → x = c ∨ x ∈ l → f x = c ∨ f x ∈ l.
Proof.
  intros Hr [->|Hx].
  - unfold ring in Hr. destruct l as [|y l]; simpl in Hr; [by left|].
    destruct Hr as (-> & _). right. set_solver.
  - destruct (list_elem_of_split _ _ Hx) as (l1 & l2 & ->).
    unfold ring in Hr. apply seg_succ in Hr as [?|?]; [by left|]. right. set_solver.
Qed.

Lemma seg_prefix f n l1 x l2 stop :
  seg f n (l1 ++ x :: l2) stop → x ∉ l1 → seg f n l1 x.
Proof.
  revert n. induction l1 as [|y l1 IH]; intros n Hs Hx.
  - by destruct Hs as (-> & _).
  - destruct Hs as (-> & Hy & Hs). simpl. split_and!; [done|set_solver|].
    apply IH; [done|set_solver].
Qed.

Lemma seg_trans f n l a l' x :
  seg f n l a → a ≠ x → x ∉ l → seg f (f a) l' x → seg f n (l ++ a :: l') x.
Proof.
  revert n. induction l as [|y l IH]; intros n Hs Hax Hx Hs'.
  - simpl in *. by subst.
  - destruct Hs as (-> & Hy & Hs). simpl. split_and!; [done|set_solver|].
    apply IH; [done|done|set_solver|done].
Qed.

(** A circular list read from another of its members. *)
Lemma ring_rotate f a l l1 x l2 :
  ring f a l → NoDup (a :: l) → a :: l = l1 ++ x :: l2 →
  ring f x (l2 ++ l1).
Proof.
  intros Hr Hnd El. unfold ring in *.
  destruct l1 as [|a' l1]; simplify_eq/=.
  { by rewrite app_nil_r. }
  apply NoDup_cons in Hnd as [Ha Hnd].
  apply NoDup_app in Hnd as (Hnd1 & Hnd12 & [Hx2 Hnd2]%NoDup_cons).
  apply seg_trans.
  - by apply seg_suffix in Hr.
  - set_solver.
  - done.
  - apply seg_prefix in Hr; [done|]. intros Hx1. apply (Hnd12 x Hx1). set_solver.
Qed.

End ChainFacts.

(** * The column pass of [solver_init_graph] *)

Module ColumnPass.
Import Util Solver Dlx InitSpec ArenaFacts SegFacts CoverUncover InitFacts ChainFacts.

Lemma ring_back_frame f pv f' pv' c l :
  ring f c l → (∀ x, x = c ∨ x ∈ l → pv (f x) = x) →
  (∀ x, x = c ∨ x ∈ l → f' x = f x) →
  (∀ x, x = c ∨ x ∈ l → pv' x = pv x) →
  ring f' c l ∧ (∀ x, x = c ∨ x ∈ l → pv' (f' x) = x).
Proof.
  intros Hr Hb Hf Hp. split.
  - unfold ring. rewrite Hf by by left. apply (seg_ext f); [|done].
    intros x Hx. symmetry. apply Hf. by right.
  - intros x Hx. rewrite Hf by done. rewrite Hp; [by apply Hb|].
    by apply (ring_next f c l x).
Qed.

Lemma used_at_insert (used : gmap Z ptr) i n j :
  used_at (<[i := n]> used) j = if decide (i = j) then n else used_at used j.
Proof.
  unfold used_at. rewrite lookup_insert. by case_decide.
Qed.

Section column_pass.
Variables (cells : gmap Z bool) (nc nr needed : Z).
Hypothesis Hnc : 2 ≤ nc.
Hypothesis Hnr : 0 ≤ nr.
Hypothesis Hsize : nr * nc < size_modulus.
Hypothesis Hneeded : needed < size_modulus.

Lemma uidx_val r c : 0 ≤ r < nr → 0 ≤ c < nc → uidx nc r c = r * nc + c.
Proof. intros Hr Hc. unfold uidx. apply sz_small. nia. Qed.

Lemma uidx_inj r c r' c' :
  0 ≤ r < nr → 0 ≤ c < nc → 0 ≤ r' < nr → 0 ≤ c' < nc →
  uidx nc r c = uidx nc r' c' → r = r' ∧ c = c'.
Proof.
  intros Hr Hc Hr' Hc'. rewrite !uidx_val by done. intros E.
  assert (r = r') by nia. subst. lia.
Qed.

Lemma col_cell_step k j cur nu used vl g st' :
  0 ≤ k < nc → 0 ≤ j < nr →
  (∀ x, is_Some (g !! x) ↔ 0 ≤ x < needed) →
  colpass cells nc nr k j cur nu used vl g →
  col_cell cells nc k j (g, nu, used, cur) = Ok st' →
  ∃ g' nu' used' cur' vl',
    st' = (g', nu', used', cur') ∧
    colpass cells nc nr k (j + 1) cur' nu' used' vl' g' ∧
    same_horiz g g' ∧ same_dom g g'.
Proof.
  intros Hk Hj Hdomg Hcp. unfold col_cell. fold (uidx nc j k). fold (mcell cells nc j k).
  destruct (mcell cells nc j k) eqn:Hm.
  2:{ intros [= <-]. exists g, nu, used, cur, vl. split; [done|].
      split; [|split; [by intros x|apply same_dom_refl]].
      destruct Hcp. split; try assumption.
      - intros x Hx. destruct (cp_node0 x Hx) as (?&?&?&Hlt&?&?&?).
        split_and!; try done; try lia.
      - intros r c Hr Hc [?|[-> Hrj]] Hmc; [by apply cp_set0; auto|].
        destruct (decide (r = j)) as [->|]; [congruence|]. apply cp_set0; auto. right. lia. }
  intros H.
  destruct Hcp as [Pnu Pdom Pring Pback Popen Pcur Pnodup Pcount Plater Pmem
                     Pnode Pused Pset].
  do 5 inv_upd H. injection H as <-.
  assert (Hcur : cur = k ∨ cur ∈ vl k).
  { rewrite Pcur. apply last_default_elem. }
  assert (Hcurn : cur ≠ nu).
  { destruct Hcur as [->|Hc]; [lia|].
    apply Pmem in Hc. lia. }
  assert (Hkn : k ≠ nu) by lia.
  assert (HD : ∀ q, fD g4 q = if decide (q = cur) then nu else fD g q).
  { intros q. unfold fD. rewrite Hnd3, Hnd2, Hnd1, Hnd0, Hnd.
    repeat case_decide; subst; try done; by destruct (nd g _). }
  assert (HU : ∀ q, fU g4 q = if decide (q = nu) then cur else fU g q).
  { intros q. unfold fU. rewrite Hnd3, Hnd2, Hnd1, Hnd0, Hnd.
    repeat case_decide; subst; try done; by destruct (nd g _). }
  assert (HC : ∀ q, fC g4 q = if decide (q = nu) then k else fC g q).
  { intros q. unfold fC. rewrite Hnd3, Hnd2, Hnd1, Hnd0, Hnd.
    repeat case_decide; subst; try done; by destruct (nd g _). }
  assert (Hrow : ∀ q, frow g4 q = if decide (q = nu) then j else frow g q).
  { intros q. unfold frow. rewrite Hnd3, Hnd2, Hnd1, Hnd0, Hnd.
    repeat case_decide; subst; try done; by destruct (nd g _). }
  assert (Hcnt : ∀ q, fcount g4 q =
                   if decide (q = k) then sz (fcount g q + 1) else fcount g q).
  { intros q. unfold fcount. rewrite Hnd3, Hnd2, Hnd1, Hnd0, Hnd.
    repeat case_decide; subst; try done; by destruct (nd g _). }
  assert (HLR : same_horiz g g4).
  { intros q. unfold fL, fR. rewrite Hnd3, Hnd2, Hnd1, Hnd0, Hnd.
    repeat case_decide; subst; try done; by destruct (nd g _). }
  assert (Hsd : same_dom g g4) by eauto 10 using same_dom_trans.
  assert (Hnsome : is_Some (g !! nu)) by (by apply Hdom).
  set (vl' := λ c, if decide (c = k) then vl k ++ [nu] else vl c).
  exists g4, (nu + 1), (<[uidx nc j k := nu]> used), nu, vl'.
  split; [done|]. split; [|done].
  assert (Hfresh : ∀ c x, x ∈ vl c → x ≠ nu).
  { intros c x Hx%Pmem. lia. }
  assert (Hvl'k : vl' k = vl k ++ [nu]) by (unfold vl'; by rewrite decide_True).
  assert (Hvl'c : ∀ c, c ≠ k → vl' c = vl c).
  { intros c Hc. unfold vl'. by rewrite decide_False. }
  assert (Hsub : ∀ c x, x ∈ vl c → x ∈ vl' c).
  { intros c x Hx. unfold vl'. case_decide; subst; set_solver. }
  assert (Hndk : NoDup (k :: vl k)).
  { apply NoDup_cons. split; [|by apply Pnodup].
    intros Hx%Pmem. lia. }
  split.
  - lia.
  - intros x Hx. apply Hsd. destruct (decide (x = nu)) as [->|]; [done|].
    apply Pdom. lia.
  - intros c Hc. rewrite Hvl'c by lia.
    apply (ring_back_frame (fD g) (fU g) _ (fU g4)).
    + by apply Pring.
    + intros x Hx. by apply (Pback c).
    + intros x Hx. rewrite HD. rewrite decide_False; [done|].
      intros ->. destruct Hx as [->|Hx], Hcur as [->|Hcur]; try lia.
      * apply Pmem in Hcur. lia.
      * apply Pmem in Hx. lia.
      * apply Pmem in Hx, Hcur. lia.
    + intros x Hx. rewrite HU. rewrite decide_False; [done|].
      destruct Hx as [->|Hx]; [lia|by eapply Hfresh].
  - intros c x Hc Hx. rewrite Hvl'c in Hx by lia.
    apply (ring_back_frame (fD g) (fU g) (fD g4) (fU g4) c (vl c)); try done.
    + by apply Pring.
    + intros y Hy. by apply (Pback c).
    + intros y Hy. rewrite HD. rewrite decide_False; [done|].
      intros ->. destruct Hy as [->|Hy], Hcur as [->|Hcur]; try lia.
      * apply Pmem in Hcur. lia.
      * apply Pmem in Hy. lia.
      * apply Pmem in Hy, Hcur. lia.
    + intros y Hy. rewrite HU. rewrite decide_False; [done|].
      destruct Hy as [->|Hy]; [lia|by eapply Hfresh].
  - rewrite Hvl'k.
    apply (dchain_snoc (fD g) (fU g)).
    + by apply Popen.
    + done.
    + apply not_elem_of_cons. split; [done|]. intros Hx. by apply (Hfresh k nu).
    + rewrite <- Pcur. rewrite HD. by rewrite decide_True.
    + rewrite <- Pcur. rewrite HU. by rewrite decide_True.
    + rewrite <- Pcur. intros x Hx. rewrite HD.
      by rewrite decide_False.
    + intros x Hx. rewrite HU. by rewrite decide_False.
  - rewrite Hvl'k. rewrite last_snoc. done.
  - intros c. unfold vl'. case_decide; [|by apply Pnodup].
    apply NoDup_app. split_and!; [by apply Pnodup| |apply NoDup_singleton].
    intros x Hx Hxn. apply list_elem_of_singleton in Hxn. by apply (Hfresh k x).
  - intros c Hc. rewrite Hcnt. unfold vl'. case_decide as E.
    + subst c. rewrite Pcount by done.
      rewrite length_app. simpl. rewrite sz_small; [lia|].
      pose proof (length_nodup_range (vl k) nc nu
                    (Pnodup k)) as Hlen.
      assert (Hr : ∀ x, x ∈ vl k → nc < x < nu).
      { intros x Hx. apply Pmem in Hx. tauto. }
      specialize (Hlen Hr). apply Hdomg in Hnsome. lia.
    + by apply Pcount.
  - intros c Hc. rewrite Hvl'c by lia. by apply Plater.
  - intros c x. unfold vl'. rewrite HC. case_decide as E.
    + subst c. intros [Hx|Hx]%elem_of_app; [|apply list_elem_of_singleton in Hx as ->].
      * rewrite decide_False by by eapply Hfresh.
        apply Pmem in Hx. lia.
      * rewrite decide_True by done. lia.
    + intros Hx. rewrite decide_False by by eapply Hfresh.
      apply Pmem in Hx. lia.
  - intros x Hx. rewrite HC, Hrow. destruct (decide (x = nu)) as [->|Hxn].
    + rewrite used_at_insert, decide_True by done. rewrite Hvl'k.
      split_and!; try lia; try done. set_solver.
    + assert (Hx' : nc < x < nu) by lia.
      destruct (Pnode x Hx') as (H1&H2&H3&H4&H5&H6&H7).
      rewrite used_at_insert. rewrite decide_False.
      * split_and!; try lia; try done; by apply Hsub.
      * intros E. apply uidx_inj in E as [E1 E2]; lia.
  - intros r c Hr Hc. rewrite used_at_insert. case_decide as E.
    + apply uidx_inj in E as [<- <-]; try lia. intros _.
      rewrite Hrow, HC, !decide_True by done. lia.
    + intros Hne. destruct (Pused r c Hr Hc Hne) as (H1&H2&H3).
      rewrite Hrow, HC, !decide_False by lia. lia.
  - intros r c Hr Hc Hcase Hmc. rewrite used_at_insert. case_decide as E.
    + unfold NULL; lia.
    + apply Pset; try done.
      destruct Hcase as [?|[-> Hrj]]; [by left|right]. split; [done|].
      destruct (decide (r = j)) as [->|]; [done|lia].
Qed.


Lemma same_horiz_trans g1 g2 g3 :
  same_horiz g1 g2 → same_horiz g2 g3 → same_horiz g1 g3.
Proof.
  intros H1 H2 x. destruct (H1 x) as [<- <-]. apply H2.
Qed.

Lemma dom_same g g' :
  same_dom g g' → (∀ x, is_Some (g !! x) ↔ 0 ≤ x < needed) →
  ∀ x, is_Some (g' !! x) ↔ 0 ≤ x < needed.
Proof. intros Hs Hd x. rewrite (Hs x). apply Hd. Qed.

(** The inner loop over the rows of column [k]. *)
Lemma col_cells_loop k nu used vl g st' :
  0 ≤ k < nc →
  (∀ x, is_Some (g !! x) ↔ 0 ≤ x < needed) →
  colpass cells nc nr k 0 k nu used vl g →
  for_range 0 nr (col_cell cells nc k) (g, nu, used, k) = Ok st' →
  ∃ g' nu' used' cur' vl',
    st' = (g', nu', used', cur') ∧
    colpass cells nc nr k nr cur' nu' used' vl' g' ∧
    same_horiz g g' ∧ same_dom g g'.
Proof.
  intros Hk Hdomg Hcp Hrun.
  apply (for_range_ind (λ j st, ∃ g' nu' used' cur' vl',
           st = (g', nu', used', cur') ∧
           colpass cells nc nr k j cur' nu' used' vl' g' ∧
           same_horiz g g' ∧ same_dom g g') 0 nr _ _ _ Hnr) in Hrun; [done| |].
  - exists g, nu, used, k, vl. split_and!; [done|done|by intros x|apply same_dom_refl].
  - intros j s1 s2 Hj (g1 & nu1 & used1 & cur1 & vl1 & -> & Hcp1 & Hh1 & Hd1) Hstep.
    apply (col_cell_step _ _ _ _ _ vl1) in Hstep
      as (g2 & nu2 & used2 & cur2 & vl2 & -> & Hcp2 & Hh2 & Hd2);
      [|done|done|by apply (dom_same g)|done].
    exists g2, nu2, used2, cur2, vl2. split_and!; [done|done| |].
    + by apply (same_horiz_trans _ g1).
    + by apply (same_dom_trans _ g1).
Qed.

(** Closing the list of column [k]. *)
Lemma col_close k cur nu used vl g g' :
  0 ≤ k < nc →
  colpass cells nc nr k nr cur nu used vl g →
  (g ← upd g cur (set_down k); upd g k (set_up cur)) = Ok g' →
  colpass cells nc nr (k + 1) 0 (k + 1) nu used vl g' ∧
  same_horiz g g' ∧ same_dom g g'.
Proof.
  intros Hk Hcp H.
  destruct Hcp as [Pnu Pdom Pring Pback Popen Pcur Pnodup Pcount Plater Pmem
                     Pnode Pused Pset].
  do 2 inv_upd H.
  assert (Hcur : cur = k ∨ cur ∈ vl k).
  { rewrite Pcur. apply last_default_elem. }
  assert (HD : ∀ q, fD g' q = if decide (q = cur) then k else fD g q).
  { intros q. unfold fD. rewrite Hnd0, Hnd.
    repeat case_decide; subst; try done; by destruct (nd g _). }
  assert (HU : ∀ q, fU g' q = if decide (q = k) then cur else fU g q).
  { intros q. unfold fU. rewrite Hnd0, Hnd.
    repeat case_decide; subst; try done; by destruct (nd g _). }
  assert (HC : ∀ q, fC g' q = fC g q).
  { intros q. unfold fC. rewrite Hnd0, Hnd.
    repeat case_decide; subst; try done; by destruct (nd g _). }
  assert (Hrow : ∀ q, frow g' q = frow g q).
  { intros q. unfold frow. rewrite Hnd0, Hnd.
    repeat case_decide; subst; try done; by destruct (nd g _). }
  assert (Hcnt : ∀ q, fcount g' q = fcount g q).
  { intros q. unfold fcount. rewrite Hnd0, Hnd.
    repeat case_decide; subst; try done; by destruct (nd g _). }
  assert (HLR : same_horiz g g').
  { intros q. unfold fL, fR. rewrite Hnd0, Hnd.
    repeat case_decide; subst; try done; by destruct (nd g _). }
  assert (Hsd : same_dom g g') by eauto using same_dom_trans.
  assert (Hndk : NoDup (k :: vl k)).
  { apply NoDup_cons. split; [|by apply Pnodup]. intros Hx%Pmem. lia. }
  assert (Hframe : ∀ c x, 0 ≤ c < k → x = c ∨ x ∈ vl c →
            fD g' x = fD g x ∧ fU g' x = fU g x).
  { intros c x Hc Hx. rewrite HD, HU. rewrite !decide_False; [done| |].
    - destruct Hx as [->|Hx]; [lia|]. apply Pmem in Hx. lia.
    - intros ->. destruct Hx as [->|Hx], Hcur as [->|Hcur]; try lia.
      + apply Pmem in Hcur. lia.
      + apply Pmem in Hx. lia.
      + apply Pmem in Hx, Hcur. lia. }
  destruct (dchain_close (fD g) (fU g) (fD g') (fU g') k (vl k)) as [Hring Hback];
    [done|done|..].
  { rewrite <- Pcur, HD. by rewrite decide_True. }
  { rewrite <- Pcur, HU. by rewrite decide_True. }
  { rewrite <- Pcur. intros x Hx. rewrite HD. by rewrite decide_False. }
  { intros x Hx. rewrite HU. by rewrite decide_False. }
  split; [|done]. split.
  - done.
  - intros x Hx. apply Hsd. by apply Pdom.
  - intros c Hc. destruct (decide (c = k)) as [->|]; [done|].
    apply (ring_back_frame (fD g) (fU g) _ (fU g')).
    + apply Pring. lia.
    + intros x Hx. apply (Pback c); [lia|done].
    + intros x Hx. apply (Hframe c); [lia|done].
    + intros x Hx. apply (Hframe c); [lia|done].
  - intros c x Hc Hx. destruct (decide (c = k)) as [->|]; [by apply Hback|].
    apply (ring_back_frame (fD g) (fU g) (fD g') (fU g') c (vl c)); try done.
    + apply Pring. lia.
    + intros y Hy. apply (Pback c); [lia|done].
    + intros y Hy. apply (Hframe c); [lia|done].
    + intros y Hy. apply (Hframe c); [lia|done].
  - rewrite Plater by lia. done.
  - rewrite Plater by lia. done.
  - done.
  - intros c Hc. rewrite Hcnt. by apply Pcount.
  - intros c Hc. apply Plater. lia.
  - intros c x Hx. rewrite HC. by apply Pmem.
  - intros x Hx. rewrite HC, Hrow.
    destruct (Pnode x Hx) as (H1&H2&H3&H4&H5&H6&H7). split_and!; try lia; done.
  - intros r c Hr Hc Hne. rewrite HC, Hrow. by apply Pused.
  - intros r c Hr Hc Hcase Hmc. apply Pset; try done.
    destruct (decide (c = k)); [right|left]; lia.
Qed.

(** The whole column pass. *)
Lemma col_pass_loop gB g nu used :
  (∀ x, is_Some (gB !! x) ↔ 0 ≤ x < needed) →
  (∀ x, fcount gB x = 0) →
  for_range 0 nc (col_pass cells nc nr) (gB, nc + 1, ∅) = Ok (g, nu, used) →
  ∃ vl, colpass cells nc nr nc 0 nc nu used vl g ∧ same_horiz gB g ∧
        (∀ x, is_Some (g !! x) ↔ 0 ≤ x < needed).
Proof.
  intros HdomB HcntB Hrun.
  apply (for_range_ind (λ k st, ∃ g' nu' used' vl',
           st = (g', nu', used') ∧
           colpass cells nc nr k 0 k nu' used' vl' g' ∧
           same_horiz gB g' ∧ same_dom gB g') 0 nc) in Hrun; [|lia| |].
  - destruct Hrun as (g' & nu' & used' & vl' & [= <- <- <-] & Hcp & Hh & Hd).
    exists vl'. split_and!; [done|done|by apply (dom_same gB)].
  - exists gB, (nc + 1), ∅, (λ _, []). split_and!; [done| |by intros x|apply same_dom_refl].
    split; try done; try lia.
    + intros c. apply NoDup_nil_2.
    + intros c x Hx. by apply elem_of_nil in Hx.
  - intros k [[g1 nu1] used1] s2 Hk (g1' & nu1' & used1' & vl1 & [= <- <- <-] & Hcp1 & Hh1 & Hd1).
    unfold col_pass. intros Hstep.
    apply bind_inv in Hstep as (st & Hloop & Hstep).
    apply (col_cells_loop _ _ _ vl1) in Hloop
      as (g2 & nu2 & used2 & cur2 & vl2 & -> & Hcp2 & Hh2 & Hd2);
      [|done|by apply (dom_same gB)|done].
    destruct (upd g2 cur2 (set_down k) ≫= λ g, upd g k (set_up cur2)) as [g3|e] eqn:Hcl.
    2:{ exfalso. revert Hstep. cbn. destruct (upd g2 cur2 (set_down k)) as [g3|e']; cbn in *.
        - rewrite Hcl. done.
        - done. }
    assert (s2 = (g3, nu2, used2)) as ->.
    { revert Hstep. cbn. destruct (upd g2 cur2 (set_down k)) as [g4|e']; cbn in *; [|done].
      rewrite Hcl. cbn. by intros [= <-]. }
    apply (col_close _ _ nu2 used2 vl2) in Hcl as (Hcp3 & Hh3 & Hd3); [|done|done].
    exists g3, nu2, used2, vl2. split_and!; [done|done| |].
    + eauto using same_horiz_trans.
    + eauto using same_dom_trans.
Qed.

End column_pass.

End ColumnPass.

(** * The row pass of [solver_init_graph] *)

Module RowPass.
Import Util Solver Dlx InitSpec ArenaFacts SegFacts CoverUncover InitFacts ChainFacts.
Import ColumnPass.

Lemma row_frame_refl nc g : row_frame nc g g.
Proof. split_and!; [by intros x|apply same_dom_refl|by intros x]. Qed.

Lemma row_frame_trans nc g1 g2 g3 :
  row_frame nc g1 g2 → row_frame nc g2 g3 → row_frame nc g1 g3.
Proof.
  intros (V1 & D1 & H1) (V2 & D2 & H2). split_and!.
  - intros x. destruct (V1 x) as (<- & <- & <- & <- & <-). apply V2.
  - by apply (same_dom_trans _ g2).
  - intros x Hx. destruct (H1 x Hx) as [<- <-]. by apply H2.
Qed.

Section row_pass.
Variables (cells : gmap Z bool) (nc nr needed nu : Z).
Variables (used : gmap Z ptr) (vl : Z → list Z) (gC : arena).
Hypothesis Hnc : 2 ≤ nc.
Hypothesis Hnr : 0 ≤ nr.
Hypothesis Hsize : nr * nc < size_modulus.
Hypothesis Hcp : colpass cells nc nr nc 0 nc nu used vl gC.
Hypothesis HdomC : ∀ x, is_Some (gC !! x) ↔ 0 ≤ x < needed.

Lemma rowl_snoc r k :
  0 ≤ k →
  rowl nc used r (k + 1) =
  rowl nc used r k ++
    (if decide (used_at used (uidx nc r k) ≠ NULL)
     then [used_at used (uidx nc r k)] else []).
Proof.
  intros Hk. unfold rowl. rewrite seqZ_app by lia. rewrite fmap_app, filter_app.
  f_equal.
Qed.

Lemma rowl_mem r k y :
  0 ≤ r < nr → k ≤ nc → y ∈ rowl nc used r k →
  nc < y < nu ∧ frow gC y = r ∧ 0 ≤ fC gC y < k ∧
  y = used_at used (uidx nc r (fC gC y)).
Proof.
  intros Hr Hk. unfold rowl. rewrite list_elem_of_filter.
  intros [Hy Hin]. apply list_elem_of_fmap in Hin as (c & -> & Hc).
  apply elem_of_seqZ in Hc.
  destruct (cp_used _ _ _ _ _ _ _ _ _ _ Hcp r c) as (H1 & H2 & H3); [lia..|done|].
  rewrite H3. split_and!; try done; lia.
Qed.

Lemma rowl_nodup r k : 0 ≤ r < nr → k ≤ nc → NoDup (rowl nc used r k).
Proof.
  intros Hr Hk. destruct (decide (k < 0)) as [Hneg|Hpos].
  { unfold rowl. rewrite seqZ_nil by lia. apply NoDup_nil_2. }
  revert Hk. pattern k. apply natlike_ind; [| |lia].
  - intros _. unfold rowl. rewrite seqZ_nil by lia. apply NoDup_nil_2.
  - intros j Hj IH Hle. change (Z.succ j) with (j + 1). rewrite rowl_snoc by done.
    apply NoDup_app. split_and!; [apply IH; lia| |].
    + intros y Hy. case_decide as E; [|set_solver].
      intros ->%list_elem_of_singleton.
      apply rowl_mem in Hy as (_ & _ & Hc & _); [|done|lia].
      destruct (cp_used _ _ _ _ _ _ _ _ _ _ Hcp r j) as (H1 & H2 & H3); [lia..|done|].
      lia.
    + case_decide; [apply NoDup_singleton|apply NoDup_nil_2].
Qed.

Lemma rowl_disjoint r r' k k' y :
  0 ≤ r < nr → 0 ≤ r' < nr → k ≤ nc → k' ≤ nc →
  y ∈ rowl nc used r k → y ∈ rowl nc used r' k' → r = r'.
Proof.
  intros Hr Hr' Hk Hk' (_ & <- & _)%rowl_mem (_ & <- & _)%rowl_mem; done.
Qed.

Lemma rowl_not_null r k y : y ∈ rowl nc used r k → y ≠ NULL.
Proof. unfold rowl. rewrite list_elem_of_filter. tauto. Qed.


Lemma row_cell_step k j cur first g st' :
  0 ≤ k < nr → 0 ≤ j < nc →
  rowpass nc used k j cur first g →
  row_cell nc used k j (g, cur, first) = Ok st' →
  ∃ g' cur' first',
    st' = (g', cur', first') ∧
    rowpass nc used k (j + 1) cur' first' g' ∧ row_frame nc g g'.
Proof.
  intros Hk Hj [Pring Popen]. unfold row_cell. fold (uidx nc k j).
  pose proof (rowl_snoc k j ltac:(lia)) as Esnoc.
  set (n := used_at used (uidx nc k j)) in *.
  destruct (Z.eqb_spec n NULL) as [En|En]; simpl.
  { intros [= <-]. exists g, cur, first. split_and!; [done| |apply row_frame_refl].
    split; [done|]. rewrite Esnoc. rewrite decide_False by (intros ?; done).
    by rewrite app_nil_r. }
  rewrite decide_True in Esnoc by done.
  destruct (Z.eqb_spec first NULL) as [Ef|Ef].
  { intros [= <-]. exists g, n, n. split_and!; [done| |apply row_frame_refl].
    split; [done|]. rewrite Esnoc.
    destruct (rowl nc used k j) as [|x l] eqn:El; [done|].
    destruct Popen as (-> & _). exfalso.
    apply (rowl_not_null k j x); [|done]. rewrite El. set_solver. }
  intros H. do 2 inv_upd H. injection H as <-.
  destruct (rowl nc used k j) as [|x l] eqn:El; [by destruct Popen|].
  destruct Popen as (-> & Pcur & Pch).
  assert (Hxl : ∀ y, y ∈ x :: l → nc < y < nu ∧ frow gC y = k).
  { intros y Hy. rewrite <- El in Hy.
    apply rowl_mem in Hy as (? & ? & _); [done|lia|lia]. }
  assert (Hn : nc < n < nu ∧ frow gC n = k ∧ fC gC n = j).
  { apply (cp_used _ _ _ _ _ _ _ _ _ _ Hcp); [lia..|done]. }
  assert (Hndk : NoDup (x :: l ++ [n])).
  { change (NoDup ((x :: l) ++ [n])). rewrite <- Esnoc.
    apply rowl_nodup; lia. }
  assert (Hcurl : cur ∈ x :: l).
  { rewrite Pcur. destruct (last_default_elem x l) as [->| ?]; set_solver. }
  assert (HR : ∀ q, fR g1 q = if decide (q = cur) then n else fR g q).
  { intros q. unfold fR. rewrite Hnd0, Hnd.
    repeat case_decide; subst; try done; by destruct (nd g _). }
  assert (HL : ∀ q, fL g1 q = if decide (q = n) then cur else fL g q).
  { intros q. unfold fL. rewrite Hnd0, Hnd.
    repeat case_decide; subst; try done; by destruct (nd g _). }
  assert (HV : same_vert g g1).
  { intros q. unfold fU, fD, fC, fcount, frow. rewrite Hnd0, Hnd.
    repeat case_decide; subst; try done; by destruct (nd g _). }
  exists g1, n, x. split_and!; [done| |].
  - split.
    + intros r Hr y l' Er.
      assert (Hfr : ∀ z, z = y ∨ z ∈ l' → z ≠ cur ∧ z ≠ n).
      { intros z Hz.
        assert (Hz' : z ∈ rowl nc used r nc) by (rewrite Er; set_solver).
        apply rowl_mem in Hz' as (_ & Hrow & _); [|lia|lia].
        split; intros ->; [apply Hxl in Hcurl|]; lia. }
      destruct (Pring r Hr y l' Er) as [Hrg Hbk].
      destruct (ring_back_frame (fR g) (fL g) (fR g1) (fL g1) y l') as [Hrg' Hbk'];
        [done| | | |].
      * intros z Hz. apply Hbk. set_solver.
      * intros z Hz. rewrite HR, decide_False; [done|]. by apply Hfr.
      * intros z Hz. rewrite HL, decide_False; [done|]. by apply Hfr.
      * split; [done|]. intros z Hz. apply Hbk'. set_solver.
    + rewrite Esnoc. simpl. split_and!; [done| |].
      * rewrite last_snoc. done.
      * change (NoDup ((x :: l) ++ [n])) in Hndk.
        apply NoDup_app in Hndk as (Hnd1 & Hnd2 & _).
        apply (dchain_snoc (fR g) (fL g)); [done|done| | | | |].
        -- intros Hin. by apply (Hnd2 n Hin), list_elem_of_singleton.
        -- rewrite <- Pcur, HR. by rewrite decide_True.
        -- rewrite <- Pcur, HL. by rewrite decide_True.
        -- rewrite <- Pcur. intros z Hz. rewrite HR. by rewrite decide_False.
        -- intros z Hz. rewrite HL. by rewrite decide_False.
  - split_and!; [done|eauto using same_dom_trans|].
    intros z Hz. rewrite HL, HR. apply Hxl in Hcurl.
    rewrite !decide_False by lia. done.
Qed.

(** The inner loop over the columns of row [k]. *)
Lemma row_cells_loop k g st' :
  0 ≤ k < nr →
  rowpass nc used k 0 NULL NULL g →
  for_range 0 nc (row_cell nc used k) (g, NULL, NULL) = Ok st' →
  ∃ g' cur' first',
    st' = (g', cur', first') ∧
    rowpass nc used k nc cur' first' g' ∧ row_frame nc g g'.
Proof.
  intros Hk Hrp Hrun.
  apply (for_range_ind (λ j st, ∃ g' cur' first',
           st = (g', cur', first') ∧
           rowpass nc used k j cur' first' g' ∧ row_frame nc g g') 0 nc)
    in Hrun; [done|lia| |].
  - exists g, NULL, NULL. split_and!; [done|done|apply row_frame_refl].
  - intros j s1 s2 Hj (g1 & cur1 & first1 & -> & Hrp1 & Hf1) Hstep.
    apply row_cell_step in Hstep as (g2 & cur2 & first2 & -> & Hrp2 & Hf2);
      [|done|done|done].
    exists g2, cur2, first2. split_and!; [done|done|].
    by apply (row_frame_trans _ _ g1).
Qed.

(** Closing row [k]. *)
Lemma row_close k cur first g g' :
  0 ≤ k < nr →
  rowpass nc used k nc cur first g →
  (if negb (first =? NULL) then
     g ← upd g cur (set_right first); upd g first (set_left cur)
   else Ok g) = Ok g' →
  rowpass nc used (k + 1) 0 NULL NULL g' ∧ row_frame nc g g'.
Proof.
  intros Hk [Pring Popen].
  assert (E0 : rowl nc used (k + 1) 0 = []) by done.
  destruct (Z.eqb_spec first NULL) as [Ef|Ef]; simpl.
  { intros [= <-]. split; [|apply row_frame_refl]. split; [|by rewrite E0].
    intros r Hr y l' Er. destruct (decide (r = k)) as [->|]; [|apply (Pring r); [lia|done]].
    rewrite Er in Popen. destruct Popen as (-> & _). exfalso.
    apply (rowl_not_null k nc y); [|done]. rewrite Er. set_solver. }
  intros H. do 2 inv_upd H.
  destruct (rowl nc used k nc) as [|x l] eqn:El; [by destruct Popen|].
  destruct Popen as (-> & Pcur & Pch).
  assert (Hxl : ∀ y, y ∈ x :: l → nc < y < nu ∧ frow gC y = k).
  { intros y Hy. rewrite <- El in Hy.
    apply rowl_mem in Hy as (? & ? & _); [done|lia|lia]. }
  assert (Hndk : NoDup (x :: l)).
  { rewrite <- El. apply rowl_nodup; lia. }
  assert (Hcurl : cur ∈ x :: l).
  { rewrite Pcur. destruct (last_default_elem x l) as [->| ?]; set_solver. }
  assert (HR : ∀ q, fR g' q = if decide (q = cur) then x else fR g q).
  { intros q. unfold fR. rewrite Hnd0, Hnd.
    repeat case_decide; subst; try done; by destruct (nd g _). }
  assert (HL : ∀ q, fL g' q = if decide (q = x) then cur else fL g q).
  { intros q. unfold fL. rewrite Hnd0, Hnd.
    repeat case_decide; subst; try done; by destruct (nd g _). }
  assert (HV : same_vert g g').
  { intros q. unfold fU, fD, fC, fcount, frow. rewrite Hnd0, Hnd.
    repeat case_decide; subst; try done; by destruct (nd g _). }
  assert (Hxx : x ∈ x :: l) by set_solver.
  split.
  - split; [|by rewrite E0].
    intros r Hr y l' Er. destruct (decide (r = k)) as [->|Hrk].
    + rewrite El in Er. injection Er as <- <-.
      destruct (dchain_close (fR g) (fL g) (fR g') (fL g') x l) as [Hrg Hbk];
        [done|done| | | | |].
      * rewrite <- Pcur, HR. by rewrite decide_True.
      * rewrite <- Pcur, HL. by rewrite decide_True.
      * rewrite <- Pcur. intros z Hz. rewrite HR. by rewrite decide_False.
      * intros z Hz. rewrite HL. by rewrite decide_False.
      * split; [done|]. intros z Hz. apply Hbk. set_solver.
    + assert (Hfr : ∀ z, z = y ∨ z ∈ l' → z ≠ cur ∧ z ≠ x).
      { intros z Hz.
        assert (Hz' : z ∈ rowl nc used r nc) by (rewrite Er; set_solver).
        apply rowl_mem in Hz' as (_ & Hrow & _); [|lia|lia].
        split; intros ->; [apply Hxl in Hcurl|apply Hxl in Hxx]; lia. }
      destruct (Pring r ltac:(lia) y l' Er) as [Hrg Hbk].
      destruct (ring_back_frame (fR g) (fL g) (fR g') (fL g') y l') as [Hrg' Hbk'];
        [done| | | |].
      * intros z Hz. apply Hbk. set_solver.
      * intros z Hz. rewrite HR, decide_False; [done|]. by apply Hfr.
      * intros z Hz. rewrite HL, decide_False; [done|]. by apply Hfr.
      * split; [done|]. intros z Hz. apply Hbk'. set_solver.
  - split_and!; [done|eauto using same_dom_trans|].
    intros z Hz. rewrite HL, HR. apply Hxl in Hcurl. apply Hxl in Hxx.
    rewrite !decide_False by lia. done.
Qed.

(** The whole row pass. *)
Lemma row_pass_loop g :
  for_range 0 nr (row_pass nc used) gC = Ok g →
  rowpass nc used nr 0 NULL NULL g ∧ row_frame nc gC g.
Proof.
  intros Hrun.
  apply (for_range_ind (λ k g', rowpass nc used k 0 NULL NULL g' ∧
                                 row_frame nc gC g') 0 nr) in Hrun; [done|lia| |].
  - split; [|apply row_frame_refl]. split; [intros r Hr; lia|done].
  - intros k g1 g2 Hk [Hrp Hf] Hstep. unfold row_pass in Hstep.
    apply bind_inv in Hstep as (st & Hloop & Hstep).
    apply row_cells_loop in Hloop as (g3 & cur & first & -> & Hrp3 & Hf3);
      [|done|done].
    apply (row_close k) in Hstep as [Hrp4 Hf4]; [|done|done].
    split; [done|]. eauto using row_frame_trans.
Qed.

End row_pass.

End RowPass.

(** * The graph built by [solver_init_graph] is well formed *)

Module InitWf.
Import Util Solver Dlx InitSpec ArenaFacts SegFacts CoverUncover InitFacts ChainFacts.
Import ColumnPass RowPass.

Lemma rotate_from_split (x : Z) l :
  x ∈ l → ∃ l1 l2, l = l1 ++ x :: l2 ∧ rotate_from x l = l2 ++ l1.
Proof.
  intros Hx. unfold rotate_from.
  destruct (list_find_elem_of (λ y, y = x) l x Hx eq_refl) as [[i y] Hf].
  rewrite Hf. apply list_find_Some in Hf as (Hi & -> & _).
  exists (take i l), (drop (S i) l). split; [|done]. by rewrite take_drop_middle.
Qed.

Section assemble.
Variables (cells : gmap Z bool) (nc nr needed nu : Z).
Variables (used : gmap Z ptr) (vl : Z → list Z) (gC g : arena).
Hypothesis Hnc : 2 ≤ nc.
Hypothesis Hnr : 0 ≤ nr.
Hypothesis Hsize : nr * nc < size_modulus.
Hypothesis Hneeded : nc < needed < size_modulus.
Hypothesis Hcp : colpass cells nc nr nc 0 nc nu used vl gC.
Hypothesis HdomC : ∀ x, is_Some (gC !! x) ↔ 0 ≤ x < needed.
Hypothesis HhC : headers_linked nc gC.
Hypothesis Hrp : rowpass nc used nr 0 NULL NULL g.
Hypothesis Hfr : row_frame nc gC g.

Lemma nu_needed : nc < nu ≤ needed.
Proof.
  pose proof (cp_nu _ _ _ _ _ _ _ _ _ _ Hcp) as Hnu. split; [done|].
  destruct (decide (nu = nc + 1)) as [->|]; [lia|].
  assert (H : is_Some (gC !! (nu - 1))).
  { apply (cp_dom _ _ _ _ _ _ _ _ _ _ Hcp). lia. }
  apply HdomC in H. lia.
Qed.

Lemma rowl_nodup_full r : 0 ≤ r < nr → NoDup (rowl nc used r nc).
Proof. intros Hr. eapply rowl_nodup; eauto; lia. Qed.

Lemma rowl_mem_full r y :
  0 ≤ r < nr → y ∈ rowl nc used r nc → nc < y < nu ∧ frow gC y = r.
Proof.
  intros Hr Hy. eapply rowl_mem in Hy as (H1 & H2 & _); eauto. lia.
Qed.

Lemma frame_vert x :
  fU g x = fU gC x ∧ fD g x = fD gC x ∧ fC g x = fC gC x ∧
  fcount g x = fcount gC x ∧ frow g x = frow gC x.
Proof. destruct Hfr as (V & _). apply V. Qed.

Lemma node_in_row x :
  nc < x < nu →
  0 ≤ frow gC x < nr ∧ 0 ≤ fC gC x < nc ∧ x ∈ rowl nc used (frow gC x) nc.
Proof.
  intros Hx.
  destruct (cp_node _ _ _ _ _ _ _ _ _ _ Hcp x Hx) as (H1&H2&H3&H4&H5&H6&H7).
  split_and!; try lia. unfold rowl. apply list_elem_of_filter. split.
  - unfold NULL. lia.
  - apply list_elem_of_fmap. exists (fC gC x). split; [done|].
    apply elem_of_seqZ. lia.
Qed.

Lemma row_ring x :
  nc < x < nu →
  ring (fR g) x (init_rw nc used g x) ∧ NoDup (x :: init_rw nc used g x) ∧
  (∀ m, m = x ∨ m ∈ init_rw nc used g x ↔ m ∈ rowl nc used (frow gC x) nc) ∧
  fL g (fR g x) = x.
Proof.
  intros Hx. unfold init_rw.
  destruct (frame_vert x) as (_ & _ & _ & _ & ->).
  destruct (node_in_row x Hx) as (Hr & Hc & Hin).
  pose proof (rowl_nodup_full _ Hr) as Hnd.
  destruct (rotate_from_split _ _ Hin) as (l1 & l2 & El & ->).
  destruct (rowl nc used (frow gC x) nc) as [|a l] eqn:EL; [by destruct l1|].
  destruct (rp_ring _ _ _ _ _ _ _ Hrp (frow gC x) Hr a l EL) as [Hring Hback].
  split_and!.
  - by apply (ring_rotate _ a l).
  - change (NoDup ((x :: l2) ++ l1)). rewrite (Permutation_app_comm (x :: l2) l1).
    by rewrite <- El.
  - intros m. rewrite El. set_solver.
  - apply Hback. rewrite El. set_solver.
Qed.

Lemma init_static : static nc nu (init_rw nc used g) g.
Proof.
  pose proof nu_needed as Hnu. destruct Hfr as (V & Hd & Hh). split.
  - lia.
  - intros x Hx. apply Hd, HdomC. lia.
  - intros x Hx. destruct (frame_vert x) as (_ & _ & -> & _).
    destruct (node_in_row x Hx) as (_ & ? & _). done.
  - intros x Hx. by apply row_ring.
  - intros x Hx. destruct (row_ring x Hx) as (_ & Hnd & _).
    by apply NoDup_cons in Hnd as [_ ?].
  - intros x m Hx Hm. destruct (row_ring x Hx) as (_ & _ & Hmem & _).
    destruct (node_in_row x Hx) as (Hr & _).
    assert (Hm' : m ∈ rowl nc used (frow gC x) nc) by (apply Hmem; by right).
    apply (rowl_mem_full _ _ Hr) in Hm' as (? & ?).
    destruct (frame_vert x) as (_ & _ & _ & _ & ->).
    destruct (frame_vert m) as (_ & _ & _ & _ & ->). done.
  - intros x Hx. by apply row_ring.
  - intros x y Hx Hy. destruct (frame_vert x) as (_ & _ & _ & _ & ->).
    destruct (frame_vert y) as (_ & _ & _ & _ & ->). intros E.
    destruct (row_ring x Hx) as (_ & _ & Hmem & _). apply Hmem.
    rewrite E. by apply node_in_row.
  - intros x y Hx Hy. destruct (frame_vert x) as (_ & _ & -> & _ & ->).
    destruct (frame_vert y) as (_ & _ & -> & _ & ->). intros E1 E2.
    destruct (cp_node _ _ _ _ _ _ _ _ _ _ Hcp x Hx) as (_&_&_&_&_&H5&_).
    destruct (cp_node _ _ _ _ _ _ _ _ _ _ Hcp y Hy) as (_&_&_&_&_&H6&_).
    rewrite <- H5, <- H6. by rewrite E1, E2.
Qed.

Lemma init_horiz : horiz nc (seqZ 0 nc) g.
Proof.
  apply headers_horiz; [lia|]. destruct Hfr as (_ & _ & Hh).
  destruct HhC as (H1 & H2 & H3 & H4 & H5 & H6).
  unfold headers_linked.
  rewrite (proj2 (Hh nc ltac:(lia))), (proj1 (Hh nc ltac:(lia))),
    (proj1 (Hh 0 ltac:(lia))), (proj2 (Hh (nc - 1) ltac:(lia))).
  split_and!; try done.
  - intros x Hx. rewrite (proj2 (Hh x ltac:(lia))). by apply H5.
  - intros x Hx. rewrite (proj1 (Hh x ltac:(lia))). by apply H6.
Qed.

Lemma col_member x :
  0 ≤ x < nu → x ≠ nc →
  0 ≤ col_of nc gC x < nc ∧
  (x = col_of nc gC x ∨ x ∈ vl (col_of nc gC x)).
Proof.
  intros Hx Hne. unfold col_of. destruct (Z.ltb_spec x nc) as [Hlt|Hge].
  - split; [lia|by left].
  - destruct (cp_node _ _ _ _ _ _ _ _ _ _ Hcp x ltac:(lia)) as (H1&H2&H3&H4&H5&H6&H7).
    split; [lia|by right].
Qed.

Lemma col_member_inv c x :
  0 ≤ c < nc → x = c ∨ x ∈ vl c →
  0 ≤ x < nu ∧ x ≠ nc ∧ col_of nc gC x = c.
Proof.
  pose proof nu_needed as Hnu.
  intros Hc [->|Hx]; unfold col_of.
  - rewrite (proj2 (Z.ltb_lt _ _)) by lia. lia.
  - apply (cp_mem _ _ _ _ _ _ _ _ _ _ Hcp) in Hx as [Hx1 Hx2].
    rewrite (proj2 (Z.ltb_ge _ _)) by lia. lia.
Qed.

Lemma init_vert : vert nc nu vl g.
Proof.
  pose proof nu_needed as Hnu.
  assert (HD : ∀ x, fD g x = fD gC x) by (intros x; apply frame_vert).
  assert (HU : ∀ x, fU g x = fU gC x) by (intros x; apply frame_vert).
  assert (HC : ∀ x, col_of nc g x = col_of nc gC x).
  { intros x. unfold col_of. by destruct (frame_vert x) as (_ & _ & -> & _). }
  assert (Hring : ∀ c, 0 ≤ c < nc → ring (fD gC) c (vl c)).
  { intros c Hc. by apply (cp_ring _ _ _ _ _ _ _ _ _ _ Hcp). }
  assert (Hback : ∀ c x, 0 ≤ c < nc → x = c ∨ x ∈ vl c → fU gC (fD gC x) = x).
  { intros c x Hc. by apply (cp_back _ _ _ _ _ _ _ _ _ _ Hcp). }
  split.
  - intros x Hx Hne. rewrite HD, HU, !HC.
    destruct (col_member x Hx Hne) as [Hc Hm].
    pose proof (ring_next _ _ _ x (Hring _ Hc) Hm) as Hnext.
    pose proof (ring_rev _ (fU gC) _ _ (Hring _ Hc)
                  (cp_nodup _ _ _ _ _ _ _ _ _ _ Hcp _) (λ y, Hback _ y Hc)) as Hrev.
    assert (Hm' : x = col_of nc gC x ∨ x ∈ reverse (vl (col_of nc gC x))).
    { destruct Hm as [?|?]; [by left|right]. by apply elem_of_reverse. }
    pose proof (ring_next _ _ _ x Hrev Hm') as Hprev.
    rewrite elem_of_reverse in Hprev.
    apply (col_member_inv _ _ Hc) in Hnext, Hprev. split; split_and!; lia.
  - intros c Hc. unfold ring. rewrite HD. apply (seg_ext (fD gC)); [|by apply Hring].
    intros x _. by rewrite HD.
  - intros c Hc. apply (cp_nodup _ _ _ _ _ _ _ _ _ _ Hcp).
  - intros c x Hc Hx. destruct (frame_vert x) as (_ & _ & -> & _).
    by apply (cp_mem _ _ _ _ _ _ _ _ _ _ Hcp) in Hx.
  - intros c x Hc Hx. rewrite HD, HU. by apply (Hback c).
  - intros c Hc. destruct (frame_vert c) as (_ & _ & _ & -> & _).
    by apply (cp_count _ _ _ _ _ _ _ _ _ _ Hcp).
  - intros c Hc. destruct (frame_vert c) as (_ & _ & _ & -> & _).
    rewrite (cp_count _ _ _ _ _ _ _ _ _ _ Hcp) by done.
    pose proof (length_nodup_range (vl c) nc nu (cp_nodup _ _ _ _ _ _ _ _ _ _ Hcp c))
      as Hlen.
    assert (Hr : ∀ x, x ∈ vl c → nc < x < nu).
    { intros x Hx. apply (cp_mem _ _ _ _ _ _ _ _ _ _ Hcp) in Hx. tauto. }
    specialize (Hlen Hr). lia.
Qed.

Lemma init_live : live_rows nc nu (init_rw nc used g) (seqZ 0 nc) vl g.
Proof.
  intros x Hx Hc. split.
  - intros _ m Hm. apply elem_of_seqZ.
    assert (Hmn : nc < m < nu).
    { apply elem_of_cons in Hm as [->|Hm]; [done|].
      by apply (st_row _ _ _ _ init_static x m Hx). }
    destruct (frame_vert m) as (_ & _ & -> & _).
    destruct (node_in_row m Hmn) as (_ & ? & _). lia.
  - intros _. destruct (frame_vert x) as (_ & _ & -> & _).
    by destruct (cp_node _ _ _ _ _ _ _ _ _ _ Hcp x Hx) as (_&_&_&_&_&_&?).
Qed.

End assemble.

End InitWf.

(** * The stages of [solver_init_graph], put together *)

Module InitGraph.
Import Util Solver Dlx InitSpec ArenaFacts SegFacts UnlinkFacts CoverFacts CoverUncover.
Import InitFacts ChainFacts ColumnPass RowPass InitWf.

Lemma headers_linked_frame nc g g' :
  headers_linked nc g → (∀ x, 0 ≤ x ≤ nc → fL g' x = fL g x ∧ fR g' x = fR g x) →
  2 ≤ nc → headers_linked nc g'.
Proof.
  intros (H1 & H2 & H3 & H4 & H5 & H6) Hh Hnc. unfold headers_linked.
  rewrite (proj2 (Hh nc ltac:(lia))), (proj1 (Hh nc ltac:(lia))),
    (proj1 (Hh 0 ltac:(lia))), (proj2 (Hh (nc - 1) ltac:(lia))).
  split_and!; try done.
  - intros x Hx. rewrite (proj2 (Hh x ltac:(lia))). by apply H5.
  - intros x Hx. rewrite (proj1 (Hh x ltac:(lia))). by apply H6.
Qed.

Lemma drop_empty_Ok g c :
  c ≠ fL g c → is_Some (g !! c) → is_Some (g !! fL g c) → is_Some (g !! fR g c) →
  drop_empty c g = Ok (if fcount g c =? 0 then hideP c g else g).
Proof.
  intros Hne Hc Hl Hr. unfold drop_empty.
  rewrite rd_Ok by done. rewrite bind_Ok. fold (fcount g c).
  destruct (fcount g c =? 0); [|done].
  rewrite hideP_unfold by done. fold (fL g c) (fR g c).
  rewrite upd_Ok by done. rewrite bind_Ok.
  rewrite rd_Ok by (by apply is_Some_alter). rewrite bind_Ok.
  rewrite nd_alter_ne by congruence. fold (fL g c) (fR g c).
  rewrite upd_Ok by (by apply is_Some_alter). done.
Qed.

Section relaxed.
Variables (nc nu : Z) (rw : Z → list Z) (vl : Z → list Z).

Lemma drop_empty_step k g g' :
  0 ≤ k < nc →
  static nc nu rw g → horiz nc (kept_columns nc vl k) g → vert nc nu vl g →
  drop_empty k g = Ok g' →
  static nc nu rw g' ∧ horiz nc (kept_columns nc vl (k + 1)) g' ∧
  vert nc nu vl g' ∧ (∀ x, fC g' x = fC g x) ∧ (∀ x, frow g' x = frow g x).
Proof.
  intros Hk Hs Hh Hv.
  assert (Hin : k ∈ kept_columns nc vl k).
  { apply list_elem_of_filter. split; [lia|]. apply elem_of_seqZ. lia. }
  destruct (hide_inv nc nu rw _ vl g k Hs Hh Hv Hin)
    as (H1 & H2 & H3 & H4 & H5 & H6 & H7 & Hs' & Hv' & Hh' & HC & HD).
  rewrite drop_empty_Ok by done.
  rewrite (dy_count _ _ _ _ Hv k Hk).
  pose proof (hideP_fields g k H1 H4 H5) as (_ & _ & _ & Hrow & _).
  destruct (vl k) as [|y l] eqn:Evl; simpl.
  - intros [= <-]. split_and!; [done| |done|done|done].
    replace (kept_columns nc vl (k + 1))
      with (filter (λ x, x ∉ [k]) (kept_columns nc vl k)); [done|].
    unfold kept_columns. rewrite list_filter_filter. apply list_filter_iff.
    intros x. split.
    + intros [Hx [?|?]]; [left|by right].
      apply not_elem_of_cons in Hx as [? _]. lia.
    + intros [?|Hx]; [split; [|left; lia]|split; [|by right]].
      * apply not_elem_of_cons. split; [lia|apply not_elem_of_nil].
      * apply not_elem_of_cons. split; [|apply not_elem_of_nil].
        intros ->. by rewrite Evl in Hx.
  - intros [= <-]. split_and!; [done| |done|done|done].
    replace (kept_columns nc vl (k + 1)) with (kept_columns nc vl k); [done|].
    unfold kept_columns. apply list_filter_iff. intros x. split.
    + intros [?|?]; [|by right]. destruct (decide (x = k)) as [->|]; [right|left; lia].
      by rewrite Evl.
    + intros [?|?]; [left; lia|by right].
Qed.

Lemma drop_empty_loop g g' :
  0 ≤ nc →
  static nc nu rw g → horiz nc (seqZ 0 nc) g → vert nc nu vl g →
  for_range 0 nc drop_empty g = Ok g' →
  static nc nu rw g' ∧ horiz nc (kept_columns nc vl nc) g' ∧
  vert nc nu vl g' ∧ (∀ x, fC g' x = fC g x) ∧ (∀ x, frow g' x = frow g x).
Proof.
  intros Hnc Hs Hh Hv Hrun.
  apply (for_range_ind (λ k g1, static nc nu rw g1 ∧
           horiz nc (kept_columns nc vl k) g1 ∧ vert nc nu vl g1 ∧
           (∀ x, fC g1 x = fC g x) ∧ (∀ x, frow g1 x = frow g x)) 0 nc)
    in Hrun; [done|done| |].
  - split_and!; [done| |done|done|done]. unfold kept_columns.
    rewrite filter_all; [done|]. intros x Hx%elem_of_seqZ. left. lia.
  - intros k g1 g2 Hk (Hs1 & Hh1 & Hv1 & HC1 & Hr1) Hstep.
    apply drop_empty_step in Hstep as (Hs2 & Hh2 & Hv2 & HC2 & Hr2); [|done..].
    split_and!; [done..| |].
    + intros x. by rewrite HC2.
    + intros x. by rewrite Hr2.
Qed.

End relaxed.


(** In the relaxed graph the nodes of the columns that are left are all in
    their lists. *)
Lemma relaxed_live nc nu rw vl g g' :
  static nc nu rw g → live_rows nc nu rw (seqZ 0 nc) vl g →
  (∀ x, fC g' x = fC g x) →
  live_rows nc nu rw (kept_columns nc vl nc) vl g'.
Proof.
  intros Hs Hl HC'.
  intros x Hx Hc. rewrite HC' in *. split.
  + intros _ m Hm.
    assert (Hmn : nc < m < nu).
    { apply elem_of_cons in Hm as [->|Hm]; [done|].
      by apply (st_row _ _ _ _ Hs x m Hx). }
    rewrite HC'. apply list_elem_of_filter.
    pose proof (st_col _ _ _ _ Hs m Hmn) as Hcm. unfold is_header in Hcm.
    split; [|apply elem_of_seqZ; lia]. right.
    assert (Hin : m ∈ vl (fC g m)).
    { apply (Hl m Hmn); [apply elem_of_seqZ; lia|].
      intros m' Hm'. apply elem_of_seqZ.
      assert (Hmn' : nc < m' < nu).
      { apply elem_of_cons in Hm' as [->|Hm']; [done|].
        by apply (st_row _ _ _ _ Hs m m' Hmn). }
      pose proof (st_col _ _ _ _ Hs m' Hmn') as Hcm'. unfold is_header in Hcm'. lia. }
    intros E. rewrite E in Hin. by apply elem_of_nil in Hin.
  + intros _. apply list_elem_of_filter in Hc as [_ Hc%elem_of_seqZ].
    apply (Hl x Hx); [apply elem_of_seqZ; lia|].
    intros m' Hm'. apply elem_of_seqZ.
    assert (Hmn' : nc < m' < nu).
    { apply elem_of_cons in Hm' as [->|Hm']; [done|].
      by apply (st_row _ _ _ _ Hs x m' Hx). }
    pose proof (st_col _ _ _ _ Hs m' Hmn') as Hcm'. unfold is_header in Hcm'. lia.
Qed.

(** What a successful [solver_init_graph] went through. *)
Lemma init_stages inuse nc nr cells strict s0 :
  2 ≤ nc < size_modulus → 0 ≤ nr → nr * nc < size_modulus →
  solver_init_graph (solver_create inuse nc nr) cells strict = Ok s0 →
  ∃ needed nu used vl gC g,
    needed = sz (inuse + nc + 1) ∧
    nc < needed < size_modulus ∧
    colpass cells nc nr nc 0 nc nu used vl gC ∧
    (∀ x, is_Some (gC !! x) ↔ 0 ≤ x < needed) ∧
    headers_linked nc gC ∧
    rowpass nc used nr 0 NULL NULL g ∧ row_frame nc gC g ∧
    (if negb strict then for_range 0 nc drop_empty g else Ok g) = Ok (nodes s0) ∧
    s0 = with_root nc (with_nodes (nodes s0) (solver_create inuse nc nr)).
Proof.
  intros Hnc Hnr Hsize. unfold solver_init_graph.
  set (s := solver_create inuse nc nr).
  change (ncols s) with nc. change (nrows s) with nr.
  change (nodes s) with (calloc_nodes (sz (inuse + nc + 1))).
  set (needed := sz (inuse + nc + 1)). cbv zeta.
  pose proof (sz_range (inuse + nc + 1)) as Hneeded. fold needed in Hneeded.
  intros H.
  apply bind_inv in H as (gA & HA & H).
  destruct (upd gA nc (set_right 0) ≫= λ g,
            upd g 0 (set_left nc) ≫= λ g,
            upd g 0 (set_right 1) ≫= λ g,
            upd g (sz (nc - 1)) (set_left (sz (nc - 2))) ≫= λ g,
            upd g (sz (nc - 1)) (set_right nc) ≫= λ g,
            upd g nc (set_left (sz (nc - 1)))) as [gB|e] eqn:HB.
  2:{ exfalso. revert H HB. cbn.
      repeat (match goal with
              | |- context [upd ?g ?p ?f] => destruct (upd g p f); cbn; try done
              end). }
  assert (H' : (for_range 0 nc (col_pass cells nc nr) (gB, nc + 1, ∅) ≫=
                 λ '(g, nodes_used, used),
                   for_range 0 nr (row_pass nc used) g ≫= λ g,
                   (if negb strict then for_range 0 nc drop_empty g else Ok g) ≫= λ g,
                   Ok (with_root nc (with_nodes g s))) = Ok s0).
  { revert H HB. cbn.
    repeat (match goal with
            | |- context [upd ?g ?p ?f] => destruct (upd g p f); cbn; try done
            end).
    by intros H [= ->]. }
  clear H.
  assert (Hncn : nc < needed).
  { apply root_link in HB as (_ & Hs & _); [|done].
    apply link_header_loop in HA as [Hd _]; [|done].
    apply Hd in Hs. rewrite lookup_calloc in Hs. case_decide; [lia|].
    by destruct Hs. }
  destruct (init_headers nc Hnc needed gA gB Hncn HA HB) as (HhB & HdB & HcB).
  apply bind_inv in H' as ([[gC nu] used] & HC & H').
  apply (col_pass_loop cells nc nr needed) in HC as (vl & Hcp & HhC & HdC);
    [|lia|done|done|lia|done|done].
  apply bind_inv in H' as (g & HR & H').
  pose proof HR as HR'.
  eapply row_pass_loop in HR' as [Hrp Hfr]; eauto; [|lia].
  apply bind_inv in H' as (gD & HD & H'). injection H' as <-.
  exists needed, nu, used, vl, gC, g. split_and!; try done; [lia|].
  apply (headers_linked_frame nc gB); [done| |lia].
  intros x _. apply HhC.
Qed.

(** The graph of a successful [solver_init_graph] is well formed. *)
Lemma init_wf inuse nc nr cells strict s0 :
  2 ≤ nc < size_modulus → 0 ≤ nr → nr * nc < size_modulus →
  solver_init_graph (solver_create inuse nc nr) cells strict = Ok s0 →
  root s0 = nc ∧
  ∃ nu rw hs vl,
    static nc nu rw (nodes s0) ∧ dynamic nc nu rw hs vl (nodes s0).
Proof.
  intros Hnc Hnr Hsize Hinit.
  destruct (init_stages _ _ _ _ _ _ Hnc Hnr Hsize Hinit)
    as (needed & nu & used & vl & gC & g & _ & Hneeded & Hcp & HdC & HhC & Hrp & Hfr
        & Hlast & Es0).
  split; [by rewrite Es0|].
  assert (Hs : static nc nu (init_rw nc used g) g).
  { eapply init_static; eauto; lia. }
  assert (Hh : horiz nc (seqZ 0 nc) g).
  { eapply init_horiz; eauto; lia. }
  assert (Hv : vert nc nu vl g).
  { eapply init_vert; eauto; lia. }
  assert (Hl : live_rows nc nu (init_rw nc used g) (seqZ 0 nc) vl g).
  { eapply init_live; eauto; lia. }
  exists nu, (init_rw nc used g).
  destruct strict; simpl in Hlast.
  - injection Hlast as <-. exists (seqZ 0 nc), vl. done.
  - apply (drop_empty_loop nc nu (init_rw nc used g) vl) in Hlast
      as (Hs' & Hh' & Hv' & HC' & _); [|lia|done..].
    exists (kept_columns nc vl nc), vl. split; [done|]. split_and!; [done|done|].
    by apply (relaxed_live nc nu (init_rw nc used g) vl g).
Qed.

End InitGraph.

(** * cover followed by uncover *)

Module CoverRoundTrip.
Import Util Solver Dlx InitGraph RoundTrip.

(** X20.  Take the graph that [solver_init_graph] builds for a matrix with at
    least two columns (strict or relaxed), and any state [g] the search can
    be in: the initial graph, or a state reached from it by covering live
    columns and uncovering the column covered last.  For every column [c]
    in the header list of [g], [cover c] returns a graph [g'] and
    [uncover c] on [g'] returns [g] itself: all links and all counts of all
    nodes are as before.  [fuel] bounds the loops of [cover] and [uncover];
    the number of nodes is enough. *)
Theorem cover_uncover_roundtrip inuse nc nr cells strict s0 fuel st g c :
  2 ≤ nc < size_modulus → 0 ≤ nr → nr * nc < size_modulus →
  solver_init_graph (solver_create inuse nc nr) cells strict = Ok s0 →
  (size (nodes s0) ≤ fuel)%nat →
  reach fuel s0 st g →
  c ∈ live_columns g (root s0) →
  ∃ g', cover fuel c g = Ok g' ∧ uncover fuel c g' = Ok g.
Proof.
  intros Hnc Hnr Hsize Hinit Hfuel Hreach Hc.
  destruct (init_wf _ _ _ _ _ _ Hnc Hnr Hsize Hinit)
    as (Hroot & nu & rw & hs & vl & Hs & Hd).
  eapply (reach_roundtrip nc nu rw fuel s0); eauto.
Qed.

Lemma cover_uncover_roundtrip_witness :
  ∃ g', cover 20 1 Examples.small_covered = Ok g' ∧
        uncover 20 1 g' = Ok Examples.small_covered.
Proof.
  apply (cover_uncover_roundtrip 9 4 4
           (Examples.cells_of_rows 4 Examples.small_rows) true
           Examples.small_solver 20 [0] Examples.small_covered 1).
  - vm_compute. split; [discriminate 1|reflexivity].
  - lia.
  - vm_compute. reflexivity.
  - vm_compute. reflexivity.
  - vm_compute. lia.
  - apply (reach_cover 20 Examples.small_solver [] (nodes Examples.small_solver) 0).
    + apply reach_init.
    + apply (bool_decide_unpack _). vm_compute. exact I.
    + vm_compute. reflexivity.
  - apply (bool_decide_unpack _). vm_compute. exact I.
Defined.

(** C4 fails on a matrix with one column.  [solver_init_graph] links the
    last header to its left neighbour after it has linked header 0 to the
    root; with one column the two are the same header, and its left link
    ends up as the address before the arena ([nodes[-1]]).  For the matrix
    with the single row (1) the graph is built, column 0 is the one live
    column of the state the search starts in, and [cover] of it writes
    through that link: it does not return a graph, whatever the fuel, so
    there is nothing [uncover] could restore. *)
Theorem one_column_cover_faults :
  ∃ s0,
    solver_init_graph (solver_create 1 1 1)
      (Examples.cells_of_rows 1 Examples.single_rows) true = Ok s0 ∧
    live_columns (nodes s0) (root s0) = [0] ∧
    fL (nodes s0) 0 = sz (-1) ∧ (nodes s0) !! (sz (-1)) = None ∧
    ∀ fuel, cover fuel 0 (nodes s0) = Err OutOfBounds.
Proof.
  eexists. split; [vm_compute; reflexivity|].
  split_and!; [vm_compute; reflexivity..|].
  intros fuel. vm_compute. reflexivity.
Qed.

End CoverRoundTrip.

(** * The states of the search *)

Module SearchStates.
Import Util Solver Dlx InitSpec ExactCover.
Import ArenaFacts SegFacts UnlinkFacts CoverFacts CoverUncover.

Section states.
Variables (cells : gmap Z bool) (nc nr nu : Z) (rw : Z → list Z).

Lemma unlinks_frow vl g ms :
  static nc nu rw g → vert nc nu vl g → removable nc nu vl g ms →
  ∀ x, frow (unlinksP ms g) x = frow g x.
Proof.
  revert g vl. induction ms as [|m ms IH]; intros g vl Hs Hv [Hnd Hin]; [done|].
  apply NoDup_cons in Hnd as [Hm Hnd].
  destruct (Hin m) as [Hmn Hmv]; [set_solver|].
  pose proof (vert_linked nc nu rw vl g m Hs Hv Hmn Hmv)
    as (_ & _ & Hnu & Hnd' & _ & _ & Hu & Hd & Hc & _).
  pose proof (unlinkP_fields g m Hnu Hnd' Hu Hd Hc)
    as (HL & HR & HC & Hrow & _ & _ & _ & Hdom).
  intros x. simpl. rewrite (IH (unlinkP m g) (vl_del [m] vl)); [done| | |].
  - by apply (static_frame nc nu rw g).
  - by apply (unlink_vert nc nu rw).
  - split; [done|]. intros m' Hm'. destruct (Hin m') as [? ?]; [set_solver|].
    split; [done|]. rewrite HC. apply list_elem_of_filter. split; [|done].
    set_solver.
Qed.

Lemma represents_frame g g' :
  represents cells nc nr nu g →
  (∀ x, frow g' x = frow g x) → (∀ x, fC g' x = fC g x) →
  represents cells nc nr nu g'.
Proof.
  intros [H1 H2] Hr Hc. split.
  - intros x Hx. rewrite Hr, Hc. by apply H1.
  - intros r c Hrc. destruct (H2 r c Hrc) as (x & Hx & <- & <-).
    exists x. by rewrite Hr, Hc.
Qed.

(** [cover] and [uncover] between two states of the search. *)
Lemma cover_wfs hs vl g c fuel :
  wfs cells nc nr nu rw hs vl g → c ∈ hs → nu ≤ Z.of_nat fuel →
  ∃ g' vl',
    cover fuel c g = Ok g' ∧ uncover fuel c g' = Ok g ∧
    wfs cells nc nr nu rw (filter (λ x, x ∉ [c]) hs) vl' g' ∧
    vl' c = vl c ∧
    (∀ x, frow g' x = frow g x) ∧ (∀ x, fC g' x = fC g x).
Proof.
  intros [Hs Hh Hv Hl Hrep] Hc Hfuel.
  destruct (cover_spec nc nu rw hs vl g c fuel Hs Hh Hv Hl Hc Hfuel)
    as (Hcov & Hunc & Hs' & Hh' & Hv' & Hl').
  destruct (hide_inv nc nu rw hs vl g c Hs Hh Hv Hc)
    as (Hcl & Hcr & Hsc & Hsl & Hsr & Hrl & Hlr & Hs2 & Hv2 & Hh2 & HC2 & HD2).
  destruct (cover_removable nc nu rw hs vl g c Hs Hh Hv Hl Hc) as [Hrem Hdisj].
  assert (Hrem2 : removable nc nu vl (hideP c g) (vl c ≫= rw)).
  { destruct Hrem as [? Hin]. split; [done|]. intros m Hm. rewrite HC2. auto. }
  pose proof (hideP_fields g c Hcl Hsl Hsr) as (_&_&_&Hrow2&_).
  exists (unlinksP (vl c ≫= rw) (hideP c g)), (vl_del (vl c ≫= rw) vl).
  assert (Hrow : ∀ x, frow (unlinksP (vl c ≫= rw) (hideP c g)) x = frow g x).
  { intros x. rewrite (unlinks_frow vl); [by rewrite Hrow2|done..]. }
  assert (HC : ∀ x, fC (unlinksP (vl c ≫= rw) (hideP c g)) x = fC g x).
  { intros x. rewrite (unlinks_fC nc nu rw vl); [by rewrite HC2|done..]. }
  split_and!; try done.
  - split; try done. by apply (represents_frame g).
  - apply vl_del_id. intros m (r & Hm & Hr)%list_elem_of_bind. by apply (Hdisj r).
Qed.

(** The column lists of a state, read off the matrix. *)
Lemma row_columns g x c :
  static nc nu rw g → represents cells nc nr nu g → is_node nc nu x →
  hits cells nc nr (frow g x) c ↔ ∃ m, m ∈ x :: rw x ∧ fC g m = c.
Proof.
  intros Hs [H1 H2] Hx. split.
  - intros Hh. destruct (H2 _ _ Hh) as (m & Hm & Hr & Hc).
    exists m. split; [|done].
    destruct (st_all _ _ _ _ Hs x m Hx Hm) as [->|?]; [by rewrite Hr|set_solver..].
  - intros (m & Hm & <-).
    apply elem_of_cons in Hm as [->|Hm]; [by apply H1|].
    destruct (st_row _ _ _ _ Hs x m Hx Hm) as [Hmn <-]. by apply H1.
Qed.

Lemma row_in_nodes hs g x :
  static nc nu rw g → represents cells nc nr nu g → is_node nc nu x →
  row_in cells nc nr hs (frow g x) ↔ ∀ m, m ∈ x :: rw x → fC g m ∈ hs.
Proof.
  intros Hs Hrep Hx. unfold row_in. split.
  - intros H m Hm. apply H. apply (row_columns g x); [done..|]. by exists m.
  - intros H c Hc. apply (row_columns g x) in Hc as (m & Hm & <-); [|done..].
    by apply H.
Qed.

Lemma column_list hs vl g c x :
  wfs cells nc nr nu rw hs vl g → c ∈ hs →
  x ∈ vl c ↔
  is_node nc nu x ∧ fC g x = c ∧ row_in cells nc nr hs (frow g x).
Proof.
  intros [Hs Hh Hv Hl Hrep] Hc.
  pose proof (dy_hhead _ _ _ Hh c Hc) as Hch. split.
  - intros Hx. destruct (dy_vnode _ _ _ _ Hv c x Hch Hx) as [Hxn Hxc].
    split_and!; [done..|]. apply (row_in_nodes hs g x); [done..|].
    apply Hl; [done|by rewrite Hxc|by rewrite Hxc].
  - intros (Hxn & <- & Hin). apply Hl; [done..|].
    by apply (row_in_nodes hs g x).
Qed.

End states.

End SearchStates.

(** * Exact covers of the columns still to cover *)

Module CoverSets.
Import Util Solver Dlx InitSpec ExactCover.

Section cover_sets.
Variables (cells : gmap Z bool) (nc nr : Z).

#[local] Instance hits_dec r c : Decision (hits cells nc nr r c).
Proof. unfold hits. apply _. Defined.

(** Nothing left to cover: the empty set of rows is the only cover. *)
Lemma covers_leaf (R : gset Z) :
  covers cells nc nr (λ c, c ∈ @nil Z) R ↔ R = ∅.
Proof.
  split.
  - intros [H1 _]. apply leibniz_equiv. apply elem_of_equiv_empty. intros r Hr.
    destruct (H1 r Hr) as [[c Hc] Hin]. specialize (Hin c Hc).
    by apply elem_of_nil in Hin.
  - intros ->. split.
    + intros r Hr. by apply elem_of_empty in Hr.
    + intros c Hc. by apply elem_of_nil in Hc.
Qed.

Lemma covers_pick (hs : list Z) (R : gset Z) c :
  covers cells nc nr (λ c, c ∈ hs) R → c ∈ hs →
  ∃ r, r ∈ R ∧ hits cells nc nr r c ∧ row_in cells nc nr hs r.
Proof.
  intros [H1 H2] Hc. destruct (H2 c Hc) as (r & Hr & Hh & _).
  exists r. split_and!; [done..|]. intros c' Hc'. by apply (H1 r Hr).
Qed.

Lemma covers_one (hs : list Z) (R : gset Z) c r r' :
  covers cells nc nr (λ c, c ∈ hs) R → c ∈ hs → r ∈ R → r' ∈ R →
  hits cells nc nr r c → hits cells nc nr r' c → r = r'.
Proof.
  intros [H1 H2] Hc Hr Hr' Hh Hh'. destruct (H2 c Hc) as (r0 & _ & _ & Huniq).
  rewrite (Huniq r Hr Hh). by rewrite (Huniq r' Hr' Hh').
Qed.

(** Taking the row [r] into the cover leaves the columns [hs2]. *)
Lemma covers_add (hs hs2 : list Z) (R' : gset Z) r :
  (∃ c, hits cells nc nr r c) → row_in cells nc nr hs r →
  (∀ c, c ∈ hs2 ↔ c ∈ hs ∧ ¬ hits cells nc nr r c) →
  covers cells nc nr (λ c, c ∈ hs2) R' →
  (r ∉ R') ∧ covers cells nc nr (λ c, c ∈ hs) ({[r]} ∪ R').
Proof.
  intros [c0 Hc0] Hin Hhs2 [H1 H2].
  assert (Hr : r ∉ R').
  { intros Hr. destruct (H1 r Hr) as [_ Hall]. specialize (Hall c0 Hc0).
    apply Hhs2 in Hall as [_ ?]. done. }
  split; [done|]. split.
  - intros r' [->%elem_of_singleton|Hr']%elem_of_union.
    + split; [by exists c0|done].
    + destruct (H1 r' Hr') as [Hne Hall]. split; [done|].
      intros c Hc. by apply Hhs2, Hall.
  - intros c Hc. destruct (decide (hits cells nc nr r c)) as [Hh|Hh].
    + exists r. split_and!; [set_solver|done|].
      intros r' [->%elem_of_singleton|Hr']%elem_of_union Hh'; [done|].
      destruct (H1 r' Hr') as [_ Hall]. specialize (Hall c Hh').
      apply Hhs2 in Hall as [_ ?]. done.
    + destruct (H2 c) as (r0 & Hr0 & Hh0 & Huniq); [by apply Hhs2|].
      exists r0. split_and!; [set_solver|done|].
      intros r' [->%elem_of_singleton|Hr']%elem_of_union Hh'; [done|].
      by apply Huniq.
Qed.

Lemma covers_remove (hs hs2 : list Z) (R : gset Z) r :
  (∀ c, c ∈ hs2 ↔ c ∈ hs ∧ ¬ hits cells nc nr r c) →
  covers cells nc nr (λ c, c ∈ hs) R → r ∈ R →
  covers cells nc nr (λ c, c ∈ hs2) (R ∖ {[r]}).
Proof.
  intros Hhs2 [H1 H2] Hr. split.
  - intros r' [Hr' Hne%not_elem_of_singleton]%elem_of_difference.
    destruct (H1 r' Hr') as [Hex Hall]. split; [done|].
    intros c Hc. apply Hhs2. split; [by apply Hall|].
    intros Hh. apply Hne. destruct (H2 c (Hall c Hc)) as (r0 & _ & _ & Huniq).
    rewrite (Huniq r' Hr' Hc). by rewrite (Huniq r Hr Hh).
  - intros c [Hc Hnh]%Hhs2. destruct (H2 c Hc) as (r0 & Hr0 & Hh0 & Huniq).
    exists r0. split_and!; [|done|].
    + apply elem_of_difference. split; [done|]. apply not_elem_of_singleton.
      by intros ->.
    + intros r' [Hr' _]%elem_of_difference. by apply Huniq.
Qed.

Lemma add_remove (R : gset Z) r : r ∈ R → R = {[r]} ∪ (R ∖ {[r]}).
Proof.
  intros Hr. apply leibniz_equiv. intros x. split.
  - intros Hx. destruct (decide (x = r)) as [->|]; set_solver.
  - set_solver.
Qed.

Lemma add_inj (R1 R2 : gset Z) r :
  r ∉ R1 → r ∉ R2 → {[r]} ∪ R1 = {[r]} ∪ R2 → R1 = R2.
Proof. intros H1 H2 E. apply leibniz_equiv. set_solver. Qed.

End cover_sets.

End CoverSets.

(** * The loops of [search] *)

Module SearchLoops.
Import Util Solver Dlx InitSpec ExactCover.
Import ArenaFacts SegFacts UnlinkFacts CoverFacts CoverUncover SearchStates.

(** The column-selection loop returns a member of the header list. *)
Lemma choose_column_run g rt l :
  ∀ fuel col min c,
    seg (fR g) c l rt → (∀ x, x ∈ l → is_Some (g !! x)) →
    (length l < fuel)%nat →
    ∃ col', choose_column fuel g rt col min c = Ok col' ∧ (col' = col ∨ col' ∈ l).
Proof.
  induction l as [|y l IH]; intros fuel col min c Hseg Hdom Hfuel;
    (destruct fuel as [|fuel]; [simpl in Hfuel; lia|]).
  - simpl in Hseg. subst c. exists col. cbn [choose_column].
    rewrite Z.eqb_refl. by split; [|left].
  - destruct Hseg as (-> & Hne & Hseg). cbn [choose_column].
    rewrite (proj2 (Z.eqb_neq _ _)) by done.
    rewrite rd_Ok by (apply Hdom; set_solver). rewrite bind_Ok.
    fold (fR g y).
    destruct (count (nd g y) <? min).
    + destruct (IH fuel y (count (nd g y)) (fR g y)) as (col' & -> & Hc);
        [done|intros x Hx; apply Hdom; set_solver|simpl in Hfuel; lia|].
      exists col'. split; [done|]. right. set_solver.
    + destruct (IH fuel col min (fR g y)) as (col' & -> & Hc);
        [done|intros x Hx; apply Hdom; set_solver|simpl in Hfuel; lia|].
      exists col'. split; [done|]. set_solver.
Qed.

(** The array [rows] is the list of the column. *)
Lemma collect_rows_run g col l :
  ∀ fuel n i row,
    seg (fD g) row l col → (∀ x, x ∈ l → is_Some (g !! x)) →
    (length l < fuel)%nat → i + Z.of_nat (length l) ≤ n →
    collect_rows fuel g col n i row = Ok l.
Proof.
  induction l as [|y l IH]; intros fuel n i row Hseg Hdom Hfuel Hn;
    (destruct fuel as [|fuel]; [simpl in Hfuel; lia|]).
  - simpl in Hseg. subst row. cbn [collect_rows]. by rewrite Z.eqb_refl.
  - destruct Hseg as (-> & Hne & Hseg). cbn [collect_rows].
    rewrite (proj2 (Z.eqb_neq _ _)) by done.
    rewrite (proj2 (Z.leb_gt _ _)) by (simpl in Hn; lia).
    rewrite rd_Ok by (apply Hdom; set_solver). rewrite bind_Ok.
    fold (fD g y). rewrite (IH fuel n (i + 1) (fD g y)); [done|done| | |].
    + intros x Hx. apply Hdom. set_solver.
    + simpl in Hfuel. lia.
    + simpl in Hn. lia.
Qed.

Lemma seg_last f a l stop :
  seg f (f a) l stop → f (default a (last l)) = stop.
Proof.
  revert a. induction l as [|y l IH]; intros a Hs; [done|].
  destruct Hs as (Hy & _ & Hs). rewrite last_cons.
  specialize (IH y Hs). by destruct (last l).
Qed.

Lemma seg_hd f n l (stop : Z) : seg f n l stop → n = hd stop l.
Proof. destruct l; simpl; [done|]. by intros (-> & _). Qed.

Lemma cover_list_snoc fuel cs c g :
  cover_list fuel (cs ++ [c]) g = cover_list fuel cs g ≫= cover fuel c.
Proof.
  revert g. induction cs as [|c' cs IH]; intros g; simpl.
  - by destruct (cover fuel c g).
  - destruct (cover fuel c' g) as [g'|e]; [|done]. rewrite !bind_Ok. apply IH.
Qed.


Section others.
Variables (cells : gmap Z bool) (nc nr nu : Z) (rw : Z → list Z).

(** Covering several live columns. *)
Lemma cover_list_wfs fuel cs :
  ∀ hs vl g,
    wfs cells nc nr nu rw hs vl g → NoDup cs → (∀ c, c ∈ cs → c ∈ hs) →
    nu ≤ Z.of_nat fuel →
    ∃ g' vl',
      cover_list fuel cs g = Ok g' ∧
      wfs cells nc nr nu rw (filter (λ x, x ∉ cs) hs) vl' g' ∧
      (∀ x, frow g' x = frow g x) ∧ (∀ x, fC g' x = fC g x).
Proof.
  induction cs as [|c cs IH]; intros hs vl g Hwf Hnd Hin Hfuel.
  - exists g, vl. split_and!; try done. rewrite filter_all; [done|].
    intros x _. apply not_elem_of_nil.
  - apply NoDup_cons in Hnd as [Hc Hnd].
    destruct (cover_wfs cells nc nr nu rw hs vl g c fuel Hwf) as
      (g1 & vl1 & Hcov & _ & Hwf1 & _ & Hrow1 & HC1); [set_solver|done|].
    destruct (IH _ vl1 g1 Hwf1 Hnd) as (g2 & vl2 & Hcov2 & Hwf2 & Hrow2 & HC2);
      [|done|].
    { intros c' Hc'. apply list_elem_of_filter. split; [|set_solver]. set_solver. }
    exists g2, vl2. split_and!.
    + simpl. by rewrite Hcov, bind_Ok.
    + replace (filter (λ x, x ∉ c :: cs) hs)
        with (filter (λ x, x ∉ cs) (filter (λ x, x ∉ [c]) hs)); [done|].
      rewrite list_filter_filter. apply list_filter_iff. intros x. set_solver.
    + intros x. by rewrite Hrow2.
    + intros x. by rewrite HC2.
Qed.

Lemma fmap_frame (f f' : Z → Z) (l : list Z) :
  (∀ x, f' x = f x) → f' <$> l = f <$> l.
Proof. intros H. induction l as [|y l IH]; [done|]. by rewrite !fmap_cons, H, IH. Qed.

Lemma row_node g x m :
  static nc nu rw g → is_node nc nu x → m ∈ rw x → is_node nc nu m ∧ m ≠ x.
Proof.
  intros Hs Hx Hm. split; [by apply (st_row _ _ _ _ Hs x m)|].
  intros ->. pose proof (st_ring _ _ _ _ Hs x Hx) as Hr.
  by apply seg_notin in Hr.
Qed.

(** The loop that covers the other columns of the row of [x]. *)
Lemma cover_others_run x lf :
  is_node nc nu x → nu ≤ Z.of_nat lf →
  ∀ ms pre fuel hs vl g,
    rw x = pre ++ ms → wfs cells nc nr nu rw hs vl g →
    NoDup (fC g <$> ms) → (∀ m, m ∈ ms → fC g m ∈ hs) →
    (length ms < fuel)%nat →
    cover_others fuel lf x (hd x ms) g = cover_list lf (fC g <$> ms) g.
Proof.
  intros Hx Hlf. induction ms as [|m ms IH]; intros pre fuel hs vl g E Hwf Hnd Hin Hfuel;
    (destruct fuel as [|fuel]; [simpl in Hfuel; lia|]).
  - simpl. by rewrite Z.eqb_refl.
  - pose proof (wf_static _ _ _ _ _ _ _ _ Hwf) as Hs.
    assert (Hm : m ∈ rw x) by (rewrite E; set_solver).
    destruct (row_node g x m Hs Hx Hm) as [Hmn Hmx].
    cbn [cover_others hd]. rewrite (proj2 (Z.eqb_neq _ _)) by done.
    rewrite rd_Ok by (by apply (static_node_dom nc nu rw)). rewrite bind_Ok.
    fold (fC g m). rewrite fmap_cons. cbn [cover_list].
    rewrite fmap_cons in Hnd. apply NoDup_cons in Hnd as [Hm1 Hnd].
    destruct (cover_wfs cells nc nr nu rw hs vl g (fC g m) lf Hwf) as
      (g1 & vl1 & Hcov & _ & Hwf1 & _ & Hrow1 & HC1); [set_solver|done|].
    rewrite Hcov, !bind_Ok.
    pose proof (wf_static _ _ _ _ _ _ _ _ Hwf1) as Hs1.
    rewrite rd_Ok by (by apply (static_node_dom nc nu rw)). rewrite bind_Ok.
    fold (fR g1 m).
    pose proof (st_ring _ _ _ _ Hs1 x Hx) as Hring. unfold ring in Hring.
    rewrite E in Hring. apply seg_suffix in Hring. apply seg_hd in Hring.
    rewrite Hring. rewrite <- (fmap_frame (fC g) (fC g1) ms HC1).
    apply (IH (pre ++ [m]) fuel (filter (λ x, x ∉ [fC g m]) hs) vl1 g1);
      [by rewrite <- app_assoc|done| | |].
    + by rewrite (fmap_frame (fC g) (fC g1) ms HC1).
    + intros m' Hm'. rewrite HC1. apply list_elem_of_filter. split; [|set_solver].
      intros E'%list_elem_of_singleton. apply Hm1. rewrite <- E'.
      apply list_elem_of_fmap. by exists m'.
    + simpl in Hfuel. lia.
Qed.

(** The loop that uncovers them, last first. *)
Lemma uncover_others_run x lf hs vl g0 :
  is_node nc nu x → nu ≤ Z.of_nat lf →
  wfs cells nc nr nu rw hs vl g0 →
  NoDup (fC g0 <$> rw x) → (∀ m, m ∈ rw x → fC g0 m ∈ hs) →
  ∀ pre post fuel g,
    rw x = pre ++ post →
    cover_list lf (fC g0 <$> pre) g0 = Ok g →
    (length pre < fuel)%nat →
    uncover_others fuel lf x (hd x (reverse pre)) g = Ok g0.
Proof.
  intros Hx Hlf Hwf Hnd Hin.
  induction pre as [|m pre IH] using rev_ind; intros post fuel g E Hcl Hfuel;
    (destruct fuel as [|fuel]; [simpl in Hfuel; lia|]).
  - simpl in *. rewrite Z.eqb_refl. by injection Hcl as ->.
  - rewrite reverse_app. cbn [reverse app hd]. simpl.
    rewrite fmap_app in Hcl. change (fC g0 <$> [m]) with [fC g0 m] in Hcl.
    rewrite cover_list_snoc in Hcl.
    apply InitFacts.bind_inv in Hcl as (g1 & Hcl1 & Hcov).
    assert (Hm : m ∈ rw x) by (rewrite E; set_solver).
    rewrite E in Hnd. rewrite <- app_assoc in Hnd. rewrite fmap_app in Hnd.
    apply NoDup_app in Hnd as (Hnd1 & Hnd2 & Hnd3).
    destruct (cover_list_wfs lf (fC g0 <$> pre) hs vl g0 Hwf Hnd1)
      as (g1' & vl1 & Hcl1' & Hwf1 & Hrow1 & HC1); [|done|].
    { intros c (m' & -> & Hm')%list_elem_of_fmap. apply Hin. rewrite E. set_solver. }
    rewrite Hcl1 in Hcl1'. injection Hcl1' as <-.
    pose proof (wf_static _ _ _ _ _ _ _ _ Hwf1) as Hs1.
    destruct (row_node g1 x m Hs1 Hx Hm) as [Hmn Hmx].
    destruct (cover_wfs cells nc nr nu rw _ vl1 g1 (fC g0 m) lf Hwf1) as
      (g2 & vl2 & Hcov2 & Hunc2 & Hwf2 & _ & Hrow2 & HC2); [|done|].
    { apply list_elem_of_filter. split; [|apply Hin; done].
      intros Hc. apply (Hnd2 (fC g0 m) Hc). apply list_elem_of_fmap.
      exists m. split; [done|]. set_solver. }
    simpl in Hcov. rewrite Hcov2 in Hcov. injection Hcov as <-.
    pose proof (wf_static _ _ _ _ _ _ _ _ Hwf2) as Hs2.
    rewrite (proj2 (Z.eqb_neq _ _)) by done.
    rewrite rd_Ok by (by apply (static_node_dom nc nu rw)). rewrite bind_Ok.
    fold (fC g2 m). rewrite HC2, HC1. rewrite Hunc2, bind_Ok.
    rewrite rd_Ok by (by apply (static_node_dom nc nu rw)). rewrite bind_Ok.
    fold (fL g1 m).
    pose proof (row_ring_left nc nu rw g1 x Hs1 Hx) as Hring. unfold ring in Hring.
    rewrite E, <- app_assoc, reverse_app in Hring. cbn [app] in Hring.
    rewrite reverse_cons in Hring. rewrite <- app_assoc in Hring.
    apply seg_suffix in Hring. apply seg_hd in Hring. rewrite Hring.
    apply (IH ([m] ++ post) fuel g1); [by rewrite E, <- app_assoc|done|].
    rewrite length_app in Hfuel. simpl in Hfuel. lia.
Qed.

(** Taking the row of [x], a member of the list of the column [col] that
    was just covered: the other columns of the row are covered, and
    uncovered again on the way back. *)
Lemma select_row hs vl g col x lf g1 vl1 :
  wfs cells nc nr nu rw hs vl g → col ∈ hs → x ∈ vl col → nu ≤ Z.of_nat lf →
  wfs cells nc nr nu rw (filter (λ c, c ∉ [col]) hs) vl1 g1 →
  (∀ y, frow g1 y = frow g y) → (∀ y, fC g1 y = fC g y) →
  ∃ g2 vl2 hs2,
    cover_others lf lf x (fR g1 x) g1 = Ok g2 ∧
    uncover_others lf lf x (fL g2 x) g2 = Ok g1 ∧
    wfs cells nc nr nu rw hs2 vl2 g2 ∧
    (∀ c, c ∈ hs2 ↔ c ∈ hs ∧ ¬ hits cells nc nr (frow g x) c) ∧
    (∀ y, frow g2 y = frow g y) ∧ (∀ y, fC g2 y = fC g y) ∧
    (length hs2 < length hs)%nat.
Proof.
  intros Hwf Hcol Hx Hlf Hwf1 Hrow1 HC1.
  pose proof (wf_static _ _ _ _ _ _ _ _ Hwf) as Hs.
  pose proof (wf_static _ _ _ _ _ _ _ _ Hwf1) as Hs1.
  pose proof (wf_repr _ _ _ _ _ _ _ _ Hwf) as Hrep.
  apply (column_list cells nc nr nu rw hs vl g col x Hwf Hcol) in Hx
    as (Hxn & Hxc & Hin).
  pose proof (proj1 (row_in_nodes cells nc nr nu rw hs g x Hs Hrep Hxn) Hin) as Hall.
  assert (Hnd : NoDup (fC g1 <$> rw x)).
  { apply NoDup_fmap_2_strong; [|by apply (st_nodup _ _ _ _ Hs)].
    intros m m' Hm Hm' E. rewrite !HC1 in E.
    destruct (st_row _ _ _ _ Hs x m Hxn Hm) as [Hmn Hmr].
    destruct (st_row _ _ _ _ Hs x m' Hxn Hm') as [Hmn' Hmr'].
    apply (st_inj _ _ _ _ Hs); [done..|congruence|done]. }
  assert (Hin1 : ∀ m, m ∈ rw x → fC g1 m ∈ filter (λ c, c ∉ [col]) hs).
  { intros m Hm. rewrite HC1. apply list_elem_of_filter. split; [|set_solver].
    intros E%list_elem_of_singleton.
    apply (row_column_differs nc nu rw g x m Hs Hxn Hm). congruence. }
  assert (Hlen : (length (rw x) < lf)%nat).
  { pose proof (row_length nc nu rw g x Hs Hxn). lia. }
  destruct (cover_list_wfs lf (fC g1 <$> rw x) _ vl1 g1 Hwf1 Hnd)
    as (g2 & vl2 & Hcl & Hwf2 & Hrow2 & HC2); [|done|].
  { intros c (m & -> & Hm)%list_elem_of_fmap. by apply Hin1. }
  pose proof (wf_static _ _ _ _ _ _ _ _ Hwf2) as Hs2.
  exists g2, vl2, (filter (λ c, c ∉ fC g1 <$> rw x) (filter (λ c, c ∉ [col]) hs)).
  split_and!; try done.
  - pose proof (st_ring _ _ _ _ Hs1 x Hxn) as Hring. apply seg_hd in Hring.
    rewrite Hring, <- Hcl.
    by apply (cover_others_run x lf Hxn Hlf (rw x) [] lf
                (filter (λ c, c ∉ [col]) hs) vl1 g1).
  - pose proof (row_ring_left nc nu rw g2 x Hs2 Hxn) as Hring. apply seg_hd in Hring.
    rewrite Hring.
    apply (uncover_others_run x lf (filter (λ c, c ∉ [col]) hs) vl1 g1
             Hxn Hlf Hwf1 Hnd Hin1 (rw x) []);
      [by rewrite app_nil_r|done|done].
  - intros c. rewrite !list_elem_of_filter.
    rewrite (row_columns cells nc nr nu rw g x c Hs Hrep Hxn). split.
    + intros (H1 & H2 & H3). split; [done|]. intros (m & Hm & <-).
      apply elem_of_cons in Hm as [->|Hm]; [set_solver|].
      apply H1. apply list_elem_of_fmap. exists m. by rewrite HC1.
    + intros [H1 H2]. split_and!; [| |done].
      * intros (m & -> & Hm)%list_elem_of_fmap. apply H2. exists m.
        rewrite HC1. set_solver.
      * intros ->%list_elem_of_singleton. apply H2. exists x. set_solver.
  - intros y. by rewrite Hrow2.
  - intros y. by rewrite HC2.
  - eapply Nat.le_lt_trans; [apply length_filter|].
    apply (length_filter_lt _ _ col); [done|]. set_solver.
Qed.

End others.

End SearchLoops.

(** * [search] in count-unique mode *)

Module SearchUnique.
Import Util Solver Dlx InitSpec ExactCover.
Import ArenaFacts SegFacts UnlinkFacts CoverFacts CoverUncover.
Import SearchStates CoverSets SearchLoops.

Lemma same_config_refl s : same_config s s.
Proof. by split_and!. Qed.

Lemma same_config_trans s1 s2 s3 :
  same_config s1 s2 → same_config s2 s3 → same_config s1 s3.
Proof.
  intros (A1&A2&A3&A4&A5&A6) (B1&B2&B3&B4&B5&B6).
  split_and!; congruence.
Qed.

Lemma store_solution_Ok s k v :
  0 ≤ k < Z.of_nat (length (solution s)) →
  store_solution s k v = Ok (with_solution (aset (solution s) k v) s).
Proof.
  intros Hk. unfold store_solution.
  rewrite (proj2 (Z.leb_le _ _)) by lia. by rewrite (proj2 (Z.ltb_lt _ _)) by lia.
Qed.

Section enumerate.
Variables (cells : gmap Z bool) (nc nr nu : Z) (rw : Z → list Z).

Lemma column_member hs vl g col x :
  wfs cells nc nr nu rw hs vl g → col ∈ hs → x ∈ vl col →
  is_node nc nu x ∧ fC g x = col ∧ hits cells nc nr (frow g x) col ∧
  row_in cells nc nr hs (frow g x).
Proof.
  intros Hwf Hcol Hx.
  apply (column_list cells nc nr nu rw hs vl g col x Hwf Hcol) in Hx
    as (Hxn & Hxc & Hin).
  split_and!; try done. rewrite <- Hxc.
  by apply (wf_repr _ _ _ _ _ _ _ _ Hwf).
Qed.

(** Every cover of the columns [hs] holds the row of a member of the list
    of [col]. *)
Lemma enum_complete hs vl g col (R : gset Z) :
  wfs cells nc nr nu rw hs vl g → col ∈ hs →
  covers cells nc nr (λ c, c ∈ hs) R →
  ∃ x, x ∈ vl col ∧ frow g x ∈ R.
Proof.
  intros Hwf Hcol Hcov.
  destruct (covers_pick cells nc nr hs R col Hcov Hcol) as (r & Hr & Hh & Hin).
  destruct (wf_repr _ _ _ _ _ _ _ _ Hwf) as [_ H2].
  destruct (H2 r col Hh) as (x & Hxn & Hxr & Hxc). exists x. split; [|by rewrite Hxr].
  apply (column_list cells nc nr nu rw hs vl g col x Hwf Hcol).
  split_and!; [done..|]. by rewrite Hxr.
Qed.

(** The covers found below the row of [x] extend the enumeration. *)
Lemma extend_enum hs vl g col pre x rest (hs2 : list Z) (l0 l2 : list (gset Z)) :
  wfs cells nc nr nu rw hs vl g → col ∈ hs → vl col = pre ++ x :: rest →
  (∀ c, c ∈ hs2 ↔ c ∈ hs ∧ ¬ hits cells nc nr (frow g x) c) →
  NoDup l0 →
  (∀ R, R ∈ l0 → covers cells nc nr (λ c, c ∈ hs) R ∧
                 ∃ x', x' ∈ pre ∧ frow g x' ∈ R) →
  NoDup l2 → (∀ R, R ∈ l2 → covers cells nc nr (λ c, c ∈ hs2) R) →
  let l' := l0 ++ ((λ R, {[frow g x]} ∪ R) <$> l2) in
  NoDup l' ∧
  (∀ R, R ∈ l' → covers cells nc nr (λ c, c ∈ hs) R ∧
                 ∃ x', x' ∈ pre ++ [x] ∧ frow g x' ∈ R) ∧
  ((∀ R, covers cells nc nr (λ c, c ∈ hs) R →
         (∃ x', x' ∈ pre ∧ frow g x' ∈ R) → R ∈ l0) →
   (∀ R, covers cells nc nr (λ c, c ∈ hs2) R → R ∈ l2) →
   ∀ R, covers cells nc nr (λ c, c ∈ hs) R →
        (∃ x', x' ∈ pre ++ [x] ∧ frow g x' ∈ R) → R ∈ l').
Proof.
  intros Hwf Hcol Evl Hhs2 Hnd0 Hl0 Hnd2 Hl2 l'.
  pose proof (wf_static _ _ _ _ _ _ _ _ Hwf) as Hs.
  pose proof (dy_hhead _ _ _ (wf_horiz _ _ _ _ _ _ _ _ Hwf) col Hcol) as Hch.
  pose proof (dy_vnodup _ _ _ _ (wf_vert _ _ _ _ _ _ _ _ Hwf) col Hch) as Hndv.
  assert (Hxv : x ∈ vl col) by (rewrite Evl; set_solver).
  destruct (column_member hs vl g col x Hwf Hcol Hxv) as (Hxn & Hxc & Hxh & Hxin).
  assert (Hadd : ∀ R, R ∈ l2 →
            (frow g x ∉ R) ∧ covers cells nc nr (λ c, c ∈ hs) ({[frow g x]} ∪ R)).
  { intros R HR. apply (covers_add cells nc nr hs hs2); [by exists col|done|done|].
    by apply Hl2. }
  assert (Hpre : ∀ x', x' ∈ pre → frow g x' ≠ frow g x).
  { intros x' Hx' E.
    assert (Hxv' : x' ∈ vl col) by (rewrite Evl; set_solver).
    destruct (column_member hs vl g col x' Hwf Hcol Hxv') as (Hxn' & Hxc' & _).
    assert (x' = x) as -> by (apply (st_inj _ _ _ _ Hs); [done..|congruence]).
    rewrite Evl in Hndv. apply NoDup_app in Hndv as (_ & Hd & _).
    apply (Hd x Hx'). set_solver. }
  split_and!.
  - apply NoDup_app. split_and!; [done| |].
    + intros R HR0 (R2 & -> & HR2)%list_elem_of_fmap.
      destruct (Hl0 _ HR0) as [Hcov (x' & Hx' & Hrx')].
      assert (Hxv' : x' ∈ vl col) by (rewrite Evl; set_solver).
      destruct (column_member hs vl g col x' Hwf Hcol Hxv') as (_ & _ & Hxh' & _).
      apply (Hpre x' Hx').
      apply (covers_one cells nc nr hs _ col _ _ Hcov Hcol); [done| |done..].
      set_solver.
    + apply NoDup_fmap_2_strong; [|done]. intros R1 R2 HR1 HR2 E.
      apply (add_inj R1 R2 (frow g x)); [by apply Hadd|by apply Hadd|done].
  - intros R [HR|(R2 & -> & HR2)%list_elem_of_fmap]%elem_of_app.
    + destruct (Hl0 R HR) as [? (x' & ? & ?)]. split; [done|].
      exists x'. set_solver.
    + split; [by apply Hadd|]. exists x. set_solver.
  - intros Hc0 Hc2 R Hcov (x' & [Hx'|Hx']%elem_of_app & Hrx');
      [|apply list_elem_of_singleton in Hx' as ->].
    + apply elem_of_app. left. apply Hc0; [done|]. by exists x'.
    + apply elem_of_app. right. apply list_elem_of_fmap.
      exists (R ∖ {[frow g x]}). split; [by apply add_remove|].
      apply Hc2. by apply (covers_remove cells nc nr hs hs2).
Qed.

End enumerate.

Section search.
Variables (cells : gmap Z bool) (nc nr nu : Z) (rw : Z → list Z) (lf : nat).
Variable depth : list Z → Z.
Hypothesis Hlf : nu ≤ Z.of_nat lf.
Hypothesis depth_nonneg : ∀ hs, 0 ≤ depth hs.
Hypothesis depth_step : ∀ hs hs2 r,
  NoDup hs → NoDup hs2 →
  (∃ c, hits cells nc nr r c) → row_in cells nc nr hs r →
  (∀ c, c ∈ hs2 ↔ c ∈ hs ∧ ¬ hits cells nc nr r c) →
  depth hs2 + 1 ≤ depth hs.

Lemma try_rows_unique f hs vl g col g1 vl1 k :
  search_unique_spec cells nc nr nu rw lf depth f → (length hs ≤ f)%nat →
  wfs cells nc nr nu rw hs vl g → col ∈ hs →
  wfs cells nc nr nu rw (filter (λ c, c ∉ [col]) hs) vl1 g1 →
  (∀ y, frow g1 y = frow g y) → (∀ y, fC g1 y = fC g y) → 0 ≤ k →
  ∀ rest pre s r n0 (l0 : list (gset Z)),
    vl col = pre ++ rest →
    nodes s = g1 → root s = nc → mode s = DLX_UNIQUE →
    solution_count s = n0 + Z.of_nat (length l0) →
    0 ≤ n0 → n0 + Z.of_nat (length l0) ≤ 1 →
    k + depth hs < solution_size s →
    solution_size s ≤ Z.of_nat (length (solution s)) →
    NoDup l0 →
    (∀ R, R ∈ l0 → covers cells nc nr (λ c, c ∈ hs) R ∧
                   ∃ x', x' ∈ pre ∧ frow g x' ∈ R) →
    (∀ R, covers cells nc nr (λ c, c ∈ hs) R →
          (∃ x', x' ∈ pre ∧ frow g x' ∈ R) → R ∈ l0) →
    ∃ b s' l, try_rows (search f lf) lf rest s k r = Ok (b, s', r) ∧
              enumerated cells nc nr hs g1 n0 b s' l ∧ same_config s s'.
Proof.
  intros Hrec Hlen Hwf Hcol Hwf1 Hrow1 HC1 Hk.
  pose proof (wf_static _ _ _ _ _ _ _ _ Hwf1) as Hs1.
  induction rest as [|x rest IHr];
    intros pre s r n0 l0 Evl Hn Hroot Hmode Hcnt Hn0 Hle Hsz Hbuf Hnd0 Hsound Hcompl.
  - exists false, s, l0. split; [done|]. split; [|apply same_config_refl].
    split_and!; [done|intros R HR; by apply Hsound|done|done|].
    intros _. split_and!; [lia|done|]. intros R HR. apply Hcompl; [done|].
    rewrite app_nil_r in Evl. rewrite <- Evl.
    by apply (enum_complete cells nc nr nu rw hs vl g col).
  - assert (Hxv : x ∈ vl col) by (rewrite Evl; set_solver).
    destruct (column_member cells nc nr nu rw hs vl g col x Hwf Hcol Hxv)
      as (Hxn & Hxc & Hxh & Hxin).
    destruct (select_row cells nc nr nu rw hs vl g col x lf g1 vl1
                Hwf Hcol Hxv Hlf Hwf1 Hrow1 HC1)
      as (g2 & vl2 & hs2 & Hco & Huo & Hwf2 & Hhs2 & Hrow2 & HC2 & Hlen2).
    pose proof (wf_static _ _ _ _ _ _ _ _ Hwf2) as Hs2.
    pose proof (depth_nonneg hs) as Hd0.
    cbn [try_rows]. rewrite Hn.
    rewrite rd_Ok by (by apply (static_node_dom nc nu rw)). rewrite bind_Ok.
    rewrite store_solution_Ok by lia. rewrite bind_Ok.
    cbn [nodes with_solution]. rewrite Hn.
    rewrite rd_Ok by (by apply (static_node_dom nc nu rw)). rewrite bind_Ok.
    fold (fR g1 x). rewrite Hco, bind_Ok.
    set (sb := with_nodes g2 (with_solution _ s)).
    destruct (Hrec hs2 vl2 g2 sb (k + 1) r (n0 + Z.of_nat (length l0)))
      as (b2 & s2 & l2 & Hrun & Henum & Hcfg); [lia|done|done|done|done|done|lia|lia| | |].
    { cbn [sb solution_size with_nodes with_solution].
      assert (depth hs2 + 1 ≤ depth hs); [|lia].
      apply (depth_step hs hs2 (frow g x)); [| |by exists col|done|done].
      - apply (dy_hnodup _ _ _ (wf_horiz _ _ _ _ _ _ _ _ Hwf)).
      - apply (dy_hnodup _ _ _ (wf_horiz _ _ _ _ _ _ _ _ Hwf2)). }
    { cbn [sb solution_size solution with_nodes with_solution].
      by rewrite SudokuLoop.length_aset. }
    rewrite Hrun, bind_Ok. cbv beta iota.
    destruct Henum as (Hnd2 & Hsound2 & Hc2 & Ht2 & Hf2).
    destruct (extend_enum cells nc nr nu rw hs vl g col pre x rest hs2 l0 l2
                Hwf Hcol Evl Hhs2 Hnd0 Hsound Hnd2 Hsound2)
      as (HndL & HsoundL & HcomplL).
    set (l' := l0 ++ ((λ R, {[frow g x]} ∪ R) <$> l2)) in *.
    assert (Hlen' : Z.of_nat (length l') = Z.of_nat (length l0) + Z.of_nat (length l2)).
    { unfold l'. rewrite length_app, length_fmap. lia. }
    assert (Hcfgb : same_config s sb).
    { unfold sb. split_and!; try done. cbn [solution with_nodes with_solution].
      by rewrite SudokuLoop.length_aset. }
    destruct b2.
    + exists true, s2, l'. split; [done|]. split; [|by apply (same_config_trans _ sb)].
      split_and!; [done|intros R HR; by apply HsoundL|lia|done|done].
    + destruct (Hf2 eq_refl) as (Hle2 & Hn2 & Hcomp2). rewrite Hn2.
      rewrite rd_Ok by (by apply (static_node_dom nc nu rw)). rewrite bind_Ok.
      fold (fL g2 x). rewrite Huo, bind_Ok.
      destruct Hcfg as (C1 & C2 & C3 & C4 & C5 & C6).
      destruct Hcfgb as (D1 & D2 & D3 & D4 & D5 & D6).
      destruct (IHr (pre ++ [x]) (with_nodes g1 s2) r n0 l')
        as (b & s' & l & Hrun' & Henum' & Hcfg');
        [by rewrite <- app_assoc|done|cbn; congruence|cbn; congruence|cbn; lia|done|
         cbn in *; lia|cbn; congruence|cbn; congruence|done|done| |].
      { by apply HcomplL. }
      exists b, s', l. split; [done|]. split; [done|].
      apply (same_config_trans _ (with_nodes g1 s2)); [|done].
      split_and!; cbn; congruence.
Qed.

Lemma search_unique f : search_unique_spec cells nc nr nu rw lf depth f.
Proof.
  induction f as [|f IH];
    intros hs vl g s k r n0 Hlen Hwf Hn Hroot Hmode Hcnt Hn0 Hk Hsz Hbuf;
    [simpl in Hlen; lia|].
  pose proof (wf_static _ _ _ _ _ _ _ _ Hwf) as Hs.
  pose proof (wf_horiz _ _ _ _ _ _ _ _ Hwf) as Hh.
  pose proof (wf_vert _ _ _ _ _ _ _ _ Hwf) as Hv.
  pose proof (st_bounds _ _ _ _ Hs) as (Hb1 & Hb2 & Hb3).
  pose proof (depth_nonneg hs) as Hd0.
  cbn [search].
  rewrite (proj2 (Z.leb_le 0 k)) by lia.
  rewrite (proj2 (Z.ltb_lt k (solution_size s))) by lia.
  cbn [andb c_assert]. rewrite bind_Ok. rewrite Hn, Hroot.
  rewrite rd_Ok by (apply (st_dom _ _ _ _ Hs); lia). rewrite bind_Ok.
  fold (fR g nc). pose proof (dy_hring _ _ _ Hh) as Hring. unfold ring in Hring.
  destruct hs as [|h t].
  - simpl in Hring. rewrite Hring, Z.eqb_refl.
    cbn [mode solution_count with_solution_count]. rewrite Hmode, Hcnt.
    rewrite sz_small by (unfold size_modulus; lia). cbn [dlx_mode_eqb orb andb].
    eexists _, _, [∅]. split; [done|]. split; [|by split_and!].
    split_and!.
    + apply NoDup_singleton.
    + intros R ->%list_elem_of_singleton. by apply covers_leaf.
    + cbn. lia.
    + intros Hb%Z.ltb_lt. cbn. lia.
    + intros Hb%Z.ltb_ge. cbn. split_and!; [lia|done|].
      intros R ->%covers_leaf. set_solver.
  - destruct Hring as (Hfr & Hne & Hseg). rewrite Hfr.
    rewrite (proj2 (Z.eqb_neq _ _)) by done.
    assert (Hdomh : ∀ c, c ∈ h :: t → is_Some (g !! c)).
    { intros c Hc%(dy_hhead _ _ _ Hh). apply (st_dom _ _ _ _ Hs).
      unfold is_header in Hc. lia. }
    rewrite rd_Ok by (apply Hdomh; set_solver). rewrite bind_Ok.
    fold (fR g h) (fcount g h).
    destruct (choose_column_run g nc t lf h (fcount g h) (fR g h))
      as (col & Hch & Hcol); [done|intros c Hc; apply Hdomh; set_solver| |].
    { pose proof (length_nodup_range (h :: t) (-1) nc (dy_hnodup _ _ _ Hh)) as Hl.
      assert (Hr : ∀ c, c ∈ h :: t → -1 < c < nc).
      { intros c Hc%(dy_hhead _ _ _ Hh). unfold is_header in Hc. lia. }
      specialize (Hl Hr). simpl in Hl. lia. }
    rewrite Hch, bind_Ok.
    assert (Hcolin : col ∈ h :: t) by set_solver.
    pose proof (dy_hhead _ _ _ Hh col Hcolin) as Hcolh.
    destruct (cover_wfs cells nc nr nu rw (h :: t) vl g col lf Hwf Hcolin Hlf)
      as (g1 & vl1 & Hcov & Hunc & Hwf1 & Hvl1 & Hrow1 & HC1).
    rewrite Hcov, bind_Ok. cbn [nodes with_nodes].
    pose proof (wf_static _ _ _ _ _ _ _ _ Hwf1) as Hs1.
    pose proof (wf_vert _ _ _ _ _ _ _ _ Hwf1) as Hv1.
    rewrite rd_Ok by (apply (st_dom _ _ _ _ Hs1); unfold is_header in Hcolh; lia).
    rewrite bind_Ok. fold (fcount g1 col) (fD g1 col).
    rewrite (dy_count _ _ _ _ Hv1 col Hcolh), Hvl1.
    assert (Htry : ∃ b s' l,
      (if 0 <? Z.of_nat (length (vl col)) then
         collect_rows lf g1 col (Z.of_nat (length (vl col))) 0 (fD g1 col) ≫=
         λ rows,
           let '(rows0, r0) :=
             match mode (with_nodes g1 s) with
             | DLX_RANDOM =>
                 shuffle
                   (rows ++ replicate (Z.to_nat (Z.of_nat (length (vl col)))
                                       - length rows) NULL)
                   (Z.of_nat (length (vl col))) r
             | DLX_UNIQUE =>
                 (rows ++ replicate (Z.to_nat (Z.of_nat (length (vl col)))
                                     - length rows) NULL, r)
             end in
           try_rows (search f lf) lf rows0 (with_nodes g1 s) k r0
       else Ok (false, with_nodes g1 s, r)) = Ok (b, s', r) ∧
      enumerated cells nc nr (h :: t) g1 n0 b s' l ∧ same_config s s').
    { assert (Hall : ∃ b s' l,
        try_rows (search f lf) lf (vl col) (with_nodes g1 s) k r = Ok (b, s', r) ∧
        enumerated cells nc nr (h :: t) g1 n0 b s' l ∧
        same_config (with_nodes g1 s) s').
      { assert (Hlen' : (length (h :: t) ≤ f)%nat) by (simpl in Hlen |- *; lia).
        apply (try_rows_unique f (h :: t) vl g col g1 vl1 k IH Hlen' Hwf Hcolin
                 Hwf1 Hrow1 HC1 Hk (vl col) [] (with_nodes g1 s) r n0 []);
          try done; try (cbn; lia); try apply NoDup_nil_2.
        - intros R HR. by apply elem_of_nil in HR.
        - intros R _ (x' & Hx' & _). by apply elem_of_nil in Hx'. }
      destruct Hall as (b & s' & l & Hrun & Henum & Hcfg).
      destruct (vl col) as [|x0 rest] eqn:Evl.
      - cbn [length Z.of_nat Z.ltb Z.compare]. cbn [try_rows] in Hrun.
        exists b, s', l. injection Hrun as <- <-. split; [done|]. done.
      - rewrite (proj2 (Z.ltb_lt _ _)) by (simpl; lia).
        rewrite (collect_rows_run g1 col (x0 :: rest)); [| | | |lia].
        + rewrite bind_Ok. rewrite Nat2Z.id, Nat.sub_diag.
          cbn [replicate]. rewrite app_nil_r. cbn [mode with_nodes]. rewrite Hmode.
          exists b, s', l. done.
        + rewrite <- Hvl1. apply (dy_vring _ _ _ _ Hv1 col Hcolh).
        + intros y Hy. apply (static_node_dom nc nu rw g1); [done|].
          rewrite <- Hvl1 in Hy. by apply (dy_vnode _ _ _ _ Hv1 col y Hcolh).
        + pose proof (vert_length nc nu rw vl g col Hs Hv Hcolh) as Hl.
          rewrite Evl in Hl. lia. }
    destruct Htry as (b & s' & l & -> & Henum & Hcfg). rewrite bind_Ok. cbv beta iota.
    destruct Henum as (HndL & HsoundL & HcL & HtL & HfL).
    destruct b.
    + exists true, s', l. split; [done|]. split; [|done]. by split_and!.
    + destruct (HfL eq_refl) as (Hle & Hn' & Hcompl). rewrite Hn', Hunc, bind_Ok.
      exists false, (with_nodes g s'), l. split; [done|]. split.
      * split_and!; done.
      * destruct Hcfg as (C1 & C2 & C3 & C4 & C5 & C6). by split_and!.
Qed.

End search.

End SearchUnique.

(** * The first state of the search *)

Module InitState.
Import Util Solver Dlx InitSpec ExactCover.
Import ArenaFacts SegFacts UnlinkFacts CoverFacts CoverUncover.
Import InitFacts ColumnPass RowPass InitWf InitGraph SearchStates.

(** The graph of a successful [solver_init_graph] is a state of the search
    on the matrix; its header list holds the columns that are kept. *)
Lemma init_wfs inuse nc nr cells strict s0 :
  2 ≤ nc < size_modulus → 0 ≤ nr → nr * nc < size_modulus →
  solver_init_graph (solver_create inuse nc nr) cells strict = Ok s0 →
  root s0 = nc ∧
  ∃ nu rw hs vl,
    wfs cells nc nr nu rw hs vl (nodes s0) ∧
    (∀ c, c ∈ hs ↔ kept cells nc nr strict c) ∧
    nu ≤ sz (inuse + nc + 1) ∧
    hs = (if strict then seqZ 0 nc else kept_columns nc vl nc).
Proof.
  intros Hnc Hnr Hsize Hinit.
  destruct (init_stages _ _ _ _ _ _ Hnc Hnr Hsize Hinit)
    as (needed & nu & used & vl & gC & g & En & Hneeded & Hcp & HdC & HhC & Hrp & Hfr
        & Hlast & Es0).
  split; [by rewrite Es0|].
  assert (Hs : static nc nu (init_rw nc used g) g).
  { eapply init_static; eauto; lia. }
  assert (Hh : horiz nc (seqZ 0 nc) g).
  { eapply init_horiz; eauto; lia. }
  assert (Hv : vert nc nu vl g).
  { eapply init_vert; eauto; lia. }
  assert (Hl : live_rows nc nu (init_rw nc used g) (seqZ 0 nc) vl g).
  { eapply init_live; eauto; lia. }
  assert (HCg : ∀ x, fC g x = fC gC x) by (intros x; apply Hfr).
  assert (Hrg : ∀ x, frow g x = frow gC x) by (intros x; apply Hfr).
  assert (Hrep : represents cells nc nr nu g).
  { split.
    - intros x Hx. rewrite HCg, Hrg.
      destruct (cp_node _ _ _ _ _ _ _ _ _ _ Hcp x Hx) as (H1&H2&H3&H4&H5&H6&H7).
      split_and!; try done; lia.
    - intros r c (Hr & Hc & Hm).
      assert (Hne : used_at used (uidx nc r c) ≠ NULL).
      { apply (cp_set _ _ _ _ _ _ _ _ _ _ Hcp r c Hr Hc); [left; lia|done]. }
      destruct (cp_used _ _ _ _ _ _ _ _ _ _ Hcp r c Hr Hc Hne) as (H1 & H2 & H3).
      exists (used_at used (uidx nc r c)). by rewrite HCg, Hrg. }
  assert (Hne : ∀ c, 0 ≤ c < nc → vl c ≠ [] ↔ ∃ r, hits cells nc nr r c).
  { intros c Hc. split.
    - destruct (vl c) as [|x l] eqn:Evl; [done|]. intros _.
      assert (Hx : x ∈ vl c) by (rewrite Evl; set_solver).
      apply (cp_mem _ _ _ _ _ _ _ _ _ _ Hcp) in Hx as [Hxn Hxc].
      exists (frow g x). rewrite <- Hxc, <- HCg. by apply Hrep.
    - intros [r Hh']. destruct Hrep as [_ H2].
      destruct (H2 r c Hh') as (x & Hxn & _ & Hxc).
      destruct (cp_node _ _ _ _ _ _ _ _ _ _ Hcp x Hxn) as (_&_&_&_&_&_&Hin).
      rewrite <- HCg, Hxc in Hin. intros E. rewrite E in Hin.
      by apply elem_of_nil in Hin. }
  assert (Hnun : nu ≤ sz (inuse + nc + 1)).
  { rewrite <- En. eapply nu_needed; eauto. }
  exists nu, (init_rw nc used g).
  destruct strict; simpl in Hlast.
  - injection Hlast as <-. exists (seqZ 0 nc), vl. split; [by split|].
    split; [|done]. intros c. rewrite elem_of_seqZ. unfold kept. split; [intros ?; split; [lia|by left]|].
    intros [? _]. lia.
  - apply (drop_empty_loop nc nu (init_rw nc used g) vl) in Hlast
      as (Hs' & Hh' & Hv' & HC' & Hr'); [|lia|done..].
    exists (kept_columns nc vl nc), vl. split.
    + split; [done..| |].
      * by apply (relaxed_live nc nu (init_rw nc used g) vl g).
      * by apply (represents_frame cells nc nr nu g).
    + split; [|done]. intros c. unfold kept_columns, kept. rewrite list_elem_of_filter, elem_of_seqZ.
      split.
      * intros [[?|Hc] ?]; [lia|]. split; [lia|]. right. apply Hne; [lia|done].
      * intros [? [?|Hc]]; [done|]. split; [|lia]. right. by apply Hne.
Qed.

End InitState.

(** * How many rows a search can take *)

Module Packing.
Import Util Solver Dlx InitSpec ExactCover Views.

Section pack_facts.
Variables (cells : gmap Z bool) (nc nr : Z).

Lemma row_ones_hits r c :
  0 ≤ r < nr → c ∈ row_ones cells nc r ↔ hits cells nc nr r c.
Proof.
  intros Hr. unfold row_ones, hits. rewrite list_elem_of_filter, elem_of_seqZ.
  split; [intros [? ?]; split_and!; [lia..|done]|intros (? & ? & ?); split; [done|lia]].
Qed.

Lemma fits_spec hs r :
  0 ≤ r < nr →
  fits cells nc hs r = true ↔
  (∃ c, hits cells nc nr r c) ∧ row_in cells nc nr hs r.
Proof.
  intros Hr. unfold fits, row_in.
  rewrite andb_true_iff, negb_true_iff, bool_decide_eq_false, bool_decide_eq_true.
  rewrite Forall_forall. split.
  - intros [Hne Hall]. split.
    + destruct (row_ones cells nc r) as [|c l] eqn:E; [done|].
      exists c. apply row_ones_hits; [done|]. rewrite E. apply list_elem_of_here.
    + intros c Hc. by apply Hall, row_ones_hits.
  - intros [[c Hc] Hin]. split.
    + intros E. apply (row_ones_hits r c Hr) in Hc. rewrite E in Hc.
      by apply elem_of_nil in Hc.
    + intros c' Hc'. by apply Hin, row_ones_hits.
Qed.

Lemma pack_sound rs hs :
  (∀ r, r ∈ rs → 0 ≤ r < nr) → NoDup rs →
  ∃ F, family cells nc nr rs hs F ∧ length F = pack cells nc rs hs.
Proof.
  revert hs. induction rs as [|r rs IH]; intros hs Hrs Hnd.
  - exists []. split; [|done]. split_and!; [apply NoDup_nil_2| |];
      intros; exfalso; eapply elem_of_nil; eauto.
  - apply NoDup_cons in Hnd as [Hr Hnd].
    assert (Hrs' : ∀ r', r' ∈ rs → 0 ≤ r' < nr).
    { intros r' Hr'. apply Hrs. by apply list_elem_of_further. }
    assert (Hweak : ∀ F, family cells nc nr rs hs F → family cells nc nr (r :: rs) hs F).
    { intros F (H1 & H2 & H3). split_and!; [done| |done].
      intros r' Hr'. destruct (H2 r' Hr') as (? & ? & ?).
      split_and!; [by apply list_elem_of_further|done..]. }
    cbn [pack]. destruct (fits cells nc hs r) eqn:Ef.
    + apply fits_spec in Ef as [Hne Hin]; [|apply Hrs, list_elem_of_here].
      set (hs' := filter (λ c, c ∉ row_ones cells nc r) hs).
      destruct (IH hs Hrs' Hnd) as (F1 & HF1 & HL1).
      destruct (IH hs' Hrs' Hnd) as (F2 & HF2 & HL2).
      destruct (Nat.max_spec (pack cells nc rs hs) (S (pack cells nc rs hs')))
        as [[_ ->]|[_ ->]].
      * exists (r :: F2). split; [|by rewrite <- HL2].
        destruct HF2 as (H1 & H2 & H3).
        assert (Hdis : ∀ r' c, r' ∈ F2 → hits cells nc nr r c →
                  hits cells nc nr r' c → False).
        { intros r' c Hr' Hc Hc'. destruct (H2 r' Hr') as (_ & _ & Hi).
          apply Hi in Hc'. apply list_elem_of_filter in Hc' as [Hn _].
          apply Hn, row_ones_hits; [apply Hrs, list_elem_of_here|done]. }
        split_and!.
        -- apply NoDup_cons. split; [|done]. intros Hr'.
           destruct (H2 r Hr') as (? & _). done.
        -- intros r' [->|Hr']%elem_of_cons.
           ++ split_and!; [apply list_elem_of_here|done..].
           ++ destruct (H2 r' Hr') as (? & ? & Hi).
              split_and!; [by apply list_elem_of_further|done|].
              intros c Hc. apply Hi in Hc.
              by apply list_elem_of_filter in Hc as [_ ?].
        -- intros r1 r2 c [->|Hr1]%elem_of_cons [->|Hr2]%elem_of_cons Hc1 Hc2.
           ++ done.
           ++ destruct (Hdis r2 c Hr2 Hc1 Hc2).
           ++ destruct (Hdis r1 c Hr1 Hc2 Hc1).
           ++ by apply (H3 r1 r2 c).
      * exists F1. split; [by apply Hweak|done].
    + destruct (IH hs Hrs' Hnd) as (F1 & HF1 & HL1).
      exists F1. split; [by apply Hweak|done].
Qed.

Lemma pack_complete rs hs F :
  (∀ r, r ∈ rs → 0 ≤ r < nr) → NoDup rs →
  family cells nc nr rs hs F → (length F ≤ pack cells nc rs hs)%nat.
Proof.
  revert hs F. induction rs as [|r rs IH]; intros hs F Hrs Hnd (H1 & H2 & H3).
  - destruct F as [|r F]; [simpl; lia|].
    destruct (H2 r (list_elem_of_here _ _)) as (Hr & _). by apply elem_of_nil in Hr.
  - apply NoDup_cons in Hnd as [Hr Hnd].
    assert (Hrs' : ∀ r', r' ∈ rs → 0 ≤ r' < nr).
    { intros r' Hr'. apply Hrs. by apply list_elem_of_further. }
    cbn [pack]. destruct (decide (r ∈ F)) as [HrF|HrF].
    + destruct (H2 r HrF) as (_ & Hne & Hin).
      rewrite (proj2 (fits_spec hs r (Hrs r (list_elem_of_here _ _)))) by done.
      apply elem_of_Permutation in HrF as [F' HP].
      assert (HndF : NoDup (r :: F')) by by rewrite <- HP.
      apply NoDup_cons in HndF as [HrF' HndF'].
      assert (Hsub : ∀ x, x ∈ F' → x ∈ F).
      { intros x Hx. rewrite HP. by apply list_elem_of_further. }
      assert (HrF : r ∈ F) by (rewrite HP; apply list_elem_of_here).
      set (hs' := filter (λ c, c ∉ row_ones cells nc r) hs).
      assert (Hfam : family cells nc nr rs hs' F').
      { split_and!; [done| |].
        - intros r' Hr'. destruct (H2 r' (Hsub r' Hr')) as (Hin' & Hne' & Hi').
          assert (r' ≠ r) by (intros ->; done).
          apply elem_of_cons in Hin' as [?|Hin']; [done|].
          split_and!; [done..|]. intros c Hc. apply list_elem_of_filter.
          split; [|by apply Hi'].
          intros Hc'%row_ones_hits; [|apply Hrs, list_elem_of_here].
          by specialize (H3 r' r c (Hsub r' Hr') HrF Hc Hc').
        - intros r1 r2 c Hr1 Hr2. apply H3; by apply Hsub. }
      pose proof (IH hs' F' Hrs' Hnd Hfam) as Hle.
      rewrite HP. simpl. lia.
    + assert (Hfam : family cells nc nr rs hs F).
      { split_and!; [done| |done].
        intros r' Hr'. destruct (H2 r' Hr') as (Hin' & ? & ?).
        apply elem_of_cons in Hin' as [->|Hin']; [done|]. done. }
      pose proof (IH hs F Hrs' Hnd Hfam) as Hle.
      destruct (fits cells nc hs r); lia.
Qed.

Lemma packing_nonneg hs : 0 ≤ packing cells nc nr hs.
Proof. unfold packing. lia. Qed.

Lemma packing_step (hs hs2 : list Z) r :
  NoDup hs → NoDup hs2 →
  (∃ c, hits cells nc nr r c) → row_in cells nc nr hs r →
  (∀ c, c ∈ hs2 ↔ c ∈ hs ∧ ¬ hits cells nc nr r c) →
  packing cells nc nr hs2 + 1 ≤ packing cells nc nr hs.
Proof.
  intros _ _ [c0 Hc0] Hin Hhs2.
  assert (Hrs : ∀ r, r ∈ seqZ 0 nr → 0 ≤ r < nr).
  { intros r' Hr'%elem_of_seqZ. lia. }
  destruct (pack_sound (seqZ 0 nr) hs2 Hrs (NoDup_seqZ _ _)) as (F & (H1 & H2 & H3) & HL).
  assert (Hdis : ∀ r' c, r' ∈ F → hits cells nc nr r c →
            hits cells nc nr r' c → False).
  { intros r' c Hr' Hc Hc'. destruct (H2 r' Hr') as (_ & _ & Hi).
    apply Hi, Hhs2 in Hc' as [_ Hn]. done. }
  assert (Hfam : family cells nc nr (seqZ 0 nr) hs (r :: F)).
  { split_and!.
    - apply NoDup_cons. split; [|done]. intros Hr.
      destruct (H2 r Hr) as (_ & _ & Hi). by apply (Hdis r c0).
    - intros r' [->|Hr']%elem_of_cons.
      + split_and!; [|by exists c0|done].
        destruct Hc0 as (? & _). apply elem_of_seqZ. lia.
      + destruct (H2 r' Hr') as (? & ? & Hi). split_and!; [done..|].
        intros c Hc. by apply Hi, Hhs2 in Hc as [? _].
    - intros r1 r2 c [->|Hr1]%elem_of_cons [->|Hr2]%elem_of_cons Hc1 Hc2.
      + done.
      + destruct (Hdis r2 c Hr2 Hc1 Hc2).
      + destruct (Hdis r1 c Hr1 Hc2 Hc1).
      + by apply (H3 r1 r2 c). }
  pose proof (pack_complete (seqZ 0 nr) hs (r :: F) Hrs (NoDup_seqZ _ _) Hfam) as Hle.
  unfold packing. simpl in Hle. lia.
Qed.

Lemma packing_bound hs n :
  (∀ F, disjoint_rows cells nc nr F → Z.of_nat (length F) < n) → packing cells nc nr hs < n.
Proof.
  intros Hall.
  assert (Hrs : ∀ r, r ∈ seqZ 0 nr → 0 ≤ r < nr).
  { intros r' Hr'%elem_of_seqZ. lia. }
  destruct (pack_sound (seqZ 0 nr) hs Hrs (NoDup_seqZ _ _)) as (F & (H1 & H2 & H3) & HL).
  unfold packing. rewrite <- HL. apply Hall. split_and!; [done| |done].
  intros r Hr. by destruct (H2 r Hr) as (_ & ? & _).
Qed.

(** The other way round, for a matrix at hand: compute [pack] on all the
    columns. *)
Lemma disjoint_rows_pack F :
  disjoint_rows cells nc nr F →
  (length F ≤ pack cells nc (seqZ 0 nr) (seqZ 0 nc))%nat.
Proof.
  intros (H1 & H2 & H3).
  apply pack_complete; [intros r' Hr'%elem_of_seqZ; lia|apply NoDup_seqZ|].
  split_and!; [done| |done]. intros r Hr. destruct (H2 r Hr) as [c Hc].
  split_and!; [|by exists c|].
  - destruct Hc as (? & _). apply elem_of_seqZ. lia.
  - intros c' (_ & ? & _). apply elem_of_seqZ. lia.
Qed.

End pack_facts.

End Packing.

(** * [solver_run] in count-unique mode *)

Module UniqueMode.
Import Util Solver Dlx InitSpec ExactCover Views.
Import CoverUncover SearchStates CoverSets SearchUnique InitState Packing.

Lemma clear_solution_Ok buf size :
  size ≤ Z.of_nat (length buf) →
  ∃ buf', clear_solution buf size = Ok buf' ∧ length buf' = length buf.
Proof.
  intros Hsize. unfold clear_solution, for_range.
  assert (H : ∀ n i (b : list Z), 0 ≤ i → i + Z.of_nat n ≤ Z.of_nat (length b) →
            ∃ b', for_loop n i
                    (λ i b, if i <? Z.of_nat (length b) then Ok (aset b i (-1))
                            else Err OutOfBounds) b = Ok b' ∧
                  length b' = length b).
  { induction n as [|n IH]; intros i b Hi Hn; [by exists b|].
    rewrite for_loop_S. rewrite (proj2 (Z.ltb_lt _ _)) by lia. rewrite bind_Ok.
    destruct (IH (i + 1) (aset b i (-1))) as (b' & Hrun & Hlen); [lia| |].
    - rewrite SudokuLoop.length_aset. lia.
    - exists b'. split; [done|]. by rewrite Hlen, SudokuLoop.length_aset. }
  apply H; [done|]. lia.
Qed.

Lemma exact_cover_covers cells nc nr strict (hs : list Z) (R : gset Z) :
  (∀ c, c ∈ hs ↔ kept cells nc nr strict c) →
  exact_cover cells nc nr strict R ↔ covers cells nc nr (λ c, c ∈ hs) R.
Proof.
  intros Hk. split.
  - intros [H1 H2]. split.
    + intros r Hr. split; [by apply H1|]. intros c Hc. apply Hk.
      destruct Hc as (? & ? & ?). split; [done|].
      destruct strict; [by left|right]. by exists r.
    + intros c Hc%Hk. by apply H2.
  - intros [H1 H2]. split.
    + intros r Hr. by apply H1.
    + intros c Hc%Hk. by apply H2.
Qed.

(** [solver_run] in count-unique mode from a state of the search. *)
Lemma solver_run_unique cells nc nr nu rw hs vl s0 fuel depth buf n r :
  wfs cells nc nr nu rw hs vl (nodes s0) → root s0 = nc →
  nu ≤ Z.of_nat fuel →
  (∀ hs, 0 ≤ depth hs) →
  (∀ hs hs2 r,
     NoDup hs → NoDup hs2 →
     (∃ c, hits cells nc nr r c) → row_in cells nc nr hs r →
     (∀ c, c ∈ hs2 ↔ c ∈ hs ∧ ¬ hits cells nc nr r c) →
     depth hs2 + 1 ≤ depth hs) →
  depth hs < n ≤ Z.of_nat (length buf) →
  ∃ b s' (l : list (gset Z)),
    solver_run fuel s0 DLX_UNIQUE buf n r = Ok (b, s', r) ∧
    NoDup l ∧ (∀ R, R ∈ l → covers cells nc nr (λ c, c ∈ hs) R) ∧
    solution_count s' = Z.of_nat (length l) ∧ (length l ≤ 2)%nat ∧
    ((length l < 2)%nat → ∀ R, covers cells nc nr (λ c, c ∈ hs) R → R ∈ l) ∧
    (b = true ↔
     ∃ R, covers cells nc nr (λ c, c ∈ hs) R ∧
          ∀ R', covers cells nc nr (λ c, c ∈ hs) R' → R' = R).
Proof.
  intros Hwf Hroot Hlf Hd0 Hdstep Hbuf.
  pose proof (wf_static _ _ _ _ _ _ _ _ Hwf) as Hs.
  pose proof (wf_horiz _ _ _ _ _ _ _ _ Hwf) as Hh.
  pose proof (st_bounds _ _ _ _ Hs) as (Hb1 & Hb2 & Hb3).
  assert (Hlen : Z.of_nat (length hs) ≤ nc).
  { pose proof (length_nodup_range hs (-1) nc (dy_hnodup _ _ _ Hh)) as Hl.
    assert (Hr : ∀ c, c ∈ hs → -1 < c < nc).
    { intros c Hc%(dy_hhead _ _ _ Hh). unfold is_header in Hc. lia. }
    specialize (Hl Hr). lia. }
  destruct (clear_solution_Ok buf n) as (buf' & Hclear & Hlen'); [lia|].
  unfold solver_run. rewrite Hclear, bind_Ok. cbv zeta.
  set (s1 := mk_solver _ _ _ _ _ _ _ _).
  destruct (search_unique cells nc nr nu rw fuel depth Hlf Hd0 Hdstep
              fuel hs vl (nodes s0) s1 0 r 0)
    as (b & s' & l & Hrun & (HndL & HsoundL & HcL & HtL & HfL) & Hcfg);
    [lia|done|done|done|done|done|lia|lia|cbn; lia|cbn; lia|].
  rewrite Hrun, bind_Ok. cbv beta iota.
  destruct Hcfg as (_ & -> & _). cbn [mode s1].
  exists (solution_count s' =? 1), s', l.
  assert (Hl2 : (length l ≤ 2)%nat).
  { destruct b; [specialize (HtL eq_refl)|destruct (HfL eq_refl) as [? _]]; lia. }
  assert (Hcompl : (length l < 2)%nat →
            ∀ R, covers cells nc nr (λ c, c ∈ hs) R → R ∈ l).
  { intros Hlt. destruct b; [specialize (HtL eq_refl); lia|].
    by destruct (HfL eq_refl) as (_ & _ & ?). }
  split_and!; [done|done|done|lia|done|done|].
  rewrite Z.eqb_eq. split.
  - intros H1. destruct l as [|R [|R2 l]]; simpl in *; try lia.
    exists R. split; [apply HsoundL; set_solver|].
    intros R' HR'. apply Hcompl in HR'; [|simpl; lia]. set_solver.
  - intros (R & HR & Huniq).
    destruct l as [|R1 [|R2 l]]; simpl in *; [|lia|].
    + apply Hcompl in HR; [|lia]. by apply elem_of_nil in HR.
    + exfalso. apply NoDup_cons in HndL as [Hne _]. apply Hne.
      rewrite (Huniq R1), (Huniq R2); [set_solver| |]; apply HsoundL; set_solver.
Qed.

(** C2, amended.  Take the graph [solver_init_graph] builds for a matrix
    with at least two columns, strict or relaxed, and a solution buffer
    of [n] slots, where [n] is larger than the number of rows in any set
    of rows that have a 1 each and pairwise no column in common (the
    search takes such rows one after the other, and asserts that slot
    [k] exists when it has taken [k] of them).  With fuel for as many steps
    as the arena has nodes, [solver_run] in count-unique mode returns.
    The covers it counted are [l]: distinct exact covers of the kept
    columns (all columns if strict, the non-empty ones if relaxed) by
    non-empty rows; the counter is their number and never passes 2; if it
    is below 2 every exact cover was counted.  The flag returned is true if
    and only if there is exactly one exact cover. *)
Theorem unique_mode_counts inuse nc nr cells strict s0 fuel buf n r :
  2 ≤ nc < size_modulus → 0 ≤ nr → nr * nc < size_modulus →
  solver_init_graph (solver_create inuse nc nr) cells strict = Ok s0 →
  (∀ F, disjoint_rows cells nc nr F → Z.of_nat (length F) < n) →
  n ≤ Z.of_nat (length buf) →
  (size (nodes s0) ≤ fuel)%nat →
  ∃ b s' (l : list (gset Z)),
    solver_run fuel s0 DLX_UNIQUE buf n r = Ok (b, s', r) ∧
    NoDup l ∧ (∀ R, R ∈ l → exact_cover cells nc nr strict R) ∧
    solution_count s' = Z.of_nat (length l) ∧ (length l ≤ 2)%nat ∧
    ((length l < 2)%nat → ∀ R, exact_cover cells nc nr strict R → R ∈ l) ∧
    (b = true ↔
     ∃ R, exact_cover cells nc nr strict R ∧
          ∀ R', exact_cover cells nc nr strict R' → R' = R).
Proof.
  intros Hnc Hnr Hsize Hinit Hpack Hbuf Hfuel.
  destruct (init_wfs _ _ _ _ _ _ Hnc Hnr Hsize Hinit)
    as (Hroot & nu & rw & hs & vl & Hwf & Hkept & _).
  pose proof (wf_static _ _ _ _ _ _ _ _ Hwf) as Hs.
  pose proof (size_lower_bound nc nu rw _ Hs) as Hnu.
  assert (Hlf : nu ≤ Z.of_nat fuel) by lia.
  pose proof (packing_bound cells nc nr hs n Hpack) as Hdepth.
  destruct (solver_run_unique cells nc nr nu rw hs vl s0 fuel
              (packing cells nc nr) buf n r Hwf Hroot Hlf
              (packing_nonneg cells nc nr) (packing_step cells nc nr))
    as (b & s' & l & Hrun & HndL & HsoundL & HcL & Hl2 & Hcompl & Hiff); [lia|].
  assert (E : ∀ R, exact_cover cells nc nr strict R ↔
                   covers cells nc nr (λ c, c ∈ hs) R).
  { intros R. by apply exact_cover_covers. }
  exists b, s', l. split_and!; [done|done| |done|done| |].
  - intros R HR. by apply E, HsoundL.
  - intros Hlt R HR. by apply (Hcompl Hlt), E.
  - rewrite Hiff. split; intros (R & HR & Huniq); exists R.
    + split; [by apply E|]. intros R' HR'. by apply Huniq, E.
    + split; [by apply E|]. intros R' HR'. by apply Huniq, E.
Qed.

(** C2 as stated fails.  By design: the relaxed graph of the matrix with
    the single row (1 0) drops the empty column, and the run returns true
    although no set of rows covers both columns.  By two slips, which the
    amended statement leaves out: the strict graph of the 2x2 identity has
    exactly one exact cover, both rows, and with a buffer of two slots the
    run stops at the assertion of [search] instead of returning true; the
    matrix with one column and the row (1) has exactly one exact cover,
    and the run ends in an access outside the arena, through the left link
    of the only header. *)
Lemma unique_mode_counterexample :
  (Examples.run_matrix 20 1 2 1 Examples.single_rows false DLX_UNIQUE 5
     (Examples.constant_rng 1) = Ok (true, [0; -1; -1; -1; -1], 1) ∧
   ¬ ∃ R, exact_cover (Examples.cells_of_rows 2 Examples.single_rows) 2 1 true R) ∧
  (Examples.run_matrix 20 2 2 2 Examples.diagonal_rows true DLX_UNIQUE 2
     (Examples.constant_rng 1) = Err AssertFail ∧
   exact_cover (Examples.cells_of_rows 2 Examples.diagonal_rows) 2 2 true {[0; 1]} ∧
   ∀ R, exact_cover (Examples.cells_of_rows 2 Examples.diagonal_rows) 2 2 true R →
        R = {[0; 1]}) ∧
  (Examples.run_matrix 20 1 1 1 Examples.single_rows true DLX_UNIQUE 5
     (Examples.constant_rng 1) = Err OutOfBounds ∧
   exact_cover (Examples.cells_of_rows 1 Examples.single_rows) 1 1 true {[0]} ∧
   ∀ R, exact_cover (Examples.cells_of_rows 1 Examples.single_rows) 1 1 true R →
        R = {[0]}).
Proof.
  split; [split|split; [split_and!|split_and!]].
  - vm_compute. reflexivity.
  - intros [R [_ H2]]. destruct (H2 1) as (r & _ & (Hr & _ & Hm) & _).
    { split; [lia|by left]. }
    assert (r = 0) as -> by lia. vm_compute in Hm. discriminate.
  - vm_compute. reflexivity.
  - split.
    + intros r Hr. exists r.
      assert (r = 0 ∨ r = 1) as [-> | ->] by set_solver;
        (split_and!; [lia..|vm_compute; reflexivity]).
    + intros c [Hc _]. exists c. split_and!.
      * assert (c = 0 ∨ c = 1) as [-> | ->] by lia; set_solver.
      * assert (c = 0 ∨ c = 1) as [-> | ->] by lia;
          (split_and!; [lia..|vm_compute; reflexivity]).
      * intros r' Hr' (_ & _ & Hm).
        assert (r' = 0 ∨ r' = 1) as [-> | ->] by set_solver;
          assert (c = 0 ∨ c = 1) as [-> | ->] by lia; try done;
          vm_compute in Hm; discriminate.
  - intros R [H1 H2]. apply leibniz_equiv. intros x. split.
    + intros Hx. destruct (H1 x Hx) as (c & Hr & _). 
      assert (x = 0 ∨ x = 1) as [-> | ->] by lia; set_solver.
    + intros Hx. assert (x = 0 ∨ x = 1) as E by set_solver.
      destruct (H2 x) as (r & Hr & (Hrr & _ & Hm) & _).
      { split; [lia|by left]. }
      assert (r = 0 ∨ r = 1) as [-> | ->] by lia; destruct E as [-> | ->];
        try done; vm_compute in Hm; discriminate.
  - vm_compute. reflexivity.
  - split.
    + intros r ->%elem_of_singleton. exists 0.
      split_and!; [lia..|vm_compute; reflexivity].
    + intros c [Hc _]. assert (c = 0) as -> by lia. exists 0. split_and!.
      * set_solver.
      * split_and!; [lia..|vm_compute; reflexivity].
      * intros r' Hr' _. set_solver.
  - intros R [H1 H2]. apply leibniz_equiv. intros x. split.
    + intros Hx. destruct (H1 x Hx) as (c & Hr & _).
      assert (x = 0) as -> by lia. set_solver.
    + intros ->%elem_of_singleton.
      destruct (H2 0) as (r & Hr & (Hrr & _) & _).
      { split; [lia|by left]. }
      by assert (r = 0) as -> by lia.
Qed.

Lemma unique_mode_counts_witness :
  ∃ b s' (l : list (gset Z)),
    solver_run 20 Examples.toy_solver DLX_UNIQUE (replicate 3 0) 3
      (Examples.constant_rng 1) = Ok (b, s', Examples.constant_rng 1) ∧
    NoDup l ∧
    (∀ R, R ∈ l →
       exact_cover (Examples.cells_of_rows 3 Examples.toy_rows) 3 4 true R) ∧
    solution_count s' = Z.of_nat (length l) ∧ (length l ≤ 2)%nat ∧
    ((length l < 2)%nat →
     ∀ R, exact_cover (Examples.cells_of_rows 3 Examples.toy_rows) 3 4 true R →
          R ∈ l) ∧
    (b = true ↔
     ∃ R, exact_cover (Examples.cells_of_rows 3 Examples.toy_rows) 3 4 true R ∧
          ∀ R', exact_cover (Examples.cells_of_rows 3 Examples.toy_rows) 3 4 true R' →
                R' = R).
Proof.
  apply (unique_mode_counts 6 3 4 (Examples.cells_of_rows 3 Examples.toy_rows)
           true Examples.toy_solver 20 (replicate 3 0) 3 (Examples.constant_rng 1)).
  - vm_compute. split; [discriminate 1|reflexivity].
  - lia.
  - vm_compute. reflexivity.
  - vm_compute. reflexivity.
  - intros F HF%disjoint_rows_pack.
    assert (E : pack (Examples.cells_of_rows 3 Examples.toy_rows) 3
                  (seqZ 0 4) (seqZ 0 3) = 2%nat) by (vm_compute; reflexivity).
    rewrite E in HF. lia.
  - simpl. lia.
  - vm_compute. lia.
Defined.

End UniqueMode.

(** * [search] in find-any mode *)

Module SearchRandom.
Import Util Solver Dlx InitSpec ExactCover.
Import ArenaFacts SegFacts UnlinkFacts CoverFacts CoverUncover.
Import SearchStates CoverSets SearchLoops SearchUnique.

Lemma take_le {A} (l l' : list A) a a' :
  take a l' = take a l → (a' ≤ a)%nat → take a' l' = take a' l.
Proof.
  intros E Ha. rewrite <- (Nat.min_l a' a) by done.
  by rewrite <- !take_take, E.
Qed.

Lemma drop_ge {A} (l l' : list A) b b' :
  drop b l' = drop b l → (b ≤ b')%nat → drop b' l' = drop b' l.
Proof.
  intros E Hb. replace b' with (b + (b' - b))%nat by lia.
  by rewrite <- !drop_drop, E.
Qed.

Section search.
Variables (cells : gmap Z bool) (nc nr nu : Z) (rw : Z → list Z) (lf : nat).
Variable depth : list Z → Z.
Hypothesis Hlf : nu ≤ Z.of_nat lf.
Hypothesis depth_nil : depth [] = 0.
Hypothesis depth_nonneg : ∀ hs, 0 ≤ depth hs.
Hypothesis depth_step : ∀ hs hs2 r,
  NoDup hs → NoDup hs2 →
  (∃ c, hits cells nc nr r c) → row_in cells nc nr hs r →
  (∀ c, c ∈ hs2 ↔ c ∈ hs ∧ ¬ hits cells nc nr r c) →
  depth hs2 + 1 = depth hs.

Lemma try_rows_random f hs vl g col g1 vl1 k :
  search_random_spec cells nc nr nu rw lf depth f → (length hs ≤ f)%nat →
  wfs cells nc nr nu rw hs vl g → col ∈ hs →
  wfs cells nc nr nu rw (filter (λ c, c ∉ [col]) hs) vl1 g1 →
  (∀ y, frow g1 y = frow g y) → (∀ y, fC g1 y = fC g y) → 0 ≤ k →
  ∀ rows s r,
    (∀ x, x ∈ rows → x ∈ vl col) →
    nodes s = g1 → root s = nc → mode s = DLX_RANDOM →
    k + depth hs < solution_size s →
    solution_size s ≤ Z.of_nat (length (solution s)) →
    ∃ b s' r', try_rows (search f lf) lf rows s k r = Ok (b, s', r') ∧
               found cells nc nr depth hs g1 k s b s' ∧ same_config s s' ∧
               (b = false →
                ∀ R x, covers cells nc nr (λ c, c ∈ hs) R → x ∈ rows →
                       frow g x ∉ R).
Proof.
  intros Hrec Hlen Hwf Hcol Hwf1 Hrow1 HC1 Hk.
  pose proof (wf_static _ _ _ _ _ _ _ _ Hwf1) as Hs1.
  induction rows as [|x rows IHr]; intros s r Hin Hn Hroot Hmode Hsz Hbuf.
  - exists false, s, r. split; [done|].
    split; [|split; [apply same_config_refl|]].
    + split_and!; done.
    + intros _ R x _ Hx. by apply elem_of_nil in Hx.
  - assert (Hxv : x ∈ vl col) by (apply Hin; set_solver).
    destruct (column_member cells nc nr nu rw hs vl g col x Hwf Hcol Hxv)
      as (Hxn & Hxc & Hxh & Hxin).
    destruct (select_row cells nc nr nu rw hs vl g col x lf g1 vl1
                Hwf Hcol Hxv Hlf Hwf1 Hrow1 HC1)
      as (g2 & vl2 & hs2 & Hco & Huo & Hwf2 & Hhs2 & Hrow2 & HC2 & Hlen2).
    pose proof (wf_static _ _ _ _ _ _ _ _ Hwf2) as Hs2.
    pose proof (depth_nonneg hs2) as Hd2.
    assert (Hd : depth hs2 + 1 = depth hs).
    { apply (depth_step hs hs2 (frow g x)); [| |by exists col|done|done].
      - apply (dy_hnodup _ _ _ (wf_horiz _ _ _ _ _ _ _ _ Hwf)).
      - apply (dy_hnodup _ _ _ (wf_horiz _ _ _ _ _ _ _ _ Hwf2)). }
    cbn [try_rows]. rewrite Hn.
    rewrite rd_Ok by (by apply (static_node_dom nc nu rw)). rewrite bind_Ok.
    rewrite store_solution_Ok by lia. rewrite bind_Ok.
    cbn [nodes with_solution]. rewrite Hn.
    rewrite rd_Ok by (by apply (static_node_dom nc nu rw)). rewrite bind_Ok.
    fold (fR g1 x) (frow g1 x). rewrite Hco, bind_Ok. rewrite Hrow1.
    set (sb := with_nodes g2 (with_solution _ s)).
    assert (Hcfgb : same_config s sb).
    { unfold sb. split_and!; try done. cbn [solution with_nodes with_solution].
      by rewrite SudokuLoop.length_aset. }
    destruct (Hrec hs2 vl2 g2 sb (k + 1) r)
      as (b2 & s2 & r2 & Hrun & Hfound & Hcfg & Hnone);
      [lia|done|done|done|done|lia| | |].
    { cbn [sb solution_size with_nodes with_solution]. lia. }
    { cbn [sb solution_size solution with_nodes with_solution].
      by rewrite SudokuLoop.length_aset. }
    rewrite Hrun, bind_Ok. cbv beta iota.
    destruct Hfound as (Htk & Hdr & Hfalse & Htrue).
    cbn [sb solution with_nodes with_solution] in Htk, Hdr.
    assert (Htk' : take (Z.to_nat k) (solution s2) = take (Z.to_nat k) (solution s)).
    { rewrite (take_le _ _ _ (Z.to_nat k) Htk) by lia.
      unfold aset. apply take_insert_ge. lia. }
    assert (Hdr' : drop (Z.to_nat (k + depth hs)) (solution s2) =
                   drop (Z.to_nat (k + depth hs)) (solution s)).
    { rewrite (drop_ge _ _ _ (Z.to_nat (k + depth hs)) Hdr) by lia.
      unfold aset. apply drop_insert_lt. lia. }
    destruct b2.
    + exists true, s2, r2. split; [done|].
      split; [|split; [by apply (same_config_trans _ sb)|done]].
      split_and!; [done|done|done|]. intros _.
      destruct (Htrue eq_refl) as (path & Hpl & Hpnd & Hpc & Hpt).
      destruct (covers_add cells nc nr hs hs2 (list_to_set path) (frow g x))
        as [Hfresh Hadd]; [by exists col|done|done|done|].
      exists (frow g x :: path). split_and!.
      * simpl length. lia.
      * apply NoDup_cons. split; [|done]. intros Hp. apply Hfresh.
        by apply elem_of_list_to_set.
      * by rewrite list_to_set_cons.
      * assert (Hk2 : solution s2 !! Z.to_nat k = Some (frow g x)).
        { rewrite <- (lookup_take_lt _ (Z.to_nat (k + 1))) by lia. rewrite Htk.
          rewrite lookup_take_lt by lia. unfold aset.
          apply list_lookup_insert_eq. lia. }
        rewrite (drop_S _ _ _ Hk2). simpl. f_equal.
        replace (S (Z.to_nat k)) with (Z.to_nat (k + 1)) by lia. done.
    + rewrite (Hfalse eq_refl).
      rewrite rd_Ok by (by apply (static_node_dom nc nu rw)). rewrite bind_Ok.
      fold (fL g2 x). rewrite Huo, bind_Ok.
      destruct Hcfg as (C1 & C2 & C3 & C4 & C5 & C6).
      destruct Hcfgb as (D1 & D2 & D3 & D4 & D5 & D6).
      destruct (IHr (with_nodes g1 s2) r2)
        as (b & s' & r' & Hrun' & Hfound' & Hcfg' & Hnone');
        [intros y Hy; apply Hin; set_solver|done|cbn; congruence|cbn; congruence|
         cbn; lia|cbn; congruence|].
      exists b, s', r'. split; [done|]. split; [|split].
      * destruct Hfound' as (Htk2 & Hdr2 & Hfalse2 & Htrue2).
        cbn [solution with_nodes] in Htk2, Hdr2.
        split_and!; [congruence|congruence|done|done].
      * apply (same_config_trans _ (with_nodes g1 s2)); [|done].
        split_and!; cbn; congruence.
      * intros Hb R y Hcov [->|Hy]%elem_of_cons; [|by apply (Hnone' Hb R y)].
        intros HxR. apply (Hnone eq_refl (R ∖ {[frow g x]})).
        by apply (covers_remove cells nc nr hs hs2).
Qed.

Lemma search_random f : search_random_spec cells nc nr nu rw lf depth f.
Proof.
  induction f as [|f IH];
    intros hs vl g s k r Hlen Hwf Hn Hroot Hmode Hk Hsz Hbuf;
    [simpl in Hlen; lia|].
  pose proof (wf_static _ _ _ _ _ _ _ _ Hwf) as Hs.
  pose proof (wf_horiz _ _ _ _ _ _ _ _ Hwf) as Hh.
  pose proof (wf_vert _ _ _ _ _ _ _ _ Hwf) as Hv.
  pose proof (st_bounds _ _ _ _ Hs) as (Hb1 & Hb2 & Hb3).
  pose proof (depth_nonneg hs) as Hd0.
  cbn [search].
  rewrite (proj2 (Z.leb_le 0 k)) by lia.
  rewrite (proj2 (Z.ltb_lt k (solution_size s))) by lia.
  cbn [andb c_assert]. rewrite bind_Ok. rewrite Hn, Hroot.
  rewrite rd_Ok by (apply (st_dom _ _ _ _ Hs); lia). rewrite bind_Ok.
  fold (fR g nc). pose proof (dy_hring _ _ _ Hh) as Hring. unfold ring in Hring.
  destruct hs as [|h t].
  - simpl in Hring. rewrite Hring, Z.eqb_refl.
    cbn [mode solution_count with_solution_count]. rewrite Hmode.
    cbn [dlx_mode_eqb orb andb].
    eexists _, _, _. split; [done|]. split; [|split; [by split_and!|done]].
    split_and!; [done|done|done|]. intros _. exists []. split_and!.
    + by rewrite depth_nil.
    + apply NoDup_nil_2.
    + by apply covers_leaf.
    + done.
  - destruct Hring as (Hfr & Hne & Hseg). rewrite Hfr.
    rewrite (proj2 (Z.eqb_neq _ _)) by done.
    assert (Hdomh : ∀ c, c ∈ h :: t → is_Some (g !! c)).
    { intros c Hc%(dy_hhead _ _ _ Hh). apply (st_dom _ _ _ _ Hs).
      unfold is_header in Hc. lia. }
    rewrite rd_Ok by (apply Hdomh; set_solver). rewrite bind_Ok.
    fold (fR g h) (fcount g h).
    destruct (choose_column_run g nc t lf h (fcount g h) (fR g h))
      as (col & Hch & Hcol); [done|intros c Hc; apply Hdomh; set_solver| |].
    { pose proof (length_nodup_range (h :: t) (-1) nc (dy_hnodup _ _ _ Hh)) as Hl.
      assert (Hr : ∀ c, c ∈ h :: t → -1 < c < nc).
      { intros c Hc%(dy_hhead _ _ _ Hh). unfold is_header in Hc. lia. }
      specialize (Hl Hr). simpl in Hl. lia. }
    rewrite Hch, bind_Ok.
    assert (Hcolin : col ∈ h :: t) by set_solver.
    pose proof (dy_hhead _ _ _ Hh col Hcolin) as Hcolh.
    destruct (cover_wfs cells nc nr nu rw (h :: t) vl g col lf Hwf Hcolin Hlf)
      as (g1 & vl1 & Hcov & Hunc & Hwf1 & Hvl1 & Hrow1 & HC1).
    rewrite Hcov, bind_Ok. cbn [nodes with_nodes].
    pose proof (wf_static _ _ _ _ _ _ _ _ Hwf1) as Hs1.
    pose proof (wf_vert _ _ _ _ _ _ _ _ Hwf1) as Hv1.
    rewrite rd_Ok by (apply (st_dom _ _ _ _ Hs1); unfold is_header in Hcolh; lia).
    rewrite bind_Ok. fold (fcount g1 col) (fD g1 col).
    rewrite (dy_count _ _ _ _ Hv1 col Hcolh), Hvl1.
    assert (Hlen' : (length (h :: t) ≤ f)%nat) by (simpl in Hlen |- *; lia).
    assert (Htry : ∃ b s' r',
      (if 0 <? Z.of_nat (length (vl col)) then
         collect_rows lf g1 col (Z.of_nat (length (vl col))) 0 (fD g1 col) ≫=
         λ rows,
           let '(rows0, r0) :=
             match mode (with_nodes g1 s) with
             | DLX_RANDOM =>
                 shuffle
                   (rows ++ replicate (Z.to_nat (Z.of_nat (length (vl col)))
                                       - length rows) NULL)
                   (Z.of_nat (length (vl col))) r
             | DLX_UNIQUE =>
                 (rows ++ replicate (Z.to_nat (Z.of_nat (length (vl col)))
                                     - length rows) NULL, r)
             end in
           try_rows (search f lf) lf rows0 (with_nodes g1 s) k r0
       else Ok (false, with_nodes g1 s, r)) = Ok (b, s', r') ∧
      found cells nc nr depth (h :: t) g1 k s b s' ∧ same_config s s' ∧
      (b = false → ∀ R, ¬ covers cells nc nr (λ c, c ∈ h :: t) R)).
    { destruct (vl col) as [|x0 rest] eqn:Evl.
      - cbn [length Z.of_nat Z.ltb Z.compare].
        exists false, (with_nodes g1 s), r. split; [done|].
        split; [by split_and!|]. split; [by split_and!|].
        intros _ R HR.
        destruct (enum_complete cells nc nr nu rw (h :: t) vl g col R Hwf Hcolin HR)
          as (x & Hx & _).
        rewrite Evl in Hx. by apply elem_of_nil in Hx.
      - rewrite (proj2 (Z.ltb_lt _ _)) by (simpl; lia).
        rewrite (collect_rows_run g1 col (x0 :: rest)); [| | | |lia].
        + rewrite bind_Ok. rewrite Nat2Z.id, Nat.sub_diag.
          cbn [replicate]. rewrite app_nil_r. cbn [mode with_nodes]. rewrite Hmode.
          destruct (shuffle (x0 :: rest) (Z.of_nat (length (x0 :: rest))) r)
            as [rows' r1] eqn:Esh.
          pose proof (ShuffleFacts.shuffle_prefix_perm (x0 :: rest)
                        (Z.of_nat (length (x0 :: rest))) r ltac:(lia))
            as [Hl1 Hperm].
          rewrite Esh in Hl1, Hperm. cbn [fst] in Hl1, Hperm.
          rewrite Nat2Z.id in Hperm. rewrite <- Hl1 in Hperm at 1.
          rewrite !firstn_all in Hperm.
          destruct (try_rows_random f (h :: t) vl g col g1 vl1 k IH Hlen' Hwf
                      Hcolin Hwf1 Hrow1 HC1 Hk rows' (with_nodes g1 s) r1)
            as (b & s' & r' & Hrun & Hfound & Hcfg & Hnone); try done.
          { intros y Hy. rewrite Evl. by rewrite <- Hperm. }
          exists b, s', r'. split_and!; [done..|].
          intros Hb R HR.
          destruct (enum_complete cells nc nr nu rw (h :: t) vl g col R Hwf Hcolin HR)
            as (x & Hx & HxR).
          apply (Hnone Hb R x HR); [|done].
          rewrite Hperm. by rewrite <- Evl.
        + rewrite <- Hvl1. apply (dy_vring _ _ _ _ Hv1 col Hcolh).
        + intros y Hy. apply (static_node_dom nc nu rw g1); [done|].
          rewrite <- Hvl1 in Hy. by apply (dy_vnode _ _ _ _ Hv1 col y Hcolh).
        + pose proof (vert_length nc nu rw vl g col Hs Hv Hcolh) as Hl.
          rewrite Evl in Hl. lia. }
    destruct Htry as (b & s' & r' & -> & Hfound & Hcfg & Hnone).
    rewrite bind_Ok. cbv beta iota.
    destruct Hfound as (Htk & Hdr & Hfalse & Htrue).
    destruct b.
    + exists true, s', r'. split; [done|]. split; [|done]. by split_and!.
    + rewrite (Hfalse eq_refl), Hunc, bind_Ok.
      exists false, (with_nodes g s'), r'. split; [done|]. split; [|split].
      * split_and!; done.
      * destruct Hcfg as (C1 & C2 & C3 & C4 & C5 & C6). by split_and!.
      * done.
Qed.

End search.

End SearchRandom.

(** * [solver_run] in find-any mode *)

Module RandomMode.
Import Util Solver Dlx InitSpec ExactCover.
Import CoverUncover SearchStates CoverSets SearchUnique SearchRandom.

Lemma clear_solution_spec buf n :
  0 ≤ n ≤ Z.of_nat (length buf) →
  clear_solution buf n =
    Ok (replicate (Z.to_nat n) (-1) ++ drop (Z.to_nat n) buf).
Proof.
  intros Hn. unfold clear_solution, for_range.
  assert (H : ∀ m i (b : list Z), (i + m ≤ length b)%nat →
            for_loop m (Z.of_nat i)
              (λ i b, if i <? Z.of_nat (length b) then Ok (aset b i (-1))
                      else Err OutOfBounds) b =
            Ok (take i b ++ replicate m (-1) ++ drop (i + m) b)).
  { induction m as [|m IH]; intros i b Hm.
    - simpl. rewrite Nat.add_0_r. by rewrite take_drop.
    - rewrite for_loop_S. rewrite (proj2 (Z.ltb_lt _ _)) by lia. rewrite bind_Ok.
      replace (Z.of_nat i + 1) with (Z.of_nat (S i)) by lia.
      rewrite IH by (rewrite SudokuLoop.length_aset; lia). f_equal.
      unfold aset. rewrite Nat2Z.id.
      rewrite (take_S_r _ _ (-1)) by (apply list_lookup_insert_eq; lia).
      rewrite take_insert_ge by lia. rewrite drop_insert_lt by lia.
      replace (i + S m)%nat with (S i + m)%nat by lia. by rewrite <- app_assoc. }
  specialize (H (Z.to_nat n) 0%nat buf). rewrite Z.sub_0_r.
  change (Z.of_nat 0) with 0 in H. rewrite H by lia. done.
Qed.

(** [solver_run] in find-any mode from a state of the search, when every
    row that is taken lowers [depth] by exactly one. *)
Lemma solver_run_random cells nc nr nu rw hs vl s0 fuel depth buf n r :
  wfs cells nc nr nu rw hs vl (nodes s0) → root s0 = nc →
  nu ≤ Z.of_nat fuel →
  depth [] = 0 → (∀ hs, 0 ≤ depth hs) →
  (∀ hs hs2 r,
     NoDup hs → NoDup hs2 →
     (∃ c, hits cells nc nr r c) → row_in cells nc nr hs r →
     (∀ c, c ∈ hs2 ↔ c ∈ hs ∧ ¬ hits cells nc nr r c) →
     depth hs2 + 1 = depth hs) →
  depth hs < n ≤ Z.of_nat (length buf) →
  ∃ b s' r',
    solver_run fuel s0 DLX_RANDOM buf n r = Ok (b, s', r') ∧
    (b = true →
     ∃ path : list Z,
       Z.of_nat (length path) = depth hs ∧ NoDup path ∧
       covers cells nc nr (λ c, c ∈ hs) (list_to_set path) ∧
       solution s' = path ++ replicate (Z.to_nat (n - depth hs)) (-1)
                          ++ drop (Z.to_nat n) buf) ∧
    (b = false →
     nodes s' = nodes s0 ∧ ∀ R, ¬ covers cells nc nr (λ c, c ∈ hs) R).
Proof.
  intros Hwf Hroot Hlf Hdnil Hd0 Hdstep Hbuf.
  pose proof (wf_static _ _ _ _ _ _ _ _ Hwf) as Hs.
  pose proof (wf_horiz _ _ _ _ _ _ _ _ Hwf) as Hh.
  pose proof (st_bounds _ _ _ _ Hs) as (Hb1 & Hb2 & Hb3).
  pose proof (Hd0 hs) as Hdhs.
  assert (Hlen : Z.of_nat (length hs) ≤ nc).
  { pose proof (length_nodup_range hs (-1) nc (dy_hnodup _ _ _ Hh)) as Hl.
    assert (Hr : ∀ c, c ∈ hs → -1 < c < nc).
    { intros c Hc%(dy_hhead _ _ _ Hh). unfold is_header in Hc. lia. }
    specialize (Hl Hr). lia. }
  unfold solver_run. rewrite clear_solution_spec by lia. rewrite bind_Ok. cbv zeta.
  set (buf' := replicate _ _ ++ _).
  assert (Hlen' : length buf' = length buf).
  { unfold buf'. rewrite length_app, length_replicate, length_drop. lia. }
  set (s1 := mk_solver _ _ _ _ _ _ _ _).
  destruct (search_random cells nc nr nu rw fuel depth Hlf Hdnil Hd0 Hdstep
              fuel hs vl (nodes s0) s1 0 r)
    as (b & s' & r' & Hrun & (Htk & Hdr & Hfalse & Htrue) & Hcfg & Hnone);
    [lia|done|done|done|done|lia|cbn; lia|cbn; lia|].
  rewrite Hrun, bind_Ok. cbv beta iota.
  destruct Hcfg as (_ & -> & _). cbn [mode s1].
  exists b, s', r'. split; [done|]. split; [|by intros Hb; split; auto].
  intros Hb.
  destruct (Htrue Hb) as (path & Hpl & Hpnd & Hpc & Hpt).
  exists path. split_and!; [done|done|done|].
  cbn [solution s1] in Hdr. change (Z.to_nat 0) with 0%nat in Hpt.
  rewrite drop_0 in Hpt.
  rewrite <- (take_drop (length path) (solution s')). rewrite Hpt. f_equal.
  replace (length path) with (Z.to_nat (0 + depth hs)) by lia. rewrite Hdr.
  unfold buf'. rewrite drop_app_le by (rewrite length_replicate; lia).
  rewrite drop_replicate. do 2 f_equal. lia.
Qed.

End RandomMode.

(** * Indices of cells, rows and columns *)

Module SudokuIndex.
Import Util Solver Sudoku InitSpec ExactCover SudokuSpec SudokuLoop.

Ltac qlia := Z.to_euclidean_division_equations; lia.

Ltac unfold_idx :=
  unfold cellv, in_grid, same_unit, DLX_ROW, DLX_COL1, DLX_COL2, DLX_COL3, DLX_COL4,
    DLX_CELL_IDX, DLX_X, DLX_Y, DLX_V, GRID_IDX, GRID_X, GRID_Y, SEC_IDX,
    DLX_MAX_COLS, DLX_MAX_ROWS, GRID_SIZE, SUDOKU_SIZE in *.

Lemma loop_ind {St} (P : Z → St → Prop) n (body : Z → St → St) s :
  0 ≤ n → P 0 s → (∀ i s, 0 ≤ i < n → P i s → P (i + 1) (body i s)) →
  P n (loop n body s).
Proof.
  intros Hn Hs Hb.
  assert (H : ∀ k : nat, Z.of_nat k ≤ n →
            P (Z.of_nat k) (loop (Z.of_nat k) body s)).
  { induction k as [|k IH]; intros Hk; [done|].
    rewrite Nat2Z.inj_succ, <- Z.add_1_r, loop_succ by lia. apply Hb; [lia|].
    apply IH. lia. }
  specialize (H (Z.to_nat n)). rewrite Z2Nat.id in H by lia. apply H. lia.
Qed.

Lemma grid_xy x y :
  in_grid x y → GRID_X (GRID_IDX x y) = x ∧ GRID_Y (GRID_IDX x y) = y ∧
                0 ≤ GRID_IDX x y < 81.
Proof. unfold_idx. intros. qlia. Qed.

Lemma grid_idx i :
  0 ≤ i < 81 → in_grid (GRID_X i) (GRID_Y i) ∧ GRID_IDX (GRID_X i) (GRID_Y i) = i.
Proof. unfold_idx. intros. qlia. Qed.

Lemma grid_idx_inj x y x' y' :
  in_grid x y → in_grid x' y' → GRID_IDX x y = GRID_IDX x' y' → x = x' ∧ y = y'.
Proof. unfold_idx. intros. lia. Qed.

Lemma sec_range x y : in_grid x y → 0 ≤ SEC_IDX x y < 9.
Proof. unfold_idx. intros. qlia. Qed.

Lemma row_decode v x y :
  0 ≤ v < 9 → in_grid x y →
  DLX_X (DLX_ROW v x y) = x ∧ DLX_Y (DLX_ROW v x y) = y ∧
  DLX_V (DLX_ROW v x y) = v + 1 ∧ 0 ≤ DLX_ROW v x y < 729.
Proof. unfold_idx. intros. qlia. Qed.

Lemma row_inj v x y v' x' y' :
  0 ≤ v < 9 → in_grid x y → 0 ≤ v' < 9 → in_grid x' y' →
  DLX_ROW v x y = DLX_ROW v' x' y' → v = v' ∧ x = x' ∧ y = y'.
Proof. unfold_idx. intros. lia. Qed.

Lemma col_ranges v x y :
  0 ≤ v < 9 → in_grid x y →
  0 ≤ DLX_COL1 v x y < 81 ∧ 81 ≤ DLX_COL2 v x y < 162 ∧
  162 ≤ DLX_COL3 v x y < 243 ∧ 243 ≤ DLX_COL4 v x y < 324.
Proof. unfold_idx. intros. qlia. Qed.

Lemma col1_inj v x y v' x' y' :
  in_grid x y → in_grid x' y' → DLX_COL1 v x y = DLX_COL1 v' x' y' →
  x = x' ∧ y = y'.
Proof. unfold_idx. intros. lia. Qed.

Lemma col2_inj v x y v' x' y' :
  0 ≤ v < 9 → 0 ≤ v' < 9 → in_grid x y → in_grid x' y' →
  DLX_COL2 v x y = DLX_COL2 v' x' y' → v = v' ∧ y = y'.
Proof. unfold_idx. intros. lia. Qed.

Lemma col3_inj v x y v' x' y' :
  0 ≤ v < 9 → 0 ≤ v' < 9 → in_grid x y → in_grid x' y' →
  DLX_COL3 v x y = DLX_COL3 v' x' y' → v = v' ∧ x = x'.
Proof. unfold_idx. intros. lia. Qed.

Lemma col4_inj v x y v' x' y' :
  0 ≤ v < 9 → 0 ≤ v' < 9 → in_grid x y → in_grid x' y' →
  DLX_COL4 v x y = DLX_COL4 v' x' y' → v = v' ∧ SEC_IDX x y = SEC_IDX x' y'.
Proof. unfold_idx. intros. qlia. Qed.

Lemma cell_idx_inj r c r' c' :
  0 ≤ c < 324 → 0 ≤ c' < 324 →
  DLX_CELL_IDX r c = DLX_CELL_IDX r' c' → r = r' ∧ c = c'.
Proof. unfold_idx. intros. lia. Qed.

(** The cells of a section, as [get_section_idxs] lists them. *)
Lemma section_cells sec j :
  0 ≤ sec < 9 → 0 ≤ j < 9 →
  ∃ x y, in_grid x y ∧ SEC_IDX x y = sec ∧
         aget (get_section_idxs sec) j = GRID_IDX x y.
Proof.
  intros Hs Hj. exists (Z.rem sec 3 * 3 + Z.rem j 3), (Z.quot sec 3 * 3 + Z.quot j 3).
  split_and!.
  - unfold_idx. qlia.
  - unfold_idx. qlia.
  - unfold get_section_idxs, aget.
    rewrite list_lookup_fmap. rewrite lookup_seqZ_lt by (unfold SUDOKU_SIZE; lia).
    simpl. rewrite Z2Nat.id by lia. done.
Qed.

Lemma section_index x y :
  in_grid x y →
  ∃ j, 0 ≤ j < 9 ∧ aget (get_section_idxs (SEC_IDX x y)) j = GRID_IDX x y.
Proof.
  intros Hxy. exists (Z.rem y 3 * 3 + Z.rem x 3). split; [unfold_idx; qlia|].
  unfold get_section_idxs, aget.
  rewrite list_lookup_fmap.
  rewrite lookup_seqZ_lt by (unfold_idx; qlia).
  simpl. rewrite Z2Nat.id by (unfold_idx; qlia). unfold_idx. qlia.
Qed.

End SudokuIndex.

(** * The masks of used digits *)

Module Masks.
Import Util Solver Sudoku InitSpec ExactCover SudokuSpec SudokuLoop SudokuIndex.

Lemma testbit_one k : Z.testbit 1 k = (k =? 0).
Proof. by destruct k. Qed.

Lemma bit_shift v d : 0 ≤ d → Z.testbit (Z.shiftl 1 v) d = (d =? v).
Proof.
  intros Hd. rewrite Z.shiftl_spec by done. rewrite testbit_one.
  destruct (Z.eqb_spec (d - v) 0), (Z.eqb_spec d v); lia || done.
Qed.

Lemma land_bit a k :
  0 ≤ k → (Z.land a (Z.shiftl 1 k) =? 0) = negb (Z.testbit a k).
Proof.
  intros Hk. destruct (Z.testbit a k) eqn:E; simpl.
  - apply Z.eqb_neq. intros H.
    assert (Hb : Z.testbit (Z.land a (Z.shiftl 1 k)) k = true).
    { rewrite Z.land_spec, E, bit_shift by done. by rewrite Z.eqb_refl. }
    rewrite H in Hb. by rewrite Z.bits_0 in Hb.
  - apply Z.eqb_eq. apply Z.bits_inj'. intros n Hn.
    rewrite Z.land_spec, bit_shift, Z.bits_0 by done.
    destruct (Z.eqb_spec n k) as [->|]; [by rewrite E|by rewrite andb_false_r].
Qed.

Lemma mask_ok_init m i f :
  0 ≤ i < Z.of_nat (length m) → mask_ok (aset m i 0) i 0 f.
Proof.
  intros Hi d Hd. rewrite aget_aset_eq by done. rewrite Z.bits_0. split; [done|].
  intros (j & ? & _). lia.
Qed.

Lemma mask_ok_step m i n f :
  0 ≤ i < Z.of_nat (length m) → 0 ≤ n → mask_ok m i n f →
  mask_ok (aset m i (Z.lor (aget m i) (Z.shiftl 1 (f n)))) i (n + 1) f.
Proof.
  intros Hi Hn H d Hd. rewrite aget_aset_eq by done.
  rewrite Z.lor_spec, bit_shift by done. rewrite orb_true_iff, (H d Hd), Z.eqb_eq.
  split.
  - intros [(j & ? & ?)|E]; [exists j; split; [lia|done]|exists n; split; [lia|done]].
  - intros (j & ? & ?). destruct (decide (j = n)) as [->|]; [by right|].
    left. exists j. split; [lia|done].
Qed.

Lemma mask_ok_frame m i i' v n f :
  0 ≤ i → 0 ≤ i' → i ≠ i' → mask_ok m i' n f → mask_ok (aset m i v) i' n f.
Proof. intros Hi Hi' Hne H d Hd. rewrite aget_aset_ne by done. by apply H. Qed.


(** [get_masks]: bit [d] of a mask is set when the digit [d] stands in the
    row, the column or the section. *)
Lemma get_masks_spec g rm cm sm :
  get_masks g = (rm, cm, sm) →
  ∀ i, 0 ≤ i < 9 →
    mask_ok rm i 9 (λ j, cellv g j i) ∧ mask_ok cm i 9 (λ j, cellv g i j) ∧
    mask_ok sm i 9 (λ j, aget g (aget (get_section_idxs i) j)).
Proof.
  unfold get_masks. intros E.
  pose (ok3 := λ (st : list Z * list Z * list Z) (i n : Z),
          mask_ok st.1.1 i n (λ j, cellv g j i) ∧
          mask_ok st.1.2 i n (λ j, cellv g i j) ∧
          mask_ok st.2 i n (λ j, aget g (aget (get_section_idxs i) j))).
  pose (len3 := λ st : list Z * list Z * list Z,
          length st.1.1 = 9%nat ∧ length st.1.2 = 9%nat ∧ length st.2 = 9%nat).
  match type of E with loop _ ?b ?s0 = _ =>
    assert (H : len3 (loop SUDOKU_SIZE b s0) ∧
                ∀ i', 0 ≤ i' < SUDOKU_SIZE → ok3 (loop SUDOKU_SIZE b s0) i' 9)
  end.
  { clear E. apply (loop_ind (λ i st, len3 st ∧ ∀ i', 0 ≤ i' < i → ok3 st i' 9));
      [done| |].
    { split; [done|]. intros; lia. }
    intros i [[r c] s] Hi [(L1 & L2 & L3) Hprev]. cbn [fst snd] in *.
    unfold SUDOKU_SIZE in Hi. cbv beta iota zeta.
    match goal with |- context [loop _ ?b ?s0] =>
      assert (Hin : len3 (loop SUDOKU_SIZE b s0) ∧
                    (∀ i', 0 ≤ i' < i → ok3 (loop SUDOKU_SIZE b s0) i' 9) ∧
                    ok3 (loop SUDOKU_SIZE b s0) i SUDOKU_SIZE)
    end.
    { apply (loop_ind (λ j st, len3 st ∧ (∀ i', 0 ≤ i' < i → ok3 st i' 9) ∧
                               ok3 st i j)); [done| |].
      - unfold len3; split_and!; cbn [fst snd]; rewrite ?length_aset; try done.
        + intros i' Hi'. destruct (Hprev i' Hi') as (A & B & C).
          split_and!; cbn [fst snd]; apply mask_ok_frame; try done; lia.
        + split_and!; cbn [fst snd]; apply mask_ok_init; lia.
      - intros j [[r1 c1] s1] Hj ((M1 & M2 & M3) & Hprev1 & (A & B & C)).
        cbn [fst snd] in *. unfold SUDOKU_SIZE in Hj.
        unfold len3; split_and!; cbn [fst snd]; rewrite ?length_aset; try done.
        + intros i' Hi'. destruct (Hprev1 i' Hi') as (A' & B' & C').
          split_and!; cbn [fst snd]; apply mask_ok_frame; try done; lia.
        + split_and!; cbn [fst snd].
          * apply (mask_ok_step r1 i j (λ j, cellv g j i)); [lia|lia|done].
          * apply (mask_ok_step c1 i j (λ j, cellv g i j)); [lia|lia|done].
          * apply (mask_ok_step s1 i j
                     (λ j, aget g (aget (get_section_idxs i) j))); [lia|lia|done]. }
    destruct Hin as (Hl & Hp & Hc). split; [done|].
    intros i' Hi'. destruct (decide (i' = i)) as [->|]; [done|]. apply Hp. lia. }
  rewrite E in H. destruct H as [_ H]. intros i Hi. by apply (H i).
Qed.


Lemma net_mask_used g rm cm sm x y v :
  get_masks g = (rm, cm, sm) → in_grid x y → 0 ≤ v < 9 →
  (Z.land (Z.lor (Z.lor (aget rm y) (aget cm x)) (aget sm (SEC_IDX x y)))
          (Z.shiftl 1 (v + 1)) =? 0) = true ↔ ¬ used g (v + 1) x y.
Proof.
  intros E Hxy Hv. pose proof (sec_range x y Hxy) as Hsec.
  destruct Hxy as [Hx Hy].
  destruct (get_masks_spec g rm cm sm E y Hy) as (Hr & _ & _).
  destruct (get_masks_spec g rm cm sm E x Hx) as (_ & Hc & _).
  destruct (get_masks_spec g rm cm sm E _ Hsec) as (_ & _ & Hs).
  clear E. rewrite land_bit by lia. rewrite negb_true_iff, <- not_true_iff_false.
  rewrite !Z.lor_spec, !orb_true_iff.
  rewrite (Hr (v + 1)), (Hc (v + 1)), (Hs (v + 1)) by lia.
  apply not_iff_compat. split.
  - intros [[(j & Hj & E1)|(j & Hj & E1)]|(j & Hj & E1)].
    + exists j, y. split; [unfold in_grid; lia|]. split; [left; reflexivity|exact E1].
    + exists x, j. split; [unfold in_grid; lia|].
      split; [right; left; reflexivity|exact E1].
    + destruct (section_cells (SEC_IDX x y) j Hsec Hj) as (x' & y' & Hin & Es & Ei).
      exists x', y'. split; [exact Hin|]. split.
      * right; right. symmetry. exact Es.
      * unfold cellv. rewrite <- Ei. exact E1.
  - intros (x' & y' & [Hx' Hy'] & [->|[->|Es]] & E1).
    + left. left. exists x'. split; [lia|exact E1].
    + left. right. exists y'. split; [lia|exact E1].
    + right. destruct (section_index x' y') as (j & Hj & Ej); [split; lia|].
      exists j. split; [lia|]. rewrite Es, Ej. exact E1.
Qed.

End Masks.

(** * The states a search can reach, read off the matrix *)

Module ReachStates.
Import Util Solver Dlx InitSpec ExactCover Views.
Import SegFacts CoverUncover RoundTrip SearchStates SearchUnique InitState.

Lemma filter_notin_cons (c : Z) (st hs : list Z) :
  filter (λ x, x ∉ [c]) (filter (λ x, x ∉ st) hs) = filter (λ x, x ∉ c :: st) hs.
Proof.
  induction hs as [|h hs IH]; [done|].
  rewrite !filter_cons. destruct (decide (h ∉ st)) as [H1|H1].
  - rewrite filter_cons. destruct (decide (h ∉ [c])) as [H2|H2].
    + rewrite decide_True by set_solver. by rewrite IH.
    + rewrite decide_False by set_solver. done.
  - rewrite decide_False by set_solver. done.
Qed.

Lemma header_list nc nu rw hs g :
  static nc nu rw g → horiz nc hs g → live_columns g nc = hs.
Proof.
  intros Hs Hh. unfold live_columns. apply walk_seg; [by apply (dy_hring _ _ _ Hh)|].
  pose proof (size_lower_bound nc nu rw g Hs) as Hsz.
  pose proof (st_bounds _ _ _ _ Hs) as (Hb1 & Hb2 & Hb3).
  pose proof (length_nodup_range hs (-1) nc (dy_hnodup _ _ _ Hh)) as Hlen.
  assert (Hr : ∀ x, x ∈ hs → -1 < x < nc).
  { intros x Hx%(dy_hhead _ _ _ Hh). unfold is_header in Hx. lia. }
  specialize (Hlen Hr). lia.
Qed.

Lemma column_nodes_vl nc nu rw vl g c :
  static nc nu rw g → vert nc nu vl g → is_header nc c →
  column_nodes g c = vl c.
Proof.
  intros Hs Hv Hc. unfold column_nodes.
  apply walk_seg; [by apply (dy_vring _ _ _ _ Hv)|].
  pose proof (size_lower_bound nc nu rw g Hs).
  pose proof (vert_length nc nu rw vl g c Hs Hv Hc). lia.
Qed.

Section reach_states.
Variables (cells : gmap Z bool) (nc nr nu : Z) (rw : Z → list Z).
Variables (fuel : nat) (s0 : solver).
Hypothesis Hroot : root s0 = nc.
Hypothesis Hfuel : (size (nodes s0) ≤ fuel)%nat.

Lemma wfs_wf hs vl g :
  wfs cells nc nr nu rw hs vl g →
  ∃ hs vl, static nc nu rw g ∧ dynamic nc nu rw hs vl g.
Proof. intros [Hs Hh Hv Hl _]. by exists hs, vl. Qed.

(** A stack [st] of covers leaves a state of the search on the same
    matrix, with the columns of [st] gone from the header list. *)
Lemma covered_wfs hs0 vl0 st g :
  wfs cells nc nr nu rw hs0 vl0 (nodes s0) →
  covered fuel s0 st g →
  ∃ vl, wfs cells nc nr nu rw (filter (λ c, c ∉ st) hs0) vl g ∧
        (∀ x, frow g x = frow (nodes s0) x) ∧
        (∀ x, fC g x = fC (nodes s0) x).
Proof.
  intros Hwf0. induction 1 as [|st g c g' Hcov IH Hc Hrun].
  - exists vl0. split; [|done].
    rewrite filter_all; [done|]. intros x _. set_solver.
  - destruct IH as (vl & Hwf & Hrow & HC).
    pose proof (wf_static _ _ _ _ _ _ _ _ Hwf) as Hs.
    pose proof (wf_horiz _ _ _ _ _ _ _ _ Hwf) as Hh.
    rewrite Hroot in Hc. erewrite live_columns_hs in Hc by eauto.
    assert (Hf : nu ≤ Z.of_nat fuel).
    { pose proof (size_lower_bound nc nu rw _ (wf_static _ _ _ _ _ _ _ _ Hwf0)). lia. }
    destruct (cover_wfs cells nc nr nu rw _ vl g c fuel Hwf Hc Hf)
      as (g1 & vl1 & Hrun1 & _ & Hwf1 & _ & Hrow1 & HC1).
    rewrite Hrun in Hrun1. injection Hrun1 as <-.
    exists vl1. rewrite filter_notin_cons in Hwf1. split; [done|].
    split; intros x; [by rewrite Hrow1|by rewrite HC1].
Qed.

Lemma reach_wfs hs0 vl0 st g :
  wfs cells nc nr nu rw hs0 vl0 (nodes s0) →
  reach fuel s0 st g →
  ∃ vl, wfs cells nc nr nu rw (filter (λ c, c ∉ st) hs0) vl g ∧
        (∀ x, frow g x = frow (nodes s0) x) ∧
        (∀ x, fC g x = fC (nodes s0) x).
Proof.
  intros Hwf0 Hr. apply (covered_wfs hs0 vl0); [done|].
  eapply reach_covered; eauto. by apply (wfs_wf hs0 vl0).
Qed.

(** The list of a live column holds one node for each row that has a 1 in
    the column and all its 1s in live columns. *)
Lemma column_rows hs vl g c :
  wfs cells nc nr nu rw hs vl g → c ∈ hs →
  NoDup (frow g <$> vl c) ∧
  (∀ r, r ∈ frow g <$> vl c ↔
        hits cells nc nr r c ∧ row_in cells nc nr hs r) ∧
  fcount g c = Z.of_nat (length (frow g <$> vl c)).
Proof.
  intros Hwf Hc.
  pose proof (wf_static _ _ _ _ _ _ _ _ Hwf) as Hs.
  pose proof (wf_horiz _ _ _ _ _ _ _ _ Hwf) as Hh.
  pose proof (wf_vert _ _ _ _ _ _ _ _ Hwf) as Hv.
  pose proof (wf_repr _ _ _ _ _ _ _ _ Hwf) as [Hrep1 Hrep2].
  pose proof (dy_hhead _ _ _ Hh c Hc) as Hch.
  split_and!.
  - apply NoDup_fmap_2_strong; [|by apply (dy_vnodup _ _ _ _ Hv)].
    intros x y Hx Hy E.
    destruct (column_member cells nc nr nu rw hs vl g c x Hwf Hc Hx) as (Hxn & Hxc & _).
    destruct (column_member cells nc nr nu rw hs vl g c y Hwf Hc Hy) as (Hyn & Hyc & _).
    apply (st_inj _ _ _ _ Hs); [done..|congruence].
  - intros r. rewrite list_elem_of_fmap. split.
    + intros (x & -> & Hx).
      destruct (column_member cells nc nr nu rw hs vl g c x Hwf Hc Hx)
        as (_ & _ & Hhit & Hin). done.
    + intros [Hhit Hin]. destruct (Hrep2 _ _ Hhit) as (x & Hxn & Hxr & Hxc).
      exists x. split; [done|].
      apply (column_list cells nc nr nu rw hs vl g c x Hwf Hc).
      split_and!; [done..|]. by rewrite Hxr.
  - rewrite length_fmap. by apply (dy_count _ _ _ _ Hv).
Qed.

End reach_states.

End ReachStates.

(** * The matrix of a grid *)

Module DlxCells.
Import Util Solver Sudoku InitSpec ExactCover SudokuSpec SudokuLoop.
Import SudokuIndex Masks.

Lemma insert_all_fresh (ks : list Z) :
  ∀ m : gmap Z bool,
    NoDup ks → (∀ k, k ∈ ks → m !! k = None) →
    size (foldl (λ m k, <[k:=true]> m) m ks) = (size m + length ks)%nat ∧
    ∀ j b, foldl (λ m k, <[k:=true]> m) m ks !! j = Some b ↔
           (j ∈ ks ∧ b = true) ∨ m !! j = Some b.
Proof.
  induction ks as [|k ks IH]; intros m Hnd Hfresh.
  - simpl. split; [lia|]. intros j b. split; [by right|].
    intros [[Hj _]|?]; [by apply elem_of_nil in Hj|done].
  - apply NoDup_cons in Hnd as [Hk Hnd]. cbn [foldl].
    destruct (IH (<[k:=true]> m) Hnd) as [Hsz Hlk].
    { intros k' Hk'. rewrite lookup_insert_ne by (intros ->; done).
      apply Hfresh. set_solver. }
    split.
    + rewrite Hsz, map_size_insert_None by (apply Hfresh; set_solver).
      simpl. lia.
    + intros j b. rewrite Hlk, lookup_insert_Some, elem_of_cons. split.
      * intros [[? ?]|[[-> ->]|[? ?]]]; [left; by split; [right|]|left; by split; [left|]|by right].
      * intros [[[->|?] ->]|Hj]; [right; by left|left; by split|].
        right. right. split; [|done]. intros ->.
        rewrite Hfresh in Hj by set_solver. done.
Qed.

Lemma cells_inv_ext g (Q Q' : Z → Z → Z → Prop) st :
  (∀ v x y, candidate g v x y → (Q v x y ↔ Q' v x y)) →
  cells_inv g Q st → cells_inv g Q' st.
Proof.
  intros HQ (H1 & H2 & H3). split_and!; [| |done].
  - intros k b Hk. destruct (H1 k b Hk) as (Hb & v & x & y & Hq & Hc & Hin).
    split; [done|]. exists v, x, y. split_and!; [|done..]. by apply HQ.
  - intros v x y c Hq Hc Hin. apply H2; [|done..]. by apply HQ.
Qed.

Lemma placement_columns_range v x y c :
  0 ≤ v < 9 → in_grid x y → c ∈ placement_columns v x y → 0 ≤ c < 324.
Proof.
  intros Hv Hxy Hc. pose proof (col_ranges v x y Hv Hxy) as (R1 & R2 & R3 & R4).
  unfold placement_columns in Hc.
  repeat (apply elem_of_cons in Hc as [->|Hc]; [lia|]). by apply elem_of_nil in Hc.
Qed.

Lemma placement_columns_nodup v x y :
  0 ≤ v < 9 → in_grid x y → NoDup (placement_columns v x y).
Proof.
  intros Hv Hxy. pose proof (col_ranges v x y Hv Hxy) as (R1 & R2 & R3 & R4).
  unfold placement_columns.
  repeat (apply NoDup_cons; split; [set_solver by lia|]). apply NoDup_nil_2.
Qed.

(** Two placements with a common matrix cell are the same placement. *)
Lemma idx_same v x y c v' x' y' c' :
  0 ≤ v < 9 → in_grid x y → 0 ≤ v' < 9 → in_grid x' y' →
  c ∈ placement_columns v x y → c' ∈ placement_columns v' x' y' →
  DLX_CELL_IDX (DLX_ROW v x y) c = DLX_CELL_IDX (DLX_ROW v' x' y') c' →
  v = v' ∧ x = x' ∧ y = y' ∧ c = c'.
Proof.
  intros Hv Hxy Hv' Hxy' Hc Hc' E.
  apply cell_idx_inj in E as [Er Ec];
    [|by apply (placement_columns_range v x y)
     |by apply (placement_columns_range v' x' y')].
  apply row_inj in Er as (-> & -> & ->); done.
Qed.

(** The same digit in two cells of one unit: the two placements have a
    column in common. *)
Lemma placements_share v x y x' y' :
  same_unit x y x' y' →
  ∃ c, c ∈ placement_columns v x y ∧ c ∈ placement_columns v x' y'.
Proof.
  intros [->|[->|E]].
  - exists (DLX_COL2 v x y'). split; [set_solver|].
    replace (DLX_COL2 v x y') with (DLX_COL2 v x' y') by done. set_solver.
  - exists (DLX_COL3 v x' y). split; [set_solver|].
    replace (DLX_COL3 v x' y) with (DLX_COL3 v x' y') by done. set_solver.
  - exists (DLX_COL4 v x y). split; [set_solver|].
    replace (DLX_COL4 v x y) with (DLX_COL4 v x' y')
      by (unfold DLX_COL4; by rewrite E).
    set_solver.
Qed.

(** A placement with the column of a cell fills that cell. *)
Lemma cell_column_placement v x y v' x' y' :
  0 ≤ v < 9 → in_grid x y → 0 ≤ v' < 9 → in_grid x' y' →
  DLX_COL1 v x y ∈ placement_columns v' x' y' → x' = x ∧ y' = y.
Proof.
  intros Hv Hxy Hv' Hxy' Hin.
  pose proof (col_ranges v x y Hv Hxy) as (R1 & _).
  pose proof (col_ranges v' x' y' Hv' Hxy') as (_ & R2 & R3 & R4).
  unfold placement_columns in Hin.
  repeat (apply elem_of_cons in Hin as [E|Hin]; [|]); try lia;
    [|by apply elem_of_nil in Hin].
  apply (col1_inj v x y v' x' y') in E as [-> ->]; done.
Qed.

(** The four cells of a candidate are set. *)
Lemma place_step g x y v (cells : gmap Z bool) count :
  candidate g v x y →
  cells_inv g (before x y v) (cells, count) →
  cells_inv g (before x y (v + 1))
    (foldl (λ m k, <[k:=true]> m) cells
       (DLX_CELL_IDX (DLX_ROW v x y) <$> placement_columns v x y), count + 4).
Proof.
  intros Hcand (H1 & H2 & H3). cbn [fst snd] in *.
  pose proof Hcand as (Hv & Hxy & _).
  set (ks := DLX_CELL_IDX (DLX_ROW v x y) <$> placement_columns v x y).
  destruct (insert_all_fresh ks cells) as [Hsz Hlk].
  { apply NoDup_fmap_2_strong; [|by apply placement_columns_nodup].
    intros c c' Hc Hc' E.
    by destruct (idx_same v x y c v x y c' Hv Hxy Hv Hxy Hc Hc' E) as (_&_&_&?). }
  { intros k (c & -> & Hc)%list_elem_of_fmap.
    destruct (cells !! _) as [b|] eqn:Ek; [|done]. exfalso.
    destruct (H1 _ _ Ek) as (_ & v' & x' & y' & Hq & Hc' & (c' & E & Hin)%list_elem_of_fmap).
    pose proof Hc' as (Hv' & Hxy' & _).
    destruct (idx_same v x y c v' x' y' c' Hv Hxy Hv' Hxy' Hc Hin E) as (-> & -> & -> & _).
    unfold before in Hq. lia. }
  split_and!; cbn [fst snd].
  - intros k b Hk. apply Hlk in Hk as [[Hk ->]|Hk].
    + split; [done|]. exists v, x, y. split_and!; [|done..]. unfold before. lia.
    + destruct (H1 k b Hk) as (Hb & v' & x' & y' & Hq & Hc' & Hin).
      split; [done|]. exists v', x', y'. split_and!; [|done..].
      unfold before in *. lia.
  - intros v' x' y' c Hq Hc' Hin. apply Hlk.
    destruct (decide (v' = v ∧ x' = x ∧ y' = y)) as [(-> & -> & ->)|Hne].
    + left. split; [|done]. apply list_elem_of_fmap. by exists c.
    + right. apply H2; [|done..]. unfold before in *. lia.
  - rewrite Hsz. unfold ks. rewrite length_fmap. simpl. lia.
Qed.

Section loops.
Variables (g : sudoku) (rm cm sm : list Z).
Hypothesis Hmasks : get_masks g = (rm, cm, sm).

Lemma digits_loop x y st :
  in_grid x y → cellv g x y = 0 →
  cells_inv g (before x y 0) st →
  cells_inv g (before x y 9) (loop 9 (place rm cm sm x y) st).
Proof.
  intros Hxy Hempty Hst.
  apply (loop_ind (λ v st, cells_inv g (before x y v) st)); [lia|done|].
  intros v [cells count] Hv Hinv. unfold place.
  pose proof (net_mask_used g rm cm sm x y v Hmasks Hxy Hv) as Hnet.
  destruct (Z.land _ _ =? 0) eqn:Etest.
  - assert (Hcand : candidate g v x y).
    { unfold candidate. split_and!; [lia|lia|done|done|]. by apply Hnet. }
    exact (place_step g x y v cells count Hcand Hinv).
  - apply (cells_inv_ext g (before x y v)); [|done].
    intros v' x' y' Hc. unfold before. split; [lia|].
    intros Hb. destruct (decide (v' = v ∧ x' = x ∧ y' = y)) as [(-> & -> & ->)|]; [|lia].
    exfalso. destruct Hc as (_ & _ & _ & Hnu).
    apply Hnet in Hnu. congruence.
Qed.

Lemma cells_loop x st :
  0 ≤ x < 9 →
  cells_inv g (before x 0 0) st →
  cells_inv g (before (x + 1) 0 0)
    (loop 9 (λ y acc, if aget g (GRID_IDX x y) =? 0
                      then loop 9 (place rm cm sm x y) acc else acc) st).
Proof.
  intros Hx Hst.
  apply (cells_inv_ext g (before x 9 0)).
  { intros v x' y' (Hv & [Hx' Hy'] & _). unfold before. lia. }
  apply (loop_ind (λ y st, cells_inv g (before x y 0) st)); [lia|done|].
  intros y acc Hy Hinv.
  destruct (aget g (GRID_IDX x y) =? 0) eqn:E.
  - apply Z.eqb_eq in E.
    apply (cells_inv_ext g (before x y 9)).
    { intros v x' y' (Hv & [Hx' Hy'] & _). unfold before. lia. }
    apply digits_loop; [by split|done|done].
  - apply Z.eqb_neq in E.
    apply (cells_inv_ext g (before x y 0)); [|done].
    intros v x' y' (Hv & [Hx' Hy'] & Hz & _). unfold before. split; [lia|].
    intros Hb. destruct (decide (x' = x ∧ y' = y)) as [[-> ->]|]; [|lia].
    exfalso. apply E. exact Hz.
Qed.

Lemma grid_loop :
  cells_inv g (λ _ _ _, True)
    (loop 9 (λ x acc,
        loop 9 (λ y acc, if aget g (GRID_IDX x y) =? 0
                         then loop 9 (place rm cm sm x y) acc else acc) acc)
       (∅, 0)).
Proof.
  apply (cells_inv_ext g (before 9 0 0)).
  { intros v x y (Hv & [Hx Hy] & _). unfold before. split; [done|lia]. }
  apply (loop_ind (λ x st, cells_inv g (before x 0 0) st)); [lia| |].
  - split_and!; cbn [fst snd].
    + intros k b Hk. by rewrite lookup_empty in Hk.
    + intros v x y c Hq (Hv & [Hx Hy] & _). unfold before in Hq. lia.
    + by rewrite map_size_empty.
  - intros x acc Hx Hinv. by apply cells_loop.
Qed.

End loops.

(** [get_dlx_cells]: the 1s of the matrix are the four cells of each
    candidate, and the count is their number. *)
Lemma get_dlx_cells_spec g cells count ncols nrows :
  get_dlx_cells g = (cells, count, ncols, nrows) →
  ncols = 324 ∧ nrows = 729 ∧ cells_inv g (λ _ _ _, True) (cells, count).
Proof.
  unfold get_dlx_cells. destruct (get_masks g) as [[rm cm] sm] eqn:E.
  pose proof (grid_loop g rm cm sm E) as H.
  unfold SUDOKU_SIZE.
  match goal with |- context [loop 9 ?b ?a] =>
    change (loop 9 b a) with
      (loop 9 (λ x acc,
        loop 9 (λ y acc, if aget g (GRID_IDX x y) =? 0
                         then loop 9 (place rm cm sm x y) acc else acc) acc)
       (∅, 0)) end.
  destruct (loop 9 _ _) as [cells' count']. clear E.
  intros [= <- <- <- <-]. split_and!; [reflexivity|reflexivity|exact H].
Qed.

End DlxCells.

(** * [solver_init_graph] returns when the arena is large enough *)

Module InitRuns.
Import Util Solver Dlx InitSpec Views ArenaFacts SegFacts UnlinkFacts CoverFacts.
Import CoverUncover InitFacts ChainFacts ColumnPass RowPass InitWf InitGraph.
Import ExactCover InitState.

Lemma for_range_total {St} (P : Z → St → Prop) lo hi (body : Z → St → res St) s :
  lo ≤ hi → P lo s →
  (∀ i s, lo ≤ i < hi → P i s → ∃ s', body i s = Ok s' ∧ P (i + 1) s') →
  ∃ s', for_range lo hi body s = Ok s' ∧ P hi s'.
Proof.
  intros Hle Hs Hb. unfold for_range.
  assert (H : ∀ (k : nat) lo' s, lo ≤ lo' → lo' + Z.of_nat k = hi → P lo' s →
            ∃ s', for_loop k lo' body s = Ok s' ∧ P hi s').
  { induction k as [|k IH]; intros lo' s1 Hlo Hhi Hs1.
    - exists s1. split; [done|]. replace hi with lo' by lia. done.
    - destruct (Hb lo' s1) as (s2 & Hs2 & HP2); [lia|done|].
      rewrite for_loop_S, Hs2, bind_Ok. apply IH; [lia|lia|done]. }
  apply (H (Z.to_nat (hi - lo)) lo s); [lia|lia|done].
Qed.

Section column_runs.
Variables (cells : gmap Z bool) (nc nr needed : Z).
Hypothesis Hnc : 2 ≤ nc.
Hypothesis Hnr : 0 ≤ nr.
Hypothesis Hsize : nr * nc < size_modulus.
Hypothesis Hneeded : needed < size_modulus.
Hypothesis Hones : Z.of_nat (length (matrix_ones cells nc nr)) + nc + 1 ≤ needed.

(** A node is left for every 1 the column pass has not seen yet. *)
Lemma node_left k j cur nu used vl g :
  0 ≤ k < nc → 0 ≤ j < nr →
  colpass cells nc nr k j cur nu used vl g →
  mcell cells nc j k = true → nu < needed.
Proof.
  intros Hk Hj Hcp Hm.
  destruct Hcp as [Pnu Pdom Pring Pback Popen Pcur Pnodup Pcount Plater Pmem
                     Pnode Pused Pset].
  set (N := seqZ (nc + 1) (nu - nc - 1)).
  set (f := λ x, uidx nc (frow g x) (fC g x)).
  assert (HN : ∀ x, x ∈ N ↔ nc < x < nu).
  { intros x. unfold N. rewrite elem_of_seqZ. lia. }
  assert (Hnd : NoDup (uidx nc j k :: (f <$> N))).
  { apply NoDup_cons. split.
    - intros (x & E & Hx%HN)%list_elem_of_fmap.
      destruct (Pnode x Hx) as (H1 & H2 & H3 & H4 & H5 & H6 & H7).
      apply (uidx_inj nc nr Hnc Hnr Hsize) in E as [E1 E2]; [|lia..].
      specialize (H4 (eq_sym E2)). lia.
    - apply NoDup_fmap_2_strong; [|apply NoDup_seqZ].
      intros x y Hx%HN Hy%HN E.
      destruct (Pnode x Hx) as (_ & _ & _ & _ & _ & Hux & _).
      destruct (Pnode y Hy) as (_ & _ & _ & _ & _ & Huy & _).
      unfold f in E. rewrite <- Hux, <- Huy. by rewrite E. }
  assert (Hsub : uidx nc j k :: (f <$> N) ⊆ matrix_ones cells nc nr).
  { assert (Hin : ∀ r c, 0 ≤ r < nr → 0 ≤ c < nc → mcell cells nc r c = true →
                         uidx nc r c ∈ matrix_ones cells nc nr).
    { intros r c Hr Hc Hmc. unfold matrix_ones.
      apply list_elem_of_filter. split; [done|].
      rewrite (uidx_val nc nr Hnc Hsize r c Hr Hc). apply elem_of_seqZ. nia. }
    intros i [->|(x & -> & Hx%HN)%list_elem_of_fmap]%elem_of_cons.
    - by apply Hin.
    - destruct (Pnode x Hx) as (H1 & H2 & H3 & H4 & H5 & H6 & H7).
      apply Hin; [lia|lia|done]. }
  apply NoDup_submseteq in Hsub; [|done].
  apply submseteq_length in Hsub. simpl in Hsub.
  rewrite length_fmap in Hsub. unfold N in Hsub. rewrite length_seqZ in Hsub. lia.
Qed.

Lemma col_cell_runs k j cur nu used vl g :
  0 ≤ k < nc → 0 ≤ j < nr →
  (∀ x, is_Some (g !! x) ↔ 0 ≤ x < needed) →
  colpass cells nc nr k j cur nu used vl g →
  ∃ st', col_cell cells nc k j (g, nu, used, cur) = Ok st'.
Proof.
  intros Hk Hj Hdomg Hcp. unfold col_cell.
  fold (uidx nc j k). fold (mcell cells nc j k).
  destruct (mcell cells nc j k) eqn:Hm; [|by eexists].
  pose proof (node_left k j cur nu used vl g Hk Hj Hcp Hm) as Hlt.
  destruct Hcp as [Pnu Pdom Pring Pback Popen Pcur Pnodup Pcount Plater Pmem
                     Pnode Pused Pset].
  assert (Hcur : is_Some (g !! cur)).
  { destruct (last_default_elem k (vl k)) as [E|E]; rewrite <- Pcur in E.
    - apply Hdomg. lia.
    - apply Pdom. by apply (Pmem k). }
  assert (Hnu : is_Some (g !! nu)) by (apply Hdomg; lia).
  assert (Hkd : is_Some (g !! k)) by (apply Hdomg; lia).
  rewrite upd_Ok by done. rewrite bind_Ok.
  rewrite upd_Ok by (by rewrite is_Some_alter). rewrite bind_Ok.
  rewrite upd_Ok by (by rewrite !is_Some_alter). rewrite bind_Ok.
  rewrite upd_Ok by (by rewrite !is_Some_alter). rewrite bind_Ok.
  rewrite upd_Ok by (by rewrite !is_Some_alter). rewrite bind_Ok.
  by eexists.
Qed.

Lemma col_cells_total k nu used vl g :
  0 ≤ k < nc →
  (∀ x, is_Some (g !! x) ↔ 0 ≤ x < needed) →
  colpass cells nc nr k 0 k nu used vl g →
  ∃ st', for_range 0 nr (col_cell cells nc k) (g, nu, used, k) = Ok st'.
Proof.
  intros Hk Hdomg Hcp.
  destruct (for_range_total
              (λ j st, ∃ g' nu' used' cur' vl',
                 st = (g', nu', used', cur') ∧
                 colpass cells nc nr k j cur' nu' used' vl' g' ∧
                 (∀ x, is_Some (g' !! x) ↔ 0 ≤ x < needed))
              0 nr (col_cell cells nc k) (g, nu, used, k))
    as (st' & Hrun & _); [lia| | |by exists st'].
  - by exists g, nu, used, k, vl.
  - intros j s Hj (g1 & nu1 & used1 & cur1 & vl1 & -> & Hcp1 & Hd1).
    destruct (col_cell_runs k j cur1 nu1 used1 vl1 g1 Hk Hj Hd1 Hcp1) as (st' & Hst).
    exists st'. split; [done|].
    eapply col_cell_step in Hst
      as (g2 & nu2 & used2 & cur2 & vl2 & -> & Hcp2 & _ & Hd2); eauto.
    exists g2, nu2, used2, cur2, vl2. split_and!; [done..|].
    intros x. rewrite (Hd2 x). apply Hd1.
Qed.

Lemma col_pass_total gB :
  (∀ x, is_Some (gB !! x) ↔ 0 ≤ x < needed) →
  (∀ x, fcount gB x = 0) →
  ∃ st', for_range 0 nc (col_pass cells nc nr) (gB, nc + 1, ∅) = Ok st'.
Proof.
  intros HdomB HcntB.
  destruct (for_range_total
              (λ k st, ∃ g' nu' used' vl',
                 st = (g', nu', used') ∧
                 colpass cells nc nr k 0 k nu' used' vl' g' ∧
                 (∀ x, is_Some (g' !! x) ↔ 0 ≤ x < needed))
              0 nc (col_pass cells nc nr) (gB, nc + 1, ∅))
    as (st' & Hrun & _); [lia| | |by exists st'].
  - exists gB, (nc + 1), ∅, (λ _, []). split_and!; [done| |done].
    split; try done; try lia.
    + intros c. apply NoDup_nil_2.
    + intros c x Hx. by apply elem_of_nil in Hx.
  - intros k s Hk (g1 & nu1 & used1 & vl1 & -> & Hcp1 & Hd1).
    unfold col_pass.
    destruct (col_cells_total k nu1 used1 vl1 g1 Hk Hd1 Hcp1) as (st1 & Hloop).
    rewrite Hloop, bind_Ok.
    eapply col_cells_loop in Hloop
      as (g2 & nu2 & used2 & cur2 & vl2 & -> & Hcp2 & _ & Hd2); eauto.
    assert (Hdom2 : ∀ x, is_Some (g2 !! x) ↔ 0 ≤ x < needed).
    { intros x. rewrite (Hd2 x). apply Hd1. }
    assert (Hcur : is_Some (g2 !! cur2)).
    { destruct (last_default_elem k (vl2 k)) as [E|E];
        rewrite <- (cp_cur _ _ _ _ _ _ _ _ _ _ Hcp2) in E.
      - apply Hdom2. lia.
      - apply (cp_dom _ _ _ _ _ _ _ _ _ _ Hcp2).
        by apply (cp_mem _ _ _ _ _ _ _ _ _ _ Hcp2 k). }
    assert (Hkd : is_Some (g2 !! k)) by (apply Hdom2; lia).
    destruct (upd g2 cur2 (set_down k) ≫= λ g, upd g k (set_up cur2)) as [g3|e] eqn:Hcl.
    2:{ exfalso. revert Hcl. rewrite upd_Ok by done. rewrite bind_Ok.
        rewrite upd_Ok by (by rewrite is_Some_alter). done. }
    exists (g3, nu2, used2). split.
    + revert Hcl. cbn. destruct (upd g2 cur2 (set_down k)) as [g4|e']; cbn; [|done].
      by intros ->.
    + eapply col_close in Hcl as (Hcp3 & _ & Hd3); eauto.
      exists g3, nu2, used2, vl2. split_and!; [done..|].
      intros x. rewrite (Hd3 x). apply Hdom2.
Qed.

End column_runs.

Section row_runs.
Variables (cells : gmap Z bool) (nc nr needed nu : Z).
Variables (used : gmap Z ptr) (vl : Z → list Z) (gC : arena).
Hypothesis Hnc : 2 ≤ nc.
Hypothesis Hnr : 0 ≤ nr.
Hypothesis Hsize : nr * nc < size_modulus.
Hypothesis Hcp : colpass cells nc nr nc 0 nc nu used vl gC.
Hypothesis HdomC : ∀ x, is_Some (gC !! x) ↔ 0 ≤ x < needed.

Lemma row_member_dom g k j y :
  0 ≤ k < nr → j ≤ nc → row_frame nc gC g →
  y ∈ rowl nc used k j → is_Some (g !! y).
Proof.
  intros Hk Hj (_ & Hd & _) Hy.
  eapply rowl_mem in Hy as (Hr & _); eauto.
  apply Hd. by apply (cp_dom _ _ _ _ _ _ _ _ _ _ Hcp).
Qed.

Lemma row_current_dom g k j cur first :
  0 ≤ k < nr → j ≤ nc → row_frame nc gC g →
  rowpass nc used k j cur first g → first ≠ NULL →
  is_Some (g !! cur) ∧ is_Some (g !! first).
Proof.
  intros Hk Hj Hfr [_ Popen] Hne.
  destruct (rowl nc used k j) as [|x l] eqn:E.
  - by destruct Popen as [-> _].
  - destruct Popen as (-> & -> & _).
    assert (Hx : x ∈ rowl nc used k j) by (rewrite E; set_solver).
    split; [|by apply (row_member_dom g k j)].
    destruct (last_default_elem x l) as [->|Hin];
      apply (row_member_dom g k j); try done.
    rewrite E. set_solver.
Qed.

Lemma row_cell_runs g k j cur first :
  0 ≤ k < nr → 0 ≤ j < nc → row_frame nc gC g →
  rowpass nc used k j cur first g →
  ∃ st', row_cell nc used k j (g, cur, first) = Ok st'.
Proof.
  intros Hk Hj Hfr Hrp. unfold row_cell. fold (uidx nc k j).
  set (n := used_at used (uidx nc k j)).
  destruct (Z.eqb_spec n NULL) as [En|En]; simpl; [by eexists|].
  destruct (Z.eqb_spec first NULL) as [Ef|Ef]; [by eexists|].
  destruct (row_current_dom g k j cur first Hk ltac:(lia) Hfr Hrp Ef) as [Hcur _].
  assert (Hn : is_Some (g !! n)).
  { destruct Hfr as (_ & Hd & _). apply Hd.
    apply (cp_dom _ _ _ _ _ _ _ _ _ _ Hcp).
    by destruct (cp_used _ _ _ _ _ _ _ _ _ _ Hcp k j Hk Hj En). }
  rewrite upd_Ok by done. rewrite bind_Ok.
  rewrite upd_Ok by (by rewrite is_Some_alter). rewrite bind_Ok. by eexists.
Qed.

Lemma row_cells_total g k :
  0 ≤ k < nr → row_frame nc gC g →
  rowpass nc used k 0 NULL NULL g →
  ∃ st', for_range 0 nc (row_cell nc used k) (g, NULL, NULL) = Ok st'.
Proof.
  intros Hk Hfr Hrp.
  destruct (for_range_total
              (λ j st, ∃ g' cur' first',
                 st = (g', cur', first') ∧
                 rowpass nc used k j cur' first' g' ∧ row_frame nc gC g')
              0 nc (row_cell nc used k) (g, NULL, NULL))
    as (st' & Hrun & _); [lia| | |by exists st'].
  - by exists g, NULL, NULL.
  - intros j s Hj (g1 & cur1 & first1 & -> & Hrp1 & Hf1).
    destruct (row_cell_runs g1 k j cur1 first1 Hk Hj Hf1 Hrp1) as (st' & Hst).
    exists st'. split; [done|].
    eapply row_cell_step in Hst as (g2 & cur2 & first2 & -> & Hrp2 & Hf2); eauto.
    exists g2, cur2, first2. split_and!; [done..|].
    by apply (row_frame_trans nc gC g1).
Qed.

Lemma row_pass_total :
  ∃ g, for_range 0 nr (row_pass nc used) gC = Ok g.
Proof.
  destruct (for_range_total
              (λ k g', rowpass nc used k 0 NULL NULL g' ∧ row_frame nc gC g')
              0 nr (row_pass nc used) gC)
    as (g' & Hrun & _); [lia| | |by exists g'].
  - split; [|apply row_frame_refl]. split; [intros r Hr; lia|done].
  - intros k g1 Hk [Hrp Hf]. unfold row_pass.
    destruct (row_cells_total g1 k Hk Hf Hrp) as (st1 & Hloop).
    rewrite Hloop, bind_Ok.
    eapply row_cells_loop in Hloop as (g3 & cur & first & -> & Hrp3 & Hf3); eauto.
    assert (Hf3' : row_frame nc gC g3) by by apply (row_frame_trans nc gC g1).
    match goal with |- ∃ s', ?m = Ok s' ∧ _ =>
      destruct m as [g4|e] eqn:Hcl end.
    2:{ exfalso. revert Hcl.
        destruct (Z.eqb_spec first NULL) as [Ef|Ef]; simpl; [done|].
        destruct (row_current_dom g3 k nc cur first Hk ltac:(lia) Hf3' Hrp3 Ef)
          as [Hcur Hfirst].
        rewrite upd_Ok by done. rewrite bind_Ok.
        rewrite upd_Ok by (by rewrite is_Some_alter). done. }
    exists g4. split; [done|].
    eapply row_close in Hcl as [Hrp4 Hf4]; eauto.
    split; [done|]. by apply (row_frame_trans nc gC g3).
Qed.

End row_runs.

Section init_runs.
Variables (cells : gmap Z bool) (inuse nc nr : Z).
Hypothesis Hnc : 2 ≤ nc.
Hypothesis Hnr : 0 ≤ nr.
Hypothesis Hsize : nr * nc < size_modulus.
Hypothesis Hinuse : 0 ≤ inuse.
Hypothesis Hneeded : inuse + nc + 1 < size_modulus.
Hypothesis Hones : Z.of_nat (length (matrix_ones cells nc nr)) ≤ inuse.

Lemma headers_total :
  ∃ gA, for_range 1 (sz (nc - 1)) link_header (calloc_nodes (inuse + nc + 1)) = Ok gA.
Proof.
  rewrite sz_small by lia.
  destruct (for_range_total
              (λ _ g, ∀ x, is_Some (g !! x) ↔ 0 ≤ x < inuse + nc + 1)
              1 (nc - 1) link_header (calloc_nodes (inuse + nc + 1)))
    as (gA & Hrun & _); [lia| | |by exists gA].
  - intros x. rewrite lookup_calloc. case_decide; split; try done; intros [? ?]; done.
  - intros i g Hi Hd. unfold link_header.
    rewrite upd_Ok by (apply Hd; lia). rewrite bind_Ok.
    rewrite upd_Ok by (rewrite is_Some_alter; apply Hd; lia).
    eexists. split; [done|]. intros x. rewrite !is_Some_alter. apply Hd.
Qed.

Lemma init_total_strict :
  ∃ s0, solver_init_graph (solver_create inuse nc nr) cells true = Ok s0.
Proof.
  unfold solver_init_graph.
  set (s := solver_create inuse nc nr).
  change (ncols s) with nc. change (nrows s) with nr.
  change (nodes s) with (calloc_nodes (sz (inuse + nc + 1))).
  rewrite (sz_small (inuse + nc + 1)) by lia. cbv zeta.
  set (needed := inuse + nc + 1).
  assert (Hnc' : 2 ≤ nc < size_modulus) by lia.
  destruct headers_total as (gA & HA). fold needed in HA. rewrite HA, bind_Ok.
  pose proof HA as [HdA _]%(link_header_loop nc Hnc').
  assert (HdomA : ∀ x, is_Some (gA !! x) ↔ 0 ≤ x < needed).
  { intros x. rewrite (HdA x), lookup_calloc.
    case_decide; split; try done; intros [? ?]; done. }
  assert (HB : ∃ gB,
    (g ← upd gA nc (set_right 0);
     g ← upd g 0 (set_left nc);
     g ← upd g 0 (set_right 1);
     g ← upd g (sz (nc - 1)) (set_left (sz (nc - 2)));
     g ← upd g (sz (nc - 1)) (set_right nc);
     upd g nc (set_left (sz (nc - 1)))) = Ok gB).
  { rewrite (sz_nc1 nc Hnc'), (sz_nc2 nc Hnc').
    rewrite upd_Ok by (apply HdomA; lia). rewrite bind_Ok.
    rewrite upd_Ok by (rewrite !is_Some_alter; apply HdomA; lia). rewrite bind_Ok.
    rewrite upd_Ok by (rewrite !is_Some_alter; apply HdomA; lia). rewrite bind_Ok.
    rewrite upd_Ok by (rewrite !is_Some_alter; apply HdomA; lia). rewrite bind_Ok.
    rewrite upd_Ok by (rewrite !is_Some_alter; apply HdomA; lia). rewrite bind_Ok.
    rewrite upd_Ok by (rewrite !is_Some_alter; apply HdomA; lia). by eexists. }
  destruct HB as (gB & HB).
  destruct (init_headers nc Hnc' needed gA gB ltac:(unfold needed; lia) HA HB)
    as (HhB & HdB & HcB).
  assert (Hpre : ∀ {A} (k : arena → res A),
    (g ← upd gA nc (set_right 0);
     g ← upd g 0 (set_left nc);
     g ← upd g 0 (set_right 1);
     g ← upd g (sz (nc - 1)) (set_left (sz (nc - 2)));
     g ← upd g (sz (nc - 1)) (set_right nc);
     g ← upd g nc (set_left (sz (nc - 1))); k g) = k gB).
  { intros A k. revert HB. cbn.
    repeat (match goal with
            | |- context [upd ?g ?p ?f] => destruct (upd g p f); cbn; try done
            end).
    by intros [= ->]. }
  rewrite Hpre.
  assert (Hon : Z.of_nat (length (matrix_ones cells nc nr)) + nc + 1 ≤ needed)
    by (unfold needed; lia).
  assert (HCt : ∃ st', for_range 0 nc (col_pass cells nc nr) (gB, nc + 1, ∅) = Ok st').
  { eapply col_pass_total; eauto. }
  destruct HCt as ([[gC nu] used] & HC).
  rewrite HC, bind_Ok.
  pose proof HC as HC'.
  eapply (col_pass_loop cells nc nr needed) in HC' as (vl & Hcp & HhC & HdC); eauto;
    try (unfold needed; lia).
  assert (HRt : ∃ g, for_range 0 nr (row_pass nc used) gC = Ok g).
  { eapply row_pass_total; eauto. }
  destruct HRt as (g & HR).
  rewrite HR, bind_Ok. cbn [negb]. rewrite bind_Ok. by eexists.
Qed.

Lemma drop_empty_runs nu rw vl k g :
  0 ≤ k < nc →
  static nc nu rw g → horiz nc (kept_columns nc vl k) g → vert nc nu vl g →
  ∃ g', drop_empty k g = Ok g'.
Proof.
  intros Hk Hs Hh Hv.
  assert (Hin : k ∈ kept_columns nc vl k).
  { apply list_elem_of_filter. split; [lia|]. apply elem_of_seqZ. lia. }
  destruct (hide_inv nc nu rw _ vl g k Hs Hh Hv Hin)
    as (H1 & H2 & H3 & H4 & H5 & H6 & H7 & _).
  rewrite drop_empty_Ok by done. by eexists.
Qed.

Lemma init_total strict :
  ∃ s0, solver_init_graph (solver_create inuse nc nr) cells strict = Ok s0.
Proof.
  destruct init_total_strict as (s0 & Hs0).
  destruct strict; [by exists s0|].
  assert (Hnc' : 2 ≤ nc < size_modulus) by lia.
  destruct (init_wfs _ _ _ _ _ _ Hnc' Hnr Hsize Hs0)
    as (Hroot & nu & rw & hs & vl & Hwf & Hkept & Hnu & Ehs).
  cbn in Ehs. subst hs.
  assert (Hloop : ∃ g', for_range 0 nc drop_empty (nodes s0) = Ok g').
  { destruct (for_range_total
                (λ k g1, static nc nu rw g1 ∧
                         horiz nc (kept_columns nc vl k) g1 ∧ vert nc nu vl g1)
                0 nc drop_empty (nodes s0))
      as (g' & Hrun & _); [lia| | |by exists g'].
    - destruct Hwf as [Hs Hh Hv _ _]. split_and!; [done| |done].
      unfold kept_columns. rewrite filter_all; [done|].
      intros x Hx%elem_of_seqZ. left. lia.
    - intros k g1 Hk (Hs1 & Hh1 & Hv1).
      destruct (drop_empty_runs nu rw vl k g1 Hk Hs1 Hh1 Hv1) as (g2 & Hg2).
      exists g2. split; [done|].
      eapply drop_empty_step in Hg2 as (Hs2 & Hh2 & Hv2 & _); eauto. }
  revert Hs0 Hloop. unfold solver_init_graph. cbv zeta.
  repeat (match goal with
          | |- context [mbind _ ?m] =>
              lazymatch m with
              | Ok _ => fail
              | _ => destruct m as [?|?]; cbn [mbind res_bind rbind]; try done
              end
          end).
  destruct a6 as [[gC nu'] used].
  change (ncols (solver_create inuse nc nr)) with nc.
  change (nrows (solver_create inuse nc nr)) with nr.
  destruct (for_range 0 nr (row_pass nc used) gC) as [g|]; cbn; [|done].
  intros [= <-] (g' & Hg'). cbn in Hg'. rewrite Hg'. cbn. by eexists.
Qed.

End init_runs.

(** ** The only fault of [solver_init_graph] is an access out of bounds *)

Lemma for_range_err {St} lo hi (body : Z → St → res St) s e0 :
  (∀ i s e, body i s = Err e → e = e0) →
  ∀ e, for_range lo hi body s = Err e → e = e0.
Proof.
  intros Hb. unfold for_range. generalize (Z.to_nat (hi - lo)) as n.
  intros n. revert lo s. induction n as [|n IH]; intros lo s e; [done|].
  rewrite for_loop_S. destruct (body lo s) as [s'|e'] eqn:E.
  - rewrite bind_Ok. apply IH.
  - rewrite bind_Err. intros [= <-]. by apply (Hb lo s).
Qed.

Lemma upd_err g p f e : upd g p f = Err e → e = OutOfBounds.
Proof. unfold upd. destruct (g !! p); [done|]. by intros [= <-]. Qed.

Lemma rd_err g p e : rd g p = Err e → e = OutOfBounds.
Proof. unfold rd. destruct (g !! p); [done|]. by intros [= <-]. Qed.

Ltac err_step :=
  match goal with
  | |- context [mbind _ (upd ?g ?p ?f)] =>
      let E := fresh "E" in
      destruct (upd g p f) eqn:E;
      [rewrite ?bind_Ok|rewrite ?bind_Err; intros [= <-]; exact (upd_err _ _ _ _ E)]
  | |- context [mbind _ (rd ?g ?p)] =>
      let E := fresh "E" in
      destruct (rd g p) eqn:E;
      [rewrite ?bind_Ok|rewrite ?bind_Err; intros [= <-]; exact (rd_err _ _ _ E)]
  end.

Lemma link_header_err col g e : link_header col g = Err e → e = OutOfBounds.
Proof. unfold link_header. err_step. apply upd_err. Qed.

Lemma col_cell_err cells nc col row st e :
  col_cell cells nc col row st = Err e → e = OutOfBounds.
Proof.
  destruct st as [[[g nu] used] cur]. unfold col_cell.
  destruct (cell cells _); [|done]. do 5 err_step. done.
Qed.

Lemma col_pass_err cells nc nr col st e :
  col_pass cells nc nr col st = Err e → e = OutOfBounds.
Proof.
  destruct st as [[g nu] used]. unfold col_pass.
  destruct (for_range 0 nr _ _) as [[[[g1 nu1] used1] cur1]|e'] eqn:E.
  - rewrite bind_Ok. do 2 err_step. done.
  - rewrite bind_Err. intros [= <-].
    eapply for_range_err; [|exact E]. intros i s e. apply col_cell_err.
Qed.

Lemma row_cell_err nc used row col st e :
  row_cell nc used row col st = Err e → e = OutOfBounds.
Proof.
  destruct st as [[g cur] first]. unfold row_cell.
  destruct (negb _); [|done]. destruct (first =? NULL); [done|].
  do 2 err_step. done.
Qed.

Lemma row_pass_err nc used row g e :
  row_pass nc used row g = Err e → e = OutOfBounds.
Proof.
  unfold row_pass.
  destruct (for_range 0 nc _ _) as [[[g1 cur1] first1]|e'] eqn:E.
  - rewrite bind_Ok. destruct (negb _); [|done]. err_step. apply upd_err.
  - rewrite bind_Err. intros [= <-].
    eapply for_range_err; [|exact E]. intros i s e. apply row_cell_err.
Qed.

Lemma drop_empty_err col g e : drop_empty col g = Err e → e = OutOfBounds.
Proof.
  unfold drop_empty. err_step. destruct (count _ =? 0); [|done].
  do 2 err_step. apply upd_err.
Qed.

Lemma init_graph_err s cells strict e :
  solver_init_graph s cells strict = Err e → e = OutOfBounds.
Proof.
  unfold solver_init_graph. cbv zeta.
  destruct (for_range 1 _ link_header _) as [gA|e'] eqn:EA.
  2:{ rewrite bind_Err. intros [= <-]. eapply for_range_err; [|exact EA].
      intros i g e. apply link_header_err. }
  rewrite bind_Ok. do 6 err_step.
  destruct (for_range 0 _ (col_pass _ _ _) _) as [[[gC nu] used]|e'] eqn:EC.
  2:{ rewrite bind_Err. intros [= <-]. eapply for_range_err; [|exact EC].
      intros i g e. apply col_pass_err. }
  rewrite bind_Ok.
  destruct (for_range 0 _ (row_pass _ _) _) as [gR|e'] eqn:ER.
  2:{ rewrite bind_Err. intros [= <-]. eapply for_range_err; [|exact ER].
      intros i g e. apply row_pass_err. }
  rewrite bind_Ok.
  destruct strict; cbn [negb]; [by rewrite bind_Ok|].
  destruct (for_range 0 _ drop_empty _) as [gD|e'] eqn:ED.
  2:{ rewrite bind_Err. intros [= <-]. eapply for_range_err; [|exact ED].
      intros i g e. apply drop_empty_err. }
  by rewrite bind_Ok.
Qed.

(** A graph that was built has a node for every 1 of the matrix. *)
Lemma ones_have_nodes cells inuse nc nr strict s0 :
  2 ≤ nc < size_modulus → 0 ≤ nr → nr * nc < size_modulus →
  solver_init_graph (solver_create inuse nc nr) cells strict = Ok s0 →
  Z.of_nat (length (matrix_ones cells nc nr)) + nc + 1 ≤ sz (inuse + nc + 1).
Proof.
  intros Hnc Hnr Hsize Hinit.
  destruct (init_wfs _ _ _ _ _ _ Hnc Hnr Hsize Hinit)
    as (Hroot & nu & rw & hs & vl & Hwf & Hkept & Hnu & Ehs).
  destruct Hwf as [Hs _ _ _ [Hrep1 Hrep2]].
  pose proof (st_bounds _ _ _ _ Hs) as (Hb1 & Hb2 & Hb3).
  set (g := nodes s0) in *.
  set (N := seqZ (nc + 1) (nu - nc - 1)).
  set (f := λ x, uidx nc (frow g x) (fC g x)).
  assert (Hsub : matrix_ones cells nc nr ⊆ f <$> N).
  { intros i [Hc Hi%elem_of_seqZ]%list_elem_of_filter.
    assert (Hr : 0 ≤ i `div` nc < nr).
    { split; [apply Z.div_pos; lia|]. apply Z.div_lt_upper_bound; lia. }
    assert (Hcc : 0 ≤ i `mod` nc < nc) by (apply Z.mod_pos_bound; lia).
    assert (Ei : uidx nc (i `div` nc) (i `mod` nc) = i).
    { rewrite (uidx_val nc nr ltac:(lia) Hsize _ _ Hr Hcc).
      rewrite (Z.div_mod i nc) at 3 by lia. lia. }
    destruct (Hrep2 (i `div` nc) (i `mod` nc)) as (x & Hx & Hxr & Hxc).
    { unfold hits, mcell. by rewrite Ei. }
    apply list_elem_of_fmap. exists x. split.
    - unfold f. by rewrite Hxr, Hxc.
    - unfold N. apply elem_of_seqZ. unfold is_node in Hx. lia. }
  apply NoDup_submseteq in Hsub; [|apply NoDup_filter, NoDup_seqZ].
  apply submseteq_length in Hsub. rewrite length_fmap in Hsub.
  unfold N in Hsub. rewrite length_seqZ in Hsub. lia.
Qed.

End InitRuns.

(** * The matrix of a grid as an exact cover problem *)

Module SudokuMatrix.
Import Util Solver Sudoku InitSpec ExactCover SudokuSpec SudokuLoop Views.
Import SudokuIndex Masks DlxCells.

Section matrix.
Variables (g : sudoku) (cells : gmap Z bool) (count : Z).
Hypothesis Hcells : cells_inv g (λ _ _ _, True) (cells, count).

Lemma cell_true k : cell cells k = true ↔ cells !! k = Some true.
Proof. unfold cell. destruct (cells !! k) as [[]|]; simpl; split; congruence. Qed.

Lemma candidate_row v x y :
  candidate g v x y → 0 ≤ DLX_ROW v x y < 729.
Proof. intros (Hv & Hxy & _). by destruct (row_decode v x y Hv Hxy) as (_&_&_&?). Qed.

(** The 1s of the matrix. *)
Lemma hits_candidate r c :
  hits cells 324 729 r c ↔
  ∃ v x y, candidate g v x y ∧ r = DLX_ROW v x y ∧ c ∈ placement_columns v x y.
Proof.
  destruct Hcells as (H1 & H2 & _). cbn [fst snd] in *.
  unfold hits, mcell, uidx. split.
  - intros (Hr & Hc & Hm). rewrite sz_small in Hm by (unfold size_modulus; lia).
    apply cell_true in Hm.
    destruct (H1 _ _ Hm) as (_ & v & x & y & _ & Hcand & (c' & Ei & Hin)%list_elem_of_fmap).
    pose proof Hcand as (Hv & Hxy & _).
    change (r * 324 + c) with (DLX_CELL_IDX r c) in Ei.
    apply cell_idx_inj in Ei as [-> ->];
      [|done|by apply (placement_columns_range v x y)].
    by exists v, x, y.
  - intros (v & x & y & Hcand & -> & Hin).
    pose proof Hcand as (Hv & Hxy & _).
    pose proof (candidate_row v x y Hcand) as Hr.
    pose proof (placement_columns_range v x y c Hv Hxy Hin) as Hc.
    split_and!; [lia..|]. rewrite sz_small by (unfold size_modulus; lia).
    apply cell_true. by apply (H2 v x y c).
Qed.

Lemma row_ones_placement v x y :
  candidate g v x y →
  row_ones cells 324 (DLX_ROW v x y) ≡ₚ placement_columns v x y.
Proof.
  intros Hcand. pose proof Hcand as (Hv & Hxy & _).
  pose proof (candidate_row v x y Hcand) as Hr.
  apply NoDup_Permutation.
  - apply NoDup_filter, NoDup_seqZ.
  - by apply placement_columns_nodup.
  - intros c. unfold row_ones. rewrite list_elem_of_filter, elem_of_seqZ. split.
    + intros [Hm Hc].
      assert (Hh : hits cells 324 729 (DLX_ROW v x y) c) by (unfold hits; split_and!; [lia..|done]).
      apply hits_candidate in Hh as (v' & x' & y' & Hc' & Er & Hin).
      pose proof Hc' as (Hv' & Hxy' & _).
      apply row_inj in Er as (-> & -> & ->); done.
    + intros Hin.
      assert (Hh : hits cells 324 729 (DLX_ROW v x y) c).
      { apply hits_candidate. by exists v, x, y. }
      destruct Hh as (_ & Hc & Hm). split; [done|lia].
Qed.

(** Every row of the matrix is empty or has four 1s. *)
Lemma rows_uniform r :
  0 ≤ r < 729 →
  row_ones cells 324 r = [] ∨ Z.of_nat (length (row_ones cells 324 r)) = 4.
Proof.
  intros Hr. destruct (row_ones cells 324 r) as [|c l] eqn:E; [by left|right].
  assert (Hc : c ∈ row_ones cells 324 r) by (rewrite E; set_solver).
  unfold row_ones in Hc. apply list_elem_of_filter in Hc as [Hm Hc%elem_of_seqZ].
  assert (Hh : hits cells 324 729 r c) by (unfold hits; split_and!; [lia..|done]).
  apply hits_candidate in Hh as (v & x & y & Hcand & -> & Hin).
  rewrite <- E, (row_ones_placement v x y Hcand). done.
Qed.

(** The count is the number of entries of the matrix array that are set. *)
Lemma count_ones :
  count = Z.of_nat (length (matrix_ones cells 324 729)).
Proof.
  destruct Hcells as (H1 & H2 & H3). cbn [fst snd] in *. rewrite H3. f_equal.
  rewrite <- size_dom.
  assert (E : dom cells = list_to_set (matrix_ones cells 324 729)).
  { apply set_eq. intros k. rewrite elem_of_dom, elem_of_list_to_set.
    unfold matrix_ones. rewrite list_elem_of_filter, elem_of_seqZ, cell_true. split.
    - intros [b Hk]. destruct (H1 k b Hk) as (-> & v & x & y & _ & Hcand & (c' & -> & Hin)%list_elem_of_fmap).
      split; [done|].
      pose proof Hcand as (Hv & Hxy & _).
      pose proof (candidate_row v x y Hcand) as Hr.
      pose proof (placement_columns_range v x y c' Hv Hxy Hin) as Hc.
      unfold DLX_CELL_IDX, DLX_MAX_COLS, GRID_SIZE, SUDOKU_SIZE. lia.
    - intros [Hk _]. by exists true. }
  rewrite E, size_list_to_set; [done|]. apply NoDup_filter, NoDup_seqZ.
Qed.

Lemma count_range : 0 ≤ count ≤ 729 * 324.
Proof.
  rewrite count_ones. split; [lia|].
  unfold matrix_ones.
  pose proof (length_filter (λ i, cell cells i = true) (seqZ 0 (729 * 324))) as H.
  rewrite length_seqZ in H. lia.
Qed.

Lemma length_bind4 (l : list Z) (f : Z → list Z) :
  (∀ x, length (f x) = 4%nat) → length (l ≫= f) = (4 * length l)%nat.
Proof.
  intros Hf. induction l as [|a l IH]; [done|].
  rewrite bind_cons, length_app, Hf, IH. simpl. lia.
Qed.

(** The matrix has at most four 1s in each of its 729 rows. *)
Lemma count_bound : 0 ≤ count ≤ 2916.
Proof.
  rewrite count_ones. split; [lia|].
  set (L := seqZ 0 729 ≫= λ r,
              DLX_CELL_IDX r <$> placement_columns (DLX_V r - 1) (DLX_X r) (DLX_Y r)).
  assert (Hsub : matrix_ones cells 324 729 ⊆ L).
  { intros k [Hk _]%list_elem_of_filter. apply cell_true in Hk.
    destruct Hcells as (H1 & _ & _). cbn [fst snd] in H1.
    destruct (H1 k _ Hk) as (_ & v & x & y & _ & Hcand & (c & -> & Hin)%list_elem_of_fmap).
    pose proof Hcand as (Hv & Hxy & _).
    destruct (row_decode v x y Hv Hxy) as (Ex & Ey & Ev & Hr).
    unfold L. apply list_elem_of_bind. exists (DLX_ROW v x y). split.
    - rewrite Ex, Ey, Ev. replace (v + 1 - 1) with v by lia.
      apply list_elem_of_fmap. by exists c.
    - apply elem_of_seqZ. lia. }
  apply NoDup_submseteq in Hsub; [|apply NoDup_filter, NoDup_seqZ].
  apply submseteq_length in Hsub.
  unfold L in Hsub. rewrite length_bind4 in Hsub by (intros x; by rewrite length_fmap).
  rewrite length_seqZ in Hsub. lia.
Qed.

(** The column of a cell that holds a hint is not kept. *)
Lemma hint_column_dropped x y :
  in_grid x y → cellv g x y ≠ 0 → ¬ kept cells 324 729 false (DLX_COL1 0 x y).
Proof.
  intros Hxy Hne [_ [?|[r Hh]]]; [done|].
  apply hits_candidate in Hh as (v' & x' & y' & Hcand & -> & Hin).
  pose proof Hcand as (Hv' & Hxy' & Hz & _).
  pose proof (col_ranges v' x' y' Hv' Hxy') as (R1 & R2 & R3 & R4).
  pose proof (col_ranges 0 x y ltac:(lia) Hxy) as (Q1 & _).
  unfold placement_columns in Hin.
  repeat (apply elem_of_cons in Hin as [E|Hin]; [|]); try lia;
    [|by apply elem_of_nil in Hin].
  apply (col1_inj 0 x y v' x' y') in E as [-> ->]; done.
Qed.

End matrix.

End SudokuMatrix.

(** * Find-any mode on a matrix whose rows have the same number of 1s *)

Module UniformRows.
Import Util Solver Dlx InitSpec ExactCover Views.
Import ArenaFacts SegFacts CoverUncover SearchStates CoverSets SearchUnique.
Import InitState UniqueMode SearchRandom RandomMode ReachStates.

(** Taking a row of a matrix whose rows all have [m] 1s removes [m]
    columns from the header list. *)
Lemma uniform_depth_step cells nc nr m (hs hs2 : list Z) r :
  0 < m →
  (∀ r, 0 ≤ r < nr →
        row_ones cells nc r = [] ∨ Z.of_nat (length (row_ones cells nc r)) = m) →
  NoDup hs → NoDup hs2 →
  (∃ c, hits cells nc nr r c) → row_in cells nc nr hs r →
  (∀ c, c ∈ hs2 ↔ c ∈ hs ∧ ¬ hits cells nc nr r c) →
  Z.of_nat (length hs2) `div` m + 1 = Z.of_nat (length hs) `div` m.
Proof.
  intros Hm Huni Hnd Hnd2 [c0 Hc0] Hin Hhs2.
  pose proof Hc0 as (Hr & Hc0r & Hc0m).
  assert (Hones : ∀ c, c ∈ row_ones cells nc r ↔ hits cells nc nr r c).
  { intros c. unfold row_ones, hits. rewrite list_elem_of_filter, elem_of_seqZ.
    split; [intros [? ?]; split_and!; [lia..|done]|intros (? & ? & ?); split; [done|lia]]. }
  assert (Hp : hs ≡ₚ hs2 ++ row_ones cells nc r).
  { apply NoDup_Permutation; [done| |].
    - apply NoDup_app. split_and!; [done| |apply NoDup_filter, NoDup_seqZ].
      intros x Hx Hx'. apply Hhs2 in Hx as [_ Hx]. by apply Hx, Hones.
    - intros x. rewrite elem_of_app, Hhs2, Hones. split.
      + intros Hx. destruct (decide (0 ≤ x < nc)) as [Hxr|Hxr].
        * destruct (mcell cells nc r x) eqn:E.
          -- right. unfold hits. split_and!; [lia..|done].
          -- left. split; [done|]. intros (_ & _ & E'). congruence.
        * left. split; [done|]. intros (_ & ? & _). lia.
      + intros [[? _]|Hx]; [done|]. by apply Hin. }
  assert (Hl : Z.of_nat (length hs) = Z.of_nat (length hs2) + m).
  { rewrite Hp, length_app. destruct (Huni r Hr) as [E|E]; [|lia].
    assert (Hc : c0 ∈ row_ones cells nc r) by by apply Hones.
    rewrite E in Hc. by apply elem_of_nil in Hc. }
  rewrite Hl. replace (Z.of_nat (length hs2) + m) with (Z.of_nat (length hs2) + 1 * m) by lia.
  rewrite Z.div_add by lia. done.
Qed.

Lemma solver_run_uniform cells nc nr nu rw hs vl s0 fuel buf n r m :
  wfs cells nc nr nu rw hs vl (nodes s0) → root s0 = nc →
  nu ≤ Z.of_nat fuel →
  0 < m →
  (∀ r, 0 ≤ r < nr →
        row_ones cells nc r = [] ∨ Z.of_nat (length (row_ones cells nc r)) = m) →
  Z.of_nat (length hs) < m * n →
  n ≤ Z.of_nat (length buf) →
  ∃ b s' r',
    solver_run fuel s0 DLX_RANDOM buf n r = Ok (b, s', r') ∧
    (b = true →
     ∃ path : list Z,
       NoDup path ∧ covers cells nc nr (λ c, c ∈ hs) (list_to_set path) ∧
       solution s' =
         path ++ replicate (Z.to_nat (n - Z.of_nat (length path))) (-1)
              ++ drop (Z.to_nat n) buf ∧
       Z.of_nat (length path) < n) ∧
    (b = false →
     nodes s' = nodes s0 ∧ ∀ R, ¬ covers cells nc nr (λ c, c ∈ hs) R).
Proof.
  intros Hwf Hroot Hlf Hm Huni Hcols Hbuf.
  set (depth := λ hs : list Z, Z.of_nat (length hs) `div` m).
  assert (Hdnil : depth [] = 0) by (unfold depth; simpl; by rewrite Z.div_0_l by lia).
  assert (Hd0 : ∀ hs, 0 ≤ depth hs).
  { intros hs'. unfold depth. apply Z.div_pos; lia. }
  assert (Hdhs : depth hs < n).
  { unfold depth. apply Z.div_lt_upper_bound; lia. }
  destruct (solver_run_random cells nc nr nu rw hs vl s0 fuel depth buf n r
              Hwf Hroot Hlf Hdnil Hd0)
    as (b & s' & r' & Hrun & Htrue & Hfalse); [|lia|].
  { intros hs1 hs2 r0. by apply uniform_depth_step. }
  exists b, s', r'. split_and!; [done| |done].
  intros Hb. destruct (Htrue Hb) as (path & Hpl & Hpnd & Hpc & Hsol).
  exists path. split_and!; [done|done|by rewrite Hpl|lia].
Qed.

End UniformRows.

(** * [sudoku_solve] returns *)

Module SolveRuns.
Import Util Solver Dlx Sudoku InitSpec ExactCover SudokuSpec SudokuLoop Views.
Import CoverUncover InitState UniqueMode ReachStates InitRuns UniformRows.
Import SudokuIndex Masks DlxCells SudokuMatrix.

(** The graph of the matrix of a grid: it is built, it is a state of the
    search, and with a hint in the grid its header list has fewer than 324
    columns. *)
Lemma grid_graph g cells count :
  cells_inv g (λ _ _ _, True) (cells, count) →
  (∃ x y, in_grid x y ∧ cellv g x y ≠ 0) →
  ∃ s0 nu rw hs vl,
    solver_init_graph (solver_create count 324 729) cells false = Ok s0 ∧
    root s0 = 324 ∧
    wfs cells 324 729 nu rw hs vl (nodes s0) ∧
    (∀ c, c ∈ hs ↔ kept cells 324 729 false c) ∧
    nu ≤ 3241 ∧ Z.of_nat (length hs) < 324.
Proof.
  intros Hinv (x0 & y0 & Hxy0 & Hne0).
  pose proof (count_bound g cells count Hinv) as Hcb.
  pose proof (count_ones g cells count Hinv) as Hco.
  assert (Hsz : 729 * 324 < size_modulus) by (unfold size_modulus; lia).
  assert (Hnd : count + 324 + 1 < size_modulus) by (unfold size_modulus; lia).
  assert (Hinit : ∃ s0, solver_init_graph (solver_create count 324 729) cells false = Ok s0).
  { eapply init_total; eauto; lia. }
  destruct Hinit as (s0 & Hinit).
  destruct (init_wfs count 324 729 cells false s0 ltac:(unfold size_modulus; lia)
              ltac:(lia) Hsz Hinit)
    as (Hroot & nu & rw & hs & vl & Hwf & Hkept & Hnu & _).
  rewrite sz_small in Hnu by lia.
  exists s0, nu, rw, hs, vl. split_and!; [done..|lia|].
  pose proof (wf_horiz _ _ _ _ _ _ _ _ Hwf) as Hh.
  assert (Hnd' : NoDup (DLX_COL1 0 x0 y0 :: hs)).
  { apply NoDup_cons. split; [|apply (dy_hnodup _ _ _ Hh)].
    intros Hin%Hkept. by apply (hint_column_dropped g cells count Hinv x0 y0). }
  pose proof (length_nodup_range _ (-1) 324 Hnd') as Hl.
  assert (Hr : ∀ c, c ∈ DLX_COL1 0 x0 y0 :: hs → -1 < c < 324).
  { intros c [->|Hc]%elem_of_cons.
    - pose proof (col_ranges 0 x0 y0 ltac:(lia) Hxy0). lia.
    - apply (dy_hhead _ _ _ Hh) in Hc. unfold is_header in Hc. lia. }
  specialize (Hl Hr). simpl in Hl. lia.
Qed.

(** [sudoku_solve] on a grid with a hint: it returns; a success has put
    the rows of an exact cover of the matrix into the buffer; a failure
    means that the matrix has no exact cover. *)
Lemma sudoku_solve_runs g fuel r :
  (∃ x y, in_grid x y ∧ cellv g x y ≠ 0) → 3241 ≤ Z.of_nat fuel →
  ∃ cells count (b : bool) (path : list Z) r',
    cells_inv g (λ _ _ _, True) (cells, count) ∧
    sudoku_solve fuel g r =
      Ok (b, (if b then fill_solution g
                          (path ++ replicate (Z.to_nat (81 - Z.of_nat (length path))) (-1))
                          GRID_SIZE
              else g), r') ∧
    (b = true →
     NoDup path ∧ Z.of_nat (length path) < 81 ∧
     exact_cover cells 324 729 false (list_to_set path)) ∧
    (b = false → ∀ R, ¬ exact_cover cells 324 729 false R).
Proof.
  intros Hhint Hfuel. unfold sudoku_solve.
  destruct (get_dlx_cells g) as [[[cells count] ncols] nrows] eqn:E.
  destruct (get_dlx_cells_spec g cells count ncols nrows E) as (-> & -> & Hinv).
  clear E.
  destruct (grid_graph g cells count Hinv Hhint)
    as (s0 & nu & rw & hs & vl & Hinit & Hroot & Hwf & Hkept & Hnu & Hlen).
  rewrite Hinit, bind_Ok.
  destruct (solver_run_uniform cells 324 729 nu rw hs vl s0 fuel
              (replicate (Z.to_nat GRID_SIZE) 0) GRID_SIZE r 4
              Hwf Hroot ltac:(lia) ltac:(lia) (rows_uniform g cells count Hinv))
    as (b & s' & r' & Hrun & Htrue & Hfalse).
  { change GRID_SIZE with 81. lia. }
  { rewrite length_replicate. lia. }
  rewrite Hrun, bind_Ok.
  assert (Ec : ∀ R, exact_cover cells 324 729 false R ↔
                    covers cells 324 729 (λ c, c ∈ hs) R).
  { intros R. by apply exact_cover_covers. }
  destruct b.
  - destruct (Htrue eq_refl) as (path & Hpnd & Hpc & Hsol & Hpl).
    exists cells, count, true, path, r'. split_and!; [done| | |done].
    + rewrite Hsol. change (Z.to_nat GRID_SIZE) with 81%nat.
      rewrite drop_replicate. change (81 - 81)%nat with 0%nat.
      cbn [replicate]. by rewrite app_nil_r.
    + intros _. split_and!; [done|done|by apply Ec].
  - exists cells, count, false, [], r'. split_and!; [done|done|done|].
    intros _ R HR%Ec. destruct (Hfalse eq_refl) as [_ Hnone]. by apply (Hnone R).
Qed.

End SolveRuns.

(** * [fill_solution] on the rows of an exact cover *)

Module FillSolution.
Import Util Solver Sudoku InitSpec ExactCover SudokuSpec SudokuLoop Views.
Import SudokuIndex Masks DlxCells SudokuMatrix.

(** A list of writes to distinct slots. *)
Lemma fold_writes (ps : list (Z * Z)) :
  ∀ s : list Z,
    NoDup (ps.*1) → (∀ p, p ∈ ps → 0 ≤ p.1 < Z.of_nat (length s)) →
    length (foldl (λ s p, aset s p.1 p.2) s ps) = length s ∧
    (∀ i v, (i, v) ∈ ps → aget (foldl (λ s p, aset s p.1 p.2) s ps) i = v) ∧
    (∀ i, 0 ≤ i → i ∉ ps.*1 →
          aget (foldl (λ s p, aset s p.1 p.2) s ps) i = aget s i).
Proof.
  induction ps as [|[j w] ps IH]; intros s Hnd Hr.
  - simpl. split_and!; [done| |done]. intros i v Hin. by apply elem_of_nil in Hin.
  - rewrite fmap_cons in Hnd. apply NoDup_cons in Hnd as [Hj Hnd]. cbn [fst] in Hj.
    pose proof (Hr (j, w) ltac:(set_solver)) as Hjr. cbn [fst] in Hjr.
    cbn [foldl fst snd].
    destruct (IH (aset s j w) Hnd) as (Hlen & Hin & Hout).
    { intros p Hp. rewrite length_aset. apply Hr. set_solver. }
    split_and!.
    + by rewrite Hlen, length_aset.
    + intros i v [[= -> ->]|Hiv]%elem_of_cons; [|by apply Hin].
      rewrite Hout by (done || lia). by apply aget_aset_eq.
    + intros i Hi Hni. rewrite fmap_cons in Hni.
      apply not_elem_of_cons in Hni as [Hne Hni]. cbn [fst] in Hne.
      rewrite Hout by done. apply aget_aset_ne; [lia|done|done].
Qed.

(** The loop over the slots of a buffer that holds [l] at the offset
    [length pre]. *)
Lemma loop_over_list {St} (F : Z → St → St) (l : list Z) :
  ∀ (pre rest : list Z) (s : St),
    foldl (λ acc i, F (aget (pre ++ l ++ rest) i) acc) s
      (seqZ (Z.of_nat (length pre)) (Z.of_nat (length l))) =
    foldl (λ acc r, F r acc) s l.
Proof.
  induction l as [|a l IH]; intros pre rest s; [done|].
  rewrite seqZ_cons by (simpl; lia). cbn [foldl].
  replace (aget (pre ++ (a :: l) ++ rest) (Z.of_nat (length pre))) with a.
  2:{ unfold aget. rewrite Nat2Z.id, lookup_app_r by lia.
      by rewrite Nat.sub_diag. }
  specialize (IH (pre ++ [a]) rest (F a s)).
  rewrite length_app in IH. simpl in IH.
  rewrite <- (assoc_L (++)) in IH. simpl in IH.
  replace (Z.succ (Z.of_nat (length pre))) with (Z.of_nat (length pre + 1)) by lia.
  replace (Z.pred (Z.of_nat (length (a :: l)))) with (Z.of_nat (length l))
    by (simpl; lia).
  exact IH.
Qed.

(** [fill_solution] on a buffer that holds the rows [path] and then -1. *)
Lemma fill_path g (path : list Z) (k : nat) :
  (∀ r, r ∈ path → r ≠ -1) →
  fill_solution g (path ++ replicate k (-1)) (Z.of_nat (length path + k)) =
  foldl (λ s p, aset s p.1 p.2) g
    ((λ r, (GRID_IDX (DLX_X r) (DLX_Y r), DLX_V r)) <$> path).
Proof.
  intros Hne. unfold fill_solution, loop.
  rewrite Nat2Z.inj_add, seqZ_app by lia. rewrite foldl_app. rewrite Z.add_0_l.
  set (F := λ (r : Z) (s : list Z),
              if negb (r =? -1) then aset s (GRID_IDX (DLX_X r) (DLX_Y r)) (DLX_V r)
              else s).
  change (foldl (λ acc i, F (aget (path ++ replicate k (-1)) i) acc)
            (foldl (λ acc i, F (aget (path ++ replicate k (-1)) i) acc) g
               (seqZ 0 (Z.of_nat (length path))))
            (seqZ (Z.of_nat (length path)) (Z.of_nat k)) =
          foldl (λ s p, aset s p.1 p.2) g
            ((λ r, (GRID_IDX (DLX_X r) (DLX_Y r), DLX_V r)) <$> path)).
  pose proof (loop_over_list F path [] (replicate k (-1)) g) as H1.
  cbn [app length] in H1. change (Z.of_nat 0) with 0 in H1. rewrite H1.
  pose proof (loop_over_list F (replicate k (-1)) path []
                (foldl (λ acc r, F r acc) g path)) as H2.
  rewrite app_nil_r, length_replicate in H2. rewrite H2.
  assert (Hskip : ∀ (n : nat) s, foldl (λ acc r, F r acc) s (replicate n (-1)) = s).
  { clear. intros n s. induction n as [|n IH]; [done|]. simpl. exact IH. }
  rewrite Hskip. rewrite foldl_fmap. clear H1 H2 Hskip.
  revert g. induction path as [|r path IH]; intros g; [done|].
  cbn [foldl fst snd]. rewrite <- IH by (intros r' Hr'; apply Hne; set_solver).
  f_equal. unfold F. rewrite (proj2 (Z.eqb_neq r (-1))) by (apply Hne; set_solver).
  done.
Qed.

Section solved.
Variables (g : sudoku) (cells : gmap Z bool) (count : Z) (path : list Z).
Hypothesis Hinv : cells_inv g (λ _ _ _, True) (cells, count).
Hypothesis Hlen : length g = 81%nat.
Hypothesis Hnd : NoDup path.
Hypothesis Hpl : Z.of_nat (length path) < 81.
Hypothesis Hcov : exact_cover cells 324 729 false (list_to_set path).

Lemma path_rows r :
  r ∈ path → ∃ v x y, candidate g v x y ∧ r = DLX_ROW v x y.
Proof.
  intros Hr. destruct Hcov as [H1 _].
  destruct (H1 r) as [c Hc]; [by apply elem_of_list_to_set|].
  apply (hits_candidate g cells count Hinv) in Hc as (v & x & y & Hcand & -> & _).
  by exists v, x, y.
Qed.

Lemma path_unique r1 r2 c :
  r1 ∈ path → r2 ∈ path →
  hits cells 324 729 r1 c → hits cells 324 729 r2 c → r1 = r2.
Proof.
  intros Hr1 Hr2 Hh1 Hh2. destruct Hcov as [_ H2].
  destruct (H2 c) as (r0 & _ & _ & Huniq).
  { pose proof Hh1 as (_ & ? & _). split; [done|]. right. by exists r1. }
  rewrite (Huniq r1), (Huniq r2); [done| |done| |done];
    by apply elem_of_list_to_set.
Qed.

Lemma placement_hits v x y c :
  candidate g v x y → c ∈ placement_columns v x y →
  hits cells 324 729 (DLX_ROW v x y) c.
Proof.
  intros Hcand Hc. apply (hits_candidate g cells count Hinv). by exists v, x, y.
Qed.

Lemma path_covers_cell v0 x y :
  candidate g v0 x y → ∃ v, candidate g v x y ∧ DLX_ROW v x y ∈ path.
Proof.
  intros Hcand. pose proof Hcand as (Hv0 & Hxy & _). destruct Hcov as [_ H2].
  destruct (H2 (DLX_COL1 v0 x y)) as (r & Hr%elem_of_list_to_set & Hh & _).
  { pose proof (col_ranges v0 x y Hv0 Hxy) as (R1 & _). split; [lia|]. right.
    exists (DLX_ROW v0 x y). apply placement_hits; [done|].
    unfold placement_columns. set_solver. }
  apply (hits_candidate g cells count Hinv) in Hh as (v & x' & y' & Hc' & -> & Hin).
  pose proof Hc' as (Hv & Hxy' & _).
  destruct (cell_column_placement v0 x y v x' y' Hv0 Hxy Hv Hxy' Hin) as [-> ->].
  by exists v.
Qed.

Lemma writes_of_row v x y :
  candidate g v x y → DLX_ROW v x y ∈ path → (GRID_IDX x y, v + 1) ∈ writes path.
Proof.
  intros (Hv & Hxy & _) Hin. unfold writes. apply list_elem_of_fmap.
  exists (DLX_ROW v x y). split; [|done].
  by destruct (row_decode v x y Hv Hxy) as (-> & -> & -> & _).
Qed.

Lemma writes_target i :
  i ∈ (writes path).*1 → ∃ v x y, candidate g v x y ∧ DLX_ROW v x y ∈ path ∧ i = GRID_IDX x y.
Proof.
  unfold writes. rewrite <- list_fmap_compose.
  intros (r & -> & Hr)%list_elem_of_fmap.
  destruct (path_rows r Hr) as (v & x & y & Hcand & ->).
  pose proof Hcand as (Hv & Hxy & _).
  exists v, x, y. split_and!; [done..|]. cbn.
  by destruct (row_decode v x y Hv Hxy) as (-> & -> & _).
Qed.

Lemma writes_nodup : NoDup ((writes path).*1).
Proof.
  unfold writes. rewrite <- list_fmap_compose.
  apply NoDup_fmap_2_strong; [|done].
  intros r1 r2 Hr1 Hr2. cbn.
  destruct (path_rows r1 Hr1) as (v1 & x1 & y1 & Hc1 & ->).
  destruct (path_rows r2 Hr2) as (v2 & x2 & y2 & Hc2 & ->).
  pose proof Hc1 as (Hv1 & Hxy1 & _). pose proof Hc2 as (Hv2 & Hxy2 & _).
  destruct (row_decode v1 x1 y1 Hv1 Hxy1) as (-> & -> & _).
  destruct (row_decode v2 x2 y2 Hv2 Hxy2) as (-> & -> & _).
  intros [-> ->]%grid_idx_inj; [|done..].
  apply (path_unique _ _ (DLX_COL1 v1 x2 y2)); [done..| |].
  - apply placement_hits; [done|]. unfold placement_columns. set_solver.
  - apply placement_hits; [done|]. unfold placement_columns.
    change (DLX_COL1 v1 x2 y2) with (DLX_COL1 v2 x2 y2). set_solver.
Qed.

Lemma writes_range p : p ∈ writes path → 0 ≤ p.1 < Z.of_nat (length g).
Proof.
  intros Hp.
  destruct (writes_target p.1) as (v & x & y & Hcand & _ & ->).
  { apply list_elem_of_fmap. by exists p. }
  pose proof Hcand as (_ & Hxy & _).
  destruct (grid_xy x y Hxy) as (_ & _ & ?). lia.
Qed.

(** The grid [fill_solution] leaves behind. *)
Lemma solved_grid_spec :
  let g' := fill_solution g
              (path ++ replicate (Z.to_nat (81 - Z.of_nat (length path))) (-1))
              GRID_SIZE in
  length g' = 81%nat ∧
  (∀ x y, in_grid x y → cellv g x y ≠ 0 → cellv g' x y = cellv g x y) ∧
  (∀ x y v0, candidate g v0 x y →
             ∃ v, candidate g v x y ∧ DLX_ROW v x y ∈ path ∧ cellv g' x y = v + 1) ∧
  (∀ x y, in_grid x y → cellv g x y = 0 → (∀ v, ¬ candidate g v x y) →
          cellv g' x y = 0).
Proof.
  cbv zeta.
  replace GRID_SIZE
    with (Z.of_nat (length path + Z.to_nat (81 - Z.of_nat (length path))))
    by (unfold GRID_SIZE, SUDOKU_SIZE; lia).
  rewrite fill_path.
  2:{ intros r Hr ->. destruct (path_rows _ Hr) as (v & x & y & Hcand & E).
      pose proof (candidate_row g v x y Hcand). lia. }
  fold (writes path).
  destruct (fold_writes (writes path) g writes_nodup writes_range) as (Hl & Hin & Hout).
  split_and!.
  - by rewrite Hl.
  - intros x y Hxy Hne. unfold cellv.
    destruct (grid_xy x y Hxy) as (_ & _ & Hr).
    apply Hout; [lia|]. intros (v & x' & y' & Hcand & _ & E)%writes_target.
    pose proof Hcand as (_ & Hxy' & Hz & _).
    apply grid_idx_inj in E as [-> ->]; done.
  - intros x y v0 Hc0.
    destruct (path_covers_cell v0 x y Hc0) as (v & Hcand & Hr).
    exists v. split_and!; [done..|]. unfold cellv. apply Hin.
    by apply writes_of_row.
  - intros x y Hxy Hz Hnone. unfold cellv.
    destruct (grid_xy x y Hxy) as (_ & _ & Hr).
    rewrite Hout; [done|lia|].
    intros (v & x' & y' & Hcand & _ & E)%writes_target.
    pose proof Hcand as (_ & Hxy' & _).
    apply grid_idx_inj in E as [-> ->]; [|done..]. by apply (Hnone v).
Qed.

(** Every cell is left as it was, or was given a candidate by a row of
    the cover. *)
Lemma cell_status x y :
  in_grid x y →
  let g' := fill_solution g
              (path ++ replicate (Z.to_nat (81 - Z.of_nat (length path))) (-1))
              GRID_SIZE in
  (cellv g' x y = cellv g x y ∧ ∀ v, DLX_ROW v x y ∈ path → ¬ candidate g v x y) ∨
  (∃ v, candidate g v x y ∧ DLX_ROW v x y ∈ path ∧ cellv g' x y = v + 1).
Proof.
  intros Hxy. cbv zeta.
  destruct (decide (GRID_IDX x y ∈ (writes path).*1)) as [Hin|Hout].
  - right. apply writes_target in Hin as (v & x' & y' & Hcand & Hr & E).
    pose proof Hcand as (_ & Hxy' & _).
    apply grid_idx_inj in E as [<- <-]; [|done..].
    destruct solved_grid_spec as (_ & _ & H3 & _).
    destruct (H3 x y v Hcand) as (v' & Hc' & Hr' & Hv').
    by exists v'.
  - left. split.
    + replace GRID_SIZE
        with (Z.of_nat (length path + Z.to_nat (81 - Z.of_nat (length path))))
        by (unfold GRID_SIZE, SUDOKU_SIZE; lia).
      rewrite fill_path.
      2:{ intros r Hr ->. destruct (path_rows _ Hr) as (v & x' & y' & Hcand & E).
          pose proof (candidate_row g v x' y' Hcand). lia. }
      fold (writes path).
      destruct (fold_writes (writes path) g writes_nodup writes_range) as (_ & _ & Ho).
      unfold cellv. apply Ho; [|done].
      destruct (grid_xy x y Hxy) as (_ & _ & ?). lia.
    + intros v Hr Hcand. apply Hout.
      apply list_elem_of_fmap. exists (GRID_IDX x y, v + 1). split; [done|].
      by apply writes_of_row.
Qed.

Lemma same_unit_sym x y x' y' : same_unit x y x' y' → same_unit x' y' x y.
Proof. unfold same_unit. intros [?|[?|?]]; auto. Qed.

(** [fill_solution] adds no conflict: two cells of one unit that hold the
    same digit afterwards held it before. *)
Lemma solved_no_conflict x y x' y' :
  in_grid x y → in_grid x' y' → same_unit x y x' y' → ¬ (x = x' ∧ y = y') →
  let g' := fill_solution g
              (path ++ replicate (Z.to_nat (81 - Z.of_nat (length path))) (-1))
              GRID_SIZE in
  cellv g' x y = cellv g' x' y' → cellv g' x y ≠ 0 →
  cellv g x y = cellv g' x y ∧ cellv g x' y' = cellv g' x' y'.
Proof.
  intros Hxy Hxy' Hu Hne. cbv zeta. intros E Hnz.
  destruct (cell_status x y Hxy) as [[Ea _]|(v & Hca & Hra & Ea)];
    destruct (cell_status x' y' Hxy') as [[Eb _]|(v' & Hcb & Hrb & Eb)];
    cbv zeta in *.
  - by rewrite Ea, Eb.
  - exfalso. destruct Hcb as (_ & _ & _ & Hnu). apply Hnu.
    exists x, y. split_and!; [done|by apply same_unit_sym|]. congruence.
  - exfalso. destruct Hca as (_ & _ & _ & Hnu). apply Hnu.
    exists x', y'. split_and!; [done|done|]. congruence.
  - exfalso. assert (v' = v) as -> by lia.
    destruct (placements_share v x y x' y' Hu) as (c & Hc & Hc').
    assert (Er : DLX_ROW v x y = DLX_ROW v x' y').
    { apply (path_unique _ _ c); [done..| |]; by apply placement_hits. }
    pose proof Hca as (Hv & _).
    apply row_inj in Er as (_ & -> & ->); [|done..]. by apply Hne.
Qed.

End solved.

End FillSolution.

(** * What [sudoku_solve] returns *)

Module SolveSpec.
Import Util Solver Dlx Sudoku InitSpec ExactCover SudokuSpec SudokuLoop Views.
Import SudokuIndex Masks DlxCells SudokuMatrix SolveRuns FillSolution.

Lemma sudoku_solve_spec g fuel r :
  length g = 81%nat →
  (∃ x y, in_grid x y ∧ cellv g x y ≠ 0) → 3241 ≤ Z.of_nat fuel →
  ∃ cells count (b : bool) g' r',
    cells_inv g (λ _ _ _, True) (cells, count) ∧
    sudoku_solve fuel g r = Ok (b, g', r') ∧ length g' = 81%nat ∧
    (b = false → g' = g ∧ ∀ R : gset Z, ¬ exact_cover cells 324 729 false R) ∧
    (b = true →
     (∀ x y, in_grid x y → cellv g x y ≠ 0 → cellv g' x y = cellv g x y) ∧
     (∀ x y v0, candidate g v0 x y →
                ∃ v, candidate g v x y ∧ cellv g' x y = v + 1) ∧
     (∀ x y, in_grid x y → cellv g x y = 0 → (∀ v, ¬ candidate g v x y) →
             cellv g' x y = 0) ∧
     (∀ x y x' y',
        in_grid x y → in_grid x' y' → same_unit x y x' y' →
        ¬ (x = x' ∧ y = y') →
        cellv g' x y = cellv g' x' y' → cellv g' x y ≠ 0 →
        cellv g x y = cellv g' x y ∧ cellv g x' y' = cellv g' x' y')).
Proof.
  intros Hlen Hhint Hfuel.
  destruct (sudoku_solve_runs g fuel r Hhint Hfuel)
    as (cells & count & b & path & r' & Hinv & Hrun & Htrue & Hfalse).
  exists cells, count, b. destruct b.
  - destruct (Htrue eq_refl) as (Hnd & Hpl & Hcov).
    eexists _, r'. split; [exact Hinv|]. split; [exact Hrun|].
    destruct (solved_grid_spec g cells count path Hinv Hlen Hnd Hpl Hcov)
      as (H1 & H2 & H3 & H4).
    split_and!; [exact H1|intros [=]|]. intros _. split_and!; [exact H2| |exact H4|].
    + intros x y v0 Hc. destruct (H3 x y v0 Hc) as (v & Hv & _ & Ev).
      exists v. split; [exact Hv|exact Ev].
    + intros x y x' y' Hxy Hxy' Hu Hne.
      exact (solved_no_conflict g cells count path Hinv Hlen Hnd Hpl Hcov
               x y x' y' Hxy Hxy' Hu Hne).
  - exists g, r'. split_and!; [exact Hinv|exact Hrun|exact Hlen| |intros [=]].
    intros _. split; [reflexivity|]. apply Hfalse. reflexivity.
Qed.

End SolveSpec.

(** * The executable checks of a grid *)

Module GridChecks.
Import Util Solver Sudoku InitSpec ExactCover SudokuSpec SudokuLoop Views.
Import SudokuIndex.

Lemma cells81_in x y : (x, y) ∈ cells81 ↔ in_grid x y.
Proof.
  unfold cells81, in_grid. rewrite list_elem_of_bind. split.
  - intros (a & (b & Hb%list_elem_of_singleton & Hy%elem_of_seqZ)%list_elem_of_bind
              & Hx%elem_of_seqZ).
    injection Hb as -> ->. lia.
  - intros [Hx Hy]. exists x. split; [|apply elem_of_seqZ; lia].
    apply list_elem_of_bind. exists y. split; [set_solver|apply elem_of_seqZ; lia].
Qed.

Lemma same_unitb_spec x y x' y' :
  same_unitb x y x' y' = true ↔ same_unit x y x' y'.
Proof.
  unfold same_unitb, same_unit. rewrite !orb_true_iff, !Z.eqb_eq. tauto.
Qed.

Lemma usedb_spec g d x y : usedb g d x y = true ↔ used g d x y.
Proof.
  unfold usedb, used. rewrite existsb_exists. split.
  - intros ([x' y'] & Hin%list_elem_of_In%cells81_in & H).
    apply andb_true_iff in H as [Hu%same_unitb_spec He%Z.eqb_eq].
    by exists x', y'.
  - intros (x' & y' & Hin & Hu & He). exists (x', y'). split.
    + by apply list_elem_of_In, cells81_in.
    + apply andb_true_iff. split; [by apply same_unitb_spec|by apply Z.eqb_eq].
Qed.

Lemma candidateb_spec g v x y :
  0 ≤ v < 9 → in_grid x y →
  candidateb g v x y = true ↔ candidate g v x y.
Proof.
  intros Hv Hxy. unfold candidateb, candidate.
  rewrite andb_true_iff, negb_true_iff, Z.eqb_eq, <- not_true_iff_false, usedb_spec.
  tauto.
Qed.

Lemma consistentb_spec g : consistentb g = true → consistent g.
Proof.
  unfold consistentb. rewrite forallb_forall.
  intros H x y x' y' Hxy Hxy' Hu He Hnz.
  specialize (H (x, y) ltac:(by apply list_elem_of_In, cells81_in)).
  cbn beta iota in H. rewrite forallb_forall in H.
  specialize (H (x', y') ltac:(by apply list_elem_of_In, cells81_in)).
  cbn beta iota in H.
  apply orb_true_iff in H as [H|H].
  - exfalso. apply negb_true_iff in H.
    rewrite (proj2 (same_unitb_spec x y x' y') Hu) in H.
    rewrite (proj2 (Z.eqb_eq _ _) He) in H.
    rewrite (proj2 (Z.eqb_neq _ _) Hnz) in H. done.
  - apply andb_true_iff in H as [?%Z.eqb_eq ?%Z.eqb_eq]. done.
Qed.

Lemma fillableb_spec g : fillableb g = true → fillable g.
Proof.
  unfold fillableb. rewrite forallb_forall. intros H x y Hxy Hz.
  specialize (H (x, y) ltac:(by apply list_elem_of_In, cells81_in)).
  cbn beta iota in H. rewrite (proj2 (Z.eqb_eq _ _) Hz) in H. cbn [negb orb] in H.
  apply existsb_exists in H as (v & Hv%list_elem_of_In%elem_of_seqZ & Hc).
  exists v. by apply candidateb_spec; [lia|done|].
Qed.

Lemma in_rangeb_spec g :
  in_rangeb g = true →
  length g = 81%nat ∧ ∀ x y, in_grid x y → 0 ≤ cellv g x y ≤ 9.
Proof.
  unfold in_rangeb. intros [Hl%Nat.eqb_eq H]%andb_true_iff. split; [done|].
  rewrite forallb_forall in H. intros x y Hxy. unfold cellv, aget.
  destruct (g !! Z.to_nat (GRID_IDX x y)) as [v|] eqn:E; [|simpl; lia].
  apply list_elem_of_lookup_2, list_elem_of_In, H in E. simpl. lia.
Qed.

Lemma completionb_spec p t : completionb p t = true → completion p t.
Proof.
  unfold completionb.
  intros [[Hr%in_rangeb_spec Hc%consistentb_spec]%andb_true_iff H]%andb_true_iff.
  destruct Hr as [Hlen Hr]. rewrite forallb_forall in H.
  assert (Hcell : ∀ x y, in_grid x y →
            cellv t x y ≠ 0 ∧ (cellv p x y ≠ 0 → cellv t x y = cellv p x y)).
  { intros x y Hxy.
    specialize (H (x, y) ltac:(by apply list_elem_of_In, cells81_in)).
    cbn beta iota in H. apply andb_true_iff in H as [Hnz Hp].
    apply negb_true_iff, Z.eqb_neq in Hnz. split; [exact Hnz|]. intros Hpz.
    apply orb_true_iff in Hp as [Hp%Z.eqb_eq|Hp%Z.eqb_eq]; [by destruct Hpz|exact Hp]. }
  clear H. split; [split_and!|].
  - exact Hlen.
  - intros x y Hxy. specialize (Hr x y Hxy). destruct (Hcell x y Hxy) as [? _]. lia.
  - intros x y x' y' Hxy Hxy' Hu E. apply (Hc x y x' y' Hxy Hxy' Hu E).
    by destruct (Hcell x y Hxy).
  - intros x y Hxy Hnz. by destruct (Hcell x y Hxy) as [_ ->].
Qed.

End GridChecks.

(** * Completions of a grid and exact covers of its matrix *)

Module Completions.
Import Util Solver Sudoku InitSpec ExactCover SudokuSpec SudokuLoop Views.
Import SudokuIndex DlxCells SudokuMatrix SolveSpec GridChecks.

Lemma rows_of_spec p t r :
  r ∈ rows_of p t ↔
  ∃ x y, in_grid x y ∧ cellv p x y = 0 ∧ r = DLX_ROW (cellv t x y - 1) x y.
Proof.
  unfold rows_of. rewrite elem_of_list_to_set, list_elem_of_fmap. split.
  - intros (i & -> & Hi). apply list_elem_of_filter in Hi as [Hz Hi%elem_of_seqZ].
    exists (GRID_X i), (GRID_Y i).
    destruct (grid_idx i) as [Hg E]; [unfold GRID_SIZE, SUDOKU_SIZE in *; lia|].
    unfold cellv. rewrite E. done.
  - intros (x & y & Hxy & Hz & ->). exists (GRID_IDX x y).
    destruct (grid_xy x y Hxy) as (E1 & E2 & Hr). rewrite E1, E2. split; [done|].
    apply list_elem_of_filter. split; [done|]. apply elem_of_seqZ.
    unfold GRID_SIZE, SUDOKU_SIZE. lia.
Qed.

Lemma grid_ext (t1 t2 : sudoku) :
  length t1 = 81%nat → length t2 = 81%nat →
  (∀ x y, in_grid x y → cellv t1 x y = cellv t2 x y) → t1 = t2.
Proof.
  intros H1 H2 He. apply list_eq. intros i.
  destruct (decide (i < 81)%nat) as [Hi|Hi].
  - destruct (grid_idx (Z.of_nat i)) as [Hg E]; [lia|].
    specialize (He _ _ Hg). unfold cellv, aget in He. rewrite E, Nat2Z.id in He.
    destruct (lookup_lt_is_Some_2 t1 i) as [a Ha]; [lia|].
    destruct (lookup_lt_is_Some_2 t2 i) as [b Hb]; [lia|].
    rewrite Ha, Hb in *. simpl in He. by subst.
  - rewrite !lookup_ge_None_2 by lia. done.
Qed.

(** A row, a column or a section of a valid grid, as nine cells [f 0],
    ..., [f 8]: every digit stands in one of them. *)
Lemma unit_digit t (f : Z → Z * Z) d :
  valid t →
  (∀ j, 0 ≤ j < 9 → in_grid (f j).1 (f j).2) →
  (∀ i j, 0 ≤ i < 9 → 0 ≤ j < 9 → same_unit (f i).1 (f i).2 (f j).1 (f j).2) →
  (∀ i j, 0 ≤ i < 9 → 0 ≤ j < 9 → f i = f j → i = j) →
  1 ≤ d ≤ 9 →
  ∃ j, 0 ≤ j < 9 ∧ cellv t (f j).1 (f j).2 = d.
Proof.
  intros (Hlen & Hrange & Hinj) Hin Hu Hf Hd.
  set (l := (λ j, cellv t (f j).1 (f j).2) <$> seqZ 0 9).
  assert (Hnd : NoDup l).
  { apply NoDup_fmap_2_strong; [|apply NoDup_seqZ].
    intros i j Hi%elem_of_seqZ Hj%elem_of_seqZ E. apply Hf; [lia..|].
    destruct (Hinj _ _ _ _ (Hin i ltac:(lia)) (Hin j ltac:(lia))
                (Hu i j ltac:(lia) ltac:(lia)) E) as [E1 E2].
    destruct (f i), (f j); simpl in *; congruence. }
  assert (Hsub : l ⊆+ seqZ 1 9).
  { apply NoDup_submseteq; [done|].
    intros v (j & -> & Hj%elem_of_seqZ)%list_elem_of_fmap. apply elem_of_seqZ.
    specialize (Hrange _ _ (Hin j ltac:(lia))). lia. }
  assert (Hp : l ≡ₚ seqZ 1 9).
  { apply submseteq_length_Permutation; [done|].
    unfold l. rewrite length_fmap, !length_seqZ. lia. }
  assert (Hdl : d ∈ l) by (rewrite Hp; apply elem_of_seqZ; lia).
  apply list_elem_of_fmap in Hdl as (j & -> & Hj%elem_of_seqZ).
  exists j. split; [lia|done].
Qed.

(** Two placements with a common column other than a cell column put the
    same digit into cells of one row, one column or one section. *)
Lemma share_column v x y v' x' y' c :
  0 ≤ v < 9 → in_grid x y → 0 ≤ v' < 9 → in_grid x' y' →
  c ∈ placement_columns v x y → c ∈ placement_columns v' x' y' → 81 ≤ c →
  v = v' ∧ same_unit x y x' y'.
Proof.
  intros Hv Hxy Hv' Hxy' Hc Hc' Hge.
  pose proof (col_ranges v x y Hv Hxy) as (R1 & R2 & R3 & R4).
  pose proof (col_ranges v' x' y' Hv' Hxy') as (R1' & R2' & R3' & R4').
  unfold placement_columns in Hc, Hc'.
  rewrite !elem_of_cons, elem_of_nil in Hc, Hc'.
  destruct Hc as [E|[E|[E|[E|[]]]]]; destruct Hc' as [E'|[E'|[E'|[E'|[]]]]];
    try lia; rewrite E in E'.
  - destruct (col2_inj v x y v' x' y' Hv Hv' Hxy Hxy' E') as [-> ->].
    split; [done|]. by left.
  - destruct (col3_inj v x y v' x' y' Hv Hv' Hxy Hxy' E') as [-> ->].
    split; [done|]. right. by left.
  - destruct (col4_inj v x y v' x' y' Hv Hv' Hxy Hxy' E') as [-> Es].
    split; [done|]. right. by right.
Qed.

Section completions.
Variables (g t : sudoku) (cells : gmap Z bool) (count : Z).
Hypothesis Hcells : cells_inv g (λ _ _ _, True) (cells, count).
Hypothesis Hcomp : completion g t.

Lemma completion_candidate x y :
  in_grid x y → cellv g x y = 0 → candidate g (cellv t x y - 1) x y.
Proof.
  destruct Hcomp as [(Hlen & Hrange & Hinj) Hkeep]. intros Hxy Hz.
  pose proof (Hrange x y Hxy) as Hr. split_and!; [lia|lia|exact Hxy|exact Hz|].
  intros (x' & y' & Hxy' & Hu & E).
  replace (cellv t x y - 1 + 1) with (cellv t x y) in E by lia.
  assert (Hnz : cellv g x' y' ≠ 0) by lia.
  rewrite <- (Hkeep x' y' Hxy' Hnz) in E.
  destruct (Hinj x y x' y' Hxy Hxy' Hu) as [-> ->]; [by rewrite E|]. done.
Qed.

Lemma completion_consistent : consistent g.
Proof.
  destruct Hcomp as [(Hlen & Hrange & Hinj) Hkeep].
  intros x y x' y' Hxy Hxy' Hu E Hnz. apply (Hinj x y x' y' Hxy Hxy' Hu).
  rewrite (Hkeep x y Hxy Hnz), (Hkeep x' y' Hxy') by congruence. exact E.
Qed.

Lemma completion_fillable : fillable g.
Proof.
  intros x y Hxy Hz. exists (cellv t x y - 1). by apply completion_candidate.
Qed.

Lemma completion_range x y : in_grid x y → 0 ≤ cellv g x y ≤ 9.
Proof.
  destruct Hcomp as [(Hlen & Hrange & Hinj) Hkeep]. intros Hxy.
  destruct (decide (cellv g x y = 0)) as [->|Hnz]; [lia|].
  rewrite <- (Hkeep x y Hxy Hnz). specialize (Hrange x y Hxy). lia.
Qed.

Lemma rows_hit x y c :
  in_grid x y → cellv g x y = 0 →
  c ∈ placement_columns (cellv t x y - 1) x y →
  hits cells 324 729 (DLX_ROW (cellv t x y - 1) x y) c.
Proof.
  intros Hxy Hz Hc. apply (hits_candidate g cells count Hcells).
  exists (cellv t x y - 1), x, y. split_and!; [|done|done].
  by apply completion_candidate.
Qed.

Lemma row_hits_inv r c :
  r ∈ rows_of g t → hits cells 324 729 r c →
  ∃ x y, in_grid x y ∧ cellv g x y = 0 ∧ r = DLX_ROW (cellv t x y - 1) x y ∧
         c ∈ placement_columns (cellv t x y - 1) x y.
Proof.
  intros (x & y & Hxy & Hz & ->)%rows_of_spec Hh.
  apply (hits_candidate g cells count Hcells) in Hh
    as (v' & x' & y' & (Hv' & Hxy' & _) & E & Hin).
  pose proof (completion_candidate x y Hxy Hz) as (Hv & _).
  destruct (row_inj _ _ _ _ _ _ Hv Hxy Hv' Hxy' E) as (Ev & -> & ->).
  exists x', y'. split_and!; [done..|]. by rewrite Ev.
Qed.

(** The cell of a unit [f] that holds the digit of a candidate. *)
Lemma unit_cover (f : Z → Z * Z) c v0 x0 y0 :
  candidate g v0 x0 y0 → 81 ≤ c → c ∈ placement_columns v0 x0 y0 →
  (∀ j, 0 ≤ j < 9 → in_grid (f j).1 (f j).2) →
  (∀ i j, 0 ≤ i < 9 → 0 ≤ j < 9 → f i = f j → i = j) →
  (∀ j, 0 ≤ j < 9 → c ∈ placement_columns v0 (f j).1 (f j).2) →
  ∃ x1 y1, in_grid x1 y1 ∧ cellv g x1 y1 = 0 ∧
           c ∈ placement_columns (cellv t x1 y1 - 1) x1 y1 ∧
           ∀ x2 y2, in_grid x2 y2 →
                    c ∈ placement_columns (cellv t x2 y2 - 1) x2 y2 →
                    x2 = x1 ∧ y2 = y1.
Proof.
  intros (Hv0 & Hxy0 & Hz0 & Hnu) Hge Hc0 Hin Hf Hcf.
  pose proof Hcomp as [Hvalid Hkeep]. pose proof Hvalid as (Hlen & Hrange & Hinj).
  destruct (unit_digit t f (v0 + 1) Hvalid Hin) as (j & Hj & Ej); [|done|lia|].
  { intros i j Hi Hj.
    by destruct (share_column v0 _ _ v0 _ _ c Hv0 (Hin i Hi) Hv0 (Hin j Hj)
                   (Hcf i Hi) (Hcf j Hj) Hge). }
  destruct (f j) as [x1 y1] eqn:Ef. cbn [fst snd] in Ej.
  pose proof (Hin j Hj) as Hxy1. pose proof (Hcf j Hj) as Hc1.
  rewrite Ef in Hxy1, Hc1. cbn [fst snd] in Hxy1, Hc1.
  exists x1, y1. split_and!.
  - exact Hxy1.
  - destruct (decide (cellv g x1 y1 = 0)) as [Hz|Hnz]; [exact Hz|]. exfalso.
    apply Hnu. exists x1, y1. split_and!; [exact Hxy1| |].
    + by destruct (share_column v0 x0 y0 v0 x1 y1 c Hv0 Hxy0 Hv0 Hxy1 Hc0 Hc1 Hge).
    + rewrite <- (Hkeep x1 y1 Hxy1 Hnz). exact Ej.
  - rewrite Ej. replace (v0 + 1 - 1) with v0 by lia. exact Hc1.
  - intros x2 y2 Hxy2 Hc2. pose proof (Hrange x2 y2 Hxy2) as Hr2.
    destruct (share_column (cellv t x2 y2 - 1) x2 y2 v0 x1 y1 c ltac:(lia) Hxy2 Hv0 Hxy1 Hc2 Hc1 Hge)
      as [Ev Hu].
    apply (Hinj x2 y2 x1 y1 Hxy2 Hxy1 Hu). lia.
Qed.

(** The rows that a completion puts into the empty cells are an exact
    cover of the matrix of the grid. *)
Lemma completion_cover : exact_cover cells 324 729 false (rows_of g t).
Proof.
  pose proof Hcomp as [Hvalid Hkeep]. pose proof Hvalid as (Hlen & Hrange & Hinj).
  split.
  - intros r (x & y & Hxy & Hz & ->)%rows_of_spec.
    exists (DLX_COL1 (cellv t x y - 1) x y). apply rows_hit; [done..|].
    unfold placement_columns. apply list_elem_of_here.
  - intros c [Hc [[=]|(r0 & Hh0)]].
    apply (hits_candidate g cells count Hcells) in Hh0
      as (v0 & x0 & y0 & Hcand & -> & Hin).
    pose proof Hcand as (Hv0 & Hxy0 & Hz0 & Hnu).
    assert (Hcell : ∃ x1 y1, in_grid x1 y1 ∧ cellv g x1 y1 = 0 ∧
              c ∈ placement_columns (cellv t x1 y1 - 1) x1 y1 ∧
              ∀ x2 y2, in_grid x2 y2 →
                       c ∈ placement_columns (cellv t x2 y2 - 1) x2 y2 →
                       x2 = x1 ∧ y2 = y1).
    { pose proof (col_ranges v0 x0 y0 Hv0 Hxy0) as (R1 & R2 & R3 & R4).
      pose proof Hin as Hin'. unfold placement_columns in Hin'.
      rewrite !elem_of_cons, elem_of_nil in Hin'.
      destruct Hin' as [E|[E|[E|[E|[]]]]].
      - exists x0, y0. split_and!; [done|done| |].
        + rewrite E. unfold placement_columns. apply list_elem_of_here.
        + intros x2 y2 Hxy2 Hc2. pose proof (Hrange x2 y2 Hxy2) as Hr2. rewrite E in Hc2.
          apply (cell_column_placement v0 x0 y0 (cellv t x2 y2 - 1) x2 y2 Hv0 Hxy0 ltac:(lia) Hxy2 Hc2).
      - apply (unit_cover (λ j, (j, y0)) c v0 x0 y0 Hcand); [lia|done| | |].
        + intros j Hj. unfold in_grid in *. simpl. lia.
        + intros i j _ _ [=]. done.
        + intros j Hj. simpl. rewrite E. unfold placement_columns.
          apply list_elem_of_further, list_elem_of_here.
      - apply (unit_cover (λ j, (x0, j)) c v0 x0 y0 Hcand); [lia|done| | |].
        + intros j Hj. unfold in_grid in *. simpl. lia.
        + intros i j _ _ [=]. done.
        + intros j Hj. simpl. rewrite E. unfold placement_columns.
          do 2 apply list_elem_of_further. apply list_elem_of_here.
      - apply (unit_cover (λ j, (Z.quot x0 3 * 3 + Z.rem j 3,
                                 Z.quot y0 3 * 3 + Z.quot j 3)) c v0 x0 y0 Hcand);
          [lia|done| | |].
        + intros j Hj. unfold in_grid in *. simpl. qlia.
        + intros i j Hi Hj [=]. qlia.
        + intros j Hj. simpl. rewrite E.
          assert (E4 : DLX_COL4 v0 x0 y0 =
                       DLX_COL4 v0 (Z.quot x0 3 * 3 + Z.rem j 3)
                                (Z.quot y0 3 * 3 + Z.quot j 3)).
          { clear -Hxy0 Hj. unfold_idx. qlia. }
          rewrite E4. unfold placement_columns.
          do 3 apply list_elem_of_further. apply list_elem_of_here. }
    destruct Hcell as (x1 & y1 & Hxy1 & Hz1 & Hc1 & Huniq).
    exists (DLX_ROW (cellv t x1 y1 - 1) x1 y1). split_and!.
    + apply rows_of_spec. by exists x1, y1.
    + by apply rows_hit.
    + intros r' Hr' Hh'.
      destruct (row_hits_inv r' c Hr' Hh') as (x2 & y2 & Hxy2 & Hz2 & -> & Hc2).
      by destruct (Huniq x2 y2 Hxy2 Hc2) as [-> ->].
Qed.

(** Two completions with the same rows are equal. *)
Lemma rows_of_inj t' :
  completion g t' → rows_of g t' = rows_of g t → t' = t.
Proof.
  intros [Hvalid' Hkeep'] E.
  pose proof Hcomp as [Hvalid Hkeep]. pose proof Hvalid as (Hlen & Hrange & Hinj).
  pose proof Hvalid' as (Hlen' & Hrange' & Hinj').
  apply grid_ext; [done..|]. intros x y Hxy.
  destruct (decide (cellv g x y = 0)) as [Hz|Hnz].
  - assert (Hr : DLX_ROW (cellv t' x y - 1) x y ∈ rows_of g t').
    { apply rows_of_spec. by exists x, y. }
    rewrite E in Hr. apply rows_of_spec in Hr as (x2 & y2 & Hxy2 & Hz2 & Er).
    pose proof (Hrange' x y Hxy). pose proof (Hrange x2 y2 Hxy2).
    destruct (row_inj (cellv t' x y - 1) x y (cellv t x2 y2 - 1) x2 y2 ltac:(lia) Hxy ltac:(lia) Hxy2 Er) as (Ev & -> & ->).
    lia.
  - by rewrite (Hkeep x y Hxy Hnz), (Hkeep' x y Hxy Hnz).
Qed.

End completions.

(** A success of [sudoku_solve] on a grid without conflict whose empty
    cells all have a candidate is a completion of the grid. *)
Lemma solve_completion g fuel r g' r' :
  length g = 81%nat → (∀ x y, in_grid x y → 0 ≤ cellv g x y ≤ 9) →
  (∃ x y, in_grid x y ∧ cellv g x y ≠ 0) → 3241 ≤ Z.of_nat fuel →
  consistent g → fillable g →
  sudoku_solve fuel g r = Ok (true, g', r') →
  completion g g'.
Proof.
  intros Hlen Hrange Hhint Hfuel Hcons Hfill Hrun.
  destruct (sudoku_solve_spec g fuel r Hlen Hhint Hfuel)
    as (cells & count & b & g2 & r2 & _ & Hrun2 & Hlen' & _ & Htrue).
  rewrite Hrun in Hrun2. injection Hrun2 as <- <- <-.
  destruct (Htrue eq_refl) as (Hkeep & Hcand & _ & Hnew). clear Htrue Hrun.
  assert (Hdigit : ∀ x y, in_grid x y → 1 ≤ cellv g' x y ≤ 9).
  { intros x y Hxy. destruct (decide (cellv g x y = 0)) as [Hz|Hnz].
    - destruct (Hfill x y Hxy Hz) as [v0 Hc0].
      destruct (Hcand x y v0 Hc0) as (v & (Hv & _) & ->). lia.
    - rewrite (Hkeep x y Hxy Hnz). specialize (Hrange x y Hxy). lia. }
  split; [split_and!|].
  - exact Hlen'.
  - exact Hdigit.
  - intros x y x' y' Hxy Hxy' Hu He.
    destruct (decide (x = x' ∧ y = y')) as [?|Hne]; [assumption|]. exfalso.
    pose proof (Hdigit x y Hxy) as Hd.
    destruct (Hnew x y x' y' Hxy Hxy' Hu Hne He ltac:(lia)) as [E1 E2].
    apply Hne. apply (Hcons x y x' y' Hxy Hxy' Hu); [congruence|lia].
  - exact Hkeep.
Qed.

(** [sudoku_solve] on a grid that has a completion: it finds one. *)
Lemma solve_complete g t fuel r :
  length g = 81%nat → (∃ x y, in_grid x y ∧ cellv g x y ≠ 0) →
  3241 ≤ Z.of_nat fuel → completion g t →
  ∃ g' r', sudoku_solve fuel g r = Ok (true, g', r') ∧ completion g g'.
Proof.
  intros Hlen Hhint Hfuel Hcomp.
  destruct (sudoku_solve_spec g fuel r Hlen Hhint Hfuel)
    as (cells & count & b & g' & r' & Hinv & Hrun & _ & Hfalse & _).
  destruct b.
  - exists g', r'. split; [exact Hrun|].
    apply (solve_completion g fuel r g' r' Hlen); [|exact Hhint|exact Hfuel| | |exact Hrun].
    + apply (completion_range g t Hcomp).
    + apply (completion_consistent g t Hcomp).
    + apply (completion_fillable g t Hcomp).
  - exfalso. destruct (Hfalse eq_refl) as [_ Hnone].
    apply (Hnone (rows_of g t)). apply (completion_cover g t cells count Hinv Hcomp).
Qed.

End Completions.

(** * Renaming the digits of a solved grid *)

Module Relabel.
Import Util Solver Sudoku SudokuSpec SudokuLoop Views.
Import ShuffleFacts GenerationFailure SudokuIndex GridChecks Completions.

Lemma cellv_relabel f t x y :
  length t = 81%nat → in_grid x y → cellv (relabel f t) x y = f (cellv t x y).
Proof.
  intros Hlen Hxy. destruct (grid_xy x y Hxy) as (_ & _ & Hi).
  unfold cellv, aget, relabel. rewrite list_lookup_fmap.
  destruct (lookup_lt_is_Some_2 t (Z.to_nat (GRID_IDX x y))) as [a Ha]; [lia|].
  by rewrite Ha.
Qed.

Lemma relabel_valid f t :
  valid t →
  (∀ d, 1 ≤ d ≤ 9 → 1 ≤ f d ≤ 9) →
  (∀ d d', 1 ≤ d ≤ 9 → 1 ≤ d' ≤ 9 → f d = f d' → d = d') →
  valid (relabel f t).
Proof.
  intros (Hlen & Hrange & Hinj) Hf Hfi. split_and!.
  - unfold relabel. by rewrite length_fmap.
  - intros x y Hxy. rewrite cellv_relabel by done. by apply Hf, Hrange.
  - intros x y x' y' Hxy Hxy' Hu. rewrite !cellv_relabel by done. intros E.
    apply (Hinj x y x' y' Hxy Hxy' Hu). apply Hfi; [by apply Hrange..|done].
Qed.

Lemma swap_digits_range a b d :
  1 ≤ a ≤ 9 → 1 ≤ b ≤ 9 → 1 ≤ d ≤ 9 → 1 ≤ swap_digits a b d ≤ 9.
Proof. intros. unfold swap_digits. repeat case_match; lia. Qed.

Lemma swap_digits_inj a b d d' : swap_digits a b d = swap_digits a b d' → d = d'.
Proof. unfold swap_digits. repeat case_match; lia. Qed.

Lemma base_valid : valid base_grid.
Proof.
  assert (H : completion base_grid base_grid).
  { apply completionb_spec. vm_compute. reflexivity. }
  exact (proj1 H).
Qed.

Lemma base_first_row x : 0 ≤ x < 9 → cellv base_grid x 0 = x + 1.
Proof.
  intros Hx.
  assert (H : x = 0 ∨ x = 1 ∨ x = 2 ∨ x = 3 ∨ x = 4 ∨ x = 5 ∨ x = 6 ∨ x = 7 ∨ x = 8)
    by lia.
  repeat (destruct H as [->|H]; [reflexivity|]). by rewrite H.
Qed.

(** The grid [seed] leaves has a hint and a completion. *)
Lemma seed_completion r :
  length (seed r).1 = 81%nat ∧
  (∃ x y, in_grid x y ∧ cellv (seed r).1 x y ≠ 0) ∧
  ∃ t, completion (seed r).1 t.
Proof.
  destruct (seed_shape r) as (numbers & Hp & ->).
  assert (Hlen : length numbers = 9%nat) by (by rewrite Hp).
  assert (Hnum : ∀ x, 0 ≤ x < 9 → 1 ≤ aget numbers x ≤ 9).
  { intros x Hx. unfold aget.
    destruct (lookup_lt_is_Some_2 numbers (Z.to_nat x)) as [a Ha]; [lia|].
    rewrite Ha. simpl. apply list_elem_of_lookup_2 in Ha. rewrite Hp in Ha.
    apply elem_of_seqZ in Ha. lia. }
  assert (Hninj : ∀ x x', 0 ≤ x < 9 → 0 ≤ x' < 9 →
            aget numbers x = aget numbers x' → x = x').
  { intros x x' Hx Hx'. unfold aget.
    destruct (lookup_lt_is_Some_2 numbers (Z.to_nat x)) as [a Ha]; [lia|].
    destruct (lookup_lt_is_Some_2 numbers (Z.to_nat x')) as [b Hb]; [lia|].
    rewrite Ha, Hb. simpl. intros <-.
    assert (Hnd : NoDup numbers) by (rewrite Hp; apply NoDup_seqZ).
    pose proof (NoDup_lookup _ _ _ _ Hnd Ha Hb). lia. }
  assert (Hcell : ∀ x y, in_grid x y →
            cellv (numbers ++ replicate 72 0) x y =
              if decide (y = 0) then aget numbers x else 0).
  { intros x y [Hx Hy]. unfold cellv, aget, GRID_IDX, SUDOKU_SIZE.
    destruct (decide (y = 0)) as [->|Hne].
    - rewrite lookup_app_l by lia. by rewrite Z.add_0_l.
    - rewrite lookup_app_r by lia. rewrite lookup_replicate_2 by lia. done. }
  split_and!.
  - rewrite length_app, length_replicate. lia.
  - exists 0, 0. split; [unfold in_grid; lia|].
    rewrite Hcell by (unfold in_grid; lia). rewrite decide_True by done.
    specialize (Hnum 0 ltac:(lia)). lia.
  - exists (relabel (λ d, aget numbers (d - 1)) base_grid).
    pose proof base_valid as Hb. pose proof Hb as (Hbl & Hbr & _). split.
    + apply relabel_valid; [done| |].
      * intros d Hd. apply Hnum. lia.
      * intros d d' Hd Hd' E. apply Hninj in E; lia.
    + intros x y Hxy. rewrite Hcell by done. destruct (decide (y = 0)) as [->|]; [|done].
      intros _. rewrite cellv_relabel by done.
      rewrite base_first_row by (destruct Hxy; lia). f_equal. lia.
Qed.

(** A grid with one completion has hints in two cells at least: with a
    single hint, two digits other than the hint's can be exchanged in the
    completion. *)
Lemma second_hint s sol x y :
  only_completion s sol →
  ∃ x' y', in_grid x' y' ∧ ¬ (x' = x ∧ y' = y) ∧ cellv s x' y' ≠ 0.
Proof.
  intros [[Hvalid Hkeep] Huniq]. pose proof Hvalid as (Hlen & Hrange & Hinj).
  destruct (decide (Exists (λ p : Z * Z, ¬ (p.1 = x ∧ p.2 = y) ∧ cellv s p.1 p.2 ≠ 0)
                      cells81)) as [He|Hne].
  - apply Exists_exists in He as ([x' y'] & Hin & Hp & Hnz).
    exists x', y'. split_and!; [|exact Hp|exact Hnz].
    by apply cells81_in.
  - exfalso.
    assert (Hlone : ∀ x' y', in_grid x' y' → cellv s x' y' ≠ 0 → x' = x ∧ y' = y).
    { intros x' y' Hxy' Hnz.
      destruct (decide (x' = x ∧ y' = y)) as [?|Hd]; [done|]. exfalso.
      apply Hne, Exists_exists. exists (x', y'). split; [|done].
      by apply cells81_in. }
    set (d0 := cellv sol x y).
    set (a := if d0 =? 1 then 2 else 1). set (b := if d0 =? 3 then 4 else 3).
    assert (Ha : 1 ≤ a ≤ 2 ∧ a ≠ d0) by (unfold a; case_match; lia).
    assert (Hb : 3 ≤ b ≤ 4 ∧ b ≠ d0) by (unfold b; case_match; lia).
    set (t := relabel (swap_digits a b) sol).
    assert (Ht : completion s t).
    { split.
      - apply relabel_valid; [done| |].
        + intros d Hd. apply swap_digits_range; lia.
        + intros d d' _ _. apply swap_digits_inj.
      - intros x' y' Hxy' Hnz. destruct (Hlone x' y' Hxy' Hnz) as [-> ->].
        unfold t. rewrite cellv_relabel by done. rewrite <- (Hkeep x y Hxy' Hnz).
        fold d0. unfold swap_digits.
        rewrite (proj2 (Z.eqb_neq d0 a)), (proj2 (Z.eqb_neq d0 b)) by lia. done. }
    destruct (unit_digit sol (λ j, (j, 0)) a Hvalid) as (j & Hj & Ej).
    + intros j Hj. unfold in_grid. simpl. lia.
    + intros i j _ _. by left.
    + intros i j _ _ [=]. done.
    + lia.
    + cbn [fst snd] in Ej.
      assert (E : cellv t j 0 = b).
      { unfold t. rewrite cellv_relabel by (done || (unfold in_grid; lia)).
        rewrite Ej. unfold swap_digits. by rewrite Z.eqb_refl. }
      rewrite (Huniq t Ht), Ej in E. lia.
Qed.

End Relabel.

(** * [remove_deduced_hints] *)

Module DeducedHints.
Import Util Solver Sudoku SudokuSpec SudokuLoop Views.
Import SudokuIndex GridChecks Completions Relabel.

Lemma all_on_bits d : 0 ≤ d → Z.testbit 1022 d = true ↔ 1 ≤ d ≤ 9.
Proof.
  intros Hd. destruct (decide (d < 10)) as [Hlt|Hge].
  - assert (H : d = 0 ∨ d = 1 ∨ d = 2 ∨ d = 3 ∨ d = 4 ∨ d = 5 ∨ d = 6 ∨ d = 7 ∨
                d = 8 ∨ d = 9) by lia.
    repeat (destruct H as [->|H];
            [split; [intros Hb; first [lia|vm_compute in Hb; discriminate]
                    |intros Hr; first [reflexivity|lia]]|]).
    subst d. split; [lia|reflexivity].
  - rewrite Z.bits_above_log2 by (change (Z.log2 1022) with 9; lia). split; [done|lia].
Qed.

Lemma clear_bit m v d :
  0 ≤ v → 0 ≤ d →
  Z.testbit (Z.land m (Z.lnot (Z.shiftl 1 v))) d = Z.testbit m d && negb (d =? v).
Proof.
  intros Hv Hd. rewrite Z.land_spec, Z.lnot_spec by lia.
  rewrite Z.shiftl_1_l, Z.pow2_bits_eqb by lia. by rewrite (Z.eqb_sym v d).
Qed.

Lemma cellv_aset s x y v x' y' :
  length s = 81%nat → in_grid x y → in_grid x' y' →
  cellv (aset s (GRID_IDX x y) v) x' y' =
    if decide (x' = x ∧ y' = y) then v else cellv s x' y'.
Proof.
  intros Hlen Hxy Hxy'. unfold cellv.
  destruct (grid_xy x y Hxy) as (_ & _ & Hi).
  destruct (grid_xy x' y' Hxy') as (_ & _ & Hi').
  destruct (decide (x' = x ∧ y' = y)) as [[-> ->]|Hne].
  - apply aget_aset_eq. lia.
  - apply aget_aset_ne; [lia..|]. intros E.
    apply Hne. by destruct (grid_idx_inj x y x' y' Hxy Hxy' E) as [-> ->].
Qed.

Lemma part_of_completion s sol : valid sol → part_of s sol → completion s sol.
Proof.
  intros Hv [_ Hp]. split; [done|]. intros x y Hxy Hnz.
  destruct (Hp x y Hxy) as [?|E]; [done|by symmetry].
Qed.

Lemma valid_only sol : valid sol → only_completion sol sol.
Proof.
  intros Hv. pose proof Hv as (Hlen & Hrange & _). split.
  - split; [done|]. done.
  - intros t [(Hlen' & _) Hkeep]. apply grid_ext; [done..|].
    intros x y Hxy. apply Hkeep; [done|]. specialize (Hrange x y Hxy). lia.
Qed.

(** The masks of a solved grid have the bits 1 to 9 set. *)
Lemma full_masks sol :
  valid sol → masks_track sol (replicate 9 1022) (replicate 9 1022) (replicate 9 1022).
Proof.
  intros Hv. pose proof Hv as (Hlen & Hrange & Hinj).
  split_and!; [done..|]. intros i Hi.
  assert (Ea : aget (replicate 9 1022) i = 1022).
  { unfold aget. rewrite lookup_replicate_2 by lia. done. }
  rewrite Ea.
  assert (Hunit : ∀ (f : Z → Z * Z) (P : Z → Z → Prop),
            (∀ j, 0 ≤ j < 9 → in_grid (f j).1 (f j).2 ∧ P (f j).1 (f j).2) →
            (∀ x y x' y', P x y → P x' y' → same_unit x y x' y') →
            (∀ j j', 0 ≤ j < 9 → 0 ≤ j' < 9 → f j = f j' → j = j') →
            unit_mask sol 1022 P).
  { intros f P Hf HP Hfi d Hd. rewrite (all_on_bits d Hd). split; [|tauto].
    intros Hd9. split; [done|].
    destruct (unit_digit sol f d Hv) as (j & Hj & Ej); [| | |done|].
    - intros j Hj. by destruct (Hf j Hj).
    - intros j j' Hj Hj'. destruct (Hf j Hj), (Hf j' Hj'). by apply HP.
    - done.
    - exists (f j).1, (f j).2. by destruct (Hf j Hj). }
  split_and!.
  - apply (Hunit (λ j, (j, i))).
    + intros j Hj. simpl. unfold in_grid. lia.
    + intros x y x' y' -> ->. by left.
    + intros j j' _ _ [=]. done.
  - apply (Hunit (λ j, (i, j))).
    + intros j Hj. simpl. unfold in_grid. lia.
    + intros x y x' y' -> ->. right. by left.
    + intros j j' _ _ [=]. done.
  - apply (Hunit (λ j, (Z.rem i 3 * 3 + Z.rem j 3, Z.quot i 3 * 3 + Z.quot j 3))).
    + intros j Hj. simpl. unfold_idx. qlia.
    + intros x y x' y' E1 E2. right. right. congruence.
    + intros j j' Hj Hj' [=]. qlia.
Qed.

Section step.
Variables (sol s : sudoku) (x y : Z).
Hypothesis Hvalid : valid sol.
Hypothesis Hpart : part_of s sol.
Hypothesis Hxy : in_grid x y.

Lemma cleared_part : part_of (aset s (GRID_IDX x y) 0) sol.
Proof.
  set (s' := aset s (GRID_IDX x y) 0).
  destruct Hpart as [Hlen Hp]. split; [unfold s'; by rewrite length_aset|].
  intros x' y' Hxy'. unfold s'. rewrite cellv_aset by done.
  destruct (decide _); [by left|by apply Hp].
Qed.

Lemma hint_range : 0 ≤ cellv s x y ≤ 9.
Proof.
  set (v := cellv s x y).
  destruct Hpart as [_ Hp]. destruct Hvalid as (_ & Hr & _). unfold v.
  destruct (Hp x y Hxy) as [->| ->]; [lia|]. specialize (Hr x y Hxy). lia.
Qed.

(** The mask of a unit of the cell, with the bit of its digit cleared,
    is the mask of the unit once the cell is emptied. *)
Lemma mask_clear m (P : Z → Z → Prop) :
  P x y → (∀ x' y', P x' y' → same_unit x y x' y') →
  unit_mask s m P →
  unit_mask (aset s (GRID_IDX x y) 0)
    (Z.land m (Z.lnot (Z.shiftl 1 (cellv s x y)))) P.
Proof.
  set (s' := aset s (GRID_IDX x y) 0). set (v := cellv s x y).
  intros HP Hu Hm d Hd. pose proof hint_range as Hv. fold v in Hv.
  destruct Hpart as [Hlen Hp]. pose proof Hvalid as (_ & Hr & Hinj).
  rewrite clear_bit by lia. rewrite andb_true_iff, negb_true_iff, Z.eqb_neq.
  rewrite (Hm d Hd). split.
  - intros [(Hd9 & x' & y' & Hxy' & HP' & E) Hne]. split; [done|].
    exists x', y'. split_and!; [done..|]. unfold s'. rewrite cellv_aset by done.
    rewrite decide_False; [done|]. intros [-> ->]. by apply Hne.
  - intros (Hd9 & x' & y' & Hxy' & HP' & E). unfold s' in E.
    rewrite cellv_aset in E by done.
    destruct (decide (x' = x ∧ y' = y)) as [?|Hne]; [lia|].
    split; [split; [done|]; by exists x', y'|].
    intros ->. apply Hne.
    destruct (Hp x y Hxy) as [E0|E0]; [fold v in E0; lia|].
    destruct (Hp x' y' Hxy') as [E1|E1]; [lia|].
    destruct (Hinj x y x' y' Hxy Hxy' (Hu x' y' HP')) as [-> ->]; [|done].
    fold v in E0. congruence.
Qed.

Lemma mask_keep m (P : Z → Z → Prop) :
  ¬ P x y → unit_mask s m P → unit_mask (aset s (GRID_IDX x y) 0) m P.
Proof.
  set (s' := aset s (GRID_IDX x y) 0).
  intros HP Hm d Hd. destruct Hpart as [Hlen Hp]. rewrite (Hm d Hd).
  split; intros (Hd9 & x' & y' & Hxy' & HP' & E); (split; [done|]);
    exists x', y'; (split_and!; [done..|]).
  - unfold s'. rewrite cellv_aset by done. rewrite decide_False; [done|].
    by intros [-> ->].
  - unfold s' in E. rewrite cellv_aset in E by done.
    rewrite decide_False in E; [done|]. by intros [-> ->].
Qed.

(** Emptying a cell all of whose other digits stand in its row, column
    or section leaves the completions as they are. *)
Lemma cleared_completion rm cm sm t :
  masks_track s rm cm sm →
  Z.lor (Z.lor (aget rm y) (aget cm x)) (aget sm (SEC_IDX x y)) = 1022 →
  completion (aset s (GRID_IDX x y) 0) t → completion s t.
Proof.
  set (s' := aset s (GRID_IDX x y) 0). set (v := cellv s x y).
  intros (_ & _ & _ & Hm) Hused [Hvt Hkeep].
  pose proof Hvt as (Hlt & Hrt & Hinjt).
  destruct Hpart as [Hlen Hp]. pose proof Hvalid as (_ & Hr & Hinj).
  pose proof (sec_range x y Hxy) as Hsec.
  destruct Hxy as [Hx Hy].
  destruct (Hm y Hy) as (Hrow & _ & _). destruct (Hm x Hx) as (_ & Hcol & _).
  destruct (Hm _ Hsec) as (_ & _ & Hsq).
  split; [done|]. intros x' y' Hxy' Hnz.
  destruct (decide (x' = x ∧ y' = y)) as [[-> ->]|Hne].
  - fold v. fold v in Hnz. pose proof hint_range as Hv. fold v in Hv.
    pose proof (Hrt x y Hxy') as Ht.
    destruct (decide (cellv t x y = v)) as [?|Hd]; [done|]. exfalso.
    set (d := cellv t x y) in *.
    assert (Hbit : Z.testbit 1022 d = true) by (apply all_on_bits; lia).
    rewrite <- Hused, !Z.lor_spec, !orb_true_iff in Hbit.
    assert (Hother : ∃ x2 y2, in_grid x2 y2 ∧ same_unit x y x2 y2 ∧ cellv s x2 y2 = d).
    { destruct Hbit as [[Hb|Hb]|Hb].
      - apply Hrow in Hb as (_ & x2 & y2 & ? & -> & ?); [|lia].
        exists x2, y. split_and!; [done| |done]. by left.
      - apply Hcol in Hb as (_ & x2 & y2 & ? & -> & ?); [|lia].
        exists x, y2. split_and!; [done| |done]. right. by left.
      - apply Hsq in Hb as (_ & x2 & y2 & ? & E & ?); [|lia].
        exists x2, y2. split_and!; [done| |done]. right. by right. }
    destruct Hother as (x2 & y2 & Hxy2 & Hu & E2).
    assert (Hne2 : ¬ (x2 = x ∧ y2 = y)) by (intros [-> ->]; fold v in E2; lia).
    assert (E2' : cellv s' x2 y2 = d).
    { unfold s'. rewrite cellv_aset by done. by rewrite decide_False. }
    assert (Et : cellv t x2 y2 = d) by (rewrite <- E2'; apply Hkeep; [done|lia]).
    destruct (Hinjt x y x2 y2 Hxy' Hxy2 Hu) as [-> ->]; [by rewrite Et|].
    by apply Hne2.
  - assert (E : cellv s' x' y' = cellv s x' y').
    { unfold s'. rewrite cellv_aset by done. by rewrite decide_False. }
    rewrite <- E. apply Hkeep; [done|]. by rewrite E.
Qed.

End step.

(** The loop of [remove_deduced_hints], started on a solved grid: the grid
    is a part of the solved grid whose masks follow it and whose only
    completion is the solved grid. *)
Lemma remove_deduced_hints_spec sol order n :
  valid sol → 0 ≤ n → (∀ i, 0 ≤ i < n → 0 ≤ aget order i < 81) →
  part_of (remove_deduced_hints sol order n) sol ∧
  only_completion (remove_deduced_hints sol order n) sol.
Proof.
  intros Hv Hn Hord. unfold remove_deduced_hints. cbv zeta.
  change (Z.shiftl 1 (SUDOKU_SIZE + 1) - 2) with 1022.
  change (Z.to_nat SUDOKU_SIZE) with 9%nat.
  match goal with |- context [loop n ?b ?s0] =>
    assert (Hl : (λ st : sudoku * list Z * list Z * list Z,
              part_of st.1.1.1 sol ∧ masks_track st.1.1.1 st.1.1.2 st.1.2 st.2 ∧
              ∀ t, completion st.1.1.1 t → t = sol) (loop n b s0)) end.
  { apply (loop_ind (λ _ (st : sudoku * list Z * list Z * list Z),
              part_of st.1.1.1 sol ∧ masks_track st.1.1.1 st.1.1.2 st.1.2 st.2 ∧
              ∀ t, completion st.1.1.1 t → t = sol)); [done| |].
    - cbn [fst snd]. split_and!.
      + split; [by destruct Hv|]. intros. by right.
      + by apply full_masks.
      + by destruct (valid_only sol Hv).
    - intros i [[[s rm] cm] sm] Hi (Hp & Hm & Hu). cbn [fst snd] in *.
      destruct (grid_idx (aget order i) (Hord i Hi)) as [Hxy Eidx].
      set (x := GRID_X (aget order i)) in *. set (y := GRID_Y (aget order i)) in *.
      destruct (Z.lor _ _ =? 1022) eqn:Eu; [|done]. apply Z.eqb_eq in Eu.
      cbn [fst snd]. fold (cellv s x y).
      pose proof (sec_range x y Hxy) as Hsec.
      pose proof Hm as (L1 & L2 & L3 & Hm').
      split_and!.
      + by apply cleared_part.
      + split_and!; [by rewrite length_aset..|]. intros j Hj.
        destruct (Hm' j Hj) as (M1 & M2 & M3). destruct Hxy as [Hx Hy].
        split_and!.
        * destruct (decide (j = y)) as [->|Hne].
          -- rewrite aget_aset_eq by lia.
             apply (mask_clear sol s x y Hv Hp); [done|done|by intros ?? ->; left|done].
          -- rewrite aget_aset_ne by lia.
             apply (mask_keep sol s x y Hp); [done|congruence|done].
        * destruct (decide (j = x)) as [->|Hne].
          -- rewrite aget_aset_eq by lia.
             apply (mask_clear sol s x y Hv Hp);
               [done|done|by intros ?? ->; right; left|done].
          -- rewrite aget_aset_ne by lia.
             apply (mask_keep sol s x y Hp); [done|congruence|done].
        * destruct (decide (j = SEC_IDX x y)) as [->|Hne].
          -- rewrite aget_aset_eq by lia.
             apply (mask_clear sol s x y Hv Hp);
               [done|done|by intros ?? ?; right; right|done].
          -- rewrite aget_aset_ne by lia.
             apply (mask_keep sol s x y Hp); [done|congruence|done].
      + intros t Ht. apply Hu.
        by apply (cleared_completion sol s x y Hv Hp Hxy rm cm sm). }
  destruct (loop n _ _) as [[[s1 rm] cm] sm]. cbn [fst snd] in Hl.
  destruct Hl as (Hp & _ & Hu). split; [done|]. split; [|done].
  by apply part_of_completion.
Qed.

End DeducedHints.

(** * From an exact cover to a completion *)

Module CoverCompletion.
Import Util Solver Sudoku InitSpec ExactCover SudokuSpec SudokuLoop Views.
Import SudokuIndex DlxCells SudokuMatrix FillSolution GridChecks Completions.

(** An exact cover of the matrix of a grid with a hint has fewer than 81
    rows: its rows fill different empty cells. *)
Lemma cover_short g cells count path :
  cells_inv g (λ _ _ _, True) (cells, count) →
  (∃ x y, in_grid x y ∧ cellv g x y ≠ 0) →
  NoDup path → exact_cover cells 324 729 false (list_to_set path) →
  Z.of_nat (length path) < 81.
Proof.
  intros Hinv (hx & hy & Hh & Hnz) Hnd Hcov.
  set (f := λ r, (DLX_X r, DLX_Y r)).
  assert (Hcell : ∀ r, r ∈ path →
            ∃ v x y, candidate g v x y ∧ r = DLX_ROW v x y ∧ f r = (x, y)).
  { intros r Hr.
    destruct (path_rows g cells count path Hinv Hcov r Hr) as (v & x & y & Hc & ->).
    exists v, x, y. split_and!; [done..|]. pose proof Hc as (Hv & Hxy & _).
    destruct (row_decode v x y Hv Hxy) as (E1 & E2 & _). unfold f. by rewrite E1, E2. }
  assert (Hnd' : NoDup ((hx, hy) :: (f <$> path))).
  { apply NoDup_cons. split.
    - intros (r & E & Hr)%list_elem_of_fmap.
      destruct (Hcell r Hr) as (v & x & y & (Hv & Hxy & Hz & _) & _ & E').
      rewrite E' in E. injection E as -> ->. done.
    - apply NoDup_fmap_2_strong; [|done]. intros r1 r2 Hr1 Hr2 E.
      destruct (Hcell r1 Hr1) as (v1 & x1 & y1 & Hc1 & E1 & F1).
      destruct (Hcell r2 Hr2) as (v2 & x2 & y2 & Hc2 & E2 & F2).
      rewrite F1, F2 in E. injection E as -> ->.
      apply (path_unique cells path Hcov r1 r2 (DLX_COL1 v1 x2 y2) Hr1 Hr2).
      + rewrite E1. apply (placement_hits g cells count Hinv); [done|].
        apply list_elem_of_here.
      + rewrite E2. apply (placement_hits g cells count Hinv); [done|].
        change (DLX_COL1 v1 x2 y2) with (DLX_COL1 v2 x2 y2). apply list_elem_of_here. }
  assert (Hsub : (hx, hy) :: (f <$> path) ⊆+ cells81).
  { apply NoDup_submseteq; [done|]. intros [x y] [E|Hin]%elem_of_cons.
    - injection E as -> ->. by apply cells81_in.
    - apply list_elem_of_fmap in Hin as (r & E & Hr).
      destruct (Hcell r Hr) as (v & x' & y' & (Hv & Hxy & _) & _ & E').
      rewrite E' in E. injection E as -> ->. by apply cells81_in. }
  apply submseteq_length in Hsub. simpl in Hsub. rewrite length_fmap in Hsub.
  assert (E81 : length cells81 = 81%nat) by (vm_compute; reflexivity).
  lia.
Qed.

(** In a grid without conflict whose empty cells have candidates, the rows
    of an exact cover are the rows of a completion. *)
Lemma cover_completion g cells count (R : gset Z) :
  cells_inv g (λ _ _ _, True) (cells, count) →
  length g = 81%nat → (∀ x y, in_grid x y → 0 ≤ cellv g x y ≤ 9) →
  (∃ x y, in_grid x y ∧ cellv g x y ≠ 0) →
  consistent g → fillable g →
  exact_cover cells 324 729 false R →
  ∃ t, completion g t ∧ rows_of g t = R.
Proof.
  intros Hinv Hlen Hrange Hhint Hcons Hfill Hcov.
  set (path := elements R).
  assert (Hnd : NoDup path) by apply NoDup_elements.
  assert (ER : list_to_set path = R) by apply list_to_set_elements_L.
  assert (Hcov' : exact_cover cells 324 729 false (list_to_set path)) by by rewrite ER.
  pose proof (cover_short g cells count path Hinv Hhint Hnd Hcov') as Hpl.
  pose proof (solved_grid_spec g cells count path Hinv Hlen Hnd Hpl Hcov')
    as (H1 & H2 & H3 & _).
  pose proof (solved_no_conflict g cells count path Hinv Hlen Hnd Hpl Hcov') as Hnew.
  cbv zeta in Hnew.
  set (t := fill_solution g _ GRID_SIZE) in *. clearbody t.
  assert (Hdigit : ∀ x y, in_grid x y → 1 ≤ cellv t x y ≤ 9).
  { intros x y Hxy. destruct (decide (cellv g x y = 0)) as [Hz|Hnz].
    - destruct (Hfill x y Hxy Hz) as [v0 Hc0].
      destruct (H3 x y v0 Hc0) as (v & (Hv & _) & _ & ->). lia.
    - rewrite (H2 x y Hxy Hnz). specialize (Hrange x y Hxy). lia. }
  exists t. split; [split; [split_and!|]|].
  - exact H1.
  - exact Hdigit.
  - intros x y x' y' Hxy Hxy' Hu He.
    destruct (decide (x = x' ∧ y = y')) as [?|Hne]; [assumption|]. exfalso.
    pose proof (Hdigit x y Hxy) as Hd.
    destruct (Hnew x y x' y' Hxy Hxy' Hu Hne He ltac:(lia)) as [E1 E2].
    apply Hne. apply (Hcons x y x' y' Hxy Hxy' Hu); [congruence|lia].
  - exact H2.
  - apply set_eq. intros r. rewrite rows_of_spec. split.
    + intros (x & y & Hxy & Hz & ->). destruct (Hfill x y Hxy Hz) as [v0 Hc0].
      destruct (H3 x y v0 Hc0) as (v & _ & Hin & ->).
      replace (v + 1 - 1) with v by lia. rewrite <- ER. by apply elem_of_list_to_set.
    + intros Hr. assert (Hrp : r ∈ path) by by apply elem_of_elements.
      destruct (path_rows g cells count path Hinv Hcov' r Hrp) as (v & x & y & Hc & ->).
      pose proof Hc as (Hv & Hxy & Hz & _).
      destruct (H3 x y v Hc) as (v' & Hc' & Hin' & Et).
      pose proof Hc' as (Hv' & _).
      assert (E : DLX_ROW v x y = DLX_ROW v' x y).
      { apply (path_unique cells path Hcov' _ _ (DLX_COL1 v x y) Hrp Hin').
        - apply (placement_hits g cells count Hinv); [done|]. apply list_elem_of_here.
        - apply (placement_hits g cells count Hinv); [done|].
          change (DLX_COL1 v x y) with (DLX_COL1 v' x y). apply list_elem_of_here. }
      destruct (row_inj v x y v' x y Hv Hxy Hv' Hxy E) as (-> & _).
      exists x, y. split_and!; [exact Hxy|exact Hz|]. rewrite Et. f_equal. lia.
Qed.

Lemma completion_mono s1 s2 t :
  (∀ x y, in_grid x y → cellv s2 x y = 0 ∨ cellv s2 x y = cellv s1 x y) →
  completion s1 t → completion s2 t.
Proof.
  intros Hp [Hv Hk]. split; [exact Hv|]. intros x y Hxy Hnz.
  destruct (Hp x y Hxy) as [?|E]; [done|]. rewrite E. apply Hk; [done|congruence].
Qed.

End CoverCompletion.

(** * [remove_non_unique_hints] and [add_extra_hints] *)

Module UniqueCheck.
Import Util Solver Dlx Sudoku InitSpec ExactCover SudokuSpec SudokuLoop Views.
Import CoverUncover InitState UniqueMode ReachStates InitRuns UniformRows.
Import SudokuIndex Masks DlxCells SudokuMatrix SolveRuns Snapshot.
Import GridChecks Completions Relabel DeducedHints CoverCompletion.

(** The count-unique run on the matrix of a grid with a hint: it returns,
    without a draw, and says whether the matrix has exactly one exact
    cover. *)
Lemma grid_unique_run g cells count fuel r :
  cells_inv g (λ _ _ _, True) (cells, count) →
  (∃ x y, in_grid x y ∧ cellv g x y ≠ 0) → 3241 ≤ Z.of_nat fuel →
  ∃ checker b s',
    solver_init_graph (solver_create count 324 729) cells false = Ok checker ∧
    solver_run fuel checker DLX_UNIQUE (replicate (Z.to_nat GRID_SIZE) 0) GRID_SIZE r
      = Ok (b, s', r) ∧
    (b = true ↔
     ∃ R, exact_cover cells 324 729 false R ∧
          ∀ R', exact_cover cells 324 729 false R' → R' = R) ∧
    (b = false →
     (∀ R, ¬ exact_cover cells 324 729 false R) ∨
     ∃ R1 R2, R1 ≠ R2 ∧ exact_cover cells 324 729 false R1 ∧
              exact_cover cells 324 729 false R2).
Proof.
  intros Hinv Hhint Hfuel.
  destruct (grid_graph g cells count Hinv Hhint)
    as (s0 & nu & rw & hs & vl & Hinit & Hroot & Hwf & Hkept & Hnu & Hlen).
  set (depth := λ hs : list Z, Z.of_nat (length hs) `div` 4).
  assert (Hd0 : ∀ hs, 0 ≤ depth hs).
  { intros hs'. unfold depth. apply Z.div_pos; lia. }
  assert (Hdhs : depth hs < 81).
  { unfold depth. apply Z.div_lt_upper_bound; lia. }
  destruct (solver_run_unique cells 324 729 nu rw hs vl s0 fuel depth
              (replicate (Z.to_nat GRID_SIZE) 0) GRID_SIZE r Hwf Hroot ltac:(lia) Hd0)
    as (b & s' & l & Hrun & HndL & Hsound & _ & Hl2 & Hcompl & Hiff).
  { intros hs1 hs2 r0 H1 H2 H3 H4 H5.
    pose proof (uniform_depth_step cells 324 729 4 hs1 hs2 r0 ltac:(lia)
                  (rows_uniform g cells count Hinv) H1 H2 H3 H4 H5) as E.
    unfold depth. lia. }
  { rewrite length_replicate. change GRID_SIZE with 81. lia. }
  exists s0, b, s'. split_and!; [done|done| |].
  all: assert (Ec : ∀ R, exact_cover cells 324 729 false R ↔
                    covers cells 324 729 (λ c, c ∈ hs) R)
         by (intros R; by apply exact_cover_covers).
  - rewrite Hiff. split; intros (R & HR & Hu); exists R.
    + split; [by apply Ec|]. intros R' HR'. by apply Hu, Ec.
    + split; [by apply Ec|]. intros R' HR'. by apply Hu, Ec.
  - intros Hb. destruct l as [|R1 [|R2 l]].
    + left. intros R HR%Ec. apply Hcompl in HR; [|simpl; lia].
      by apply elem_of_nil in HR.
    + exfalso. assert (Ht : b = true); [|congruence].
      apply Hiff. exists R1. split; [apply Hsound, list_elem_of_here|].
      intros R' HR'. apply Hcompl in HR'; [|simpl; lia].
      by apply list_elem_of_singleton in HR'.
    + right. exists R1, R2. apply NoDup_cons in HndL as [Hne _]. split_and!.
      * intros ->. apply Hne, list_elem_of_here.
      * apply Ec, Hsound, list_elem_of_here.
      * apply Ec, Hsound, list_elem_of_further, list_elem_of_here.
Qed.

Lemma aget_cellv s i : 0 ≤ i < 81 → aget s i = cellv s (GRID_X i) (GRID_Y i).
Proof. intros Hi. unfold cellv. by destruct (grid_idx i Hi) as [_ ->]. Qed.

(** One round of [remove_non_unique_hints] on a part of the solved grid
    whose only completion is the solved grid. *)
Lemma check_hint_spec sol fuel order i s r :
  valid sol → part_of s sol → only_completion s sol →
  0 ≤ aget order i < 81 → 3241 ≤ Z.of_nat fuel →
  ∃ s', check_hint fuel order i (s, r) = Ok (s', r) ∧
        part_of s' sol ∧ only_completion s' sol ∧ part_of s' s ∧
        (aget s' (aget order i) ≠ 0 →
         ∃ t, completion (aset s (aget order i) 0) t ∧ t ≠ sol) ∧
        (s' = s ∨ s' = aset s (aget order i) 0).
Proof.
  intros Hv Hp Ho Hidx Hfuel. pose proof Hp as [Hlen Hpc].
  assert (Hself : part_of s s) by (split; [done|]; intros; by right).
  unfold check_hint.
  destruct (grid_idx (aget order i) Hidx) as [Hxy Eidx].
  set (x := GRID_X (aget order i)) in *. set (y := GRID_Y (aget order i)) in *.
  fold (cellv s x y).
  destruct (Z.eqb_spec (cellv s x y) 0) as [Hz|Hnz]; cbn [negb].
  { exists s. split_and!; [done..| |by left]. rewrite <- Eidx. fold (cellv s x y). done. }
  set (s0 := aset s (GRID_IDX x y) 0).
  assert (Hp0 : part_of s0 sol) by by apply cleared_part.
  assert (Hc0 : completion s0 sol) by by apply part_of_completion.
  assert (Hhint : ∃ x' y', in_grid x' y' ∧ cellv s0 x' y' ≠ 0).
  { destruct (second_hint s sol x y Ho) as (x' & y' & Hxy' & Hne & Hnz').
    exists x', y'. split; [done|]. unfold s0. rewrite cellv_aset by done.
    by rewrite decide_False. }
  destruct (get_dlx_cells s0) as [[[cells count] ncols] nrows] eqn:E.
  destruct (get_dlx_cells_spec s0 cells count ncols nrows E) as (-> & -> & Hinv).
  clear E.
  destruct (grid_unique_run s0 cells count fuel r Hinv Hhint Hfuel)
    as (checker & b & s' & Hinit & Hrun & Hiff & Hno).
  rewrite Hinit, bind_Ok, Hrun, bind_Ok.
  destruct b; cbn [negb].
  - exists s0. split_and!; [done|done| | | |by right; rewrite <- Eidx].
    + split; [done|]. intros t Ht.
      destruct (proj1 Hiff eq_refl) as (R & _ & Hu).
      apply (rows_of_inj s0 sol Hc0 t Ht).
      rewrite (Hu (rows_of s0 t)), (Hu (rows_of s0 sol)); [done| |].
      * by apply (completion_cover s0 sol cells count).
      * by apply (completion_cover s0 t cells count).
    + split; [unfold s0; by rewrite length_aset|]. intros x' y' Hxy'.
      unfold s0. rewrite cellv_aset by done. destruct (decide _); [by left|by right].
    + rewrite <- Eidx at 1. fold (cellv s0 x y). unfold s0.
      rewrite cellv_aset by done. rewrite decide_True by done. done.
  - exists s. unfold s0. unfold cellv at 1. rewrite aset_restore.
    split_and!; [done..| |by left]. intros _. rewrite <- Eidx. fold s0.
    pose proof (completion_cover s0 sol cells count Hinv Hc0) as Hsol.
    destruct (Hno eq_refl) as [Hnone|(R1 & R2 & Hne & HR1 & HR2)];
      [by destruct (Hnone _ Hsol)|].
    destruct Hp0 as [Hlen0 _].
    pose proof (completion_range s0 sol Hc0) as Hr0.
    pose proof (completion_consistent s0 sol Hc0) as Hcons0.
    pose proof (completion_fillable s0 sol Hc0) as Hfill0.
    destruct (cover_completion s0 cells count R1 Hinv Hlen0 Hr0 Hhint Hcons0 Hfill0 HR1)
      as (t1 & Ht1 & E1).
    destruct (cover_completion s0 cells count R2 Hinv Hlen0 Hr0 Hhint Hcons0 Hfill0 HR2)
      as (t2 & Ht2 & E2).
    destruct (decide (t1 = sol)) as [->|Hd1]; [|by exists t1].
    exists t2. split; [done|]. intros ->. apply Hne. by rewrite <- E1, <- E2.
Qed.

Lemma part_of_trans s1 s2 s3 : part_of s1 s2 → part_of s2 s3 → part_of s1 s3.
Proof.
  intros [L1 H1] [L2 H2]. split; [done|]. intros x y Hxy.
  destruct (H1 x y Hxy) as [?|E1]; [by left|].
  destruct (H2 x y Hxy) as [E2|E2]; [left|right]; congruence.
Qed.

(** [remove_non_unique_hints] returns, and keeps the solved grid the only
    completion. *)
Lemma remove_non_unique_hints_spec sol fuel s order n r :
  valid sol → part_of s sol → only_completion s sol →
  0 ≤ n → (∀ i, 0 ≤ i < n → 0 ≤ aget order i < 81) → 3241 ≤ Z.of_nat fuel →
  ∃ s', remove_non_unique_hints fuel s order n r = Ok (s', r) ∧
        part_of s' sol ∧ only_completion s' sol ∧ part_of s' s ∧
        ∀ j, 0 ≤ j < n → aget s' (aget order j) ≠ 0 →
             ∃ t, completion (aset s' (aget order j) 0) t ∧ t ≠ sol.
Proof.
  intros Hv Hp Ho Hn Hord Hfuel. unfold remove_non_unique_hints.
  destruct (InitRuns.for_range_total
              (λ i (st : sudoku * rng),
                 st.2 = r ∧ part_of st.1 sol ∧ only_completion st.1 sol ∧
                 part_of st.1 s ∧
                 ∀ j, 0 ≤ j < i → aget st.1 (aget order j) ≠ 0 →
                      ∃ t, completion (aset st.1 (aget order j) 0) t ∧ t ≠ sol)
              0 n (check_hint fuel order) (s, r))
    as ([s' r'] & Hrun & Hr & H1 & H2 & H3 & H4).
  - done.
  - cbn [fst snd]. split_and!; [done..| |intros; lia]. destruct Hp as [Hlen _].
    split; [done|]. intros; by right.
  - intros i [s1 r1] Hi (Hr & H1 & H2 & H3 & HK). cbn [fst snd] in *. subst r1.
    destruct (check_hint_spec sol fuel order i s1 r Hv H1 H2 (Hord i Hi) Hfuel)
      as (s2 & Hrun & H4 & H5 & H6 & H7 & _).
    exists (s2, r). split; [done|]. cbn [fst snd]. split_and!; [done..| |].
    + by apply (part_of_trans s2 s1 s).
    + intros j Hj Hnz. pose proof H6 as [Hl2 Hp2]. pose proof H1 as [Hl1 _].
      assert (Hstep : ∀ t, completion (aset s1 (aget order j) 0) t →
                completion (aset s2 (aget order j) 0) t).
      { intros t. apply completion_mono. intros x y Hxy.
        destruct (grid_idx (aget order j) (Hord j ltac:(lia))) as [Hxyj Ej].
        rewrite <- Ej. rewrite !cellv_aset by done.
        destruct (decide _); [by left|by apply Hp2]. }
      destruct (decide (j = i)) as [->|Hne].
      * destruct (H7 Hnz) as (t & Ht & Hd). exists t. split; [by apply Hstep|done].
      * destruct (HK j ltac:(lia)) as (t & Ht & Hd).
        { destruct (grid_idx (aget order j) (Hord j ltac:(lia))) as [Hxyj Ej].
          rewrite (aget_cellv s1), (aget_cellv s2) in * by (apply Hord; lia).
          destruct (Hp2 _ _ Hxyj) as [?|E]; [done|congruence]. }
        exists t. split; [by apply Hstep|done].
  - cbn [fst snd] in *. subst r'. by exists s'.
Qed.

(** [add_extra_hints] on a part of the solved grid copies cells of the
    solved grid: the hints stay, and so does the one completion. *)
Lemma add_extra_hints_spec sol s num r :
  valid sol → part_of s sol → only_completion s sol →
  part_of (add_extra_hints s sol num r).1 sol ∧
  only_completion (add_extra_hints s sol num r).1 sol ∧
  part_of s (add_extra_hints s sol num r).1.
Proof.
  intros Hv Hp Ho. pose proof Hp as [Hlen Hpc]. pose proof Hv as (Hlsol & _).
  assert (Hkeep : length (add_extra_hints s sol num r).1 = 81%nat ∧
            ∀ k : nat, (k < 81)%nat →
              (add_extra_hints s sol num r).1 !! k = s !! k ∨
              (add_extra_hints s sol num r).1 !! k = sol !! k).
  { unfold add_extra_hints. destruct (num <=? 0); [split; [done|]; intros; by left|].
    destruct (loop GRID_SIZE _ _) as [hints nch].
    destruct (shuffle hints nch r) as [hints' r']. cbn [fst].
    apply (loop_inv (λ s1 : sudoku, length s1 = 81%nat ∧
              ∀ k : nat, (k < 81)%nat → s1 !! k = s !! k ∨ s1 !! k = sol !! k)).
    - split; [done|]. intros; by left.
    - intros i s1 _ [L1 H1]. split; [by rewrite length_aset|]. intros k Hk.
      unfold aset, aget.
      destruct (decide (Z.to_nat (aget hints' i) = k)) as [E|E].
      + right. fold (aget hints' i). rewrite E.
        rewrite list_lookup_insert_eq by lia.
        destruct (lookup_lt_is_Some_2 sol k) as [a Ha]; [lia|]. by rewrite Ha.
      + fold (aget hints' i). rewrite list_lookup_insert_ne by done. by apply H1. }
  destruct Hkeep as [Hl' Hk].
  set (s' := (add_extra_hints s sol num r).1) in *.
  assert (Hcell : ∀ x y, in_grid x y →
            cellv s' x y = cellv s x y ∨ cellv s' x y = cellv sol x y).
  { intros x y Hxy. destruct (grid_xy x y Hxy) as (_ & _ & Hi).
    unfold cellv, aget. destruct (Hk (Z.to_nat (GRID_IDX x y))) as [-> | ->]; [lia|..];
      [by left|by right]. }
  assert (Hp' : part_of s' sol).
  { split; [done|]. intros x y Hxy.
    destruct (Hcell x y Hxy) as [E|E]; [|by right].
    rewrite E. by apply Hpc. }
  assert (Hsub : part_of s s').
  { split; [done|]. intros x y Hxy.
    destruct (Hcell x y Hxy) as [E|E]; [by right|].
    destruct (Hpc x y Hxy) as [?|E']; [by left|right; congruence]. }
  split_and!; [done| |done].
  split; [by apply part_of_completion|].
  intros t [Hvt Hkt]. apply (proj2 Ho). split; [done|].
  intros x y Hxy Hnz. destruct Hsub as [_ Hs]. destruct (Hs x y Hxy) as [?|E]; [done|].
  rewrite E. apply Hkt; [done|congruence].
Qed.

End UniqueCheck.

(** * [sudoku_generate] *)

Module Generate.
Import Util Solver Sudoku SudokuSpec SudokuLoop Views.
Import ShuffleFacts GenerationFailure SudokuIndex GridChecks Completions Relabel.
Import DeducedHints UniqueCheck.

(** [init_shuffled_array] leaves the numbers from [start] on, in some
    order. *)
Lemma init_shuffled_array_perm n start r :
  0 ≤ n →
  (init_shuffled_array n start r).1 ≡ₚ seqZ start n.
Proof.
  intros Hn. unfold init_shuffled_array.
  set (a := (λ i, i + start) <$> seqZ 0 n).
  assert (Hla : length a = Z.to_nat n) by (unfold a; by rewrite length_fmap, length_seqZ).
  destruct (shuffle_prefix_perm a n r) as [Hlen Hperm]; [lia|].
  rewrite take_ge in Hperm by lia. rewrite take_ge in Hperm by lia.
  rewrite Hperm. unfold a.
  replace (seqZ start n) with (Z.add start <$> seqZ 0 n)
    by (rewrite fmap_add_seqZ; f_equal; lia).
  apply Permutation_refl'. apply list_fmap_ext. intros; lia.
Qed.

Lemma shuffled_order r i :
  0 ≤ i < 81 → 0 ≤ aget (init_shuffled_array GRID_SIZE 0 r).1 i < 81.
Proof.
  intros Hi. pose proof (init_shuffled_array_perm GRID_SIZE 0 r ltac:(done)) as Hp.
  assert (Hlen : length (init_shuffled_array GRID_SIZE 0 r).1 = 81%nat) by by rewrite Hp.
  unfold aget.
  destruct (lookup_lt_is_Some_2 (init_shuffled_array GRID_SIZE 0 r).1 (Z.to_nat i))
    as [a Ha]; [lia|].
  rewrite Ha. simpl. apply list_elem_of_lookup_2 in Ha. rewrite Hp in Ha.
  apply elem_of_seqZ in Ha. unfold GRID_SIZE, SUDOKU_SIZE in Ha. lia.
Qed.

(** The solve of the seeded grid succeeds. *)
Lemma seeded_solve fuel r :
  3241 ≤ Z.of_nat fuel →
  ∃ s2 r2, sudoku_solve fuel (seed r).1 (seed r).2 = Ok (true, s2, r2) ∧
           completion (seed r).1 s2.
Proof.
  intros Hfuel. destruct (seed_completion r) as (Hlen & Hhint & t & Ht).
  exact (solve_complete (seed r).1 t fuel (seed r).2 Hlen Hhint Hfuel Ht).
Qed.

(** The stages of [sudoku_generate], one after the other. *)
Lemma generate_spec fuel s solution extra r log :
  3241 ≤ Z.of_nat fuel →
  ∃ s2 r2 g,
    sudoku_solve fuel (seed r).1 (seed r).2 = Ok (true, s2, r2) ∧
    completion (seed r).1 s2 ∧
    sudoku_generate fuel s solution extra r log = Ok g ∧
    reference g = s2 ∧ diagnostics g = log ∧
    part_of (puzzle g) s2 ∧ only_completion (puzzle g) s2 ∧
    (extra ≤ 0 →
     ∀ i, 0 ≤ i < 81 → aget (puzzle g) i ≠ 0 →
          ∃ t, completion (aset (puzzle g) i 0) t ∧ t ≠ s2).
Proof.
  intros Hfuel. destruct (seeded_solve fuel r Hfuel) as (s2 & r2 & Hrun & Hc).
  pose proof (proj1 Hc) as Hv.
  exists s2, r2. unfold sudoku_generate.
  destruct (seed r) as [s1 r1]. cbn [fst snd] in *. rewrite Hrun, bind_Ok.
  unfold generate_from_solved. cbn [negb].
  pose proof (shuffled_order r2) as Hord.
  pose proof (init_shuffled_array_perm GRID_SIZE 0 r2 ltac:(done)) as Hperm.
  destruct (init_shuffled_array GRID_SIZE 0 r2) as [hints r3]. cbn [fst] in Hord, Hperm.
  destruct (remove_deduced_hints_spec s2 hints GRID_SIZE Hv ltac:(done) Hord)
    as [Hp3 Ho3].
  destruct (remove_non_unique_hints_spec s2 fuel _ hints GRID_SIZE r3 Hv Hp3 Ho3
              ltac:(done) Hord Hfuel) as (s4 & Hrun4 & Hp4 & Ho4 & _ & Hirr).
  rewrite Hrun4, bind_Ok.
  destruct (add_extra_hints_spec s2 s4 extra r3 Hv Hp4 Ho4) as (Hp5 & Ho5 & _).
  assert (Hsame : extra ≤ 0 → (add_extra_hints s4 s2 extra r3).1 = s4).
  { intros Hle. unfold add_extra_hints. by rewrite (proj2 (Z.leb_le extra 0) Hle). }
  destruct (add_extra_hints s4 s2 extra r3) as [s5 r5]. cbn [fst] in *.
  eexists. split_and!; [done|done|reflexivity|done..|].
  cbn [puzzle]. intros Hle i Hi Hnz. rewrite (Hsame Hle) in *.
  assert (Hin : i ∈ hints).
  { rewrite Hperm. apply elem_of_seqZ. unfold GRID_SIZE, SUDOKU_SIZE. lia. }
  apply list_elem_of_lookup in Hin as [k Hk].
  assert (Hlen : length hints = 81%nat) by by rewrite Hperm.
  pose proof (lookup_lt_Some _ _ _ Hk) as Hk81.
  assert (E : aget hints (Z.of_nat k) = i).
  { unfold aget. by rewrite Nat2Z.id, Hk. }
  rewrite <- E in Hnz |- *. apply Hirr; [unfold GRID_SIZE, SUDOKU_SIZE; lia|done].
Qed.

(** C1.  [sudoku_generate], with fuel for the 3241 nodes a graph can
    have, returns for every state of the random generator, whatever the
    two grids hold and whatever number of extra hints is asked for.  The
    solution grid it leaves is a solved grid: 81 digits from 1 to 9, none
    twice in a row, a column or a section.  The puzzle is a part of it:
    every cell is empty or holds the digit of the solution.  And the
    solution is the one completion of the puzzle: every solved grid that
    keeps the hints of the puzzle is the solution grid. *)
Theorem generated_puzzle_unique fuel s solution extra r log :
  3241 ≤ Z.of_nat fuel →
  ∃ g, sudoku_generate fuel s solution extra r log = Ok g ∧
       valid (reference g) ∧
       length (puzzle g) = 81%nat ∧
       (∀ x y, in_grid x y →
               cellv (puzzle g) x y = 0 ∨
               cellv (puzzle g) x y = cellv (reference g) x y) ∧
       completion (puzzle g) (reference g) ∧
       ∀ t, completion (puzzle g) t → t = reference g.
Proof.
  intros Hfuel.
  destruct (generate_spec fuel s solution extra r log Hfuel)
    as (s2 & r2 & g & _ & Hc & Hrun & Href & _ & [Hlen Hp] & [Hc' Hu] & _).
  exists g. rewrite Href. split_and!; [exact Hrun|exact (proj1 Hc)|exact Hlen|exact Hp|
                                        exact Hc'|exact Hu].
Qed.

Lemma generated_puzzle_unique_witness :
  ∃ g, sudoku_generate (Z.to_nat 3241) Examples.empty_grid Examples.empty_grid 0
         (Examples.constant_rng 0) [] = Ok g ∧
       valid (reference g) ∧
       length (puzzle g) = 81%nat ∧
       (∀ x y, in_grid x y →
               cellv (puzzle g) x y = 0 ∨
               cellv (puzzle g) x y = cellv (reference g) x y) ∧
       completion (puzzle g) (reference g) ∧
       ∀ t, completion (puzzle g) t → t = reference g.
Proof.
  apply (generated_puzzle_unique (Z.to_nat 3241) Examples.empty_grid
           Examples.empty_grid 0 (Examples.constant_rng 0) []).
  lia.
Defined.




End Generate.

(** * The graph of a matrix and the states of a search *)

Module GraphProps.
Import Util Solver Dlx InitSpec ExactCover Views.
Import ArenaFacts SegFacts CoverUncover RoundTrip SearchStates SearchLoops SearchUnique.
Import InitState ReachStates InitRuns.

Lemma filter_iff_in {A} (P1 P2 : A → Prop)
    `{!∀ x, Decision (P1 x), !∀ x, Decision (P2 x)} (l : list A) :
  (∀ x, x ∈ l → P1 x ↔ P2 x) → filter P1 l = filter P2 l.
Proof.
  induction l as [|a l IH]; intros Hl; [done|].
  rewrite !filter_cons.
  destruct (decide (P1 a)) as [H1|H1].
  - rewrite decide_True by (apply Hl; [set_solver|done]).
    f_equal. apply IH. intros x Hx. apply Hl. set_solver.
  - rewrite decide_False by (intros H2; apply H1, Hl; [set_solver|done]).
    apply IH. intros x Hx. apply Hl. set_solver.
Qed.

(** In the graph of a matrix, before any cover, the list of every column
    holds one node for each 1 of the column. *)
Lemma init_column_rows cells nc nr nu rw hs vl g strict c :
  wfs cells nc nr nu rw hs vl g →
  (∀ c, c ∈ hs ↔ kept cells nc nr strict c) →
  is_header nc c →
  NoDup (frow g <$> vl c) ∧
  ∀ r, r ∈ frow g <$> vl c ↔ hits cells nc nr r c.
Proof.
  intros Hwf Hk Hc.
  pose proof (wf_static _ _ _ _ _ _ _ _ Hwf) as Hs.
  pose proof (wf_vert _ _ _ _ _ _ _ _ Hwf) as Hv.
  pose proof (wf_repr _ _ _ _ _ _ _ _ Hwf) as [Hrep1 Hrep2].
  assert (Hall : ∀ r, row_in cells nc nr hs r).
  { intros r c' Hh. apply Hk. pose proof Hh as (? & ? & ?). split; [lia|].
    destruct strict; [by left|right]. by exists r. }
  split.
  - apply NoDup_fmap_2_strong; [|by apply (dy_vnodup _ _ _ _ Hv)].
    intros x y Hx Hy E.
    destruct (dy_vnode _ _ _ _ Hv c x Hc Hx) as [Hxn Hxc].
    destruct (dy_vnode _ _ _ _ Hv c y Hc Hy) as [Hyn Hyc].
    apply (st_inj _ _ _ _ Hs); [done..|congruence].
  - intros r. rewrite list_elem_of_fmap. split.
    + intros (x & -> & Hx).
      destruct (dy_vnode _ _ _ _ Hv c x Hc Hx) as [Hxn <-]. by apply Hrep1.
    + intros Hh. destruct (Hrep2 _ _ Hh) as (x & Hxn & Hxr & Hxc).
      exists x. split; [done|].
      assert (Hin : c ∈ hs).
      { apply Hk. pose proof Hh as (? & ? & ?). split; [lia|].
        destruct strict; [by left|right]. by exists r. }
      apply (column_list cells nc nr nu rw hs vl g c x Hwf Hin).
      split_and!; [done..|]. apply Hall.
Qed.

(** The selection loop of [search]: the column it returns is the first
    one of the least count. *)
Lemma choose_column_first g rt l :
  ∀ fuel col c,
    seg (fR g) c l rt → (∀ x, x ∈ l → is_Some (g !! x)) →
    (length l < fuel)%nat →
    ∃ col', choose_column fuel g rt col (fcount g col) c = Ok col' ∧
      ((col' = col ∧ ∀ x, x ∈ l → fcount g col ≤ fcount g x) ∨
       ∃ pre post, l = pre ++ col' :: post ∧ fcount g col' < fcount g col ∧
                   (∀ x, x ∈ pre → fcount g col' < fcount g x) ∧
                   (∀ x, x ∈ post → fcount g col' ≤ fcount g x)).
Proof.
  induction l as [|y l IH]; intros fuel col c Hseg Hdom Hfuel;
    (destruct fuel as [|fuel]; [simpl in Hfuel; lia|]).
  - simpl in Hseg. subst c. exists col. cbn [choose_column].
    rewrite Z.eqb_refl. split; [done|]. left. split; [done|].
    intros x Hx. by apply elem_of_nil in Hx.
  - destruct Hseg as (-> & Hne & Hseg). cbn [choose_column].
    rewrite (proj2 (Z.eqb_neq _ _)) by done.
    rewrite rd_Ok by (apply Hdom; set_solver). rewrite bind_Ok.
    fold (fR g y). fold (fcount g y).
    destruct (fcount g y <? fcount g col) eqn:Hlt.
    + apply Z.ltb_lt in Hlt.
      destruct (IH fuel y (fR g y)) as (col' & -> & Hc);
        [done|intros x Hx; apply Hdom; set_solver|simpl in Hfuel; lia|].
      exists col'. split; [done|]. right.
      destruct Hc as [[-> Hmin]|(pre & post & -> & Hlt' & Hpre & Hpost)].
      * exists [], l. split_and!; [done|done| |done].
        intros x Hx. by apply elem_of_nil in Hx.
      * exists (y :: pre), post. split_and!; [done|lia| |done].
        intros x [->|Hx]%elem_of_cons; [done|by apply Hpre].
    + apply Z.ltb_ge in Hlt.
      destruct (IH fuel col (fR g y)) as (col' & -> & Hc);
        [done|intros x Hx; apply Hdom; set_solver|simpl in Hfuel; lia|].
      exists col'. split; [done|].
      destruct Hc as [[-> Hmin]|(pre & post & -> & Hlt' & Hpre & Hpost)].
      * left. split; [done|].
        intros x [->|Hx]%elem_of_cons; [done|by apply Hmin].
      * right. exists (y :: pre), post. split_and!; [done|done| |done].
        intros x [->|Hx]%elem_of_cons; [lia|by apply Hpre].
Qed.

(** X1.  In the graph that [solver_init_graph] builds for a matrix with at
    least two columns, the root is the node behind the last header, and the
    header list, read from the root to the right, holds in increasing
    order all the columns when [strict] is set, and otherwise exactly the
    columns whose count is not 0. *)
Theorem init_header_list inuse nc nr cells strict s0 :
  2 ≤ nc < size_modulus → 0 ≤ nr → nr * nc < size_modulus →
  solver_init_graph (solver_create inuse nc nr) cells strict = Ok s0 →
  root s0 = nc ∧
  live_columns (nodes s0) (root s0) =
    filter (λ c, strict = true ∨ 0 < fcount (nodes s0) c) (seqZ 0 nc).
Proof.
  intros Hnc Hnr Hsize Hinit.
  destruct (init_wfs _ _ _ _ _ _ Hnc Hnr Hsize Hinit)
    as (Hroot & nu & rw & hs & vl & Hwf & Hkept & Hnu & Ehs).
  split; [done|].
  pose proof (wf_static _ _ _ _ _ _ _ _ Hwf) as Hs.
  pose proof (wf_horiz _ _ _ _ _ _ _ _ Hwf) as Hh.
  pose proof (wf_vert _ _ _ _ _ _ _ _ Hwf) as Hv.
  rewrite Hroot, (header_list nc nu rw hs _ Hs Hh).
  rewrite Ehs. destruct strict.
  - symmetry. apply filter_all. intros x _. by left.
  - unfold kept_columns. apply filter_iff_in.
    intros x Hx%elem_of_seqZ.
    assert (Hxh : is_header nc x) by (unfold is_header; lia).
    rewrite (dy_count _ _ _ _ Hv x Hxh).
    split.
    + intros [?|Hne]; [lia|]. right. destruct (vl x); [done|]. simpl. lia.
    + intros [?|Hpos]; [done|]. right. intros E. rewrite E in Hpos.
      simpl in Hpos. lia.
Qed.

Lemma init_header_list_witness :
  root Examples.small_solver = 4 ∧
  live_columns (nodes Examples.small_solver) (root Examples.small_solver) =
    filter (λ c, true = true ∨ 0 < fcount (nodes Examples.small_solver) c)
           (seqZ 0 4).
Proof.
  apply (init_header_list 9 4 4 (Examples.cells_of_rows 4 Examples.small_rows)
           true Examples.small_solver).
  - vm_compute. split; [discriminate 1|reflexivity].
  - lia.
  - vm_compute. reflexivity.
  - vm_compute. reflexivity.
Defined.

(** X2.  In the graph that [solver_init_graph] builds, the count of the
    header of every column is the number of rows of the matrix with a 1 in
    that column, and the list of the column, read from the header
    downwards, has exactly one node for each of these rows. *)
Theorem init_column_counts inuse nc nr cells strict s0 c :
  2 ≤ nc < size_modulus → 0 ≤ nr → nr * nc < size_modulus →
  solver_init_graph (solver_create inuse nc nr) cells strict = Ok s0 →
  0 ≤ c < nc →
  fcount (nodes s0) c = Z.of_nat (length (ones_of_column cells nc nr c)) ∧
  column_rows_of (nodes s0) c ≡ₚ ones_of_column cells nc nr c.
Proof.
  intros Hnc Hnr Hsize Hinit Hc.
  destruct (init_wfs _ _ _ _ _ _ Hnc Hnr Hsize Hinit)
    as (Hroot & nu & rw & hs & vl & Hwf & Hkept & Hnu & Ehs).
  pose proof (wf_static _ _ _ _ _ _ _ _ Hwf) as Hs.
  pose proof (wf_vert _ _ _ _ _ _ _ _ Hwf) as Hv.
  assert (Hch : is_header nc c) by (unfold is_header; lia).
  destruct (init_column_rows cells nc nr nu rw hs vl (nodes s0) strict c Hwf Hkept Hch)
    as [Hnd Hmem].
  assert (Hp : column_rows_of (nodes s0) c ≡ₚ ones_of_column cells nc nr c).
  { unfold column_rows_of. rewrite (column_nodes_vl nc nu rw vl _ c Hs Hv Hch).
    apply NoDup_Permutation; [done| |].
    - apply NoDup_filter, NoDup_seqZ.
    - intros r. rewrite Hmem. unfold ones_of_column, hits.
      rewrite list_elem_of_filter, elem_of_seqZ. split.
      + intros (? & ? & ?). split; [done|lia].
      + intros [? ?]. split_and!; [lia..|done]. }
  split; [|done].
  rewrite <- Hp. unfold column_rows_of.
  rewrite (column_nodes_vl nc nu rw vl _ c Hs Hv Hch), length_fmap.
  by apply (dy_count _ _ _ _ Hv).
Qed.

Lemma init_column_counts_witness :
  fcount (nodes Examples.small_solver) 1 =
    Z.of_nat (length (ones_of_column
                        (Examples.cells_of_rows 4 Examples.small_rows) 4 4 1)) ∧
  column_rows_of (nodes Examples.small_solver) 1 ≡ₚ
    ones_of_column (Examples.cells_of_rows 4 Examples.small_rows) 4 4 1.
Proof.
  apply (init_column_counts 9 4 4 (Examples.cells_of_rows 4 Examples.small_rows)
           true Examples.small_solver 1).
  - vm_compute. split; [discriminate 1|reflexivity].
  - lia.
  - vm_compute. reflexivity.
  - vm_compute. reflexivity.
  - lia.
Defined.

(** X3.  In every state a search can reach from the graph of a matrix, by
    covering columns of the header list and uncovering the column covered
    last, the header list is the initial header list without the columns
    that are covered at the moment. *)
Theorem reach_header_list inuse nc nr cells strict s0 fuel st g :
  2 ≤ nc < size_modulus → 0 ≤ nr → nr * nc < size_modulus →
  solver_init_graph (solver_create inuse nc nr) cells strict = Ok s0 →
  (size (nodes s0) ≤ fuel)%nat →
  reach fuel s0 st g →
  live_columns g (root s0) =
    filter (λ c, c ∉ st) (live_columns (nodes s0) (root s0)).
Proof.
  intros Hnc Hnr Hsize Hinit Hfuel Hreach.
  destruct (init_wfs _ _ _ _ _ _ Hnc Hnr Hsize Hinit)
    as (Hroot & nu & rw & hs & vl & Hwf & Hkept & Hnu & Ehs).
  destruct (reach_wfs cells nc nr nu rw fuel s0 Hroot Hfuel hs vl st g Hwf Hreach)
    as (vl' & Hwf' & _).
  rewrite Hroot.
  rewrite (header_list nc nu rw _ g (wf_static _ _ _ _ _ _ _ _ Hwf')
             (wf_horiz _ _ _ _ _ _ _ _ Hwf')).
  rewrite (header_list nc nu rw _ _ (wf_static _ _ _ _ _ _ _ _ Hwf)
             (wf_horiz _ _ _ _ _ _ _ _ Hwf)).
  done.
Qed.

Lemma reach_header_list_witness :
  live_columns Examples.small_covered (root Examples.small_solver) =
    filter (λ c, c ∉ [0])
           (live_columns (nodes Examples.small_solver) (root Examples.small_solver)).
Proof.
  apply (reach_header_list 9 4 4 (Examples.cells_of_rows 4 Examples.small_rows)
           true Examples.small_solver 20 [0] Examples.small_covered).
  - vm_compute. split; [discriminate 1|reflexivity].
  - lia.
  - vm_compute. reflexivity.
  - vm_compute. reflexivity.
  - vm_compute. lia.
  - apply (reach_cover 20 Examples.small_solver [] (nodes Examples.small_solver) 0).
    + apply reach_init.
    + apply (bool_decide_unpack _). vm_compute. exact I.
    + vm_compute. reflexivity.
Defined.

(** X4.  In every state a search can reach, the list of a column of the
    header list holds one node for each row of the matrix that has a 1 in
    the column and all its 1s in columns of the header list, no row twice,
    and the count of the header is the number of these rows. *)
Theorem reach_column_rows inuse nc nr cells strict s0 fuel st g c :
  2 ≤ nc < size_modulus → 0 ≤ nr → nr * nc < size_modulus →
  solver_init_graph (solver_create inuse nc nr) cells strict = Ok s0 →
  (size (nodes s0) ≤ fuel)%nat →
  reach fuel s0 st g →
  c ∈ live_columns g (root s0) →
  NoDup (column_rows_of g c) ∧
  (∀ r, r ∈ column_rows_of g c ↔
        hits cells nc nr r c ∧
        ∀ c', hits cells nc nr r c' → c' ∈ live_columns g (root s0)) ∧
  fcount g c = Z.of_nat (length (column_rows_of g c)).
Proof.
  intros Hnc Hnr Hsize Hinit Hfuel Hreach Hc.
  destruct (init_wfs _ _ _ _ _ _ Hnc Hnr Hsize Hinit)
    as (Hroot & nu & rw & hs & vl & Hwf & Hkept & Hnu & Ehs).
  destruct (reach_wfs cells nc nr nu rw fuel s0 Hroot Hfuel hs vl st g Hwf Hreach)
    as (vl' & Hwf' & _).
  pose proof (wf_static _ _ _ _ _ _ _ _ Hwf') as Hs.
  pose proof (wf_horiz _ _ _ _ _ _ _ _ Hwf') as Hh.
  pose proof (wf_vert _ _ _ _ _ _ _ _ Hwf') as Hv.
  rewrite Hroot in *. rewrite (header_list nc nu rw _ g Hs Hh) in *.
  pose proof (dy_hhead _ _ _ Hh c Hc) as Hch.
  unfold column_rows_of. rewrite (column_nodes_vl nc nu rw vl' g c Hs Hv Hch).
  exact (column_rows cells nc nr nu rw _ vl' g c Hwf' Hc).
Qed.

Lemma reach_column_rows_witness :
  NoDup (column_rows_of Examples.small_covered 1) ∧
  (∀ r, r ∈ column_rows_of Examples.small_covered 1 ↔
        hits (Examples.cells_of_rows 4 Examples.small_rows) 4 4 r 1 ∧
        ∀ c', hits (Examples.cells_of_rows 4 Examples.small_rows) 4 4 r c' →
              c' ∈ live_columns Examples.small_covered (root Examples.small_solver)) ∧
  fcount Examples.small_covered 1 =
    Z.of_nat (length (column_rows_of Examples.small_covered 1)).
Proof.
  apply (reach_column_rows 9 4 4 (Examples.cells_of_rows 4 Examples.small_rows)
           true Examples.small_solver 20 [0] Examples.small_covered 1).
  - vm_compute. split; [discriminate 1|reflexivity].
  - lia.
  - vm_compute. reflexivity.
  - vm_compute. reflexivity.
  - vm_compute. lia.
  - apply (reach_cover 20 Examples.small_solver [] (nodes Examples.small_solver) 0).
    + apply reach_init.
    + apply (bool_decide_unpack _). vm_compute. exact I.
    + vm_compute. reflexivity.
  - apply (bool_decide_unpack _). vm_compute. exact I.
Defined.

(** X5.  Taking a row and giving it up again.  For a matrix with at least
    two columns, in a state a search can reach from the graph
    [solver_init_graph] builds, for a column [col] of the header list: [cover col] returns and
    leaves the list of [col] as it was; for every node [x] of that list,
    covering the columns of the other nodes of its row, from [x] to the
    right, returns a state whose header list has lost exactly the columns
    in which the row of [x] has a 1; uncovering them from [x] to the left
    gives back the state after [cover col], and [uncover col] the state
    before it. *)
Theorem take_row_roundtrip inuse nc nr cells strict s0 fuel st g col :
  2 ≤ nc < size_modulus → 0 ≤ nr → nr * nc < size_modulus →
  solver_init_graph (solver_create inuse nc nr) cells strict = Ok s0 →
  (size (nodes s0) ≤ fuel)%nat →
  reach fuel s0 st g →
  col ∈ live_columns g (root s0) →
  ∃ g1,
    cover fuel col g = Ok g1 ∧ uncover fuel col g1 = Ok g ∧
    column_nodes g1 col = column_nodes g col ∧
    ∀ x, x ∈ column_nodes g1 col →
      ∃ g2,
        cover_others fuel fuel x (fR g1 x) g1 = Ok g2 ∧
        (∀ c, c ∈ live_columns g2 (root s0) ↔
              c ∈ live_columns g (root s0) ∧ ¬ hits cells nc nr (frow g x) c) ∧
        uncover_others fuel fuel x (fL g2 x) g2 = Ok g1.
Proof.
  intros Hnc Hnr Hsize Hinit Hfuel Hreach Hc.
  destruct (init_wfs _ _ _ _ _ _ Hnc Hnr Hsize Hinit)
    as (Hroot & nu & rw & hs0 & vl0 & Hwf0 & Hkept & Hnu & Ehs).
  destruct (reach_wfs cells nc nr nu rw fuel s0 Hroot Hfuel hs0 vl0 st g Hwf0 Hreach)
    as (vl & Hwf & _).
  set (hs := filter (λ c, c ∉ st) hs0) in *.
  pose proof (wf_static _ _ _ _ _ _ _ _ Hwf) as Hs.
  pose proof (wf_horiz _ _ _ _ _ _ _ _ Hwf) as Hh.
  pose proof (wf_vert _ _ _ _ _ _ _ _ Hwf) as Hv.
  rewrite Hroot in *. rewrite (header_list nc nu rw hs g Hs Hh) in *.
  assert (Hf : nu ≤ Z.of_nat fuel).
  { pose proof (size_lower_bound nc nu rw _ (wf_static _ _ _ _ _ _ _ _ Hwf0)). lia. }
  pose proof (dy_hhead _ _ _ Hh col Hc) as Hch.
  destruct (cover_wfs cells nc nr nu rw hs vl g col fuel Hwf Hc Hf)
    as (g1 & vl1 & Hcov & Hunc & Hwf1 & Evl & Hrow1 & HC1).
  pose proof (wf_static _ _ _ _ _ _ _ _ Hwf1) as Hs1.
  pose proof (wf_vert _ _ _ _ _ _ _ _ Hwf1) as Hv1.
  exists g1. split_and!; [done..| |].
  - rewrite (column_nodes_vl nc nu rw vl1 g1 col Hs1 Hv1 Hch).
    by rewrite (column_nodes_vl nc nu rw vl g col Hs Hv Hch).
  - intros x Hx. rewrite (column_nodes_vl nc nu rw vl1 g1 col Hs1 Hv1 Hch), Evl in Hx.
    destruct (select_row cells nc nr nu rw hs vl g col x fuel g1 vl1
                Hwf Hc Hx Hf Hwf1 Hrow1 HC1)
      as (g2 & vl2 & hs2 & Hco & Huo & Hwf2 & Hhs2 & _).
    exists g2. split_and!; [done| |done].
    rewrite (header_list nc nu rw hs2 g2 (wf_static _ _ _ _ _ _ _ _ Hwf2)
               (wf_horiz _ _ _ _ _ _ _ _ Hwf2)).
    exact Hhs2.
Qed.

Lemma take_row_roundtrip_witness :
  ∃ g1,
    cover 20 0 (nodes Examples.small_solver) = Ok g1 ∧
    uncover 20 0 g1 = Ok (nodes Examples.small_solver) ∧
    column_nodes g1 0 = column_nodes (nodes Examples.small_solver) 0 ∧
    ∀ x, x ∈ column_nodes g1 0 →
      ∃ g2,
        cover_others 20 20 x (fR g1 x) g1 = Ok g2 ∧
        (∀ c, c ∈ live_columns g2 (root Examples.small_solver) ↔
              c ∈ live_columns (nodes Examples.small_solver)
                    (root Examples.small_solver) ∧
              ¬ hits (Examples.cells_of_rows 4 Examples.small_rows) 4 4
                  (frow (nodes Examples.small_solver) x) c) ∧
        uncover_others 20 20 x (fL g2 x) g2 = Ok g1.
Proof.
  apply (take_row_roundtrip 9 4 4 (Examples.cells_of_rows 4 Examples.small_rows)
           true Examples.small_solver 20 [] (nodes Examples.small_solver) 0).
  - vm_compute. split; [discriminate 1|reflexivity].
  - lia.
  - vm_compute. reflexivity.
  - vm_compute. reflexivity.
  - vm_compute. lia.
  - apply reach_init.
  - apply (bool_decide_unpack _). vm_compute. exact I.
Defined.

(** X6.  The column [search] branches on.  In a state a search can reach
    whose header list is not empty, for a matrix with fewer than 2^31 rows
    (the least count is kept in an [int]), the selection loop of [search]
    returns the first column of the header list among those of the least
    count: the columns before it have a greater count, the columns behind
    it a count that is not less. *)
Theorem choose_column_minimal inuse nc nr cells strict s0 fuel st g :
  2 ≤ nc < size_modulus → 0 ≤ nr < 2 ^ 31 → nr * nc < size_modulus →
  solver_init_graph (solver_create inuse nc nr) cells strict = Ok s0 →
  (size (nodes s0) ≤ fuel)%nat →
  reach fuel s0 st g →
  live_columns g (root s0) ≠ [] →
  ∃ col pre post,
    choose_column fuel g (root s0) (fR g (root s0))
      (fcount g (fR g (root s0))) (fR g (fR g (root s0))) = Ok col ∧
    live_columns g (root s0) = pre ++ col :: post ∧
    (∀ x, x ∈ pre → fcount g col < fcount g x) ∧
    (∀ x, x ∈ post → fcount g col ≤ fcount g x).
Proof.
  intros Hnc Hnr Hsize Hinit Hfuel Hreach Hne.
  destruct (init_wfs _ _ _ _ _ _ Hnc (proj1 Hnr) Hsize Hinit)
    as (Hroot & nu & rw & hs0 & vl0 & Hwf0 & Hkept & Hnu & Ehs).
  destruct (reach_wfs cells nc nr nu rw fuel s0 Hroot Hfuel hs0 vl0 st g Hwf0 Hreach)
    as (vl & Hwf & _).
  set (hs := filter (λ c, c ∉ st) hs0) in *.
  pose proof (wf_static _ _ _ _ _ _ _ _ Hwf) as Hs.
  pose proof (wf_horiz _ _ _ _ _ _ _ _ Hwf) as Hh.
  pose proof (st_bounds _ _ _ _ Hs) as (Hb1 & Hb2 & Hb3).
  rewrite Hroot in *. rewrite (header_list nc nu rw hs g Hs Hh) in *.
  pose proof (dy_hring _ _ _ Hh) as Hring. unfold ring in Hring.
  destruct hs as [|c0 l] eqn:Ehs'; [done|].
  destruct Hring as (E0 & Hne0 & Hseg). rewrite E0.
  assert (Hlen : (length l < fuel)%nat).
  { pose proof (size_lower_bound nc nu rw _ (wf_static _ _ _ _ _ _ _ _ Hwf0)).
    pose proof (length_nodup_range (c0 :: l) (-1) nc (dy_hnodup _ _ _ Hh)) as Hl.
    assert (Hr : ∀ x, x ∈ c0 :: l → -1 < x < nc).
    { intros x Hx%(dy_hhead _ _ _ Hh). unfold is_header in Hx. lia. }
    specialize (Hl Hr). simpl in Hl. lia. }
  destruct (choose_column_first g nc l fuel c0 (fR g c0) Hseg) as (col & Hrun & Hc);
    [|done|].
  { intros x Hx. apply (st_dom _ _ _ _ Hs).
    assert (Hxh : is_header nc x) by (apply (dy_hhead _ _ _ Hh); set_solver).
    unfold is_header in Hxh. lia. }
  destruct Hc as [[-> Hmin]|(pre & post & -> & Hlt & Hpre & Hpost)].
  - exists c0, [], l. split_and!; [done|done| |done].
    intros x Hx. by apply elem_of_nil in Hx.
  - exists col, (c0 :: pre), post. split_and!; [done|done| |done].
    intros x [->|Hx]%elem_of_cons; [done|by apply Hpre].
Qed.

Lemma choose_column_minimal_witness :
  ∃ col pre post,
    choose_column 20 Examples.small_covered (root Examples.small_solver)
      (fR Examples.small_covered (root Examples.small_solver))
      (fcount Examples.small_covered
         (fR Examples.small_covered (root Examples.small_solver)))
      (fR Examples.small_covered
         (fR Examples.small_covered (root Examples.small_solver))) = Ok col ∧
    live_columns Examples.small_covered (root Examples.small_solver) =
      pre ++ col :: post ∧
    (∀ x, x ∈ pre → fcount Examples.small_covered col < fcount Examples.small_covered x) ∧
    (∀ x, x ∈ post → fcount Examples.small_covered col ≤ fcount Examples.small_covered x).
Proof.
  apply (choose_column_minimal 9 4 4 (Examples.cells_of_rows 4 Examples.small_rows)
           true Examples.small_solver 20 [0] Examples.small_covered).
  - vm_compute. split; [discriminate 1|reflexivity].
  - vm_compute. split; [discriminate 1|reflexivity].
  - vm_compute. reflexivity.
  - vm_compute. reflexivity.
  - vm_compute. lia.
  - apply (reach_cover 20 Examples.small_solver [] (nodes Examples.small_solver) 0).
    + apply reach_init.
    + apply (bool_decide_unpack _). vm_compute. exact I.
    + vm_compute. reflexivity.
  - vm_compute. discriminate 1.
Defined.

(** X16.  [solver_init_graph] needs one node for every 1.  For a matrix with
    at least two columns and a solver created for [inuse] cells, with
    [inuse + ncols + 1] nodes: if the matrix array holds at most [inuse]
    entries that are set, [solver_init_graph] returns; if it holds more, it
    runs past the end of the node array. *)
Theorem init_graph_returns inuse nc nr cells strict :
  2 ≤ nc → 0 ≤ nr → nr * nc < size_modulus →
  0 ≤ inuse → inuse + nc + 1 < size_modulus →
  (Z.of_nat (length (matrix_ones cells nc nr)) ≤ inuse →
   ∃ s0, solver_init_graph (solver_create inuse nc nr) cells strict = Ok s0) ∧
  (inuse < Z.of_nat (length (matrix_ones cells nc nr)) →
   solver_init_graph (solver_create inuse nc nr) cells strict = Err OutOfBounds).
Proof.
  intros Hnc Hnr Hsize Hinuse Hneeded. split.
  - intros Hones. by apply init_total.
  - intros Hones.
    destruct (solver_init_graph (solver_create inuse nc nr) cells strict)
      as [s0|e] eqn:E.
    + apply ones_have_nodes in E; [|lia..].
      rewrite sz_small in E by lia. lia.
    + by rewrite (init_graph_err _ _ _ _ E).
Qed.

Lemma init_graph_returns_witness :
  (Z.of_nat (length (matrix_ones (Examples.cells_of_rows 4 Examples.small_rows) 4 4))
   ≤ 9 →
   ∃ s0, solver_init_graph (solver_create 9 4 4)
           (Examples.cells_of_rows 4 Examples.small_rows) true = Ok s0) ∧
  (9 < Z.of_nat (length (matrix_ones (Examples.cells_of_rows 4 Examples.small_rows) 4 4))
   → solver_init_graph (solver_create 9 4 4)
       (Examples.cells_of_rows 4 Examples.small_rows) true = Err OutOfBounds).
Proof.
  apply (init_graph_returns 9 4 4 (Examples.cells_of_rows 4 Examples.small_rows) true).
  - lia.
  - lia.
  - vm_compute. reflexivity.
  - lia.
  - vm_compute. reflexivity.
Defined.

End GraphProps.

(** * The two modes of [solver_run] *)

Module SearchProps.
Import Util Solver Dlx InitSpec ExactCover Views.
Import ArenaFacts SegFacts CoverUncover SearchStates CoverSets SearchUnique.
Import InitState Packing UniqueMode SearchRandom RandomMode ReachStates UniformRows.

(** X7.  Find-any mode on a matrix with at least two columns whose
    non-empty rows all have the same number [m] of 1s, from the graph
    [solver_init_graph] builds (strict or relaxed), with a buffer of at
    least [n] slots where the header list has fewer than [m * n] columns,
    and fuel for as many steps as the arena has nodes.  [solver_run]
    returns.  If it returns true, the buffer starts
    with the distinct rows of an exact cover of the kept columns, followed
    by -1 up to slot [n]; the slots from [n] on are untouched.  If it
    returns false, the matrix has no exact cover and the graph is as it was
    before the run. *)
Theorem random_mode_finds_cover inuse nc nr cells strict s0 fuel buf n r m :
  2 ≤ nc < size_modulus → 0 ≤ nr → nr * nc < size_modulus →
  solver_init_graph (solver_create inuse nc nr) cells strict = Ok s0 →
  0 < m →
  (∀ r, 0 ≤ r < nr →
        row_ones cells nc r = [] ∨ Z.of_nat (length (row_ones cells nc r)) = m) →
  Z.of_nat (length (live_columns (nodes s0) (root s0))) < m * n →
  n ≤ Z.of_nat (length buf) →
  (size (nodes s0) ≤ fuel)%nat →
  ∃ b s' r',
    solver_run fuel s0 DLX_RANDOM buf n r = Ok (b, s', r') ∧
    (b = true →
     ∃ path : list Z,
       NoDup path ∧ exact_cover cells nc nr strict (list_to_set path) ∧
       solution s' =
         path ++ replicate (Z.to_nat (n - Z.of_nat (length path))) (-1)
              ++ drop (Z.to_nat n) buf) ∧
    (b = false →
     nodes s' = nodes s0 ∧ ∀ R, ¬ exact_cover cells nc nr strict R).
Proof.
  intros Hnc Hnr Hsize Hinit Hm Huni Hcols Hbuf Hfuel.
  destruct (init_wfs _ _ _ _ _ _ Hnc Hnr Hsize Hinit)
    as (Hroot & nu & rw & hs & vl & Hwf & Hkept & _).
  pose proof (wf_static _ _ _ _ _ _ _ _ Hwf) as Hs.
  pose proof (wf_horiz _ _ _ _ _ _ _ _ Hwf) as Hh.
  pose proof (size_lower_bound nc nu rw _ Hs) as Hnu.
  rewrite Hroot, (header_list nc nu rw hs _ Hs Hh) in Hcols.
  destruct (solver_run_uniform cells nc nr nu rw hs vl s0 fuel buf n r m
              Hwf Hroot ltac:(lia) Hm Huni Hcols Hbuf)
    as (b & s' & r' & Hrun & Htrue & Hfalse).
  assert (E : ∀ R, exact_cover cells nc nr strict R ↔
                   covers cells nc nr (λ c, c ∈ hs) R).
  { intros R. by apply exact_cover_covers. }
  exists b, s', r'. split_and!; [done| |].
  - intros Hb. destruct (Htrue Hb) as (path & Hpnd & Hpc & Hsol & _).
    exists path. split_and!; [done|by apply E|done].
  - intros Hb. destruct (Hfalse Hb) as [Hg Hnone]. split; [done|].
    intros R HR%E. by apply (Hnone R).
Qed.

Lemma random_mode_finds_cover_witness :
  ∃ b s' r',
    solver_run 20 diagonal_solver DLX_RANDOM (replicate 4 7) 3
      (Examples.constant_rng 1) = Ok (b, s', r') ∧
    (b = true →
     ∃ path : list Z,
       NoDup path ∧
       exact_cover (Examples.cells_of_rows 2 Examples.diagonal_rows) 2 2 true
         (list_to_set path) ∧
       solution s' =
         path ++ replicate (Z.to_nat (3 - Z.of_nat (length path))) (-1)
              ++ drop (Z.to_nat 3) (replicate 4 7)) ∧
    (b = false →
     nodes s' = nodes diagonal_solver ∧
     ∀ R, ¬ exact_cover (Examples.cells_of_rows 2 Examples.diagonal_rows) 2 2 true R).
Proof.
  apply (random_mode_finds_cover 2 2 2
           (Examples.cells_of_rows 2 Examples.diagonal_rows) true
           diagonal_solver 20 (replicate 4 7) 3 (Examples.constant_rng 1) 1).
  - vm_compute. split; [discriminate 1|reflexivity].
  - lia.
  - vm_compute. reflexivity.
  - vm_compute. reflexivity.
  - lia.
  - intros r Hr. assert (r = 0 ∨ r = 1) as [-> | ->] by lia;
      right; vm_compute; reflexivity.
  - vm_compute. reflexivity.
  - simpl. lia.
  - vm_compute. lia.
Defined.

(** X8.  Count-unique mode leaves no trace unless it stops early.  Take
    the graph [solver_init_graph] builds for a matrix with at least two
    columns (strict or relaxed) and a buffer of at least [n] slots, where
    [n] is larger than the number of rows in any set of rows that have a 1
    each and pairwise no column in common; the fuel is the number of nodes
    of the arena or more.  Then [solver_run] in count-unique mode returns
    without drawing a random number; the root, the size and the length of
    the buffer are as they were set, the counter is at most 2, and if it
    is below 2 every cover was undone: the arena is the one the run started
    from. *)
Theorem unique_mode_restores inuse nc nr cells strict s0 fuel buf n r :
  2 ≤ nc < size_modulus → 0 ≤ nr → nr * nc < size_modulus →
  solver_init_graph (solver_create inuse nc nr) cells strict = Ok s0 →
  (∀ F, disjoint_rows cells nc nr F → Z.of_nat (length F) < n) →
  n ≤ Z.of_nat (length buf) →
  (size (nodes s0) ≤ fuel)%nat →
  ∃ b s',
    solver_run fuel s0 DLX_UNIQUE buf n r = Ok (b, s', r) ∧
    root s' = root s0 ∧ solution_size s' = n ∧
    length (solution s') = length buf ∧
    0 ≤ solution_count s' ≤ 2 ∧
    (solution_count s' < 2 → nodes s' = nodes s0).
Proof.
  intros Hnc Hnr Hsize Hinit Hpack Hbuf Hfuel.
  destruct (init_wfs _ _ _ _ _ _ Hnc Hnr Hsize Hinit)
    as (Hroot & nu & rw & hs & vl & Hwf & Hkept & _).
  pose proof (wf_static _ _ _ _ _ _ _ _ Hwf) as Hs.
  pose proof (wf_horiz _ _ _ _ _ _ _ _ Hwf) as Hh.
  pose proof (size_lower_bound nc nu rw _ Hs) as Hnu.
  pose proof (st_bounds _ _ _ _ Hs) as (Hb1 & Hb2 & Hb3).
  assert (Hlen : Z.of_nat (length hs) ≤ nc).
  { pose proof (length_nodup_range hs (-1) nc (dy_hnodup _ _ _ Hh)) as Hl.
    assert (Hr : ∀ c, c ∈ hs → -1 < c < nc).
    { intros c Hc%(dy_hhead _ _ _ Hh). unfold is_header in Hc. lia. }
    specialize (Hl Hr). lia. }
  assert (Hlf : nu ≤ Z.of_nat fuel) by lia.
  pose proof (packing_bound cells nc nr hs n Hpack) as Hdepth.
  pose proof (packing_nonneg cells nc nr hs) as Hdepth0.
  destruct (clear_solution_Ok buf n) as (buf' & Hclear & Hlen'); [lia|].
  unfold solver_run. rewrite Hclear, bind_Ok. cbv zeta.
  set (s1 := mk_solver _ _ _ _ _ _ _ _).
  destruct (search_unique cells nc nr nu rw fuel (packing cells nc nr)
              Hlf (packing_nonneg cells nc nr) (packing_step cells nc nr)
              fuel hs vl (nodes s0) s1 0 r 0)
    as (b & s' & l & Hrun & (HndL & HsoundL & HcL & HtL & HfL) & Hcfg);
    [lia|done|done|done|done|done|lia|lia| | |].
  { unfold s1. cbn [solution_size]. lia. }
  { unfold s1. cbn [solution_size solution]. lia. }
  rewrite Hrun, bind_Ok. cbv beta iota.
  destruct Hcfg as (C1 & C2 & C3 & C4 & C5 & C6). rewrite C2. cbn [mode s1].
  exists (solution_count s' =? 1), s'.
  cbn [s1 root solution_size solution] in C1, C3, C6.
  assert (Hcnt : 0 ≤ solution_count s' ≤ 2).
  { destruct b; [specialize (HtL eq_refl)|destruct (HfL eq_refl) as [? _]]; lia. }
  split_and!; [done|done|done|congruence|lia|lia|].
  intros Hlt. destruct b; [specialize (HtL eq_refl); lia|].
  by destruct (HfL eq_refl) as (_ & ? & _).
Qed.

Lemma unique_mode_restores_witness :
  ∃ b s',
    solver_run 20 Examples.toy_solver DLX_UNIQUE (replicate 3 0) 3
      (Examples.constant_rng 1) = Ok (b, s', Examples.constant_rng 1) ∧
    root s' = root Examples.toy_solver ∧ solution_size s' = 3 ∧
    length (solution s') = length (replicate 3 0) ∧
    0 ≤ solution_count s' ≤ 2 ∧
    (solution_count s' < 2 → nodes s' = nodes Examples.toy_solver).
Proof.
  apply (unique_mode_restores 6 3 4 (Examples.cells_of_rows 3 Examples.toy_rows)
           true Examples.toy_solver 20 (replicate 3 0) 3 (Examples.constant_rng 1)).
  - vm_compute. split; [discriminate 1|reflexivity].
  - lia.
  - vm_compute. reflexivity.
  - vm_compute. reflexivity.
  - intros F HF%disjoint_rows_pack.
    assert (E : pack (Examples.cells_of_rows 3 Examples.toy_rows) 3
                  (seqZ 0 4) (seqZ 0 3) = 2%nat) by (vm_compute; reflexivity).
    rewrite E in HF. lia.
  - simpl. lia.
  - vm_compute. lia.
Defined.

(** X9.  [solver_run] trusts the size it is given: with a buffer of fewer
    than [size] slots the loop that clears the buffer writes behind its
    end, whatever the graph and the mode, before the search starts. *)
Theorem solver_run_short_buffer fuel s md buf n r :
  Z.of_nat (length buf) < n →
  solver_run fuel s md buf n r = Err OutOfBounds.
Proof.
  intros Hn. unfold solver_run, clear_solution, for_range.
  assert (H : ∀ k i (b : list Z),
            0 ≤ i ≤ Z.of_nat (length b) → Z.of_nat (length b) < i + Z.of_nat k →
            for_loop k i
              (λ i b, if i <? Z.of_nat (length b) then Ok (aset b i (-1))
                      else Err OutOfBounds) b = Err OutOfBounds).
  { induction k as [|k IH]; intros i b Hi Hk; [lia|].
    rewrite for_loop_S.
    destruct (i <? Z.of_nat (length b)) eqn:E.
    - apply Z.ltb_lt in E. rewrite bind_Ok.
      apply IH; rewrite SudokuLoop.length_aset; lia.
    - done. }
  rewrite H; [done|lia|lia].
Qed.

Lemma solver_run_short_buffer_witness :
  solver_run 20 Examples.small_solver DLX_RANDOM [0; 0] 3 (Examples.constant_rng 1)
  = Err OutOfBounds.
Proof.
  apply (solver_run_short_buffer 20 Examples.small_solver DLX_RANDOM [0; 0] 3
           (Examples.constant_rng 1)).
  simpl. lia.
Defined.

End SearchProps.

(** * Shuffling, grid indices and masks *)

Module GridProps.
Import Util Solver Sudoku InitSpec ExactCover SudokuSpec SudokuLoop.
Import ShuffleFacts SudokuIndex Masks DlxCells.

Lemma shuffle_loop_draws m a r :
  draws (shuffle_loop m a r).2 = draws r ∧
  drawn (shuffle_loop m a r).2 = (drawn r + m)%nat.
Proof.
  revert a r. induction m as [|m IH]; intros a r; [simpl; split; [done|lia]|].
  cbn [shuffle_loop]. unfold rand. cbv zeta.
  match goal with |- context [shuffle_loop m ?a' ?r'] =>
    destruct (IH a' r') as [H1 H2] end.
  rewrite H1, H2. simpl. split; [done|lia].
Qed.

(** X10.  [shuffle a n], for [n] at most the length of the array, permutes
    the first [n] entries and leaves the others alone; it draws [n - 1]
    random numbers, none when [n] is 0 or 1. *)
Theorem shuffle_permutes a n r :
  0 ≤ n ≤ Z.of_nat (length a) →
  take (Z.to_nat n) (shuffle a n r).1 ≡ₚ take (Z.to_nat n) a ∧
  drop (Z.to_nat n) (shuffle a n r).1 = drop (Z.to_nat n) a ∧
  draws (shuffle a n r).2 = draws r ∧
  drawn (shuffle a n r).2 = (drawn r + Z.to_nat (n - 1))%nat.
Proof.
  intros Hn.
  destruct (shuffle_prefix_perm a n r Hn) as [_ Hp].
  split_and!; [done| |apply shuffle_loop_draws..].
  unfold shuffle. destruct (decide (n = 0)) as [->|Hn0]; [done|].
  destruct (shuffle_loop_perm (Z.to_nat (n - 1)) a r) as [_ Hd]; [lia|].
  by replace (S (Z.to_nat (n - 1))) with (Z.to_nat n) in Hd by lia.
Qed.

Lemma shuffle_permutes_witness :
  take (Z.to_nat 3) (shuffle [1; 2; 3; 4] 3 (Examples.constant_rng 1)).1 ≡ₚ
    take (Z.to_nat 3) [1; 2; 3; 4] ∧
  drop (Z.to_nat 3) (shuffle [1; 2; 3; 4] 3 (Examples.constant_rng 1)).1 =
    drop (Z.to_nat 3) [1; 2; 3; 4] ∧
  draws (shuffle [1; 2; 3; 4] 3 (Examples.constant_rng 1)).2 =
    draws (Examples.constant_rng 1) ∧
  drawn (shuffle [1; 2; 3; 4] 3 (Examples.constant_rng 1)).2 =
    (drawn (Examples.constant_rng 1) + Z.to_nat (3 - 1))%nat.
Proof.
  apply (shuffle_permutes [1; 2; 3; 4] 3 (Examples.constant_rng 1)).
  simpl. lia.
Defined.

(** X11.  [GRID_IDX] and [GRID_X], [GRID_Y] are inverse to each other
    between the 81 indices of the grid and the cells [(x, y)] with
    coordinates below 9. *)
Theorem grid_index_roundtrip x y i :
  in_grid x y → 0 ≤ i < 81 →
  (GRID_X (GRID_IDX x y) = x ∧ GRID_Y (GRID_IDX x y) = y ∧
   0 ≤ GRID_IDX x y < 81) ∧
  (in_grid (GRID_X i) (GRID_Y i) ∧ GRID_IDX (GRID_X i) (GRID_Y i) = i).
Proof. intros Hxy Hi. split; [by apply grid_xy|by apply grid_idx]. Qed.

Lemma grid_index_roundtrip_witness :
  (GRID_X (GRID_IDX 4 7) = 4 ∧ GRID_Y (GRID_IDX 4 7) = 7 ∧
   0 ≤ GRID_IDX 4 7 < 81) ∧
  (in_grid (GRID_X 80) (GRID_Y 80) ∧ GRID_IDX (GRID_X 80) (GRID_Y 80) = 80).
Proof.
  apply (grid_index_roundtrip 4 7 80).
  - unfold in_grid. lia.
  - lia.
Defined.

(** X12.  The four constraint columns of a placement.  For digits [v + 1],
    [v' + 1] and cells [(x, y)], [(x', y')] of the grid: the four columns
    of a matrix row are distinct and below 324, and the rows of two
    placements share a column exactly when they fill the same cell or put
    the same digit into two cells of one row, column or section. *)
Theorem placement_conflict v x y v' x' y' :
  0 ≤ v < 9 → in_grid x y → 0 ≤ v' < 9 → in_grid x' y' →
  NoDup (placement_columns v x y) ∧
  (∀ c, c ∈ placement_columns v x y → 0 ≤ c < DLX_MAX_COLS) ∧
  ((∃ c, c ∈ placement_columns v x y ∧ c ∈ placement_columns v' x' y') ↔
   (x = x' ∧ y = y') ∨ (v = v' ∧ same_unit x y x' y')).
Proof.
  intros Hv Hxy Hv' Hxy'.
  pose proof (col_ranges v x y Hv Hxy) as (R1 & R2 & R3 & R4).
  pose proof (col_ranges v' x' y' Hv' Hxy') as (R1' & R2' & R3' & R4').
  unfold placement_columns. split_and!.
  - repeat (apply NoDup_cons; split; [set_solver by lia|]). apply NoDup_nil_2.
  - intros c Hc. change DLX_MAX_COLS with 324.
    repeat (apply elem_of_cons in Hc as [->|Hc]; [lia|]). by apply elem_of_nil in Hc.
  - split.
    + intros (c & Hc & Hc').
      repeat (apply elem_of_cons in Hc as [->|Hc];
              [repeat (apply elem_of_cons in Hc' as [E|Hc']; [|]);
               try (by apply elem_of_nil in Hc'); try lia|]);
        try (by apply elem_of_nil in Hc).
      * left. by apply (col1_inj v x y v' x' y').
      * right. destruct (col2_inj v x y v' x' y') as [-> ->]; [done..|].
        split; [done|by left].
      * right. destruct (col3_inj v x y v' x' y') as [-> ->]; [done..|].
        split; [done|right; by left].
      * right. destruct (col4_inj v x y v' x' y') as [-> E']; [done..|].
        split; [done|right; by right].
    + intros [[-> ->]|[-> [->|[->|E]]]].
      * exists (DLX_COL1 v x' y'). split; [set_solver|].
        replace (DLX_COL1 v x' y') with (DLX_COL1 v' x' y') by done. set_solver.
      * exists (DLX_COL2 v' x y'). split; [set_solver|].
        replace (DLX_COL2 v' x y') with (DLX_COL2 v' x' y') by done. set_solver.
      * exists (DLX_COL3 v' x' y). split; [set_solver|].
        replace (DLX_COL3 v' x' y) with (DLX_COL3 v' x' y') by done. set_solver.
      * exists (DLX_COL4 v' x y). split; [set_solver|].
        replace (DLX_COL4 v' x y) with (DLX_COL4 v' x' y')
          by (unfold DLX_COL4; by rewrite E).
        set_solver.
Qed.

Lemma placement_conflict_witness :
  NoDup (placement_columns 4 0 0) ∧
  (∀ c, c ∈ placement_columns 4 0 0 → 0 ≤ c < DLX_MAX_COLS) ∧
  ((∃ c, c ∈ placement_columns 4 0 0 ∧ c ∈ placement_columns 4 2 1) ↔
   (0 = 2 ∧ 0 = 1) ∨ (4 = 4 ∧ same_unit 0 0 2 1)).
Proof.
  apply (placement_conflict 4 0 0 4 2 1); unfold in_grid; lia.
Defined.

(** X13.  [get_section_idxs sec], for a section number below 9, lists nine
    distinct grid indices: those of the cells whose section is [sec]. *)
Theorem section_idxs_cells sec :
  0 ≤ sec < 9 →
  length (get_section_idxs sec) = 9%nat ∧ NoDup (get_section_idxs sec) ∧
  ∀ i, i ∈ get_section_idxs sec ↔
       ∃ x y, in_grid x y ∧ SEC_IDX x y = sec ∧ i = GRID_IDX x y.
Proof.
  intros Hsec.
  assert (Hlen : length (get_section_idxs sec) = 9%nat).
  { unfold get_section_idxs. by rewrite length_fmap, length_seqZ. }
  assert (Hget : ∀ j, 0 ≤ j < 9 →
            get_section_idxs sec !! Z.to_nat j = Some (aget (get_section_idxs sec) j)).
  { intros j Hj. unfold aget.
    destruct (lookup_lt_is_Some_2 (get_section_idxs sec) (Z.to_nat j)) as [v Hv];
      [lia|]. by rewrite Hv. }
  split_and!; [done| |].
  - unfold get_section_idxs. apply NoDup_fmap_2_strong; [|apply NoDup_seqZ].
    intros a b Ha%elem_of_seqZ Hb%elem_of_seqZ. unfold SUDOKU_SIZE in Ha, Hb.
    unfold_idx. qlia.
  - intros i. split.
    + intros (k & Hk)%list_elem_of_lookup.
      pose proof (lookup_lt_Some _ _ _ Hk) as Hlt. rewrite Hlen in Hlt.
      destruct (section_cells sec (Z.of_nat k)) as (x & y & Hxy & Hs & E); [done|lia|].
      exists x, y. split_and!; [done..|]. rewrite <- E.
      specialize (Hget (Z.of_nat k) ltac:(lia)). rewrite Nat2Z.id in Hget. congruence.
    + intros (x & y & Hxy & <- & ->).
      destruct (section_index x y Hxy) as (j & Hj & <-).
      apply list_elem_of_lookup. exists (Z.to_nat j). by apply Hget.
Qed.

Lemma section_idxs_cells_witness :
  length (get_section_idxs 4) = 9%nat ∧ NoDup (get_section_idxs 4) ∧
  ∀ i, i ∈ get_section_idxs 4 ↔
       ∃ x y, in_grid x y ∧ SEC_IDX x y = 4 ∧ i = GRID_IDX x y.
Proof. apply (section_idxs_cells 4). lia. Defined.

(** X14.  [get_masks] on a grid whose cells hold 0 to 9: bit [d] of the
    mask of row [i] is set exactly when some cell of the row holds [d]
    (bit 0 for an empty cell), and likewise for the masks of column [i] and
    of section [i]. *)
Theorem get_masks_bits g i d :
  (∀ x y, in_grid x y → 0 ≤ cellv g x y ≤ 9) →
  0 ≤ i < 9 → 0 ≤ d →
  let '(rows, cols, secs) := get_masks g in
  (Z.testbit (aget rows i) d = true ↔ ∃ x, 0 ≤ x < 9 ∧ cellv g x i = d) ∧
  (Z.testbit (aget cols i) d = true ↔ ∃ y, 0 ≤ y < 9 ∧ cellv g i y = d) ∧
  (Z.testbit (aget secs i) d = true ↔
   ∃ x y, in_grid x y ∧ SEC_IDX x y = i ∧ cellv g x y = d).
Proof.
  intros _ Hi Hd. destruct (get_masks g) as [[rm cm] sm] eqn:E.
  destruct (get_masks_spec g rm cm sm E i Hi) as (Hr & Hc & Hs).
  split_and!; [apply Hr, Hd|apply Hc, Hd|].
  rewrite (Hs d Hd). split.
  - intros (j & Hj & Ej).
    destruct (section_cells i j Hi Hj) as (x & y & Hxy & Hsec & Eidx).
    exists x, y. split_and!; [done..|]. unfold cellv. by rewrite <- Eidx.
  - intros (x & y & Hxy & <- & Ev).
    destruct (section_index x y Hxy) as (j & Hj & Ej).
    exists j. split; [done|]. by rewrite Ej.
Qed.

Lemma get_masks_bits_witness :
  let '(rows, cols, secs) := get_masks Examples.stuck_grid in
  (Z.testbit (aget rows 0) 5 = true ↔
   ∃ x, 0 ≤ x < 9 ∧ cellv Examples.stuck_grid x 0 = 5) ∧
  (Z.testbit (aget cols 0) 5 = true ↔
   ∃ y, 0 ≤ y < 9 ∧ cellv Examples.stuck_grid 0 y = 5) ∧
  (Z.testbit (aget secs 0) 5 = true ↔
   ∃ x y, in_grid x y ∧ SEC_IDX x y = 0 ∧ cellv Examples.stuck_grid x y = 5).
Proof.
  apply (get_masks_bits Examples.stuck_grid 0 5); [|lia..].
  intros x y [Hx Hy].
  assert (Hc : ∀ k, 0 ≤ aget Examples.stuck_grid k ≤ 9).
  { intros k. unfold aget.
    destruct (Examples.stuck_grid !! Z.to_nat k) as [v|] eqn:Ek; [|simpl; lia].
    assert (Hall : Forall (λ v, 0 ≤ v ≤ 9) Examples.stuck_grid)
      by (apply (bool_decide_unpack _); vm_compute; exact I).
    rewrite Forall_lookup in Hall. simpl. by apply (Hall _ _ Ek). }
  apply Hc.
Defined.

(** X15.  [get_dlx_cells] on a grid whose cells hold 0 to 9 returns a
    matrix of 324 columns and 729 rows.  Its entry in row [r] and column
    [c] is set exactly when [r] is the row of a candidate, a digit [v + 1]
    for an empty cell [(x, y)] that does not stand in the row, the column
    or the section of the cell, and [c] is one of its four columns.  Every
    entry that is set lies inside the allocated array, and [*count] is the
    number of entries that are set. *)
Theorem dlx_cells_candidates g :
  (∀ x y, in_grid x y → 0 ≤ cellv g x y ≤ 9) →
  let '(cells, count, ncols, nrows) := get_dlx_cells g in
  ncols = 324 ∧ nrows = 729 ∧
  (∀ r c, 0 ≤ c < 324 →
     cell cells (DLX_CELL_IDX r c) = true ↔
     ∃ v x y, candidate g v x y ∧ r = DLX_ROW v x y ∧
              c ∈ placement_columns v x y) ∧
  (∀ k, cell cells k = true → 0 ≤ k < DLX_MAX_COLS * DLX_MAX_ROWS) ∧
  count = Z.of_nat (size cells).
Proof.
  intros _. destruct (get_dlx_cells g) as [[[cells count] ncols] nrows] eqn:E.
  destruct (get_dlx_cells_spec g cells count ncols nrows E)
    as (-> & -> & H1 & H2 & H3). cbn [fst snd] in *. clear E.
  assert (Hcell : ∀ k, cell cells k = true ↔ cells !! k = Some true).
  { intros k. unfold cell. destruct (cells !! k) as [[]|]; simpl; split; congruence. }
  split_and!; [done|done| | |done].
  - intros r c Hc. rewrite Hcell. split.
    + intros Hk.
      destruct (H1 _ _ Hk) as (_ & v & x & y & _ & Hcand & (c' & Ei & Hin)%list_elem_of_fmap).
      pose proof Hcand as (Hv & Hxy & _).
      apply cell_idx_inj in Ei as [-> ->];
        [|done|by apply (placement_columns_range v x y)].
      by exists v, x, y.
    + intros (v & x & y & Hcand & -> & Hin). by apply H2.
  - intros k Hk%Hcell.
    destruct (H1 _ _ Hk) as (_ & v & x & y & _ & Hcand & (c' & -> & Hin)%list_elem_of_fmap).
    pose proof Hcand as (Hv & Hxy & _).
    pose proof (placement_columns_range v x y c' Hv Hxy Hin).
    pose proof (row_decode v x y Hv Hxy) as (_ & _ & _ & Hr).
    unfold DLX_CELL_IDX, DLX_MAX_COLS, DLX_MAX_ROWS, GRID_SIZE, SUDOKU_SIZE. lia.
Qed.

Lemma dlx_cells_candidates_witness :
  let '(cells, count, ncols, nrows) := get_dlx_cells Examples.stuck_grid in
  ncols = 324 ∧ nrows = 729 ∧
  (∀ r c, 0 ≤ c < 324 →
     cell cells (DLX_CELL_IDX r c) = true ↔
     ∃ v x y, candidate Examples.stuck_grid v x y ∧ r = DLX_ROW v x y ∧
              c ∈ placement_columns v x y) ∧
  (∀ k, cell cells k = true → 0 ≤ k < DLX_MAX_COLS * DLX_MAX_ROWS) ∧
  count = Z.of_nat (size cells).
Proof.
  apply (dlx_cells_candidates Examples.stuck_grid).
  intros x y [Hx Hy].
  assert (Hc : ∀ k, 0 ≤ aget Examples.stuck_grid k ≤ 9).
  { intros k. unfold aget.
    destruct (Examples.stuck_grid !! Z.to_nat k) as [v|] eqn:Ek; [|simpl; lia].
    assert (Hall : Forall (λ v, 0 ≤ v ≤ 9) Examples.stuck_grid)
      by (apply (bool_decide_unpack _); vm_compute; exact I).
    rewrite Forall_lookup in Hall. simpl. by apply (Hall _ _ Ek). }
  apply Hc.
Defined.

End GridProps.

(** * [sudoku_solve] *)

Module SolveProps.
Import Util Solver Sudoku InitSpec ExactCover SudokuSpec SudokuLoop Views.
Import SudokuIndex DlxCells SudokuMatrix SolveSpec GridChecks Completions.

(** X17.  [sudoku_solve] on a grid of 81 cells that hold 0 to 9, at least
    one of them a hint, with fuel for the 3241 nodes the graph can have.
    It returns, without a fault.  When it returns false the grid is
    untouched.  When it returns true, the hints are as they were; every
    empty cell that had a candidate (a digit that stands neither in its
    row, nor its column, nor its section) now holds one of its candidates;
    an empty cell without a candidate is still empty; and two cells of one
    row, column or section hold the same digit only if both already held it
    before. *)
Theorem sudoku_solve_returns g fuel r :
  length g = 81%nat → (∀ x y, in_grid x y → 0 ≤ cellv g x y ≤ 9) →
  (∃ x y, in_grid x y ∧ cellv g x y ≠ 0) → 3241 ≤ Z.of_nat fuel →
  ∃ (b : bool) g' r',
    sudoku_solve fuel g r = Ok (b, g', r') ∧ length g' = 81%nat ∧
    (b = false → g' = g) ∧
    (b = true →
     (∀ x y, in_grid x y → cellv g x y ≠ 0 → cellv g' x y = cellv g x y) ∧
     (∀ x y v0, candidate g v0 x y →
                ∃ v, candidate g v x y ∧ cellv g' x y = v + 1) ∧
     (∀ x y, in_grid x y → cellv g x y = 0 → (∀ v, ¬ candidate g v x y) →
             cellv g' x y = 0) ∧
     (∀ x y x' y',
        in_grid x y → in_grid x' y' → same_unit x y x' y' →
        ¬ (x = x' ∧ y = y') →
        cellv g' x y = cellv g' x' y' → cellv g' x y ≠ 0 →
        cellv g x y = cellv g' x y ∧ cellv g x' y' = cellv g' x' y')).
Proof.
  intros Hlen _ Hhint Hfuel.
  destruct (sudoku_solve_spec g fuel r Hlen Hhint Hfuel)
    as (cells & count & b & g' & r' & _ & Hrun & Hlen' & Hfalse & Htrue).
  exists b, g', r'. split_and!; [exact Hrun|exact Hlen'| |exact Htrue].
  intros Hb. exact (proj1 (Hfalse Hb)).
Qed.

Lemma sudoku_solve_returns_witness :
  ∃ (b : bool) g' r',
    sudoku_solve (Z.to_nat 3241) one_missing (Examples.constant_rng 0)
      = Ok (b, g', r') ∧ length g' = 81%nat ∧
    (b = false → g' = one_missing) ∧
    (b = true →
     (∀ x y, in_grid x y → cellv one_missing x y ≠ 0 →
             cellv g' x y = cellv one_missing x y) ∧
     (∀ x y v0, candidate one_missing v0 x y →
                ∃ v, candidate one_missing v x y ∧ cellv g' x y = v + 1) ∧
     (∀ x y, in_grid x y → cellv one_missing x y = 0 →
             (∀ v, ¬ candidate one_missing v x y) → cellv g' x y = 0) ∧
     (∀ x y x' y',
        in_grid x y → in_grid x' y' → same_unit x y x' y' →
        ¬ (x = x' ∧ y = y') →
        cellv g' x y = cellv g' x' y' → cellv g' x y ≠ 0 →
        cellv one_missing x y = cellv g' x y ∧
        cellv one_missing x' y' = cellv g' x' y')).
Proof.
  apply (sudoku_solve_returns one_missing (Z.to_nat 3241) (Examples.constant_rng 0)).
  - vm_compute. reflexivity.
  - apply (in_rangeb_spec one_missing). vm_compute. reflexivity.
  - exists 1, 0. split; [unfold in_grid; lia|]. vm_compute. discriminate 1.
  - lia.
Defined.

(** X18.  Take a grid of 81 cells that hold 0 to 9, at least one of them a
    hint, in which no digit stands twice in a row, a column or a section
    and every empty cell has a candidate, and fuel for 3241 nodes.  If
    [sudoku_solve] returns true on it, the grid it leaves is solved: every
    cell holds a digit from 1 to 9, no row, column or section holds a digit
    twice, and the hints are in their places. *)
Theorem sudoku_solve_completion g fuel r b g' r' :
  length g = 81%nat → (∀ x y, in_grid x y → 0 ≤ cellv g x y ≤ 9) →
  (∃ x y, in_grid x y ∧ cellv g x y ≠ 0) → 3241 ≤ Z.of_nat fuel →
  consistent g → fillable g →
  sudoku_solve fuel g r = Ok (b, g', r') → b = true →
  completion g g'.
Proof.
  intros Hlen Hrange Hhint Hfuel Hcons Hfill Hrun ->.
  exact (solve_completion g fuel r g' r' Hlen Hrange Hhint Hfuel Hcons Hfill Hrun).
Qed.

Lemma sudoku_solve_completion_witness :
  sudoku_solve (Z.to_nat 3241) one_missing (Examples.constant_rng 0)
    = Ok (true, Examples.solved_grid, Examples.constant_rng 0) ∧
  completion one_missing Examples.solved_grid.
Proof.
  assert (Hrun : sudoku_solve (Z.to_nat 3241) one_missing (Examples.constant_rng 0)
                 = Ok (true, Examples.solved_grid, Examples.constant_rng 0))
    by (vm_compute; reflexivity).
  split; [exact Hrun|].
  apply (sudoku_solve_completion one_missing (Z.to_nat 3241) (Examples.constant_rng 0)
           true Examples.solved_grid (Examples.constant_rng 0)).
  - vm_compute. reflexivity.
  - apply (in_rangeb_spec one_missing). vm_compute. reflexivity.
  - exists 1, 0. split; [unfold in_grid; lia|]. vm_compute. discriminate 1.
  - lia.
  - apply consistentb_spec. vm_compute. reflexivity.
  - apply fillableb_spec. vm_compute. reflexivity.
  - exact Hrun.
  - reflexivity.
Defined.

(** X19.  [sudoku_solve] misses no solution: on a grid of 81 cells with at
    least one hint that has a completion (a full grid of digits 1 to 9,
    none twice in a row, a column or a section, that keeps the hints), with
    fuel for 3241 nodes, it returns true and the grid it leaves is a
    completion.  So a result false means that the grid has none. *)
Theorem sudoku_solve_complete g t fuel r :
  length g = 81%nat → (∃ x y, in_grid x y ∧ cellv g x y ≠ 0) →
  3241 ≤ Z.of_nat fuel → completion g t →
  ∃ g' r', sudoku_solve fuel g r = Ok (true, g', r') ∧ completion g g'.
Proof.
  intros Hlen Hhint Hfuel Hcomp.
  exact (solve_complete g t fuel r Hlen Hhint Hfuel Hcomp).
Qed.

Lemma sudoku_solve_complete_witness :
  ∃ g' r', sudoku_solve (Z.to_nat 3241) one_missing (Examples.constant_rng 0)
             = Ok (true, g', r') ∧ completion one_missing g'.
Proof.
  apply (sudoku_solve_complete one_missing Examples.solved_grid (Z.to_nat 3241)
           (Examples.constant_rng 0)).
  - vm_compute. reflexivity.
  - exists 1, 0. split; [unfold in_grid; lia|]. vm_compute. discriminate 1.
  - lia.
  - apply completionb_spec. vm_compute. reflexivity.
Defined.

End SolveProps.

(** * The stages of the generation *)

Module StageProps.
Import Util Solver Sudoku InitSpec ExactCover SudokuSpec SudokuLoop Views.
Import SudokuIndex DlxCells SudokuMatrix FillSolution.
Import GridChecks Completions Relabel DeducedHints UniqueCheck Generate.

(** X21.  [remove_deduced_hints] never loses the solution.  Started on a
    solved grid [sol] (81 digits from 1 to 9, none twice in a row, a column
    or a section) with the first [n] entries of [order] grid indices below
    81, in any order and with repetitions allowed, it leaves a grid of 81
    cells, each empty or as in [sol], and [sol] is the one solved grid that
    keeps the hints it leaves. *)
Theorem remove_deduced_hints_unique sol order n :
  valid sol → 0 ≤ n ≤ Z.of_nat (length order) →
  (∀ i, 0 ≤ i < n → 0 ≤ aget order i < 81) →
  length (remove_deduced_hints sol order n) = 81%nat ∧
  (∀ x y, in_grid x y →
          cellv (remove_deduced_hints sol order n) x y = 0 ∨
          cellv (remove_deduced_hints sol order n) x y = cellv sol x y) ∧
  completion (remove_deduced_hints sol order n) sol ∧
  ∀ t, completion (remove_deduced_hints sol order n) t → t = sol.
Proof.
  intros Hv Hn Hord.
  destruct (remove_deduced_hints_spec sol order n Hv ltac:(lia) Hord)
    as [[Hlen Hp] [Hc Hu]].
  split_and!; [exact Hlen|exact Hp|exact Hc|exact Hu].
Qed.

Lemma remove_deduced_hints_unique_witness :
  length (remove_deduced_hints Examples.solved_grid [40; 0; 40] 3) = 81%nat ∧
  (∀ x y, in_grid x y →
          cellv (remove_deduced_hints Examples.solved_grid [40; 0; 40] 3) x y = 0 ∨
          cellv (remove_deduced_hints Examples.solved_grid [40; 0; 40] 3) x y
            = cellv Examples.solved_grid x y) ∧
  completion (remove_deduced_hints Examples.solved_grid [40; 0; 40] 3)
    Examples.solved_grid ∧
  ∀ t, completion (remove_deduced_hints Examples.solved_grid [40; 0; 40] 3) t →
       t = Examples.solved_grid.
Proof.
  apply (remove_deduced_hints_unique Examples.solved_grid [40; 0; 40] 3).
  - apply (proj1 (completionb_spec Examples.solved_grid Examples.solved_grid
                    ltac:(vm_compute; reflexivity))).
  - simpl. lia.
  - intros i Hi. assert (i = 0 ∨ i = 1 ∨ i = 2) as [-> | [-> | ->]] by lia;
      unfold aget; simpl; lia.
Defined.

(** X22.  [remove_non_unique_hints] returns and never loses the solution.
    Take a solved grid [sol] and a grid [s] of 81 cells, each empty or as in
    [sol], such that [sol] is the one solved grid keeping the hints of [s];
    let the first [n] entries of [order] be grid indices below 81, and the
    fuel cover the 3241 nodes a graph can have.  Then the function
    returns, without drawing a random number; every cell of the grid it
    leaves is empty or as in [s]; and [sol] is still the one solved grid
    that keeps the hints. *)
Theorem remove_non_unique_hints_returns sol fuel s order n r :
  valid sol → length s = 81%nat →
  (∀ x y, in_grid x y → cellv s x y = 0 ∨ cellv s x y = cellv sol x y) →
  (∀ t, completion s t → t = sol) →
  0 ≤ n ≤ Z.of_nat (length order) →
  (∀ i, 0 ≤ i < n → 0 ≤ aget order i < 81) →
  3241 ≤ Z.of_nat fuel →
  ∃ s', remove_non_unique_hints fuel s order n r = Ok (s', r) ∧
        length s' = 81%nat ∧
        (∀ x y, in_grid x y → cellv s' x y = 0 ∨ cellv s' x y = cellv s x y) ∧
        completion s' sol ∧ ∀ t, completion s' t → t = sol.
Proof.
  intros Hv Hlen Hp Hu Hn Hord Hfuel.
  assert (Hpart : part_of s sol) by (split; [exact Hlen|exact Hp]).
  assert (Honly : only_completion s sol).
  { split; [by apply part_of_completion|exact Hu]. }
  destruct (remove_non_unique_hints_spec sol fuel s order n r Hv Hpart Honly
              ltac:(lia) Hord Hfuel) as (s' & Hrun & [Hl' _] & [Hc' Hu'] & [_ Hp'] & _).
  exists s'. split_and!; [exact Hrun|exact Hl'|exact Hp'|exact Hc'|exact Hu'].
Qed.

Lemma remove_non_unique_hints_returns_witness :
  ∃ s', remove_non_unique_hints (Z.to_nat 3241) Examples.solved_grid [40; 0] 2
          (Examples.constant_rng 0) = Ok (s', Examples.constant_rng 0) ∧
        length s' = 81%nat ∧
        (∀ x y, in_grid x y →
                cellv s' x y = 0 ∨ cellv s' x y = cellv Examples.solved_grid x y) ∧
        completion s' Examples.solved_grid ∧
        ∀ t, completion s' t → t = Examples.solved_grid.
Proof.
  assert (Hv : valid Examples.solved_grid).
  { apply (proj1 (completionb_spec Examples.solved_grid Examples.solved_grid
                    ltac:(vm_compute; reflexivity))). }
  apply (remove_non_unique_hints_returns Examples.solved_grid (Z.to_nat 3241)
           Examples.solved_grid [40; 0] 2 (Examples.constant_rng 0)).
  - exact Hv.
  - vm_compute. reflexivity.
  - intros x y _. right. reflexivity.
  - intros t [(Hlt & _) Hk]. apply grid_ext; [exact Hlt|vm_compute; reflexivity|].
    intros x y Hxy. apply Hk; [exact Hxy|].
    destruct Hv as (_ & Hr & _). specialize (Hr x y Hxy). lia.
  - simpl. lia.
  - intros i Hi. assert (i = 0 ∨ i = 1) as [-> | ->] by lia;
      unfold aget; simpl; lia.
  - lia.
Defined.

(** X23.  The seeded grid is always solved: for every state of the random
    generator, [sudoku_solve] with fuel for 3241 nodes returns true on the
    grid [seed] leaves (a permutation of 1..9 in the first row, 0
    elsewhere), and the grid it returns is a solved grid with that first
    row. *)
Theorem seeded_grid_solved fuel r :
  3241 ≤ Z.of_nat fuel →
  ∃ numbers s2 r2,
    numbers ≡ₚ seqZ 1 9 ∧ (seed r).1 = numbers ++ replicate 72 0 ∧
    sudoku_solve fuel (seed r).1 (seed r).2 = Ok (true, s2, r2) ∧
    valid s2 ∧ take 9 s2 = numbers.
Proof.
  intros Hfuel. destruct (GenerationFailure.seed_shape r) as (numbers & Hperm & Hseed).
  destruct (seeded_solve fuel r Hfuel) as (s2 & r2 & Hrun & [Hv Hk]).
  exists numbers, s2, r2. split_and!; [exact Hperm|exact Hseed|exact Hrun|exact Hv|].
  assert (Hln : length numbers = 9%nat) by by rewrite Hperm.
  pose proof Hv as (Hl2 & _).
  apply list_eq. intros k. destruct (decide (k < 9)%nat) as [Hk9|Hk9].
  - rewrite lookup_take_lt by lia.
    assert (Hxy : in_grid (Z.of_nat k) 0) by (unfold in_grid; lia).
    specialize (Hk (Z.of_nat k) 0 Hxy).
    unfold cellv, aget, GRID_IDX, SUDOKU_SIZE in Hk.
    replace (Z.to_nat (0 * 9 + Z.of_nat k)) with k in Hk by lia.
    rewrite Hseed, lookup_app_l in Hk by lia.
    destruct (lookup_lt_is_Some_2 numbers k) as [a Ha]; [lia|].
    destruct (lookup_lt_is_Some_2 s2 k) as [b Hb]; [lia|].
    rewrite Ha, Hb in *. simpl in Hk. f_equal. apply Hk.
    apply list_elem_of_lookup_2 in Ha. rewrite Hperm in Ha.
    apply elem_of_seqZ in Ha. lia.
  - rewrite lookup_take_ge by lia. symmetry. apply lookup_ge_None_2. lia.
Qed.

Lemma seeded_grid_solved_witness :
  ∃ numbers s2 r2,
    numbers ≡ₚ seqZ 1 9 ∧
    (seed (Examples.constant_rng 0)).1 = numbers ++ replicate 72 0 ∧
    sudoku_solve (Z.to_nat 3241) (seed (Examples.constant_rng 0)).1
      (seed (Examples.constant_rng 0)).2 = Ok (true, s2, r2) ∧
    valid s2 ∧ take 9 s2 = numbers.
Proof.
  apply (seeded_grid_solved (Z.to_nat 3241) (Examples.constant_rng 0)). lia.
Defined.

(** X24.  [init_shuffled_array] with [n] at least 0 leaves the [n]
    numbers [start], [start + 1], ..., [start + n - 1], each once, in some
    order. *)
Theorem init_shuffled_array_permutes n start r :
  0 ≤ n →
  (init_shuffled_array n start r).1 ≡ₚ seqZ start n ∧
  length (init_shuffled_array n start r).1 = Z.to_nat n ∧
  NoDup (init_shuffled_array n start r).1.
Proof.
  intros Hn. pose proof (init_shuffled_array_perm n start r Hn) as Hp.
  split_and!; [exact Hp| |].
  - by rewrite Hp, length_seqZ.
  - rewrite Hp. apply NoDup_seqZ.
Qed.

Lemma init_shuffled_array_permutes_witness :
  (init_shuffled_array 9 1 (Examples.constant_rng 5)).1 ≡ₚ seqZ 1 9 ∧
  length (init_shuffled_array 9 1 (Examples.constant_rng 5)).1 = Z.to_nat 9 ∧
  NoDup (init_shuffled_array 9 1 (Examples.constant_rng 5)).1.
Proof.
  apply (init_shuffled_array_permutes 9 1 (Examples.constant_rng 5)). lia.
Defined.

(** X25.  [add_extra_hints] with the solved grid as the solution keeps a
    puzzle a puzzle.  Take a solved grid [sol] and a grid [s] of 81 cells,
    each empty or as in [sol], such that [sol] is the one solved grid
    keeping the hints of [s].  Whatever the number asked for and the state
    of the random generator, the grid [add_extra_hints] leaves has 81
    cells, keeps every hint of [s], holds in every other cell 0 or the
    digit of [sol], and [sol] is still the one solved grid that keeps its
    hints. *)
Theorem extra_hints_keep_unique sol s num r :
  valid sol → length s = 81%nat →
  (∀ x y, in_grid x y → cellv s x y = 0 ∨ cellv s x y = cellv sol x y) →
  (∀ t, completion s t → t = sol) →
  length (add_extra_hints s sol num r).1 = 81%nat ∧
  (∀ x y, in_grid x y → cellv s x y ≠ 0 →
          cellv (add_extra_hints s sol num r).1 x y = cellv s x y) ∧
  (∀ x y, in_grid x y →
          cellv (add_extra_hints s sol num r).1 x y = 0 ∨
          cellv (add_extra_hints s sol num r).1 x y = cellv sol x y) ∧
  completion (add_extra_hints s sol num r).1 sol ∧
  ∀ t, completion (add_extra_hints s sol num r).1 t → t = sol.
Proof.
  intros Hv Hlen Hp Hu.
  assert (Hpart : part_of s sol) by (split; [exact Hlen|exact Hp]).
  assert (Honly : only_completion s sol).
  { split; [by apply part_of_completion|exact Hu]. }
  destruct (add_extra_hints_spec sol s num r Hv Hpart Honly)
    as ([Hl' Hp'] & [Hc' Hu'] & [_ Hsub]).
  split_and!; [exact Hl'| |exact Hp'|exact Hc'|exact Hu'].
  intros x y Hxy Hnz. destruct (Hsub x y Hxy) as [E|E]; [by destruct Hnz|by symmetry].
Qed.

Lemma extra_hints_keep_unique_witness :
  length (add_extra_hints one_missing Examples.solved_grid 1
            (Examples.constant_rng 0)).1 = 81%nat ∧
  (∀ x y, in_grid x y → cellv one_missing x y ≠ 0 →
          cellv (add_extra_hints one_missing Examples.solved_grid 1
                   (Examples.constant_rng 0)).1 x y = cellv one_missing x y) ∧
  (∀ x y, in_grid x y →
          cellv (add_extra_hints one_missing Examples.solved_grid 1
                   (Examples.constant_rng 0)).1 x y = 0 ∨
          cellv (add_extra_hints one_missing Examples.solved_grid 1
                   (Examples.constant_rng 0)).1 x y = cellv Examples.solved_grid x y) ∧
  completion (add_extra_hints one_missing Examples.solved_grid 1
                (Examples.constant_rng 0)).1 Examples.solved_grid ∧
  ∀ t, completion (add_extra_hints one_missing Examples.solved_grid 1
                     (Examples.constant_rng 0)).1 t → t = Examples.solved_grid.
Proof.
  assert (Hc : completion one_missing Examples.solved_grid).
  { apply completionb_spec. vm_compute. reflexivity. }
  assert (Hd : ∀ x y, in_grid x y →
            cellv one_missing x y = 0 ∨
            cellv one_missing x y = cellv Examples.solved_grid x y).
  { intros x y Hxy. destruct (decide (cellv one_missing x y = 0)) as [?|Hnz];
      [by left|right]. symmetry. by apply (proj2 Hc). }
  apply (extra_hints_keep_unique Examples.solved_grid one_missing 1
           (Examples.constant_rng 0)).
  - exact (proj1 Hc).
  - vm_compute. reflexivity.
  - exact Hd.
  - intros t Ht.
    assert (Hp : part_of one_missing Examples.solved_grid)
      by (split; [vm_compute; reflexivity|exact Hd]).
    pose proof (remove_deduced_hints_spec Examples.solved_grid [0] 1 (proj1 Hc)
                  ltac:(lia)) as [_ [_ Hu]].
    { intros i Hi. assert (i = 0) as -> by lia. unfold aget; simpl; lia. }
    apply Hu. replace (remove_deduced_hints Examples.solved_grid [0] 1)
      with one_missing by (vm_compute; reflexivity). exact Ht.
Defined.

(** X26.  What [remove_non_unique_hints] leaves cannot be reduced further
    along [order].  Take a solved grid [sol] and a grid [s] of 81 cells,
    each empty or as in [sol], whose only completion is [sol]; let the
    first [n] entries of [order] be grid indices below 81 and the fuel
    cover 3241 nodes.  The function returns, and for each of these
    entries whose cell still holds a hint afterwards, the grid without this
    hint has two completions: [sol] and another solved grid. *)
Theorem remove_non_unique_hints_irreducible sol fuel s order n r :
  valid sol → length s = 81%nat →
  (∀ x y, in_grid x y → cellv s x y = 0 ∨ cellv s x y = cellv sol x y) →
  (∀ t, completion s t → t = sol) →
  0 ≤ n ≤ Z.of_nat (length order) →
  (∀ i, 0 ≤ i < n → 0 ≤ aget order i < 81) →
  3241 ≤ Z.of_nat fuel →
  ∃ s', remove_non_unique_hints fuel s order n r = Ok (s', r) ∧
        ∀ j, 0 ≤ j < n → aget s' (aget order j) ≠ 0 →
             completion (aset s' (aget order j) 0) sol ∧
             ∃ t, completion (aset s' (aget order j) 0) t ∧ t ≠ sol.
Proof.
  intros Hv Hlen Hp Hu Hn Hord Hfuel.
  assert (Hpart : part_of s sol) by (split; [exact Hlen|exact Hp]).
  assert (Honly : only_completion s sol).
  { split; [by apply part_of_completion|exact Hu]. }
  destruct (remove_non_unique_hints_spec sol fuel s order n r Hv Hpart Honly
              ltac:(lia) Hord Hfuel) as (s' & Hrun & Hp' & _ & _ & Hirr).
  exists s'. split; [exact Hrun|]. intros j Hj Hnz. split; [|by apply Hirr].
  destruct (grid_idx (aget order j) (Hord j Hj)) as [Hxy E].
  rewrite <- E. apply part_of_completion; [exact Hv|].
  by apply cleared_part.
Qed.

Lemma remove_non_unique_hints_irreducible_witness :
  ∃ s', remove_non_unique_hints (Z.to_nat 3241) Examples.solved_grid [40; 0] 2
          (Examples.constant_rng 0) = Ok (s', Examples.constant_rng 0) ∧
        ∀ j, 0 ≤ j < 2 → aget s' (aget [40; 0] j) ≠ 0 →
             completion (aset s' (aget [40; 0] j) 0) Examples.solved_grid ∧
             ∃ t, completion (aset s' (aget [40; 0] j) 0) t ∧
                  t ≠ Examples.solved_grid.
Proof.
  assert (Hv : valid Examples.solved_grid).
  { apply (proj1 (completionb_spec Examples.solved_grid Examples.solved_grid
                    ltac:(vm_compute; reflexivity))). }
  apply (remove_non_unique_hints_irreducible Examples.solved_grid (Z.to_nat 3241)
           Examples.solved_grid [40; 0] 2 (Examples.constant_rng 0)).
  - exact Hv.
  - vm_compute. reflexivity.
  - intros x y _. right. reflexivity.
  - intros t [(Hlt & _) Hk]. apply grid_ext; [exact Hlt|vm_compute; reflexivity|].
    intros x y Hxy. apply Hk; [exact Hxy|].
    destruct Hv as (_ & Hr & _). specialize (Hr x y Hxy). lia.
  - simpl. lia.
  - intros i Hi. assert (i = 0 ∨ i = 1) as [-> | ->] by lia;
      unfold aget; simpl; lia.
  - lia.
Defined.

(** X27.  Without extra hints the generated puzzle is minimal.  For every
    state of the random generator, with fuel for 3241 nodes and a number
    of extra hints that is 0 or negative, [sudoku_generate] returns, and
    for every hint of the puzzle the puzzle without this hint has a
    completion other than the solution grid. *)
Theorem generated_puzzle_irreducible fuel s solution extra r log :
  3241 ≤ Z.of_nat fuel → extra ≤ 0 →
  ∃ g, sudoku_generate fuel s solution extra r log = Ok g ∧
       ∀ i, 0 ≤ i < 81 → aget (puzzle g) i ≠ 0 →
            ∃ t, completion (aset (puzzle g) i 0) t ∧ t ≠ reference g.
Proof.
  intros Hfuel Hextra.
  destruct (generate_spec fuel s solution extra r log Hfuel)
    as (s2 & r2 & g & _ & _ & Hrun & Href & _ & _ & _ & Hirr).
  exists g. split; [exact Hrun|]. rewrite Href. exact (Hirr Hextra).
Qed.

Lemma generated_puzzle_irreducible_witness :
  ∃ g, sudoku_generate (Z.to_nat 3241) Examples.empty_grid Examples.empty_grid 0
         (Examples.constant_rng 0) [] = Ok g ∧
       ∀ i, 0 ≤ i < 81 → aget (puzzle g) i ≠ 0 →
            ∃ t, completion (aset (puzzle g) i 0) t ∧ t ≠ reference g.
Proof.
  apply (generated_puzzle_irreducible (Z.to_nat 3241) Examples.empty_grid
           Examples.empty_grid 0 (Examples.constant_rng 0) []); lia.
Defined.

(** X28.  One round of [remove_non_unique_hints] removes a hint exactly
    when it is not needed.  Take a solved grid [sol], a grid [s] of 81
    cells, each empty or as in [sol], whose only completion is [sol], an
    entry of [order] that is a grid index below 81, and fuel for 3241
    nodes.  The round returns without drawing a random number.  If [sol]
    is the only completion of [s] with the cell of the entry emptied, that
    grid is what the round leaves; if it has another completion, the round
    leaves [s] as it was. *)
Theorem check_hint_decides sol fuel order i s r :
  valid sol → length s = 81%nat →
  (∀ x y, in_grid x y → cellv s x y = 0 ∨ cellv s x y = cellv sol x y) →
  (∀ t, completion s t → t = sol) →
  0 ≤ aget order i < 81 → 3241 ≤ Z.of_nat fuel →
  ∃ s', check_hint fuel order i (s, r) = Ok (s', r) ∧
        ((∀ t, completion (aset s (aget order i) 0) t → t = sol) →
         s' = aset s (aget order i) 0) ∧
        ((∃ t, completion (aset s (aget order i) 0) t ∧ t ≠ sol) → s' = s).
Proof.
  intros Hv Hlen Hp Hu Hidx Hfuel.
  assert (Hpart : part_of s sol) by (split; [exact Hlen|exact Hp]).
  assert (Honly : only_completion s sol).
  { split; [by apply part_of_completion|exact Hu]. }
  destruct (check_hint_spec sol fuel order i s r Hv Hpart Honly Hidx Hfuel)
    as (s' & Hrun & _ & [_ Hu'] & _ & Hneed & Hcase).
  exists s'. split; [exact Hrun|]. split.
  - intros Hone. destruct Hcase as [->|E]; [|exact E].
    destruct (decide (aget s (aget order i) = 0)) as [Hz|Hnz].
    + unfold aset. symmetry. apply list_insert_id.
      destruct (lookup_lt_is_Some_2 s (Z.to_nat (aget order i))) as [a Ha]; [lia|].
      assert (Ea : aget s (aget order i) = a) by (unfold aget at 1; by rewrite Ha).
      rewrite Ha. f_equal. lia.
    + destruct (Hneed Hnz) as (t & Ht & Hd). by destruct (Hd (Hone t Ht)).
  - intros (t & Ht & Hd). destruct Hcase as [E|E]; [exact E|]. subst s'.
    by destruct (Hd (Hu' t Ht)).
Qed.

Lemma check_hint_decides_witness :
  ∃ s', check_hint (Z.to_nat 3241) [40] 0 (Examples.solved_grid, Examples.constant_rng 0)
          = Ok (s', Examples.constant_rng 0) ∧
        ((∀ t, completion (aset Examples.solved_grid (aget [40] 0) 0) t →
               t = Examples.solved_grid) →
         s' = aset Examples.solved_grid (aget [40] 0) 0) ∧
        ((∃ t, completion (aset Examples.solved_grid (aget [40] 0) 0) t ∧
               t ≠ Examples.solved_grid) → s' = Examples.solved_grid).
Proof.
  assert (Hv : valid Examples.solved_grid).
  { apply (proj1 (completionb_spec Examples.solved_grid Examples.solved_grid
                    ltac:(vm_compute; reflexivity))). }
  apply (check_hint_decides Examples.solved_grid (Z.to_nat 3241) [40] 0
           Examples.solved_grid (Examples.constant_rng 0)).
  - exact Hv.
  - vm_compute. reflexivity.
  - intros x y _. right. reflexivity.
  - intros t [(Hlt & _) Hk]. apply grid_ext; [exact Hlt|vm_compute; reflexivity|].
    intros x y Hxy. apply Hk; [exact Hxy|].
    destruct Hv as (_ & Hr & _). specialize (Hr x y Hxy). lia.
  - unfold aget; simpl; lia.
  - lia.
Defined.

(** X29.  The buffer of 81 slots is enough for a grid with a hint.  In
    the matrix [get_dlx_cells] builds for a grid of 81 cells that hold 0 to
    9, at least one of them not empty, rows that have a 1 each and pairwise no column in common
    fill different empty cells: every such set of rows has fewer than 81
    members, so a search on the matrix never takes 81 rows. *)
Theorem grid_rows_fit g cells count ncols nrows (F : list Z) :
  length g = 81%nat → (∀ x y, in_grid x y → 0 ≤ cellv g x y ≤ 9) →
  get_dlx_cells g = (cells, count, ncols, nrows) →
  (∃ x y, in_grid x y ∧ cellv g x y ≠ 0) →
  disjoint_rows cells 324 729 F →
  Z.of_nat (length F) < 81.
Proof.
  intros _ _ E (hx & hy & Hh & Hnz) (Hnd & Hne & Hdis).
  destruct (get_dlx_cells_spec g cells count ncols nrows E) as (_ & _ & Hinv).
  clear E.
  set (f := λ r, (DLX_X r, DLX_Y r)).
  assert (Hcell : ∀ r, r ∈ F →
            ∃ v x y, candidate g v x y ∧ r = DLX_ROW v x y ∧ f r = (x, y)).
  { intros r Hr. destruct (Hne r Hr) as [c Hc].
    apply (hits_candidate g cells count Hinv) in Hc as (v & x & y & Hc & -> & _).
    exists v, x, y. split_and!; [exact Hc|reflexivity|]. pose proof Hc as (Hv & Hxy & _).
    destruct (row_decode v x y Hv Hxy) as (E1 & E2 & _). unfold f. by rewrite E1, E2. }
  assert (Hnd' : NoDup ((hx, hy) :: (f <$> F))).
  { apply NoDup_cons. split.
    - intros (r & E & Hr)%list_elem_of_fmap.
      destruct (Hcell r Hr) as (v & x & y & (Hv & Hxy & Hz & _) & _ & E').
      rewrite E' in E. injection E as -> ->. by destruct Hnz.
    - apply NoDup_fmap_2_strong; [|exact Hnd]. intros r1 r2 Hr1 Hr2 E.
      destruct (Hcell r1 Hr1) as (v1 & x1 & y1 & Hc1 & E1 & F1).
      destruct (Hcell r2 Hr2) as (v2 & x2 & y2 & Hc2 & E2 & F2).
      rewrite F1, F2 in E. injection E as -> ->.
      apply (Hdis r1 r2 (DLX_COL1 v1 x2 y2) Hr1 Hr2).
      + rewrite E1. apply (placement_hits g cells count Hinv); [exact Hc1|].
        apply list_elem_of_here.
      + rewrite E2. apply (placement_hits g cells count Hinv); [exact Hc2|].
        change (DLX_COL1 v1 x2 y2) with (DLX_COL1 v2 x2 y2). apply list_elem_of_here. }
  assert (Hsub : (hx, hy) :: (f <$> F) ⊆+ cells81).
  { apply NoDup_submseteq; [exact Hnd'|]. intros [x y] [E|Hin]%elem_of_cons.
    - injection E as -> ->. by apply cells81_in.
    - apply list_elem_of_fmap in Hin as (r & E & Hr).
      destruct (Hcell r Hr) as (v & x' & y' & (Hv & Hxy & _) & _ & E').
      rewrite E' in E. injection E as -> ->. by apply cells81_in. }
  apply submseteq_length in Hsub. simpl in Hsub. rewrite length_fmap in Hsub.
  assert (E81 : length cells81 = 81%nat) by (vm_compute; reflexivity).
  lia.
Qed.

Lemma grid_rows_fit_witness :
  Z.of_nat (length [DLX_ROW 4 4 0]) < 81.
Proof.
  destruct (get_dlx_cells Examples.stuck_grid) as [[[cells count] ncols] nrows] eqn:E.
  apply (grid_rows_fit Examples.stuck_grid cells count ncols nrows [DLX_ROW 4 4 0]);
    [| |exact E| |].
  - vm_compute. reflexivity.
  - apply (in_rangeb_spec Examples.stuck_grid). vm_compute. reflexivity.
  - exists 0, 0. split; [unfold in_grid; lia|]. vm_compute. discriminate 1.
  - destruct (get_dlx_cells_spec _ _ _ _ _ E) as (_ & _ & Hinv). clear E.
    assert (Hc1 : candidate Examples.stuck_grid 4 4 0).
    { apply candidateb_spec; [lia|unfold in_grid; lia|vm_compute; reflexivity]. }
    split_and!.
    + apply NoDup_singleton.
    + intros r ->%list_elem_of_singleton. exists (DLX_COL1 4 4 0).
      apply (placement_hits _ cells count Hinv); [exact Hc1|apply list_elem_of_here].
    + intros r r' c ->%list_elem_of_singleton ->%list_elem_of_singleton _ _.
      reflexivity.
Defined.

End StageProps.
